(** * ILI pipeline inspector: alignment and matching engine

    A shallow embedding of the TypeScript sources of the engine
    (normalizer, data cleaner, reference matching, distance correction,
    similarity, assignment, cross-run matcher, growth analysis and
    priority classification) together with the properties of the
    specification that concern them.

    Number model.  A JavaScript number is modelled by an exact rational
    ([Q]); arithmetic is exact, comparisons [===] on numbers are [Qeq],
    and NaN and the infinities are not represented.  The two places
    where the code leaves the rationals ([Math.exp] and [Math.sqrt] in
    similarity.ts) are modelled over the real numbers ([R]), and so are
    the scores derived from them (cost matrix, confidence).

    Rounding.  The source computes in IEEE doubles.  Where a property
    depends on the rounding of an arithmetic result (the zone maps of
    the distance corrector, the interpolation of GPS coordinates), the
    function is modelled a second time in [Double], with every
    operation rounded to the nearest double, and the property is
    stated for that model.  The exact model is used for what
    comparisons, selections and counts decide. *)

From Stdlib Require Import QArith Qabs Qminmax Qround Qpower ZArith List Bool.
From Stdlib Require Import String Ascii DecimalString.
From Stdlib Require Import Lia Lqa Permutation Sorted.
From Stdlib Require Import Reals Lra.
Import ListNotations.

Local Open Scope Q_scope.

(* ================================================================= *)
(** ** JavaScript numbers and arrays *)

Module Js.

Definition ltb (x y : Q) : bool := negb (Qle_bool y x).
Definition leb (x y : Q) : bool := Qle_bool x y.
Definition gtb (x y : Q) : bool := ltb y x.
Definition geb (x y : Q) : bool := leb y x.
Definition eqb (x y : Q) : bool := Qeq_bool x y.

(** Truncation toward zero, the integer part used by [%]. *)
Definition trunc (x : Q) : Z := Z.quot (Qnum x) (Zpos (Qden x)).

(** [a % b] on numbers: the remainder has the sign of the dividend. *)
Definition rem (a b : Q) : Q := a - b * inject_Z (trunc (a / b)).

(** [Math.floor] and [Math.round] (halves round toward +infinity). *)
Definition floor (x : Q) : Z := Qfloor x.
Definition round (x : Q) : Z := Qfloor (x + (1 # 2)).

(** [Number.prototype.toFixed(digits)].  The decimal string is
    determined by, and determines, the sign flag and the scaled
    magnitude rounded to the nearest integer (ties upward), so the
    pair stands for the string.  JavaScript applies this rule to the
    exact value of the double: a decimal such as 1.45 is first the
    double below it and prints as 1.4, which is the result here on
    that double ([Double.literal]), not on the rational 145/100. *)
Definition toFixed (digits : nat) (x : Q) : bool * Z :=
  (ltb x 0, Qfloor (Qabs x * inject_Z (10 ^ Z.of_nat digits) + (1 # 2))).

(** [Array.prototype.sort(cmp)]: a stable sort; [cmp a b > 0] means
    that [a] goes after [b]. *)
Fixpoint insert {A : Type} (cmp : A -> A -> Q) (x : A) (l : list A) : list A :=
  match l with
  | [] => [x]
  | y :: ys => if leb (cmp x y) 0 then x :: y :: ys else y :: insert cmp x ys
  end.

Fixpoint sort {A : Type} (cmp : A -> A -> Q) (l : list A) : list A :=
  match l with
  | [] => []
  | x :: xs => insert cmp x (sort cmp xs)
  end.

(** [Math.max(...xs)] and [Math.min(...xs)] of a non-empty array
    given as head and tail. *)
Definition maxOf (x : Q) (xs : list Q) : Q := fold_left Qmax xs x.
Definition minOf (x : Q) (xs : list Q) : Q := fold_left Qmin xs x.

(** Array elements together with their index. *)
Fixpoint indexedFrom {A : Type} (k : nat) (l : list A) : list (nat * A) :=
  match l with
  | [] => []
  | x :: xs => (k, x) :: indexedFrom (S k) xs
  end.

Definition indexed {A : Type} (l : list A) : list (nat * A) := indexedFrom 0 l.

Definition natToString (n : nat) : string :=
  NilZero.string_of_uint (Nat.to_uint n).

Definition intToString (z : Z) : string :=
  NilZero.string_of_int (Z.to_int z).

(** Strings: ASCII lower-casing, white space, [trim], [includes]. *)
Definition isSpace (c : ascii) : bool :=
  let n := nat_of_ascii c in
  (Nat.eqb n 32 || (Nat.leb 9 n && Nat.leb n 13))%bool.

Definition lowerChar (c : ascii) : ascii :=
  let n := nat_of_ascii c in
  if (Nat.leb 65 n && Nat.leb n 90)%bool then ascii_of_nat (n + 32) else c.

Fixpoint toLowerCase (s : string) : string :=
  match s with
  | EmptyString => EmptyString
  | String c s' => String (lowerChar c) (toLowerCase s')
  end.

Fixpoint trimStart (s : string) : string :=
  match s with
  | EmptyString => EmptyString
  | String c s' => if isSpace c then trimStart s' else s
  end.

Fixpoint allSpace (s : string) : bool :=
  match s with
  | EmptyString => true
  | String c s' => (isSpace c && allSpace s')%bool
  end.

Fixpoint trimEnd (s : string) : string :=
  match s with
  | EmptyString => EmptyString
  | String c s' => if allSpace s then EmptyString else String c (trimEnd s')
  end.

Definition trim (s : string) : string := trimEnd (trimStart s).

(** [s.replace(/\s+/g, ' ')]: every maximal run of white space
    becomes one blank. *)
Fixpoint collapseSpaces (inRun : bool) (s : string) : string :=
  match s with
  | EmptyString => EmptyString
  | String c s' =>
      if isSpace c
      then if inRun then collapseSpaces true s'
           else String " "%char (collapseSpaces true s')
      else String c (collapseSpaces false s')
  end.

Fixpoint includes (s pat : string) : bool :=
  (prefix pat s ||
   match s with
   | EmptyString => false
   | String _ s' => includes s' pat
   end)%bool.

End Js.

(* ================================================================= *)
(** ** Data model (types/index.ts) *)

Inductive FeatureType : Set :=
| external_metal_loss | internal_metal_loss | metal_loss | dent | crack
| gouge | lamination | manufacturing_defect | girth_weld | seam_weld
| valve | fitting | casing | unknown.

Definition FeatureType_eqb (t1 t2 : FeatureType) : bool :=
  match t1, t2 with
  | external_metal_loss, external_metal_loss
  | internal_metal_loss, internal_metal_loss
  | metal_loss, metal_loss | dent, dent | crack, crack | gouge, gouge
  | lamination, lamination | manufacturing_defect, manufacturing_defect
  | girth_weld, girth_weld | seam_weld, seam_weld | valve, valve
  | fitting, fitting | casing, casing | unknown, unknown => true
  | _, _ => false
  end.

(** The entries of [cleaning_flags].  Each constructor stands for the
    string of the same name; the three flags that embed a number carry
    its [toFixed] rendering. *)
Inductive CleaningFlag : Set :=
| distance_converted_m_to_ft
| dimensions_converted_mm_to_in
| wt_converted_mm_to_in
| depth_clamped_low
| depth_clamped_high
| wt_clamped_low
| wt_clamped_high
| length_clamped
| width_clamped
| distance_interpolated
| odometer_from_distance
| distance_backward_jump (ft : bool * Z)
| distance_major_backward_jump (ft : bool * Z)
| wt_cross_run_deviation (pct : bool * Z)
| zero_dimensions.

(** A numeric cell of a raw row after the string clean-up: absent
    ([null], [undefined] or the empty string), not a number
    ([Number(v)] is NaN), or a number. *)
Inductive RawNum : Type :=
| RMissing
| RNaN
| RNum (n : Q).

(** The [clock_position] cell as [parseClockPosition] analyses it:
    [null]/[undefined]; the empty string; a string of the form H:MM
    (one or two digits, colon, two digits); anything else on which
    [parseFloat] succeeds; anything else. *)
Inductive RawClock : Type :=
| CNull
| CEmpty
| CClock (hours minutes : nat)
| CNum (num : Q)
| COther.

Module Raw.
Record t : Type := mk {
  feature_id : option string;
  distance : RawNum;
  odometer : RawNum;
  joint_number : RawNum;
  relative_position : RawNum;
  clock_position : RawClock;
  feature_type : option string;
  depth_percent : RawNum;
  length : RawNum;
  width : RawNum;
  wall_thickness : RawNum;
  weld_type : option string
}.
End Raw.
Abbreviation RawAnomaly := Raw.t.

Module Anomaly.
Record t : Type := mk {
  id : string;
  feature_id : string;
  distance : Q;
  odometer : Q;
  corrected_distance : Q;
  joint_number : Q;
  relative_position : Q;
  clock_degrees : Q;
  clock_display : string;
  feature_type : string;
  canonical_type : FeatureType;
  depth_percent : Q;
  length : Q;
  width : Q;
  wall_thickness : Q;
  weld_type : string;
  run_index : nat;
  is_reference_point : bool;
  has_missing_data : bool;
  cleaning_flags : list CleaningFlag
}.

(** Object spread with overrides, [{...a, field: v}]. *)
Definition with_distances (d o c : Q) (a : t) : t :=
  mk (id a) (feature_id a) d o c (joint_number a) (relative_position a)
     (clock_degrees a) (clock_display a) (feature_type a) (canonical_type a)
     (depth_percent a) (length a) (width a) (wall_thickness a) (weld_type a)
     (run_index a) (is_reference_point a) (has_missing_data a) (cleaning_flags a).

Definition with_dimensions (dp len wid wt : Q) (a : t) : t :=
  mk (id a) (feature_id a) (distance a) (odometer a) (corrected_distance a)
     (joint_number a) (relative_position a)
     (clock_degrees a) (clock_display a) (feature_type a) (canonical_type a)
     dp len wid wt (weld_type a)
     (run_index a) (is_reference_point a) (has_missing_data a) (cleaning_flags a).

Definition with_cleaning_flags (fl : list CleaningFlag) (a : t) : t :=
  mk (id a) (feature_id a) (distance a) (odometer a) (corrected_distance a)
     (joint_number a) (relative_position a)
     (clock_degrees a) (clock_display a) (feature_type a) (canonical_type a)
     (depth_percent a) (length a) (width a) (wall_thickness a) (weld_type a)
     (run_index a) (is_reference_point a) (has_missing_data a) fl.

Definition with_has_missing_data (b : bool) (a : t) : t :=
  mk (id a) (feature_id a) (distance a) (odometer a) (corrected_distance a)
     (joint_number a) (relative_position a)
     (clock_degrees a) (clock_display a) (feature_type a) (canonical_type a)
     (depth_percent a) (length a) (width a) (wall_thickness a) (weld_type a)
     (run_index a) (is_reference_point a) b (cleaning_flags a).

Definition with_corrected_distance (c : Q) (a : t) : t :=
  with_distances (distance a) (odometer a) c a.
End Anomaly.
Abbreviation NormalizedAnomaly := Anomaly.t.

Module Ref.
Record t : Type := mk {
  id : string;
  distance : Q;
  odometer : Q;
  joint_number : Q;
  feature_type : FeatureType;
  run_index : nat
}.
End Ref.
Abbreviation ReferencePoint := Ref.t.

Record MatchedReference : Type := mkMatchedReference {
  run1 : ReferencePoint;
  run2 : ReferencePoint;
  distance_offset : Q;
  odometer_drift : Q
}.

Record AlignmentZone : Type := mkAlignmentZone {
  start_ref : MatchedReference;
  end_ref : MatchedReference;
  correction_factor : Q;
  is_pipe_replacement : bool
}.

Module Status.
Inductive t : Set := matched | uncertain | new | missing.
End Status.
Abbreviation MatchStatus := Status.t.

Inductive PriorityLevel : Set :=
| IMMEDIATE | DAY_60 | DAY_180 | SCHEDULED | MONITOR.

(* ================================================================= *)
(** ** Normalizer (lib/parsing/normalizer.ts) *)

Definition safeNum (value : RawNum) (fallback : Q) : Q :=
  match value with
  | RMissing => fallback
  | RNaN => fallback
  | RNum n => n
  end.

Definition parseClockPosition (value : RawClock) : Q :=
  match value with
  | CNull => 0
  | CClock hours minutes =>
      Js.rem (Js.rem (inject_Z (Z.of_nat hours)) 12 * 30
              + inject_Z (Z.of_nat minutes) * (1 # 2)) 360
  | CNum num =>
      if Js.leb num 12
      then Js.rem (Js.rem num 12 * 30) 360
      else Js.rem num 360
  | CEmpty | COther => 0
  end.

Definition padStart2 (s : string) : string :=
  if Nat.ltb (String.length s) 2 then ("0" ++ s)%string else s.

Definition degreesToClockDisplay (degrees : Q) : string :=
  let totalMinutes := degrees / (1 # 2) in
  let h := Js.floor (totalMinutes / 60) in
  let hours := if Z.eqb h 0 then 12%Z else h in
  let minutes := Js.round (Js.rem totalMinutes 60) in
  (Js.intToString hours ++ ":" ++ padStart2 (Js.intToString minutes))%string.

Definition featureTypeMapping : list (string * FeatureType) :=
  [ ("external metal loss", external_metal_loss);
    ("ext metal loss", external_metal_loss);
    ("ext. metal loss", external_metal_loss);
    ("external corrosion", external_metal_loss);
    ("ext corrosion", external_metal_loss);
    ("internal metal loss", internal_metal_loss);
    ("int metal loss", internal_metal_loss);
    ("int. metal loss", internal_metal_loss);
    ("internal corrosion", internal_metal_loss);
    ("metal loss", metal_loss);
    ("general metal loss", metal_loss);
    ("corrosion", metal_loss);
    ("dent", dent);
    ("plain dent", dent);
    ("mechanical damage", dent);
    ("crack", crack);
    ("scc", crack);
    ("stress corrosion cracking", crack);
    ("crack-like", crack);
    ("gouge", gouge);
    ("lamination", lamination);
    ("manufacturing defect", manufacturing_defect);
    ("mfg defect", manufacturing_defect);
    ("girth weld", girth_weld);
    ("circumferential weld", girth_weld);
    ("seam weld", seam_weld);
    ("longitudinal weld", seam_weld);
    ("valve", valve);
    ("mainline valve", valve);
    ("fitting", fitting);
    ("tee", fitting);
    ("elbow", fitting);
    ("reducer", fitting);
    ("casing", casing) ]%string.

Definition normalizeFeatureType (raw : string) : FeatureType :=
  let lower := Js.trim (Js.toLowerCase raw) in
  match find (fun '(pattern, _) =>
                (Js.includes lower pattern || String.eqb lower pattern)%bool)
             featureTypeMapping with
  | Some (_, type) => type
  | None => unknown
  end.

Definition clamp (value min max : Q) : Q := Qmax min (Qmin max value).

(** The string clean-up pass applied to every string cell of a row. *)
Definition cleanString (v : string) : string :=
  Js.collapseSpaces false (Js.trim v).

(** [v || d] for a string cell: [null], [undefined] and [''] are falsy. *)
Definition orElse (v : option string) (d : string) : string :=
  match v with
  | Some s => if String.eqb s "" then d else s
  | None => d
  end.

Definition isMissingNum (v : RawNum) : bool :=
  match v with RMissing => true | _ => false end.

Definition isMissingString (v : option string) : bool :=
  match v with None => true | Some s => String.eqb s "" end.

Definition isMissingClock (v : RawClock) : bool :=
  match v with CNull | CEmpty => true | _ => false end.

Definition isReferenceType (t : FeatureType) : bool :=
  match t with girth_weld | valve | fitting => true | _ => false end.

Definition normalizeRow (runIndex idx : nat) (row : RawAnomaly) : NormalizedAnomaly :=
  let r_feature_id := option_map cleanString (Raw.feature_id row) in
  let r_feature_type := option_map cleanString (Raw.feature_type row) in
  let r_weld_type := option_map cleanString (Raw.weld_type row) in
  let clockDegrees := parseClockPosition (Raw.clock_position row) in
  let normalizedType := normalizeFeatureType (orElse r_feature_type "unknown") in
  let isReference := isReferenceType normalizedType in
  let dist := safeNum (Raw.distance row) 0 in
  let odo := safeNum (Raw.odometer row) dist in
  let hasMissing :=
    (isMissingNum (Raw.distance row) || isMissingNum (Raw.depth_percent row)
     || isMissingString r_feature_type
     || isMissingClock (Raw.clock_position row))%bool in
  Anomaly.mk
    ("run" ++ Js.natToString runIndex ++ "-" ++ Js.natToString idx)%string
    (orElse r_feature_id ("UNKNOWN-" ++ Js.natToString idx)%string)
    dist
    odo
    dist
    (safeNum (Raw.joint_number row) 0)
    (safeNum (Raw.relative_position row) 0)
    clockDegrees
    (degreesToClockDisplay clockDegrees)
    (orElse r_feature_type "unknown")
    normalizedType
    (clamp (safeNum (Raw.depth_percent row) 0) 0 100)
    (Qabs (safeNum (Raw.length row) 0))
    (Qabs (safeNum (Raw.width row) 0))
    (safeNum (Raw.wall_thickness row) (375 # 1000))
    (orElse r_weld_type "")
    runIndex
    isReference
    hasMissing
    [].

Definition normalizeAnomalies (rawData : list RawAnomaly) (runIndex : nat)
  : list NormalizedAnomaly :=
  Js.sort (fun a b => Anomaly.distance a - Anomaly.distance b)
          (map (fun '(idx, row) => normalizeRow runIndex idx row)
               (Js.indexed rawData)).

(* ================================================================= *)
(** ** Data cleaner (lib/parsing/dataCleaner.ts) *)

(** A pass report.  The free-text [description] and [details] lines are
    display text and are not carried. *)
Record CleaningPass : Type := mkCleaningPass {
  pass_name : string;
  rows_affected : nat
}.

Record UnitConversion : Type := mkUnitConversion {
  conv_field : string;
  from_unit : string;
  to_unit : string;
  conv_count : nat
}.

Record CleaningReport : Type := mkCleaningReport {
  report_run_index : nat;
  run_year : Q;
  original_row_count : nat;
  final_row_count : nat;
  duplicates_removed : nat;
  units_converted : list UnitConversion;
  outliers_clamped : nat;
  missing_values_interpolated : nat;
  distance_monotonicity_issues : nat;
  passes : list CleaningPass
}.

Definition median (values : list Q) : Q :=
  match values with
  | [] => 0
  | _ =>
      let sorted := Js.sort (fun a b => a - b) values in
      let mid := Nat.div (List.length sorted) 2 in
      if Nat.eqb (Nat.modulo (List.length sorted) 2) 0
      then (nth (mid - 1) sorted 0 + nth mid sorted 0) / 2
      else nth mid sorted 0
  end.

(** Sum of the counter increments made inside a [map] callback. *)
Definition total (increments : list nat) : nat := fold_left Nat.add increments 0%nat.

(** *** Pass 1: duplicate removal *)

Definition DupKey : Type := ((bool * Z) * (bool * Z) * FeatureType * (bool * Z))%type.

Definition fixed_eqb (a b : bool * Z) : bool :=
  (Bool.eqb (fst a) (fst b) && Z.eqb (snd a) (snd b))%bool.

Definition DupKey_eqb (k1 k2 : DupKey) : bool :=
  match k1, k2 with
  | (d1, c1, t1, p1), (d2, c2, t2, p2) =>
      (fixed_eqb d1 d2 && fixed_eqb c1 c2 && FeatureType_eqb t1 t2
       && fixed_eqb p1 p2)%bool
  end.

Definition dupKey (a : NormalizedAnomaly) : DupKey :=
  (Js.toFixed 2 (Anomaly.distance a), Js.toFixed 0 (Anomaly.clock_degrees a),
   Anomaly.canonical_type a, Js.toFixed 1 (Anomaly.depth_percent a)).

Fixpoint removeDuplicates_loop (seen : list DupKey) (data : list NormalizedAnomaly)
  : list NormalizedAnomaly * nat :=
  match data with
  | [] => ([], 0%nat)
  | a :: rest =>
      let key := dupKey a in
      if existsb (DupKey_eqb key) seen
      then let '(unique, removedCount) := removeDuplicates_loop seen rest in
           (unique, S removedCount)
      else let '(unique, removedCount) := removeDuplicates_loop (key :: seen) rest in
           (a :: unique, removedCount)
  end.

Definition removeDuplicates (data : list NormalizedAnomaly)
  : list NormalizedAnomaly * CleaningPass :=
  let '(unique, removedCount) := removeDuplicates_loop [] data in
  (unique, mkCleaningPass "Duplicate Removal" removedCount).

(** *** Pass 2: unit detection and conversion *)

Definition METERS_TO_FEET : Q := 328084 # 100000.
Definition MM_TO_IN : Q := 393701 # 10000000.

Definition addFlag (f : CleaningFlag) (a : NormalizedAnomaly) : NormalizedAnomaly :=
  Anomaly.with_cleaning_flags (Anomaly.cleaning_flags a ++ [f]) a.

Definition convertDistance (a : NormalizedAnomaly) : NormalizedAnomaly :=
  addFlag distance_converted_m_to_ft
    (Anomaly.with_distances (Anomaly.distance a * METERS_TO_FEET)
                            (Anomaly.odometer a * METERS_TO_FEET)
                            (Anomaly.corrected_distance a * METERS_TO_FEET) a).

Definition convertDimensions (a : NormalizedAnomaly) : NormalizedAnomaly :=
  addFlag dimensions_converted_mm_to_in
    (Anomaly.with_dimensions (Anomaly.depth_percent a)
                             (Anomaly.length a * MM_TO_IN)
                             (Anomaly.width a * MM_TO_IN)
                             (Anomaly.wall_thickness a) a).

Definition convertWallThickness (a : NormalizedAnomaly) : NormalizedAnomaly :=
  addFlag wt_converted_mm_to_in
    (Anomaly.with_dimensions (Anomaly.depth_percent a) (Anomaly.length a)
                             (Anomaly.width a)
                             (Anomaly.wall_thickness a * MM_TO_IN) a).

Definition positive (f : NormalizedAnomaly -> Q) (data : list NormalizedAnomaly) : list Q :=
  map f (filter (fun a => Js.gtb (f a) 0) data).

Definition looksLikeMeters (data : list NormalizedAnomaly) : bool :=
  match positive Anomaly.distance data with
  | [] => false
  | d :: ds =>
      let maxDist := Js.maxOf d ds in
      let medianDist := median (d :: ds) in
      (Js.ltb maxDist 100000 && Js.ltb medianDist 30000)%bool
  end.

Definition dimensionsLookLikeMm (data : list NormalizedAnomaly) : bool :=
  match positive Anomaly.length data with
  | [] => false
  | lengths => Js.gtb (median lengths) 10
  end.

Definition wallThicknessLooksLikeMm (data : list NormalizedAnomaly) : bool :=
  match positive Anomaly.wall_thickness data with
  | [] => false
  | wts => Js.gtb (median wts) 3
  end.

Definition detectAndConvertUnits (data : list NormalizedAnomaly)
  : list NormalizedAnomaly * CleaningPass * list UnitConversion :=
  let result0 := data in
  let '(result1, conversions1) :=
    if looksLikeMeters data
    then let r := map convertDistance result0 in
         (r, [mkUnitConversion "distance" "meters" "feet" (List.length r);
              mkUnitConversion "odometer" "meters" "feet" (List.length r)])
    else (result0, []) in
  let '(result2, conversions2) :=
    if dimensionsLookLikeMm data
    then let r := map convertDimensions result1 in
         (r, conversions1 ++
             [mkUnitConversion "length" "mm" "inches" (List.length r);
              mkUnitConversion "width" "mm" "inches" (List.length r)])
    else (result1, conversions1) in
  let '(result3, conversions3) :=
    if wallThicknessLooksLikeMm data
    then let r := map convertWallThickness result2 in
         (r, conversions2 ++
             [mkUnitConversion "wall_thickness" "mm" "inches" (List.length r)])
    else (result2, conversions2) in
  (result3,
   mkCleaningPass "Unit Detection & Conversion"
                  (total (map conv_count conversions3)),
   conversions3).

(** *** Pass 3: outlier clamping *)

Definition clampOne (a : NormalizedAnomaly) : NormalizedAnomaly * nat :=
  let flags := Anomaly.cleaning_flags a in
  let depthPct := Anomaly.depth_percent a in
  let wt := Anomaly.wall_thickness a in
  let len := Anomaly.length a in
  let wid := Anomaly.width a in
  let '(depthPct, flags, count) :=
    if Js.ltb depthPct 0 then (0, flags ++ [depth_clamped_low], 1%nat)
    else (depthPct, flags, 0%nat) in
  let '(depthPct, flags, count) :=
    if Js.gtb depthPct 100 then (100, flags ++ [depth_clamped_high], S count)
    else (depthPct, flags, count) in
  let '(wt, flags, count) :=
    if (Js.gtb wt 0 && Js.ltb wt (5 # 100))%bool
    then (188 # 1000, flags ++ [wt_clamped_low], S count)
    else (wt, flags, count) in
  let '(wt, flags, count) :=
    if Js.gtb wt (25 # 10) then (2, flags ++ [wt_clamped_high], S count)
    else (wt, flags, count) in
  let '(len, flags, count) :=
    if Js.gtb len 100 then (100, flags ++ [length_clamped], S count)
    else (len, flags, count) in
  let '(wid, flags, count) :=
    if Js.gtb wid 100 then (100, flags ++ [width_clamped], S count)
    else (wid, flags, count) in
  (Anomaly.with_cleaning_flags flags
     (Anomaly.with_dimensions depthPct len wid wt a), count).

Definition clampOutliers (data : list NormalizedAnomaly)
  : list NormalizedAnomaly * CleaningPass * nat :=
  let r := map clampOne data in
  let count := total (map snd r) in
  (map fst r, mkCleaningPass "Outlier Clamping" count, count).

(** *** Pass 4: missing value interpolation *)

Definition interpolateOne (sorted : list NormalizedAnomaly)
           (idx : nat) (a : NormalizedAnomaly) : NormalizedAnomaly * nat :=
  let flags := Anomaly.cleaning_flags a in
  let otherwise :=
    if (Js.eqb (Anomaly.odometer a) 0 && Js.gtb (Anomaly.distance a) 0)%bool
    then (Anomaly.with_cleaning_flags (flags ++ [odometer_from_distance])
            (Anomaly.with_distances (Anomaly.distance a) (Anomaly.distance a)
                                    (Anomaly.corrected_distance a) a), 1%nat)
    else (Anomaly.with_cleaning_flags flags a, 0%nat) in
  if (Js.eqb (Anomaly.distance a) 0 && Nat.ltb 0 idx
      && Nat.ltb idx (List.length sorted - 1))%bool
  then
    match nth_error sorted (idx - 1), nth_error sorted (idx + 1) with
    | Some p, Some n =>
        let prev := Anomaly.distance p in
        let next := Anomaly.distance n in
        if (Js.gtb prev 0 && Js.gtb next 0)%bool
        then
          let interpolated := (prev + next) / 2 in
          (Anomaly.with_cleaning_flags (flags ++ [distance_interpolated])
             (Anomaly.with_distances interpolated (Anomaly.odometer a)
                                     interpolated a), 1%nat)
        else otherwise
    | _, _ => otherwise
    end
  else otherwise.

Definition interpolateMissing (data : list NormalizedAnomaly)
  : list NormalizedAnomaly * CleaningPass * nat :=
  let sorted := data in
  let r := map (fun '(idx, a) => interpolateOne sorted idx a) (Js.indexed sorted) in
  let count := total (map snd r) in
  (map fst r, mkCleaningPass "Missing Value Interpolation" count, count).

(** *** Pass 5: distance monotonicity *)

Definition monotonicityOne (data : list NormalizedAnomaly)
           (idx : nat) (a : NormalizedAnomaly) : NormalizedAnomaly * nat :=
  if Nat.eqb idx 0 then (a, 0%nat)
  else
    match nth_error data (idx - 1) with
    | Some prev =>
        if (Js.ltb (Anomaly.distance a) (Anomaly.distance prev)
            && Js.gtb (Anomaly.distance a) 0
            && Js.gtb (Anomaly.distance prev) 0)%bool
        then
          let diff := Anomaly.distance prev - Anomaly.distance a in
          if Js.ltb diff 10
          then (addFlag (distance_backward_jump (Js.toFixed 1 diff)) a, 1%nat)
          else (addFlag (distance_major_backward_jump (Js.toFixed 0 diff)) a, 1%nat)
        else (a, 0%nat)
    | None => (a, 0%nat)
    end.

Definition enforceMonotonicity (data : list NormalizedAnomaly)
  : list NormalizedAnomaly * CleaningPass * nat :=
  let r := map (fun '(idx, a) => monotonicityOne data idx a) (Js.indexed data) in
  let issues := total (map snd r) in
  (map fst r, mkCleaningPass "Distance Monotonicity" issues, issues).

(** *** Pass 6: cross-run wall thickness consistency *)

(** The deviation is computed exactly; the source rounds it, which
    matters for the flag only when the deviation is within one
    rounding of 0.3. *)
Definition wallThicknessOne (medianOtherWt : Q) (a : NormalizedAnomaly)
  : NormalizedAnomaly * nat :=
  if Js.gtb (Anomaly.wall_thickness a) 0
  then
    let deviation := Qabs (Anomaly.wall_thickness a - medianOtherWt) / medianOtherWt in
    if Js.gtb deviation (3 # 10)
    then (addFlag (wt_cross_run_deviation (Js.toFixed 0 (deviation * 100))) a, 1%nat)
    else (a, 0%nat)
  else (a, 0%nat).

Definition crossRunWallThickness (data : list NormalizedAnomaly)
           (otherRuns : list (list NormalizedAnomaly))
  : list NormalizedAnomaly * CleaningPass :=
  let otherWts := flat_map (positive Anomaly.wall_thickness) otherRuns in
  match otherWts with
  | [] => (data, mkCleaningPass "Cross-Run WT Consistency" 0)
  | _ =>
      let medianOtherWt := median otherWts in
      let r := map (wallThicknessOne medianOtherWt) data in
      (map fst r, mkCleaningPass "Cross-Run WT Consistency" (total (map snd r)))
  end.

(** *** Pass 7: zero dimensions *)

Definition zeroDimensionsOne (a : NormalizedAnomaly) : NormalizedAnomaly * nat :=
  if Anomaly.is_reference_point a then (a, 0%nat)
  else if (Js.eqb (Anomaly.length a) 0 && Js.eqb (Anomaly.width a) 0
           && Js.eqb (Anomaly.depth_percent a) 0)%bool
  then (Anomaly.with_has_missing_data true
          (Anomaly.with_cleaning_flags
             (Anomaly.cleaning_flags a ++ [zero_dimensions]) a), 1%nat)
  else (a, 0%nat).

Definition flagZeroDimensions (data : list NormalizedAnomaly)
  : list NormalizedAnomaly * CleaningPass :=
  let r := map zeroDimensionsOne data in
  (map fst r, mkCleaningPass "Zero Dimension Check" (total (map snd r))).

(** *** The seven passes in order *)

Definition cleanData (anomalies : list NormalizedAnomaly) (runIndex : nat)
           (runYear : Q) (otherRuns : option (list (list NormalizedAnomaly)))
  : list NormalizedAnomaly * CleaningReport :=
  let originalCount := List.length anomalies in
  let data := anomalies in
  let '(deduped, dedupPass) := removeDuplicates data in
  let '(unitConverted, unitPass, conversions) := detectAndConvertUnits deduped in
  let '(clamped, clampPass, outlierCount) := clampOutliers unitConverted in
  let '(interpolated, interpPass, interpCount) := interpolateMissing clamped in
  let '(monotonic, monoPass, monoIssues) := enforceMonotonicity interpolated in
  let '(wtChecked, wtPasses) :=
    match otherRuns with
    | Some (r :: rs) =>
        let '(wtChecked, wtPass) := crossRunWallThickness monotonic (r :: rs) in
        (wtChecked, [wtPass])
    | _ => (monotonic, [])
    end in
  let '(flagged, flagPass) := flagZeroDimensions wtChecked in
  (flagged,
   mkCleaningReport runIndex runYear originalCount (List.length flagged)
     (originalCount - List.length deduped) conversions outlierCount interpCount
     monoIssues
     ([dedupPass; unitPass; clampPass; interpPass; monoPass] ++ wtPasses
      ++ [flagPass])).

(* ================================================================= *)
(** ** Reference points (lib/alignment/referenceMatching.ts) *)

Definition extractReferencePoints (anomalies : list NormalizedAnomaly)
           (runIndex : nat) : list ReferencePoint :=
  Js.sort (fun a b => Ref.distance a - Ref.distance b)
    (map (fun a => Ref.mk (Anomaly.id a) (Anomaly.distance a)
                          (Anomaly.odometer a) (Anomaly.joint_number a)
                          (Anomaly.canonical_type a) runIndex)
         (filter Anomaly.is_reference_point anomalies)).

(** The inner loop of [matchReferencePoints]: the state is the best
    index and its score; [None] is the initial [-1] / [Infinity]. *)
Definition bestCandidate (distanceTolerance : Q) (usedRun2Indices : list nat)
           (ref1 : ReferencePoint) (run2Refs : list ReferencePoint)
  : option (nat * Q) :=
  fold_left
    (fun best '(j, ref2) =>
       if existsb (Nat.eqb j) usedRun2Indices then best
       else
         let distDiff := Qabs (Ref.distance ref1 - Ref.distance ref2) in
         if Js.gtb distDiff distanceTolerance then best
         else
           let score :=
             if (Js.gtb (Ref.joint_number ref1) 0
                 && Js.gtb (Ref.joint_number ref2) 0)%bool
             then distDiff
                  + Qabs (Ref.joint_number ref1 - Ref.joint_number ref2) * 100
             else distDiff in
           match best with
           | Some (_, bestScore) =>
               if Js.ltb score bestScore then Some (j, score) else best
           | None => Some (j, score)
           end)
    (Js.indexed run2Refs) None.

Definition matchReferencePointsWith (distanceTolerance : Q)
           (run1Refs run2Refs : list ReferencePoint) : list MatchedReference :=
  fst (fold_left
         (fun '(matched, usedRun2Indices) ref1 =>
            match bestCandidate distanceTolerance usedRun2Indices ref1 run2Refs with
            | Some (bestIdx, _) =>
                match nth_error run2Refs bestIdx with
                | Some ref2 =>
                    (matched ++
                       [mkMatchedReference ref1 ref2
                          (Ref.distance ref2 - Ref.distance ref1)
                          ((Ref.distance ref2 - Ref.odometer ref2)
                           - (Ref.distance ref1 - Ref.odometer ref1))],
                     bestIdx :: usedRun2Indices)
                | None => (matched, usedRun2Indices)
                end
            | None => (matched, usedRun2Indices)
            end)
         run1Refs ([], [])).

(** The default tolerance of 500 ft. *)
Definition matchReferencePoints : list ReferencePoint -> list ReferencePoint
                                  -> list MatchedReference :=
  matchReferencePointsWith 500.

(* ================================================================= *)
(** ** Distance correction (lib/alignment/distanceCorrection.ts) *)

Definition makeZone (startRef endRef : MatchedReference) : AlignmentZone :=
  let run1Span := Ref.distance (run1 endRef) - Ref.distance (run1 startRef) in
  let run2Span := Ref.distance (run2 endRef) - Ref.distance (run2 startRef) in
  let spanRatio := if Js.gtb run1Span 0 then run2Span / run1Span else 1 in
  let isPipeReplacement := Js.gtb (Qabs (spanRatio - 1)) (2 # 10) in
  mkAlignmentZone startRef endRef
    (if Js.gtb run1Span 0 then run2Span / run1Span else 1)
    isPipeReplacement.

(** The loop over [i < sorted.length - 1] pairing [sorted[i]] with
    [sorted[i + 1]]. *)
Fixpoint zonesOf (sorted : list MatchedReference) : list AlignmentZone :=
  match sorted with
  | startRef :: ((endRef :: _) as rest) => makeZone startRef endRef :: zonesOf rest
  | _ => []
  end.

Definition createAlignmentZones (matchedRefs : list MatchedReference)
  : list AlignmentZone :=
  if Nat.ltb (List.length matchedRefs) 2 then []
  else
    let sorted :=
      Js.sort (fun a b => Ref.distance (run1 a) - Ref.distance (run1 b))
              matchedRefs in
    zonesOf sorted.

Definition containsRaw (raw : Q) (z : AlignmentZone) : bool :=
  (Js.geb raw (Ref.distance (run2 (start_ref z)))
   && Js.leb raw (Ref.distance (run2 (end_ref z))))%bool.

(** The affine map carried by a zone: the branch taken when
    [zones.find] returns the zone.  Exact arithmetic; [Double.zoneMap]
    is the map with the rounding of the source. *)
Definition zoneMap (zone : AlignmentZone) (raw : Q) : Q :=
  let run2Start := Ref.distance (run2 (start_ref zone)) in
  let run2End := Ref.distance (run2 (end_ref zone)) in
  let run1Start := Ref.distance (run1 (start_ref zone)) in
  let run1End := Ref.distance (run1 (end_ref zone)) in
  let run2Span := run2End - run2Start in
  if Js.gtb run2Span 0
  then
    let fraction := (raw - run2Start) / run2Span in
    run1Start + fraction * (run1End - run1Start)
  else run1Start.

Definition correctedOf (zones : list AlignmentZone)
           (firstRef lastRef : MatchedReference) (raw : Q) : Q :=
  match find (containsRaw raw) zones with
  | Some zone => zoneMap zone raw
  | None =>
      if Js.ltb raw (Ref.distance (run2 firstRef))
      then raw + (Ref.distance (run1 firstRef) - Ref.distance (run2 firstRef))
      else if Js.gtb raw (Ref.distance (run2 lastRef))
      then raw + (Ref.distance (run1 lastRef) - Ref.distance (run2 lastRef))
      else raw
  end.

Definition applyDistanceCorrection (anomalies : list NormalizedAnomaly)
           (zones : list AlignmentZone) (matchedRefs : list MatchedReference)
  : list NormalizedAnomaly :=
  if (Nat.eqb (List.length zones) 0 || Nat.ltb (List.length matchedRefs) 2)%bool
  then anomalies
  else
    let sortedRefs :=
      Js.sort (fun a b => Ref.distance (run2 a) - Ref.distance (run2 b))
              matchedRefs in
    match sortedRefs with
    | [] => anomalies
    | firstRef :: _ =>
        let lastRef := last sortedRefs firstRef in
        map (fun anomaly =>
               Anomaly.with_corrected_distance
                 (correctedOf zones firstRef lastRef (Anomaly.distance anomaly))
                 anomaly)
            anomalies
    end.

(* ================================================================= *)
(** ** Similarity (lib/matching/similarity.ts), over the reals *)

Module Sim.
Record t : Type := mk {
  distance : R;
  dimensional : R;
  clock : R;
  feature_type : R;
  total : R
}.
End Sim.
Abbreviation SimilarityBreakdown := Sim.t.

Module Rjs.
Definition ltb (x y : R) : bool := if Rlt_dec x y then true else false.
Definition leb (x y : R) : bool := if Rle_dec x y then true else false.
Definition gtb (x y : R) : bool := ltb y x.
Definition geb (x y : R) : bool := leb y x.
End Rjs.

Section Similarity.
Local Open Scope R_scope.

Definition WEIGHTS_distance : R := 40 / 100.
Definition WEIGHTS_dimensional : R := 30 / 100.
Definition WEIGHTS_clock : R := 20 / 100.
Definition WEIGHTS_feature_type : R := 10 / 100.

Definition DISTANCE_TOLERANCE : R := 50.

Definition distanceSimilarity (d1 d2 : R) : R :=
  let diff := Rabs (d1 - d2) in
  exp (- diff / DISTANCE_TOLERANCE).

Definition dimensionalSimilarity (a1 a2 : NormalizedAnomaly) : R :=
  let v1 := (Q2R (Anomaly.depth_percent a1), Q2R (Anomaly.length a1),
             Q2R (Anomaly.width a1)) in
  let v2 := (Q2R (Anomaly.depth_percent a2), Q2R (Anomaly.length a2),
             Q2R (Anomaly.width a2)) in
  let '(x1, y1, z1) := v1 in
  let '(x2, y2, z2) := v2 in
  let dot := x1 * x2 + y1 * y2 + z1 * z2 in
  let mag1 := sqrt (x1 * x1 + y1 * y1 + z1 * z1) in
  let mag2 := sqrt (x2 * x2 + y2 * y2 + z2 * z2) in
  if (Rjs.ltb mag1 (1 / 10 ^ 10) || Rjs.ltb mag2 (1 / 10 ^ 10))%bool then 0
  else Rmax 0 (dot / (mag1 * mag2)).

Definition clockSimilarity (deg1 deg2 : R) : R :=
  let diff := Rabs (deg1 - deg2) in
  let circularDiff := Rmin diff (360 - diff) in
  1 - circularDiff / 180.

Definition compatible : list (FeatureType * FeatureType) :=
  [ (external_metal_loss, metal_loss);
    (internal_metal_loss, metal_loss);
    (external_metal_loss, internal_metal_loss);
    (crack, gouge);
    (girth_weld, seam_weld) ].

Definition featureTypeSimilarity (t1 t2 : FeatureType) : R :=
  if FeatureType_eqb t1 t2 then 1
  else if existsb (fun '(a, b) =>
                     ((FeatureType_eqb t1 a && FeatureType_eqb t2 b)
                      || (FeatureType_eqb t1 b && FeatureType_eqb t2 a))%bool)
                  compatible
  then 5 / 10
  else 0.

Definition calculateSimilarity (a1 a2 : NormalizedAnomaly) : SimilarityBreakdown :=
  let distSim := distanceSimilarity (Q2R (Anomaly.corrected_distance a1))
                                    (Q2R (Anomaly.corrected_distance a2)) in
  let dimSim := dimensionalSimilarity a1 a2 in
  let clockSim := clockSimilarity (Q2R (Anomaly.clock_degrees a1))
                                  (Q2R (Anomaly.clock_degrees a2)) in
  let typeSim := featureTypeSimilarity (Anomaly.canonical_type a1)
                                       (Anomaly.canonical_type a2) in
  let total :=
    WEIGHTS_distance * distSim + WEIGHTS_dimensional * dimSim
    + WEIGHTS_clock * clockSim + WEIGHTS_feature_type * typeSim in
  Sim.mk distSim dimSim clockSim typeSim total.

End Similarity.

(* ================================================================= *)
(** ** Assignment (lib/matching/hungarian.ts) *)

Section Hungarian.
Local Open Scope R_scope.

Definition Matrix : Type := list (list R).

Definition entry (matrix : Matrix) (i j : nat) : R := nth j (nth i matrix []) 0.

Fixpoint setAt {A : Type} (i : nat) (v : A) (l : list A) : list A :=
  match l, i with
  | [], _ => []
  | _ :: xs, O => v :: xs
  | x :: xs, S i' => x :: setAt i' v xs
  end.

(** [matrix[i][j] = v] for a cell of the matrix.  For a row index
    outside the matrix the source throws a TypeError; the model then
    leaves the matrix as it is. *)
Definition setEntry (matrix : Matrix) (i j : nat) (v : R) : Matrix :=
  setAt i (setAt j v (nth i matrix [])) matrix.

(** [Math.min(...row)] of a non-empty row. *)
Definition rowMinimum (row : list R) : R :=
  match row with
  | [] => 0
  | x :: xs => fold_left Rmin xs x
  end.

(** Step 2 for one column: [colMin] starts at [Infinity] ([None]). *)
Definition columnMinimum (matrix : Matrix) (j : nat) : option R :=
  fold_left
    (fun colMin row =>
       match colMin with
       | None => Some (nth j row 0)
       | Some c => Some (Rmin c (nth j row 0))
       end)
    matrix None.

Definition subtractColumn (matrix : Matrix) (j : nat) : Matrix :=
  match columnMinimum matrix j with
  | None => matrix
  | Some colMin => map (fun row => setAt j (nth j row 0 - colMin) row) matrix
  end.

(** The scan of one row for the cheapest unused column; [None] is the
    initial [bestJ = -1], [bestCost = Infinity]. *)
Definition bestColumn (matrix : Matrix) (usedCols : list nat) (i m : nat)
  : option (nat * R) :=
  fold_left
    (fun best j =>
       if existsb (Nat.eqb j) usedCols then best
       else
         match best with
         | None => Some (j, entry matrix i j)
         | Some (_, bestCost) =>
             if Rjs.ltb (entry matrix i j) bestCost
             then Some (j, entry matrix i j) else best
         end)
    (seq 0 m) None.

Definition assignRow (matrix : Matrix) (m : nat)
           (st : list Z * list nat) (i : nat) : list Z * list nat :=
  let '(assignment, usedCols) := st in
  if negb (Z.eqb (nth i assignment (-1)%Z) (-1)) then st
  else
    match bestColumn matrix usedCols i m with
    | Some (bestJ, _) => (setAt i (Z.of_nat bestJ) assignment, bestJ :: usedCols)
    | None => st
    end.

Definition hungarianAlgorithm (costMatrix : Matrix) : list Z :=
  let n := List.length costMatrix in
  let m := List.length (hd [] costMatrix) in
  if (Nat.eqb n 0 || Nat.eqb m 0)%bool then []
  else
    let size := Nat.max n m in
    let matrix : Matrix :=
      map (fun i =>
             map (fun j =>
                    if (Nat.ltb i n && Nat.ltb j m)%bool
                    then entry costMatrix i j else 0)
                 (seq 0 size))
          (seq 0 size) in
    let matrix : Matrix :=
      map (fun row => let rowMin := rowMinimum row in
                      map (fun x => x - rowMin) row) matrix in
    let matrix : Matrix := fold_left subtractColumn (seq 0 size) matrix in
    let assignment := repeat (-1)%Z n in
    let usedCols : list nat := [] in
    fst (fold_left
           (fun st (pass : nat) => fold_left (assignRow matrix m) (seq 0 n) st)
           (seq 0 3) (assignment, usedCols)).

Definition LARGE_COST : R := 1000.

Definition buildCostMatrix (similarities : list (nat * nat * R))
           (nRows nCols : nat) : Matrix :=
  fold_left
    (fun matrix '(row, col, score) => setEntry matrix row col (1 - score))
    similarities
    (repeat (repeat LARGE_COST nCols) nRows).

End Hungarian.

(* ================================================================= *)
(** ** Growth analysis (lib/analysis/growthRate.ts) *)

Record GrowthRates : Type := mkGrowthRates {
  depth_growth_rate : Q;
  length_growth_rate : Q;
  width_growth_rate : Q;
  time_to_critical : option Q;
  depth_trend : list (Q * Q);
  predicted_depth_at_year : Q -> Q
}.

Definition sum (l : list Q) : Q := fold_left Qplus l 0.

(** The sums and the quotients are exact; the source rounds them, so
    its slope and intercept can differ from these in the last digits. *)
Definition linearRegression (x y : list Q) : Q * Q :=
  let n := List.length x in
  if Nat.ltb n 2 then (0, nth 0 y 0)
  else
    let nq := inject_Z (Z.of_nat n) in
    let sumX := sum x in
    let sumY := sum y in
    let sumXY := fold_left (fun a '(xi, yi) => a + xi * yi) (combine x y) 0 in
    let sumX2 := fold_left (fun a xi => a + xi * xi) x 0 in
    let denom := nq * sumX2 - sumX * sumX in
    if Js.ltb (Qabs denom) (1 # 10 ^ 10) then (0, sumY / nq)
    else
      let slope := (nq * sumXY - sumX * sumY) / denom in
      let intercept := (sumY - slope * sumX) / nq in
      (slope, intercept).

(** [years[runIndices[i]]]; the engine passes one year per run.  A
    missing entry, which the source reads as [undefined] and turns
    into NaN rates, is outside the number model and read as 0. *)
Definition yearOf (years : list Q) (runIndex : nat) : Q := nth runIndex years 0.

Definition calculateGrowthRates (anomalies : list NormalizedAnomaly)
           (runIndices : list nat) (years : list Q) : GrowthRates :=
  if Nat.ltb (List.length anomalies) 2
  then
    mkGrowthRates 0 0 0 None
      (match anomalies with
       | a0 :: _ => [(yearOf years (nth 0 runIndices 0%nat), Anomaly.depth_percent a0)]
       | [] => []
       end)
      (fun _ => match anomalies with
                | a0 :: _ => Anomaly.depth_percent a0
                | [] => 0
                end)
  else
    let series (f : NormalizedAnomaly -> Q) : list (Q * Q) :=
      map (fun '(a, r) => (yearOf years r, f a)) (combine anomalies
             (map (fun i => nth i runIndices 0%nat) (seq 0 (List.length anomalies)))) in
    let depthSeries := series Anomaly.depth_percent in
    let lengthSeries := series Anomaly.length in
    let widthSeries := series Anomaly.width in
    let depthRegression := linearRegression (map fst depthSeries) (map snd depthSeries) in
    let lengthRegression := linearRegression (map fst lengthSeries) (map snd lengthSeries) in
    let widthRegression := linearRegression (map fst widthSeries) (map snd widthSeries) in
    let depthGrowthRate := fst depthRegression in
    let lengthGrowthRate := fst lengthRegression in
    let widthGrowthRate := fst widthRegression in
    let currentDepth := snd (last depthSeries (0, 0)) in
    let timeToCritical :=
      if (Js.gtb depthGrowthRate 0 && Js.ltb currentDepth 80)%bool
      then Some ((80 - currentDepth) / depthGrowthRate)
      else if Js.geb currentDepth 80 then Some 0
      else None in
    mkGrowthRates depthGrowthRate lengthGrowthRate widthGrowthRate timeToCritical
      depthSeries
      (fun year => fst depthRegression * year + snd depthRegression).

(* ================================================================= *)
(** ** Priority classification (lib/analysis/priority.ts) *)

Record PriorityClassification : Type := mkPriorityClassification {
  level : PriorityLevel;
  deadline : string;
  citation : string;
  score : nat
}.

(** [ttc !== null && ttc <= bound]. *)
Definition ttcWithin (ttc : option Q) (bound : Q) : bool :=
  match ttc with
  | Some t => Js.leb t bound
  | None => false
  end.

(** [None] is the TypeError raised when [anomalies] is empty and
    [latest] is [undefined]. *)
Definition classifyPriority (anomalies : list NormalizedAnomaly)
           (growth : GrowthRates) (matchStatus : MatchStatus)
  : option PriorityClassification :=
  match nth_error anomalies (List.length anomalies - 1) with
  | None => None
  | Some latest =>
      let depth := Anomaly.depth_percent latest in
      let depthGrowth := Qabs (depth_growth_rate growth) in
      let ttc := time_to_critical growth in
      if (Js.geb depth 80 || ttcWithin ttc 1 || Js.geb depthGrowth 8)%bool
      then Some (mkPriorityClassification IMMEDIATE
                   "Immediate repair required"
                   "49 CFR 192.485 - Remediation schedule for anomalies" 100)
      else if (Js.geb depth 60 || Js.geb depthGrowth 5 || ttcWithin ttc 3)%bool
      then Some (mkPriorityClassification DAY_60
                   "Repair within 60 days"
                   "ASME B31.8S - Table 4, Condition 2" 80)
      else if (Js.geb depth 40 || Js.geb depthGrowth 2)%bool
      then Some (mkPriorityClassification DAY_180
                   "Repair within 180 days"
                   "ASME B31.8S - Table 4, Condition 3" 60)
      else if (Js.geb depth 20 || Js.geb depthGrowth (5 # 10))%bool
      then Some (mkPriorityClassification SCHEDULED
                   "Schedule repair at next opportunity"
                   "49 CFR 192.485(c) - Scheduled conditions" 40)
      else Some (mkPriorityClassification MONITOR
                   "Monitor at next inspection"
                   "49 CFR 192.485(d) - Monitored conditions" 20)
  end.

(* ================================================================= *)
(** ** Cross-run matcher (lib/matching/matcher.ts) *)

Record MatchPair : Type := mkMatchPair {
  run1Idx : nat;
  run2Idx : nat;
  similarity : SimilarityBreakdown
}.

Record MatchResult : Type := mkMatchResult {
  pairs : list MatchPair;
  newAnomalies : list nat;
  missingAnomalies : list nat
}.

Record Candidate : Type := mkCandidate {
  cand_row : nat;
  cand_col : nat;
  cand_score : R;
  breakdown : SimilarityBreakdown
}.

Module Match.
Record t : Type := mk {
  id : string;
  anomalies : list NormalizedAnomaly;
  (** For each object of [anomalies], the run array and the row it was
      taken from: the objects are shared with the run arrays. *)
  anomaly_refs : list (nat * nat);
  run_indices : list nat;
  confidence : R;
  match_status : MatchStatus;
  similarity_breakdown : SimilarityBreakdown;
  depth_growth_rate : Q;
  length_growth_rate : Q;
  width_growth_rate : Q;
  time_to_critical : option Q;
  priority : PriorityLevel;
  repair_deadline : string;
  regulatory_citation : string;
  latitude : Q;
  longitude : Q
}.
End Match.
Abbreviation AnomalyMatch := Match.t.

(** [Map<number, {run3Idx, sim}>], iterated in insertion order. *)
Definition Run3Map : Type := list (nat * (nat * SimilarityBreakdown)).

Fixpoint mapSet (m : Run3Map) (k : nat) (v : nat * SimilarityBreakdown) : Run3Map :=
  match m with
  | [] => [(k, v)]
  | (k', v') :: rest => if Nat.eqb k' k then (k, v) :: rest
                        else (k', v') :: mapSet rest k v
  end.

Definition mapGet (m : Run3Map) (k : nat) : option (nat * SimilarityBreakdown) :=
  option_map snd (find (fun e => Nat.eqb (fst e) k) m).

Definition mapDelete (m : Run3Map) (k : nat) : Run3Map :=
  filter (fun e => negb (Nat.eqb (fst e) k)) m.

(** A loop whose body may throw. *)
Fixpoint foldM {S X : Type} (f : S -> X -> option S) (l : list X) (s : S) : option S :=
  match l with
  | [] => Some s
  | x :: xs => match f s x with
               | Some s' => foldM f xs s'
               | None => None
               end
  end.

Fixpoint mapM {X Y : Type} (f : X -> option Y) (l : list X) : option (list Y) :=
  match l with
  | [] => Some []
  | x :: xs => match f x, mapM f xs with
               | Some y, Some ys => Some (y :: ys)
               | _, _ => None
               end
  end.

Section Matcher.
Local Open Scope R_scope.

Definition DISTANCE_FILTER : R := 200.
Definition CONFIDENCE_HIGH : R := 7 / 10.
Definition CONFIDENCE_LOW : R := 4 / 10.

(** [run.filter((a) => !a.is_reference_point)]; each kept object is
    paired with its position in [run], which is what
    [run.indexOf(object)] returns later (the objects of a run array are
    pairwise distinct). *)
Definition nonReference (run : list NormalizedAnomaly) : list (nat * NormalizedAnomaly) :=
  filter (fun e => negb (Anomaly.is_reference_point (snd e))) (Js.indexed run).

Definition candidatesOf (r1 r2 : list (nat * NormalizedAnomaly)) : list Candidate :=
  flat_map
    (fun '(i, (_, a1)) =>
       flat_map
         (fun '(j, (_, a2)) =>
            let distDiff := Rabs (Q2R (Anomaly.corrected_distance a1)
                                  - Q2R (Anomaly.corrected_distance a2)) in
            if Rjs.gtb distDiff DISTANCE_FILTER then []
            else
              let sim := calculateSimilarity a1 a2 in
              if Rjs.gtb (Sim.total sim) (2 / 10)
              then [mkCandidate i j (Sim.total sim) sim]
              else [])
         (Js.indexed r2))
    (Js.indexed r1).

Definition acceptAssignment (r1 r2 : list (nat * NormalizedAnomaly))
           (candidates : list Candidate)
           (st : list MatchPair * list nat * list nat) (e : nat * Z)
  : list MatchPair * list nat * list nat :=
  let '(pairs, matchedR1, matchedR2) := st in
  let '(i, j) := e in
  if ((j <? 0)%Z || (j >=? Z.of_nat (List.length r2))%Z)%bool then st
  else
    let jn := Z.to_nat j in
    match find (fun c => (Nat.eqb (cand_row c) i && Nat.eqb (cand_col c) jn)%bool)
               candidates with
    | Some cand =>
        if Rjs.geb (cand_score cand) CONFIDENCE_LOW
        then
          match nth_error r1 i, nth_error r2 jn with
          | Some (origI, _), Some (origJ, _) =>
              (pairs ++ [mkMatchPair origI origJ (breakdown cand)],
               i :: matchedR1, jn :: matchedR2)
          | _, _ => st
          end
        else st
    | None => st
    end.

Definition unmatched (r : list (nat * NormalizedAnomaly)) (matchedR : list nat)
  : list nat :=
  map (fun e => fst (snd e))
      (filter (fun e => negb (existsb (Nat.eqb (fst e)) matchedR)) (Js.indexed r)).

Definition matchAnomalies (run1 run2 : list NormalizedAnomaly) : MatchResult :=
  let r1 := nonReference run1 in
  let r2 := nonReference run2 in
  let candidates := candidatesOf r1 r2 in
  let costMatrix :=
    buildCostMatrix (map (fun c => (cand_row c, cand_col c, cand_score c)) candidates)
                    (List.length r1) (List.length r2) in
  let assignment := hungarianAlgorithm costMatrix in
  let '(pairs, matchedR1, matchedR2) :=
    fold_left (acceptAssignment r1 r2 candidates) (Js.indexed assignment)
              ([], [], []) in
  mkMatchResult pairs (unmatched r2 matchedR2) (unmatched r1 matchedR1).

Definition zeroSimilarity : SimilarityBreakdown := Sim.mk 0 0 0 0 0.

(** [None] is the TypeError raised by [classifyPriority] on an empty
    [anomalies]. *)
Definition buildMatchObject (id : string) (anomalies : list NormalizedAnomaly)
           (refs : list (nat * nat)) (runIndices : list nat) (confidence : R)
           (status : MatchStatus) (similarity : SimilarityBreakdown)
           (years : list Q) : option AnomalyMatch :=
  let growth := calculateGrowthRates anomalies runIndices years in
  match classifyPriority anomalies growth status with
  | None => None
  | Some priority =>
      Some (Match.mk id anomalies refs runIndices confidence status similarity
              (depth_growth_rate growth) (length_growth_rate growth)
              (width_growth_rate growth) (time_to_critical growth)
              (level priority) (deadline priority) (citation priority)
              0%Q 0%Q)
  end.

(** The state of the loops of [matchAcrossRuns]: [allMatches],
    [matchId] and [run2ToRun3Map]. *)
Definition ChainState : Type := (list AnomalyMatch * nat * Run3Map)%type.

(** [runs[r][i]]; [None] is [undefined]. *)
Definition element (runs : list (list NormalizedAnomaly)) (ref : nat * nat)
  : option NormalizedAnomaly :=
  nth_error (nth (fst ref) runs []) (snd ref).

(** [allMatches.push(buildMatchObject(`match-${matchId++}`, ...))] for
    the chain whose members are [refs]; reading a field of an
    [undefined] member throws. *)
Definition pushMatch (runs : list (list NormalizedAnomaly)) (years : list Q)
           (allMatches : list AnomalyMatch) (matchId : nat)
           (refs : list (nat * nat)) (confidence : R) (status : MatchStatus)
           (similarity : SimilarityBreakdown)
  : option (list AnomalyMatch * nat) :=
  match mapM (element runs) refs with
  | None => None
  | Some anomalies =>
      match buildMatchObject ("match-" ++ Js.natToString matchId) anomalies refs
                             (map fst refs) confidence status similarity years with
      | None => None
      | Some m => Some (allMatches ++ [m], S matchId)
      end
  end.

(** [run2ToRun3Map.get(run2Idx)] followed by the extension of the
    chain to run 3 and the deletion of the consumed key. *)
Definition extendToRun3 (hasRun3 : bool) (run2ToRun3Map : Run3Map)
           (run2Idx : nat) (refs : list (nat * nat))
  : list (nat * nat) * Run3Map :=
  match mapGet run2ToRun3Map run2Idx with
  | Some run3Match =>
      if hasRun3
      then (refs ++ [(2%nat, fst run3Match)], mapDelete run2ToRun3Map run2Idx)
      else (refs, run2ToRun3Map)
  | None => (refs, run2ToRun3Map)
  end.

Definition processPair (runs : list (list NormalizedAnomaly)) (years : list Q)
           (st : ChainState) (pair : MatchPair) : option ChainState :=
  let '(allMatches, matchId, run2ToRun3Map) := st in
  let '(refs, run2ToRun3Map) :=
    extendToRun3 (Nat.leb 3 (List.length runs)) run2ToRun3Map (run2Idx pair)
                 [(0%nat, run1Idx pair); (1%nat, run2Idx pair)] in
  let confidence := Sim.total (similarity pair) in
  let status :=
    if (Rjs.ltb confidence CONFIDENCE_HIGH && Rjs.geb confidence CONFIDENCE_LOW)%bool
    then Status.uncertain else Status.matched in
  match pushMatch runs years allMatches matchId refs confidence status
                  (similarity pair) with
  | None => None
  | Some (allMatches, matchId) => Some (allMatches, matchId, run2ToRun3Map)
  end.

Definition processNew (runs : list (list NormalizedAnomaly)) (years : list Q)
           (st : ChainState) (run2Idx : nat) : option ChainState :=
  let '(allMatches, matchId, run2ToRun3Map) := st in
  let '(refs, run2ToRun3Map) :=
    extendToRun3 (Nat.leb 3 (List.length runs)) run2ToRun3Map run2Idx
                 [(1%nat, run2Idx)] in
  match pushMatch runs years allMatches matchId refs 0 Status.new zeroSimilarity with
  | None => None
  | Some (allMatches, matchId) => Some (allMatches, matchId, run2ToRun3Map)
  end.

(** The three loops that emit a one-member chain of run [r] with
    status [status]. *)
Definition processSingle (runs : list (list NormalizedAnomaly)) (years : list Q)
           (r : nat) (status : MatchStatus)
           (st : ChainState) (idx : nat) : option ChainState :=
  let '(allMatches, matchId, run2ToRun3Map) := st in
  match pushMatch runs years allMatches matchId [(r, idx)] 0 status zeroSimilarity with
  | None => None
  | Some (allMatches, matchId) => Some (allMatches, matchId, run2ToRun3Map)
  end.

(** [run2ToRun3Map], filled from the pairs of [match23] when there is
    a third run. *)
Definition buildRun3Map (match23 : option MatchResult) : Run3Map :=
  match match23 with
  | Some m23 =>
      fold_left (fun m pair => mapSet m (run1Idx pair) (run2Idx pair, similarity pair))
                (pairs m23) []
  | None => []
  end.

(** The two run-3 loops are guarded by [if (runs[2])], which holds
    whenever [match23] is not [null]. *)
Definition matchAcrossRuns (runs : list (list NormalizedAnomaly)) (years : list Q)
  : option (list AnomalyMatch) :=
  if Nat.ltb (List.length runs) 2 then Some []
  else
    let match12 := matchAnomalies (nth 0 runs []) (nth 1 runs []) in
    let match23 :=
      if Nat.leb 3 (List.length runs)
      then Some (matchAnomalies (nth 1 runs []) (nth 2 runs []))
      else None in
    let run2ToRun3Map := buildRun3Map match23 in
    let st0 : ChainState := ([], 0%nat, run2ToRun3Map) in
    match foldM (processPair runs years) (pairs match12) st0 with
    | None => None
    | Some st1 =>
    match foldM (processNew runs years) (newAnomalies match12) st1 with
    | None => None
    | Some st2 =>
    match foldM (processSingle runs years 0 Status.missing)
                (missingAnomalies match12) st2 with
    | None => None
    | Some st3 =>
        match match23 with
        | None => Some (fst (fst st3))
        | Some m23 =>
            match foldM (processSingle runs years 2 Status.new)
                        (map (fun e => fst (snd e)) (snd st3)) st3 with
            | None => None
            | Some st4 =>
                match foldM (processSingle runs years 2 Status.new)
                            (newAnomalies m23) st4 with
                | None => None
                | Some st5 => Some (fst (fst st5))
                end
            end
        end
    end end end.

End Matcher.

(* ================================================================= *)
(** ** Orchestrator (components/upload/FileUploader.tsx, lib/pipeline.ts) *)

Record RunFile : Type := mkRunFile {
  year : Q;
  file_run_index : nat;
  raw_data : list RawAnomaly;
  normalized_data : list NormalizedAnomaly
}.

(** The run file built by the uploader for slot [slotIndex]. *)
Definition uploadRun (rawData : list RawAnomaly) (year : Q) (slotIndex : nat)
  : RunFile :=
  mkRunFile year slotIndex rawData (normalizeAnomalies rawData slotIndex).

(** What [runPipeline] stores.  The drift series and the GPS
    coordinates are diagnostics and display data and are not carried. *)
Record PipelineResult : Type := mkPipelineResult {
  cleaningReports : list CleaningReport;
  alignmentZones : list AlignmentZone;
  correctedRuns : list (list NormalizedAnomaly);
  alignedAnomalies : list NormalizedAnomaly;
  matches : list AnomalyMatch
}.

Definition sortFiles (runFiles : list RunFile) : list RunFile :=
  Js.sort (fun a b => year a - year b) runFiles.

(** [rawRuns.filter((_, j) => j !== i)]. *)
Definition otherRunsOf (rawRuns : list (list NormalizedAnomaly)) (i : nat)
  : list (list NormalizedAnomaly) :=
  map snd (filter (fun e => negb (Nat.eqb (fst e) i)) (Js.indexed rawRuns)).

Definition cleanAll (sortedFiles : list RunFile)
  : list (list NormalizedAnomaly * CleaningReport) :=
  let rawRuns := map normalized_data sortedFiles in
  map (fun '(i, f) => cleanData (normalized_data f) i (year f)
                                (Some (otherRunsOf rawRuns i)))
      (Js.indexed sortedFiles).

(** The alignment loop: run [i + 1] is corrected from the reference
    points matched between runs [i] and [i + 1]. *)
Definition alignStep (runs : list (list NormalizedAnomaly))
           (refPoints : list (list ReferencePoint)) (i : nat)
  : list AlignmentZone * list NormalizedAnomaly :=
  let matched := matchReferencePoints (nth i refPoints []) (nth (i + 1) refPoints []) in
  let zones := createAlignmentZones matched in
  (zones, applyDistanceCorrection (nth (i + 1) runs []) zones matched).

Definition correctedRunsOf (runFiles : list RunFile) : list (list NormalizedAnomaly) :=
  let runs := map fst (cleanAll (sortFiles runFiles)) in
  let refPoints := map (fun '(i, run) => extractReferencePoints run i) (Js.indexed runs) in
  nth 0 runs []
  :: map (fun i => snd (alignStep runs refPoints i)) (seq 0 (List.length runs - 1)).

(** [None] is a thrown TypeError: with no run file [runs[0]] is
    [undefined], and the matcher may throw. *)
Definition runPipeline (runFiles : list RunFile) (years : list Q)
  : option PipelineResult :=
  match runFiles with
  | [] => None
  | _ =>
      let sortedFiles := sortFiles runFiles in
      let sortedYears := map year sortedFiles in
      let cleanedRuns := cleanAll sortedFiles in
      let runs := map fst cleanedRuns in
      let refPoints :=
        map (fun '(i, run) => extractReferencePoints run i) (Js.indexed runs) in
      let zones :=
        last (map (fun i => fst (alignStep runs refPoints i))
                  (seq 0 (List.length runs - 1))) [] in
      let corrected := correctedRunsOf runFiles in
      match matchAcrossRuns corrected sortedYears with
      | None => None
      | Some matches =>
          Some (mkPipelineResult (map snd cleanedRuns) zones corrected
                                 (List.concat corrected) matches)
      end
  end.

(** The engine on raw tables: every table is uploaded into its slot and
    the pipeline is run. *)
Definition runEngine (tables : list (list RawAnomaly * Q)) : option PipelineResult :=
  runPipeline (map (fun '(i, (rawData, year)) => uploadRun rawData year i)
                   (Js.indexed tables))
              (map snd tables).

(* ================================================================= *)
(** ** Priority scores (lib/analysis/priority.ts) *)

Definition priorityToScore (level : PriorityLevel) : nat :=
  match level with
  | IMMEDIATE => 100
  | DAY_60 => 80
  | DAY_180 => 60
  | SCHEDULED => 40
  | MONITOR => 20
  end.

(* ================================================================= *)
(** ** Predictions (lib/analysis/predictions.ts) *)

(** [v || 0] on a number: zero is the only falsy rational. *)
Definition orZero (v : Q) : Q := if Js.eqb v 0 then 0 else v.

(** [match.anomalies[match.anomalies.length - 1]]; [None] is
    [undefined]. *)
Definition latestOf (m : AnomalyMatch) : option NormalizedAnomaly :=
  nth_error (Match.anomalies m) (List.length (Match.anomalies m) - 1).

(** [thisYear] is the value of [new Date().getFullYear()] at the time
    of the call.  The second branch is entered with at least two
    members, so [latest] is defined there. *)
Definition predictFutureDepth (thisYear : Q) (m : AnomalyMatch) (targetYear : Q) : Q :=
  if (Nat.ltb (List.length (Match.anomalies m)) 2
      || Js.eqb (Match.depth_growth_rate m) 0)%bool
  then
    match latestOf m with
    | Some a => orZero (Anomaly.depth_percent a)
    | None => 0
    end
  else
    match latestOf m with
    | Some latest =>
        let currentDepth := Anomaly.depth_percent latest in
        let yearsAhead := targetYear - thisYear in
        Qmin 100 (Qmax 0 (currentDepth + Match.depth_growth_rate m * yearsAhead))
    | None => 0
    end.

(** [costRanges[type] || costRanges.default]. *)
Definition costRanges (type : option FeatureType) : Q * Q :=
  match type with
  | Some external_metal_loss => (50000, 200000)
  | Some internal_metal_loss => (75000, 250000)
  | Some metal_loss => (50000, 200000)
  | Some dent => (30000, 150000)
  | Some crack => (100000, 500000)
  | Some gouge => (75000, 300000)
  | _ => (50000, 250000)
  end.

Record RepairCost : Type := mkRepairCost {
  low : Z;
  high : Z;
  cost_unit : string
}.

Definition estimateRepairCost (m : AnomalyMatch) : RepairCost :=
  let type := option_map Anomaly.canonical_type (latestOf m) in
  let range := costRanges type in
  let depth :=
    match latestOf m with
    | Some a => orZero (Anomaly.depth_percent a)
    | None => 0
    end in
  let severityMultiplier :=
    if Js.gtb depth 60 then 15 # 10 else if Js.gtb depth 40 then 12 # 10 else 1 in
  mkRepairCost (Js.round (fst range * severityMultiplier))
               (Js.round (snd range * severityMultiplier))
               "USD".

(* ================================================================= *)
(** ** Odometer drift (lib/alignment/odometerDrift.ts) *)

(** The text of [reference_label]: the template
    [Ref ${i + 1} (Jt ${joint_number})] is determined by the two numbers
    it embeds; the other labels are feature identifiers. *)
Inductive DriftLabel : Type :=
| RefLabel (position : nat) (joint : Q)
| FeatureLabel (feature_id : string).

Module Drift.
Record t : Type := mk {
  distance : Q;
  odometer : Q;
  drift : Q;
  reference_label : DriftLabel;
  run_index : nat;
  run_year : Q
}.
End Drift.
Abbreviation OdometerDriftPoint := Drift.t.

(** [referencePoints.sort(...)] sorts the argument array in place; the
    first component is that array after the call, the second the
    returned drift points. *)
Definition calculateOdometerDrift (referencePoints : list ReferencePoint)
           (runIndex : nat) (runYear : Q)
  : list ReferencePoint * list OdometerDriftPoint :=
  let sorted := Js.sort (fun a b => Ref.distance a - Ref.distance b) referencePoints in
  (sorted,
   map (fun '(i, ref) =>
          Drift.mk (Ref.distance ref) (Ref.odometer ref)
                   (Ref.distance ref - Ref.odometer ref)
                   (RefLabel (i + 1) (Ref.joint_number ref))
                   runIndex runYear)
       (Js.indexed sorted)).

Record DriftStatistics : Type := mkDriftStatistics {
  maxDrift : Q;
  minDrift : Q;
  avgDrift : Q;
  totalAccumulated : Q;
  driftRate : Q
}.

(** The sum, the average and the rate are computed exactly; the
    source rounds them. *)
Definition getDriftStatistics (driftPoints : list OdometerDriftPoint)
  : DriftStatistics :=
  match driftPoints with
  | [] => mkDriftStatistics 0 0 0 0 0
  | p :: ps =>
      let drifts := map Drift.drift driftPoints in
      let maxDrift := Js.maxOf (Drift.drift p) (map Drift.drift ps) in
      let minDrift := Js.minOf (Drift.drift p) (map Drift.drift ps) in
      let avgDrift := sum drifts / inject_Z (Z.of_nat (List.length drifts)) in
      let sorted :=
        Js.sort (fun a b => Drift.distance a - Drift.distance b) driftPoints in
      let first := hd p sorted in
      let final := last sorted p in
      let totalAccumulated := Drift.drift final - Drift.drift first in
      let totalDistance := Drift.distance final - Drift.distance first in
      mkDriftStatistics maxDrift minDrift avgDrift totalAccumulated
        (if Js.gtb totalDistance 0
         then totalAccumulated / totalDistance * 1000 else 0)
  end.

Definition calculateFullDrift (anomalies : list NormalizedAnomaly)
           (runIndex : nat) (runYear : Q) : list OdometerDriftPoint :=
  let sorted :=
    Js.sort (fun a b => Anomaly.distance a - Anomaly.distance b) anomalies in
  let sampleRate := Nat.max 1 (Nat.div (List.length sorted) 200) in
  map (fun '(_, a) =>
         Drift.mk (Anomaly.distance a) (Anomaly.odometer a)
                  (Anomaly.distance a - Anomaly.odometer a)
                  (FeatureLabel (Anomaly.feature_id a))
                  runIndex runYear)
      (filter (fun '(i, _) => Nat.eqb (Nat.modulo i sampleRate) 0)
              (Js.indexed sorted)).

(* ================================================================= *)
(** ** GPS interpolation (data/gpsInterpolator.ts) *)

Module Coord.
Record t : Type := mk {
  lat : Q;
  lng : Q;
  distance : Q
}.
End Coord.
Abbreviation PipelineCoordinate := Coord.t.

(** The [while] loop that advances [i]: the result is the part of the
    polyline from [pipelineCoords[i]] on. *)
Fixpoint surroundingFrom (clampedDist : Q) (pipelineCoords : list PipelineCoordinate)
  : list PipelineCoordinate :=
  match pipelineCoords with
  | p1 :: ((p2 :: _) as rest) =>
      if Js.ltb (Coord.distance p2) clampedDist
      then surroundingFrom clampedDist rest
      else pipelineCoords
  | _ => pipelineCoords
  end.

(** The polyline is an explicit argument; the result is the pair
    [(lat, lng)].  Exact arithmetic; [Double.distanceToGps] is the
    interpolation with the rounding of the source. *)
Definition distanceToGps (distanceFeet : Q) (pipelineCoords : list PipelineCoordinate)
  : Q * Q :=
  match pipelineCoords with
  | [] => (0, 0)
  | c :: _ =>
      let maxDist := Coord.distance (last pipelineCoords c) in
      let clampedDist := Qmax 0 (Qmin distanceFeet maxDist) in
      match surroundingFrom clampedDist pipelineCoords with
      | p1 :: p2 :: _ =>
          let segmentLength := Coord.distance p2 - Coord.distance p1 in
          let t :=
            if Js.gtb segmentLength 0
            then (clampedDist - Coord.distance p1) / segmentLength else 0 in
          (Coord.lat p1 + (Coord.lat p2 - Coord.lat p1) * t,
           Coord.lng p1 + (Coord.lng p2 - Coord.lng p1) * t)
      | _ =>
          let final := last pipelineCoords c in
          (Coord.lat final, Coord.lng final)
      end
  end.

(** [assignGpsCoordinates] on the corrected distances, with the
    polyline as an argument. *)
Definition assignGpsCoordinates (pipelineCoords : list PipelineCoordinate)
           (anomalies : list NormalizedAnomaly) : list (NormalizedAnomaly * (Q * Q)) :=
  map (fun a => (a, distanceToGps (Anomaly.corrected_distance a) pipelineCoords))
      anomalies.

(* ================================================================= *)
(** ** IEEE double arithmetic *)

(** A JavaScript number is a double: every arithmetic operation
    returns the double nearest to the exact result, ties going to the
    even significand.  [Double.round] is that rounding on the exact
    rational result, with 53 significant bits; the exponent range is
    not bounded, so the model agrees with binary64 for results whose
    magnitude is at least 2^-1022 and below 2^1024 (no subnormal
    numbers, no infinities). *)
Module Double.

(** [floor (log2 x)] of a positive rational. *)
Definition ilog2 (x : Q) : Z :=
  let k := (Z.log2 (Qnum x) - Z.log2 (Z.pos (Qden x)))%Z in
  if Qle_bool (2 ^ k) x then k else (k - 1)%Z.

(** The nearest integer, ties to even. *)
Definition nearestEven (x : Q) : Z :=
  let f := Qfloor x in
  match Qcompare (x - inject_Z f) (1 # 2) with
  | Lt => f
  | Gt => (f + 1)%Z
  | Eq => if Z.even f then f else (f + 1)%Z
  end.

(** The double nearest to a positive rational. *)
Definition roundPositive (x : Q) : Q :=
  let e := (ilog2 x - 52)%Z in
  inject_Z (nearestEven (x / 2 ^ e)) * 2 ^ e.

Definition round (x : Q) : Q :=
  let r := Qred x in
  match Qnum r with
  | Z0 => 0
  | Zpos _ => roundPositive r
  | Zneg _ => - roundPositive (- r)
  end.

(** The four operations on doubles. *)
Definition add (a b : Q) : Q := round (a + b).
Definition sub (a b : Q) : Q := round (a - b).
Definition mul (a b : Q) : Q := round (a * b).
Definition div (a b : Q) : Q := round (a / b).

(** The double denoted by a decimal literal. *)
Definition literal (x : Q) : Q := Qred (round x).

(** [createAlignmentZones] and [applyDistanceCorrection]
    (lib/alignment/distanceCorrection.ts) with every arithmetic
    operation rounded as the source performs it. *)
Definition makeZone (startRef endRef : MatchedReference) : AlignmentZone :=
  let run1Span := sub (Ref.distance (run1 endRef)) (Ref.distance (run1 startRef)) in
  let run2Span := sub (Ref.distance (run2 endRef)) (Ref.distance (run2 startRef)) in
  let spanRatio := if Js.gtb run1Span 0 then div run2Span run1Span else 1 in
  let isPipeReplacement := Js.gtb (Qabs (sub spanRatio 1)) (literal (2 # 10)) in
  mkAlignmentZone startRef endRef
    (if Js.gtb run1Span 0 then div run2Span run1Span else 1)
    isPipeReplacement.

Fixpoint zonesOf (sorted : list MatchedReference) : list AlignmentZone :=
  match sorted with
  | startRef :: ((endRef :: _) as rest) => makeZone startRef endRef :: zonesOf rest
  | _ => []
  end.

Definition createAlignmentZones (matchedRefs : list MatchedReference)
  : list AlignmentZone :=
  if Nat.ltb (List.length matchedRefs) 2 then []
  else
    let sorted :=
      Js.sort (fun a b => sub (Ref.distance (run1 a)) (Ref.distance (run1 b)))
              matchedRefs in
    zonesOf sorted.

(** The map carried by a zone: the branch taken when [zones.find]
    returns the zone. *)
Definition zoneMap (zone : AlignmentZone) (raw : Q) : Q :=
  let run2Start := Ref.distance (run2 (start_ref zone)) in
  let run2End := Ref.distance (run2 (end_ref zone)) in
  let run1Start := Ref.distance (run1 (start_ref zone)) in
  let run1End := Ref.distance (run1 (end_ref zone)) in
  let run2Span := sub run2End run2Start in
  if Js.gtb run2Span 0
  then
    let fraction := div (sub raw run2Start) run2Span in
    add run1Start (mul fraction (sub run1End run1Start))
  else run1Start.

Definition correctedOf (zones : list AlignmentZone)
           (firstRef lastRef : MatchedReference) (raw : Q) : Q :=
  match find (containsRaw raw) zones with
  | Some zone => zoneMap zone raw
  | None =>
      if Js.ltb raw (Ref.distance (run2 firstRef))
      then add raw (sub (Ref.distance (run1 firstRef)) (Ref.distance (run2 firstRef)))
      else if Js.gtb raw (Ref.distance (run2 lastRef))
      then add raw (sub (Ref.distance (run1 lastRef)) (Ref.distance (run2 lastRef)))
      else raw
  end.

Definition applyDistanceCorrection (anomalies : list NormalizedAnomaly)
           (zones : list AlignmentZone) (matchedRefs : list MatchedReference)
  : list NormalizedAnomaly :=
  if (Nat.eqb (List.length zones) 0 || Nat.ltb (List.length matchedRefs) 2)%bool
  then anomalies
  else
    let sortedRefs :=
      Js.sort (fun a b => sub (Ref.distance (run2 a)) (Ref.distance (run2 b)))
              matchedRefs in
    match sortedRefs with
    | [] => anomalies
    | firstRef :: _ =>
        let lastRef := last sortedRefs firstRef in
        map (fun anomaly =>
               Anomaly.with_corrected_distance
                 (correctedOf zones firstRef lastRef (Anomaly.distance anomaly))
                 anomaly)
            anomalies
    end.

(** [distanceToGps] (data/gpsInterpolator.ts) with the interpolation
    rounded as the source performs it; [Math.max], [Math.min] and the
    comparisons of the loop are exact. *)
Definition distanceToGps (distanceFeet : Q) (pipelineCoords : list PipelineCoordinate)
  : Q * Q :=
  match pipelineCoords with
  | [] => (0, 0)
  | c :: _ =>
      let maxDist := Coord.distance (last pipelineCoords c) in
      let clampedDist := Qmax 0 (Qmin distanceFeet maxDist) in
      match surroundingFrom clampedDist pipelineCoords with
      | p1 :: p2 :: _ =>
          let segmentLength := sub (Coord.distance p2) (Coord.distance p1) in
          let t :=
            if Js.gtb segmentLength 0
            then div (sub clampedDist (Coord.distance p1)) segmentLength else 0 in
          (add (Coord.lat p1) (mul (sub (Coord.lat p2) (Coord.lat p1)) t),
           add (Coord.lng p1) (mul (sub (Coord.lng p2) (Coord.lng p1)) t))
      | _ =>
          let final := last pipelineCoords c in
          (Coord.lat final, Coord.lng final)
      end
  end.

End Double.

(* ================================================================= *)
(** * Specification predicates *)

(** ** Ascending keys *)

Definition ascending {A : Type} (key : A -> Q) : list A -> Prop :=
  Sorted (fun a b => key a <= key b).

(** ** Priority table *)

Definition ttcAtMost (t : option Q) (bound : Q) : Prop :=
  exists v, t = Some v /\ v <= bound.

Definition immediateCondition (d g : Q) (t : option Q) : Prop :=
  80 <= d \/ ttcAtMost t 1 \/ 8 <= g.

Definition day60Condition (d g : Q) (t : option Q) : Prop :=
  60 <= d \/ 5 <= g \/ ttcAtMost t 3.

Definition day180Condition (d g : Q) : Prop := 40 <= d \/ 2 <= g.

Definition scheduledCondition (d g : Q) : Prop := 20 <= d \/ (5 # 10) <= g.

(** The band of the table: the first row whose condition holds. *)
Definition bandOfTable (d g : Q) (t : option Q) (band : PriorityLevel) : Prop :=
  match band with
  | IMMEDIATE => immediateCondition d g t
  | DAY_60 => ~ immediateCondition d g t /\ day60Condition d g t
  | DAY_180 =>
      ~ immediateCondition d g t /\ ~ day60Condition d g t
      /\ day180Condition d g
  | SCHEDULED =>
      ~ immediateCondition d g t /\ ~ day60Condition d g t
      /\ ~ day180Condition d g /\ scheduledCondition d g
  | MONITOR =>
      ~ immediateCondition d g t /\ ~ day60Condition d g t
      /\ ~ day180Condition d g /\ ~ scheduledCondition d g
  end.


(** ** Stages of the cleaner *)

(** The data handed to the interpolation pass: passes 1 to 3. *)
Definition beforeInterpolation (anomalies : list NormalizedAnomaly)
  : list NormalizedAnomaly :=
  fst (fst (clampOutliers
              (fst (fst (detectAndConvertUnits (fst (removeDuplicates anomalies))))))).

(** Pass 6 is run only when other runs are given. *)
Definition afterWallThickness (otherRuns : option (list (list NormalizedAnomaly)))
           (data : list NormalizedAnomaly) : list NormalizedAnomaly :=
  match otherRuns with
  | Some (r :: rs) => fst (crossRunWallThickness data (r :: rs))
  | _ => data
  end.

(** The equality set up by the normalizer. *)
Definition correctedIsRaw (a : NormalizedAnomaly) : Prop :=
  Anomaly.corrected_distance a == Anomaly.distance a.

Definition byDistance (a b : NormalizedAnomaly) : Prop :=
  Anomaly.distance a <= Anomaly.distance b.

Definition notInterpolated (a : NormalizedAnomaly) : Prop :=
  ~ In distance_interpolated (Anomaly.cleaning_flags a).

(** ** Distance correction *)

(** Translation by the offset of a reference pair. *)
Definition translatedBy (m : MatchedReference) (a : NormalizedAnomaly) : Prop :=
  Anomaly.corrected_distance a
  == Anomaly.distance a + (Ref.distance (run1 m) - Ref.distance (run2 m)).

(** The pairs of an identity alignment. *)
Definition identityPair (m : MatchedReference) : Prop :=
  Ref.distance (run1 m) == Ref.distance (run2 m).

(** The raw interval of a zone is not degenerate. *)
Definition positiveRawSpan (z : AlignmentZone) : Prop :=
  Ref.distance (run2 (start_ref z)) < Ref.distance (run2 (end_ref z)).

(** The boundary point shared by a zone and its successor. *)
Definition boundaryOf (z : AlignmentZone) : Q := Ref.distance (run2 (end_ref z)).

Definition tolerance : Q := 1 # 1000000.

(** ** Example data *)

Definition exampleRow (distance : Q) (featureType : string) (clock : RawClock)
           (depth len wid : Q) : RawAnomaly :=
  Raw.mk None (RNum distance) RMissing RMissing RMissing clock (Some featureType)
         (RNum depth) (RNum len) (RNum wid) RMissing None.

Definition exampleDent (runIndex idx : nat) (distance : Q) : NormalizedAnomaly :=
  normalizeRow runIndex idx (exampleRow distance "dent" (CClock 4 30) 30 2 1).

Definition exampleWeld (runIndex idx : nat) (distance : Q) : NormalizedAnomaly :=
  normalizeRow runIndex idx (exampleRow distance "girth weld" CNull 0 0 0).

Definition exampleRef (runIndex : nat) (distance : Q) : ReferencePoint :=
  Ref.mk "weld" distance distance 0 girth_weld runIndex.

(** One pair: a weld at 100 ft in the reference run, read at 150 ft by
    the later run. *)
Definition singlePair : MatchedReference :=
  mkMatchedReference (exampleRef 0 100) (exampleRef 1 150) 50 0.

(** Three reference points of the earlier run at 0, 100 and 700 ft; the
    later run reports two reference points at 10 ft and one at 710 ft. *)
Definition degeneratePairs : list MatchedReference :=
  matchReferencePoints [exampleRef 0 0; exampleRef 0 100; exampleRef 0 700]
                       [exampleRef 1 10; exampleRef 1 10; exampleRef 1 710].

(** Three welds shifted by 10, 20 and 30 ft. *)
Definition regularPairs : list MatchedReference :=
  matchReferencePoints [exampleRef 0 0; exampleRef 0 100; exampleRef 0 700]
                       [exampleRef 1 10; exampleRef 1 120; exampleRef 1 730].

(** Three welds found at the same distances by both runs. *)
Definition identityPairs : list MatchedReference :=
  matchReferencePoints [exampleRef 0 0; exampleRef 0 100; exampleRef 0 700]
                       [exampleRef 1 0; exampleRef 1 100; exampleRef 1 700].

(** Two uploaded tables: the reference run (one weld, two dents) and a
    later run without rows. *)
Definition exampleTables : list (list RawAnomaly * Q) :=
  [ ([ exampleRow 150000 "dent" (CClock 4 30) 30 2 1;
       exampleRow 100000 "girth weld" CNull 0 0 0;
       exampleRow 120000 "dent" (CClock 6 0) 45 3 1 ], 2015);
    ([], 2020) ].

Definition exampleLaterTable : list RawAnomaly :=
  [ exampleRow 150000 "dent" (CClock 4 30) 30 2 1;
    exampleRow 100 "girth weld" CNull 0 0 0;
    exampleRow 400 "dent" (CClock 6 0) 45 3 1 ].

(** Two rows of two runs that agree in everything but the clock
    position, entered as the numbers -11 and 11. *)
Definition clockRowA : RawAnomaly := exampleRow 100000 "dent" (CNum (-11)) 30 2 1.
Definition clockRowB : RawAnomaly := exampleRow 100000 "dent" (CNum 11) 30 2 1.

(** ** Similarity *)

Definition unitInterval (x : R) : Prop := (0 <= x <= 1)%R.

Definition similarityInRange (s : SimilarityBreakdown) : Prop :=
  unitInterval (Sim.distance s) /\ unitInterval (Sim.dimensional s)
  /\ unitInterval (Sim.clock s) /\ unitInterval (Sim.feature_type s)
  /\ unitInterval (Sim.total s).

(** The range documented for [clock_degrees]. *)
Definition clockInRange (a : NormalizedAnomaly) : Prop :=
  0 <= Anomaly.clock_degrees a /\ Anomaly.clock_degrees a < 360.

Definition clockAnomalyA : NormalizedAnomaly := normalizeRow 0 0 clockRowA.
Definition clockAnomalyB : NormalizedAnomaly := normalizeRow 1 0 clockRowB.

(** ** Chains *)

Definition statusConfidenceInvariant (c : AnomalyMatch) : Prop :=
  match Match.match_status c with
  | Status.matched => (CONFIDENCE_HIGH <= Match.confidence c)%R
  | Status.uncertain =>
      (CONFIDENCE_LOW <= Match.confidence c < CONFIDENCE_HIGH)%R
  | Status.new | Status.missing => Match.confidence c = 0%R
  end.

Definition confident (p : MatchPair) : Prop :=
  (CONFIDENCE_LOW <= Sim.total (similarity p))%R.

(** The members of the chains, as (run, row) positions. *)
Definition membersOf (chains : list AnomalyMatch) : list (nat * nat) :=
  flat_map Match.anomaly_refs chains.

Definition ref_eqb (x y : nat * nat) : bool :=
  (Nat.eqb (fst x) (fst y) && Nat.eqb (snd x) (snd y))%bool.

(** The chains in which the anomaly at position [ref] appears. *)
Definition chainsContaining (ref : nat * nat) (chains : list AnomalyMatch)
  : list AnomalyMatch :=
  filter (fun c => existsb (ref_eqb ref) (Match.anomaly_refs c)) chains.

(** The anomalies the matcher chains: the non-reference rows of the
    first three runs. *)
Definition chained (runs : list (list NormalizedAnomaly)) (ref : nat * nat) : bool :=
  (Nat.ltb (fst ref) 3
   && match element runs ref with
      | Some a => negb (Anomaly.is_reference_point a)
      | None => false
      end)%bool.

(** A run of one dent and a run without rows. *)
Definition dentOnlyRuns : list (list NormalizedAnomaly) :=
  [[exampleDent 0 0 100000]; []].

(** Two runs that each consist of one girth weld. *)
Definition weldOnlyRuns : list (list NormalizedAnomaly) :=
  [[exampleWeld 0 0 100000]; [exampleWeld 1 0 100000]].

(** Four runs; the third and the fourth hold the same dent. *)
Definition fourRuns : list (list NormalizedAnomaly) :=
  [[]; []; [exampleDent 2 0 100000]; [exampleDent 3 0 100000]].

Definition fourYears : list Q := [2010; 2015; 2020; 2025].

(** ** Assignment *)

(** The columns handed out by an assignment: its entries other than
    the sentinel -1. *)
Definition assigned (assignment : list Z) : list Z :=
  filter (fun z => negb (Z.eqb z (-1))) assignment.

(** Every assigned column is recorded as used, and no column is
    assigned twice. *)
Definition assignmentInvariant (st : list Z * list nat) : Prop :=
  NoDup (assigned (fst st))
  /\ forall z, In z (assigned (fst st)) -> exists j, z = Z.of_nat j /\ In j (snd st).

(** ** Pairwise matching *)

(** The rows of a run that are not reference points. *)
Definition nonReferenceRows (run : list NormalizedAnomaly) : list nat :=
  map fst (nonReference run).

(** The row of the run behind position [i] of the filtered array whose
    rows are [rows]. *)
Definition rowAt (rows : list nat) (i : nat) : nat := nth i rows 0%nat.

(** What the acceptance loop has established after the entries [pre]
    of the assignment. *)
Definition acceptInvariant (r1 r2 : list (nat * NormalizedAnomaly))
           (pre : list (nat * Z)) (st : list MatchPair * list nat * list nat) : Prop :=
  let '(pairs, matchedR1, matchedR2) := st in
  map run1Idx pairs = map (rowAt (map fst r1)) (rev matchedR1)
  /\ map run2Idx pairs = map (rowAt (map fst r2)) (rev matchedR2)
  /\ (forall i, In i matchedR1 -> (i < List.length r1)%nat /\ In i (map fst pre))
  /\ (forall j, In j matchedR2 ->
                (j < List.length r2)%nat /\ exists i, In (i, Z.of_nat j) pre)
  /\ NoDup matchedR1 /\ NoDup matchedR2.

(** ** Chain construction *)

(** The members of the chains pushed so far. *)
Definition emitted (st : ChainState) : list (nat * nat) := membersOf (fst (fst st)).

(** The run-3 rows still waiting in [run2ToRun3Map]. *)
Definition run3Values (m : Run3Map) : list (nat * nat) :=
  map (fun e => (2%nat, fst (snd e))) m.

(** [runs[r][i]] is an anomaly. *)
Definition available (runs : list (list NormalizedAnomaly)) (ref : nat * nat) : Prop :=
  element runs ref <> None.

Definition mapReady (runs : list (list NormalizedAnomaly)) (m : Run3Map) : Prop :=
  NoDup (map fst m) /\ forall e, In e m -> available runs (2%nat, fst (snd e)).

Definition pairRefs (p : MatchPair) : list (nat * nat) :=
  [(0%nat, run1Idx p); (1%nat, run2Idx p)].

(** The positions the matcher chains, run by run. *)
Definition chainedRows (runs : list (list NormalizedAnomaly)) : list (nat * nat) :=
  map (pair 0%nat) (nonReferenceRows (nth 0 runs []))
  ++ map (pair 1%nat) (nonReferenceRows (nth 1 runs []))
  ++ (if Nat.leb 3 (List.length runs)
      then map (pair 2%nat) (nonReferenceRows (nth 2 runs []))
      else []).

(** C1 as stated: every anomaly of every run is in exactly one chain. *)
Definition partitionsAllAnomalies (runs : list (list NormalizedAnomaly))
           (chains : list AnomalyMatch) : Prop :=
  forall ref a, element runs ref = Some a ->
                List.length (chainsContaining ref chains) = 1%nat.

Definition ref_eq_dec (x y : nat * nat) : {x = y} + {x <> y}.
Proof. decide equality; apply Nat.eq_dec. Defined.

Definition jointRef (runIndex : nat) (distance joint : Q) : ReferencePoint :=
  Ref.mk "weld" distance distance joint girth_weld runIndex.

(** Reference points whose joint numbers pair them crosswise: the
    matched pairs, ordered by the earlier run, are (0, 8), (1, 10),
    (2, 5) and (3, 20). *)
Definition crossingPairs : list MatchedReference :=
  matchReferencePoints
    [jointRef 0 0 2; jointRef 0 1 3; jointRef 0 2 1; jointRef 0 3 4]
    [jointRef 1 5 1; jointRef 1 8 2; jointRef 1 10 3; jointRef 1 20 4].

(** The distance the corrector assigns to the raw distance [raw] of
    the later run. *)
Definition correctedAt (matchedRefs : list MatchedReference) (raw : Q) : Q :=
  Anomaly.corrected_distance
    (nth 0 (applyDistanceCorrection [exampleDent 1 0 raw]
                                    (createAlignmentZones matchedRefs) matchedRefs)
         (exampleDent 1 0 raw)).

(** Two runs that report the same dent. *)
Definition sameDentRuns : list (list NormalizedAnomaly) :=
  [[exampleDent 0 0 100000]; [exampleDent 1 0 100000]].

(* ================================================================= *)
(** * Further properties of the engine *)

(** ** Priority and predictions *)

(** The second growth record is at least as alarming as the first: the
    depth changes at least as fast, and the critical depth is reached
    no later. *)
Definition noLessUrgent (g1 g2 : GrowthRates) : Prop :=
  Qabs (depth_growth_rate g1) <= Qabs (depth_growth_rate g2)
  /\ forall t1, time_to_critical g1 = Some t1 ->
                exists t2, time_to_critical g2 = Some t2 /\ t2 <= t1.

Definition steadyGrowth (rate : Q) (ttc : option Q) : GrowthRates :=
  mkGrowthRates rate 0 0 ttc [] (fun _ => 0).

(** A chain that carries the given anomalies, growth rate and nothing
    else of interest. *)
Definition chainOf (anomalies : list NormalizedAnomaly) (rate : Q) : AnomalyMatch :=
  Match.mk "match-0" anomalies [] [] 0%R Status.matched zeroSimilarity
           rate 0 0 None MONITOR "" "" 0 0.

Definition depthInRange (a : NormalizedAnomaly) : Prop :=
  0 <= Anomaly.depth_percent a <= 100.

(** ** Growth analysis *)

(** The quantity [denom] of the regression: n times the sum of the
    squares minus the square of the sum. *)
Definition spread (x : list Q) : Q :=
  inject_Z (Z.of_nat (List.length x)) * fold_left (fun a xi => a + xi * xi) x 0
  - sum x * sum x.

(** A dent of the given depth, 100 ft down the line. *)
Definition dentOfDepth (runIndex : nat) (depth : Q) : NormalizedAnomaly :=
  normalizeRow runIndex 0 (exampleRow 100 "dent" (CClock 4 30) depth 2 1).
(** ** Similarity *)

(** The squared magnitude of the vector (depth, length, width). *)
Definition squaredMagnitude (a : NormalizedAnomaly) : Q :=
  Anomaly.depth_percent a * Anomaly.depth_percent a
  + Anomaly.length a * Anomaly.length a
  + Anomaly.width a * Anomaly.width a.

(** ** Assignment: the greedy passes *)

(** The padded and reduced matrix on which the greedy passes run. *)
Definition reducedMatrix (costMatrix : Matrix) : Matrix :=
  let n := List.length costMatrix in
  let m := List.length (hd [] costMatrix) in
  let size := Nat.max n m in
  let matrix : Matrix :=
    map (fun i =>
           map (fun j =>
                  if (Nat.ltb i n && Nat.ltb j m)%bool
                  then entry costMatrix i j else 0%R)
               (seq 0 size))
        (seq 0 size) in
  let matrix : Matrix :=
    map (fun row => let rowMin := rowMinimum row in
                    map (fun x => (x - rowMin)%R) row) matrix in
  fold_left subtractColumn (seq 0 size) matrix.

(** One pass of the greedy loop over the rows. *)
Definition greedyPass (costMatrix : Matrix) (st : list Z * list nat)
  : list Z * list nat :=
  fold_left (assignRow (reducedMatrix costMatrix) (List.length (hd [] costMatrix)))
            (seq 0 (List.length costMatrix)) st.

(** The state before the first pass. *)
Definition unassigned (costMatrix : Matrix) : list Z * list nat :=
  (repeat (-1)%Z (List.length costMatrix), []).

(** What a pass has established after the rows below [k] of an [n] by
    [m] matrix: the first [min k m] rows hold the used columns, which
    are [min k m] distinct columns of the matrix; the other rows are
    unassigned. *)
Definition greedyInvariant (n m k : nat) (st : list Z * list nat) : Prop :=
  List.length (fst st) = n
  /\ NoDup (snd st)
  /\ (forall j, In j (snd st) -> (j < m)%nat)
  /\ List.length (snd st) = Nat.min k m
  /\ (forall i, (i < n)%nat ->
                (nth i (fst st) (-1)%Z <> (-1)%Z <-> (i < Nat.min k m)%nat))
  /\ (forall i, (i < n)%nat -> nth i (fst st) (-1)%Z <> (-1)%Z ->
                exists j, nth i (fst st) (-1)%Z = Z.of_nat j /\ In j (snd st)).

(** The score listed last for the cell (i, j), if any. *)
Definition lastScore (similarities : list (nat * nat * R)) (i j : nat) : option R :=
  fold_left
    (fun acc '(row, col, score) =>
       if (Nat.eqb row i && Nat.eqb col j)%bool then Some score else acc)
    similarities None.

(** The cell of a similarity lies inside the matrix. *)
Definition inMatrix (nRows nCols : nat) (s : nat * nat * R) : Prop :=
  (fst (fst s) < nRows)%nat /\ (snd (fst s) < nCols)%nat.

(** The cost of a cell with the given listed score. *)
Definition costOf (listed : option R) : R :=
  match listed with
  | Some score => (1 - score)%R
  | None => LARGE_COST
  end.

(** ** Pairwise matching and chains *)

(** A reported pair is sound: its indices point at two anomalies that
    are not reference points and are at most [DISTANCE_FILTER] feet
    apart after alignment, its similarity is the similarity of these
    two anomalies, and their total score reaches [CONFIDENCE_LOW]. *)
Definition soundPair (run1 run2 : list NormalizedAnomaly) (p : MatchPair) : Prop :=
  exists a1 a2,
    nth_error run1 (run1Idx p) = Some a1
    /\ nth_error run2 (run2Idx p) = Some a2
    /\ Anomaly.is_reference_point a1 = false
    /\ Anomaly.is_reference_point a2 = false
    /\ similarity p = calculateSimilarity a1 a2
    /\ (Rabs (Q2R (Anomaly.corrected_distance a1)
              - Q2R (Anomaly.corrected_distance a2)) <= DISTANCE_FILTER)%R
    /\ (CONFIDENCE_LOW <= Sim.total (similarity p))%R.

(** The identifier of the k-th chain. *)
Definition chainId (k : nat) : string := ("match-" ++ Js.natToString k)%string.

(** The runs a chain may span, by status. *)
Definition chainShape (c : AnomalyMatch) : Prop :=
  Match.run_indices c = map fst (Match.anomaly_refs c)
  /\ List.length (Match.anomalies c) = List.length (Match.run_indices c)
  /\ match Match.match_status c with
     | Status.matched | Status.uncertain =>
         Match.run_indices c = [0; 1]%nat \/ Match.run_indices c = [0; 1; 2]%nat
     | Status.missing => Match.run_indices c = [0%nat]
     | Status.new =>
         Match.run_indices c = [1%nat] \/ Match.run_indices c = [1; 2]%nat
         \/ Match.run_indices c = [2%nat]
     end.

(** ** Distance correction along increasing references *)

(** The earlier pair lies before the later one in both runs. *)
Definition pairBefore (a b : MatchedReference) : Prop :=
  Ref.distance (run1 a) < Ref.distance (run1 b)
  /\ Ref.distance (run2 a) < Ref.distance (run2 b).

(** The matched pairs are listed in strictly increasing order of
    distance in both runs: no two references coincide or cross. *)
Definition increasingPairs (matchedRefs : list MatchedReference) : Prop :=
  Sorted pairBefore matchedRefs.


(** The fields of an anomaly other than the corrected distance. *)
Definition uncorrected (a : NormalizedAnomaly) : NormalizedAnomaly :=
  Anomaly.with_corrected_distance 0 a.

(** ** Reference points *)

(** The reference point made from an anomaly of run [runIndex]. *)
Definition referenceOf (runIndex : nat) (a : NormalizedAnomaly) : ReferencePoint :=
  Ref.mk (Anomaly.id a) (Anomaly.distance a) (Anomaly.odometer a)
         (Anomaly.joint_number a) (Anomaly.canonical_type a) runIndex.

(** A matched pair is sound: its members are reference points of the
    two runs at most [tolerance] apart, and its offset and drift are
    computed from them. *)
Definition soundReference (tolerance : Q) (run1Refs run2Refs : list ReferencePoint)
           (m : MatchedReference) : Prop :=
  In (run1 m) run1Refs /\ In (run2 m) run2Refs
  /\ Qabs (Ref.distance (run1 m) - Ref.distance (run2 m)) <= tolerance
  /\ distance_offset m = Ref.distance (run2 m) - Ref.distance (run1 m)
  /\ odometer_drift m
     = (Ref.distance (run2 m) - Ref.odometer (run2 m))
       - (Ref.distance (run1 m) - Ref.odometer (run1 m)).

(** What the matching loop has established after the reference points
    [pre] of the earlier run. *)
Definition referenceInvariant (tolerance : Q) (run1Refs run2Refs pre : list ReferencePoint)
           (st : list MatchedReference * list nat) : Prop :=
  Forall (soundReference tolerance run1Refs run2Refs) (fst st)
  /\ Forall (fun m => In (run1 m) pre) (fst st)
  /\ (NoDup pre -> NoDup (map run1 (fst st)))
  /\ (List.length (fst st) <= List.length pre)%nat
  /\ List.length (fst st) = List.length (snd st)
  /\ NoDup (snd st)
  /\ (forall j, In j (snd st) -> (j < List.length run2Refs)%nat)
  /\ (forall m, In m (fst st) ->
                exists j, In j (snd st) /\ nth_error run2Refs j = Some (run2 m))
  /\ (NoDup run2Refs -> NoDup (map run2 (fst st))).

(** ** Normalizer *)

(** The display of a clock position given as hour and minutes. *)
Definition clockText (hours minutes : nat) : string :=
  (Js.natToString hours ++ ":" ++ padStart2 (Js.natToString minutes))%string.

(** Parsing the cell H:MM and displaying the angle gives H:MM back. *)
Definition clockRoundTrip (hm : nat * nat) : bool :=
  String.eqb (degreesToClockDisplay (parseClockPosition (CClock (fst hm) (snd hm))))
             (clockText (fst hm) (snd hm)).

(** The clock cell is not a negative number. *)
Definition notNegative (value : RawClock) : Prop :=
  match value with
  | CNum num => 0 <= num
  | _ => True
  end.

(** What the normalizer guarantees for a row of run [runIndex]. *)
Definition normalized (runIndex : nat) (a : NormalizedAnomaly) : Prop :=
  0 <= Anomaly.depth_percent a <= 100
  /\ 0 <= Anomaly.length a
  /\ 0 <= Anomaly.width a
  /\ Anomaly.corrected_distance a = Anomaly.distance a
  /\ Anomaly.cleaning_flags a = []
  /\ Anomaly.run_index a = runIndex
  /\ Anomaly.is_reference_point a = isReferenceType (Anomaly.canonical_type a).

(** The identifier given to row [idx] of run [runIndex]. *)
Definition rowId (runIndex idx : nat) : string :=
  ("run" ++ Js.natToString runIndex ++ "-" ++ Js.natToString idx)%string.

(** ** Data cleaner *)

(** [small] is obtained from [big] by deleting elements. *)
Inductive Subsequence {A : Type} : list A -> list A -> Prop :=
| Subsequence_nil : Subsequence [] []
| Subsequence_skip (x : A) (small big : list A) :
    Subsequence small big -> Subsequence small (x :: big)
| Subsequence_keep (x : A) (small big : list A) :
    Subsequence small big -> Subsequence (x :: small) (x :: big).

(** The values a row may hold after the clamping pass. *)
Definition withinLimits (a : NormalizedAnomaly) : Prop :=
  0 <= Anomaly.depth_percent a <= 100
  /\ Anomaly.length a <= 100
  /\ Anomaly.width a <= 100
  /\ Anomaly.wall_thickness a <= 25 # 10
  /\ ~ (0 < Anomaly.wall_thickness a /\ Anomaly.wall_thickness a < 5 # 100).

(** The number of cleaning flags attached to the rows. *)
Definition flagCount (data : list NormalizedAnomaly) : nat :=
  List.length (flat_map Anomaly.cleaning_flags data).

(** What the duplicate-removal loop returns for the keys [seen] and the
    rows [data]. *)
Definition dedupInvariant (seen : list DupKey) (data : list NormalizedAnomaly)
           (result : list NormalizedAnomaly * nat) : Prop :=
  NoDup (map dupKey (fst result))
  /\ (forall a, In a (fst result) -> ~ In (dupKey a) seen)
  /\ Subsequence (fst result) data
  /\ (forall a, In a data ->
                In (dupKey a) seen \/ In (dupKey a) (map dupKey (fst result)))
  /\ (snd result + List.length (fst result) = List.length data)%nat.

(** ** Odometer drift *)

(** The drift of a point is its distance minus its odometer reading. *)
Definition driftIsOffset (p : OdometerDriftPoint) : Prop :=
  Drift.drift p = Drift.distance p - Drift.odometer p.

(** ** GPS interpolation *)

(** The vertices of the polyline are listed at strictly increasing
    distances. *)
Definition increasingRoute (pipelineCoords : list PipelineCoordinate) : Prop :=
  Sorted (fun a b => Coord.distance a < Coord.distance b) pipelineCoords.

(** The point at parameter [t] of the segment from [p1] to [p2]. *)
Definition onSegment (p1 p2 : PipelineCoordinate) (t : Q) (gps : Q * Q) : Prop :=
  fst gps == Coord.lat p1 + (Coord.lat p2 - Coord.lat p1) * t
  /\ snd gps == Coord.lng p1 + (Coord.lng p2 - Coord.lng p1) * t.

(** A route of three vertices at 0, 1000 and 3000 ft. *)
Definition exampleRoute : list PipelineCoordinate :=
  [Coord.mk 32 (-102) 0; Coord.mk 33 (-101) 1000; Coord.mk 35 (-100) 3000].

(** Latitudes and longitudes are angles of at most 360 degrees in
    absolute value. *)
Definition anglesInRange (v : PipelineCoordinate) : Prop :=
  Qabs (Coord.lat v) <= 360 /\ Qabs (Coord.lng v) <= 360.

(** The coordinates are those of the vertex [v] to within 1e-12
    degrees. *)
Definition nearVertex (v : PipelineCoordinate) (gps : Q * Q) : Prop :=
  Qabs (fst gps - Coord.lat v) <= 1 # 1000000000000
  /\ Qabs (snd gps - Coord.lng v) <= 1 # 1000000000000.
(** ** Orchestrator *)

(** The rows of [run] are rows of the normalized data of [f], in their
    order and under their identifiers. *)
Definition rowsOf (f : RunFile) (run : list NormalizedAnomaly) : Prop :=
  Subsequence (map Anomaly.id run) (map Anomaly.id (normalized_data f)).

(* ================================================================= *)
(** ** Distance correction in double arithmetic *)

(** The distances the rounding bounds are stated for: at most 10^9 ft
    in absolute value. *)
Definition maxDistance : Q := 1000000000.

Definition distancesInRange (m : MatchedReference) : Prop :=
  Qabs (Ref.distance (run1 m)) <= maxDistance
  /\ Qabs (Ref.distance (run2 m)) <= maxDistance.

(** Adjacent zone maps agree at every internal boundary, as the
    source computes them. *)
Definition roundedBoundariesAgree (zones : list AlignmentZone) : Prop :=
  forall i z1 z2,
    nth_error zones i = Some z1 -> nth_error zones (S i) = Some z2 ->
    Qabs (Double.zoneMap z1 (boundaryOf z1) - Double.zoneMap z2 (boundaryOf z1))
    <= tolerance.

(** A reference pair read at the same decimal distance by both runs. *)
Definition samePlace (distance : Q) : MatchedReference :=
  mkMatchedReference (exampleRef 0 (Double.literal distance))
                     (exampleRef 1 (Double.literal distance)) 0 0.

(** Two welds found at 23.4 ft and 107.1 ft by both runs. *)
Definition decimalIdentityPairs : list MatchedReference :=
  [samePlace (234 # 10); samePlace (1071 # 10)].

(** The dent of the later run at 89.3 ft. *)
Definition decimalDent : NormalizedAnomaly :=
  exampleDent 1 0 (Double.literal (893 # 10)).

(* ================================================================= *)
(** ** Chains and the two pairwise matches *)

(** The member of run 2 that [run2ToRun3Map] holds for row [key] of
    run 1. *)
Definition lookupRun3 (hasRun3 : bool) (m : Run3Map) (key : nat) : list (nat * nat) :=
  match mapGet m key with
  | Some v => if hasRun3 then [(2%nat, fst v)] else []
  | None => []
  end.

Definition mapDeleteAll (keys : list nat) (m : Run3Map) : Run3Map :=
  fold_left mapDelete keys m.

(** The members of the chains pushed so far, chain by chain. *)
Definition refsOf (st : ChainState) : list (list (nat * nat)) :=
  map Match.anomaly_refs (fst (fst st)).

(** [run2ToRun3Map] after the keys [keys] have been looked up. *)
Definition afterKeys (hasRun3 : bool) (keys : list nat) (m : Run3Map) : Run3Map :=
  if hasRun3 then mapDeleteAll keys m else m.

(** The member of run 2 that the match of runs 1 and 2 pairs with row
    [j] of run 1. *)
Definition run3Link (match23 : option MatchResult) (j : nat) : list (nat * nat) :=
  match match23 with
  | Some m23 =>
      match find (fun p => Nat.eqb (run1Idx p) j) (pairs m23) with
      | Some p => [(2%nat, run2Idx p)]
      | None => []
      end
  | None => []
  end.

(** The chains, member by member, that the two pairwise matches
    determine: a chain for every pair of runs 0 and 1 and for every
    new row of run 1, each continued into run 2 by the pair of runs 1
    and 2 that starts at its run-1 member; a chain for every missing
    row of run 0; a chain for every new row of run 2. *)
Definition pairwiseChains (runs : list (list NormalizedAnomaly))
  : list (list (nat * nat)) :=
  if Nat.ltb (List.length runs) 2 then []
  else
    let match12 := matchAnomalies (nth 0 runs []) (nth 1 runs []) in
    let match23 :=
      if Nat.leb 3 (List.length runs)
      then Some (matchAnomalies (nth 1 runs []) (nth 2 runs []))
      else None in
    map (fun p => pairRefs p ++ run3Link match23 (run2Idx p)) (pairs match12)
    ++ map (fun j => (1%nat, j) :: run3Link match23 j) (newAnomalies match12)
    ++ map (fun i => [(0%nat, i)]) (missingAnomalies match12)
    ++ match match23 with
       | Some m23 => map (fun k => [(2%nat, k)]) (newAnomalies m23)
       | None => []
       end.

(** Row [i] of run [r] and row [j] of run [r + 1] are a pair of the
    pairwise match of these two runs. *)
Definition pairedBy (runs : list (list NormalizedAnomaly)) (r i j : nat) : Prop :=
  exists p,
    In p (pairs (matchAnomalies (nth r runs []) (nth (S r) runs [])))
    /\ run1Idx p = i /\ run2Idx p = j.

(** [x] is immediately followed by [y] in the chain. *)
Definition linkOf (refs : list (nat * nat)) (x y : nat * nat) : Prop :=
  exists before after, refs = before ++ x :: y :: after.

(** Every two consecutive members of the chain come from runs 0 and 1
    or from runs 1 and 2, and are a pair of the pairwise match of
    these two runs. *)
Definition linksPairwise (runs : list (list NormalizedAnomaly))
           (refs : list (nat * nat)) : Prop :=
  forall x y, linkOf refs x y ->
    (fst x <= 1)%nat /\ fst y = S (fst x)
    /\ (S (fst x) < List.length runs)%nat
    /\ pairedBy runs (fst x) (snd x) (snd y).

(* ================================================================= *)
(** * Proofs *)

(** ** Comparisons and sorting *)

Ltac qlra := Lqa.lra.
Ltac rlra := Lra.lra.

Lemma leb_true (x y : Q) : Js.leb x y = true <-> x <= y.
Proof. unfold Js.leb. apply Qle_bool_iff. Qed.

Lemma leb_false (x y : Q) : Js.leb x y = false <-> y < x.
Proof.
  unfold Js.leb. split; intro H.
  - apply Qnot_le_lt. intro Hle. apply Qle_bool_iff in Hle. congruence.
  - destruct (Qle_bool x y) eqn:E; [|reflexivity].
    apply Qle_bool_iff in E. exfalso. exact (Qlt_not_le _ _ H E).
Qed.

Lemma ltb_true (x y : Q) : Js.ltb x y = true <-> x < y.
Proof.
  unfold Js.ltb. rewrite negb_true_iff. apply (leb_false y x).
Qed.

Lemma ltb_false (x y : Q) : Js.ltb x y = false <-> y <= x.
Proof.
  unfold Js.ltb. rewrite negb_false_iff. apply (leb_true y x).
Qed.

Lemma gtb_true (x y : Q) : Js.gtb x y = true <-> y < x.
Proof. unfold Js.gtb. apply ltb_true. Qed.

Lemma gtb_false (x y : Q) : Js.gtb x y = false <-> x <= y.
Proof. unfold Js.gtb. apply ltb_false. Qed.

Lemma geb_true (x y : Q) : Js.geb x y = true <-> y <= x.
Proof. unfold Js.geb. apply leb_true. Qed.

Lemma geb_false (x y : Q) : Js.geb x y = false <-> x < y.
Proof. unfold Js.geb. apply leb_false. Qed.

Lemma eqb_true (x y : Q) : Js.eqb x y = true <-> x == y.
Proof. unfold Js.eqb. apply Qeq_bool_iff. Qed.

Section SortFacts.
Context {A : Type} (cmp : A -> A -> Q).

Lemma insert_In (x y : A) (l : list A) :
  In y (Js.insert cmp x l) <-> y = x \/ In y l.
Proof.
  induction l as [|z l IH]; simpl.
  - intuition.
  - destruct (Js.leb (cmp x z) 0); simpl.
    + intuition.
    + rewrite IH. intuition.
Qed.

Lemma sort_In (y : A) (l : list A) : In y (Js.sort cmp l) <-> In y l.
Proof.
  induction l as [|x l IH]; simpl.
  - reflexivity.
  - rewrite insert_In, IH. intuition.
Qed.

Lemma insert_length (x : A) (l : list A) :
  List.length (Js.insert cmp x l) = S (List.length l).
Proof.
  induction l as [|z l IH]; simpl; [reflexivity|].
  destruct (Js.leb (cmp x z) 0); simpl; congruence.
Qed.

Lemma sort_length (l : list A) : List.length (Js.sort cmp l) = List.length l.
Proof.
  induction l as [|x l IH]; simpl; [reflexivity|].
  rewrite insert_length. congruence.
Qed.

Lemma insert_Permutation (x : A) (l : list A) :
  Permutation (x :: l) (Js.insert cmp x l).
Proof.
  induction l as [|z l IH]; simpl.
  - apply Permutation_refl.
  - destruct (Js.leb (cmp x z) 0).
    + apply Permutation_refl.
    + eapply perm_trans; [apply perm_swap|]. apply perm_skip. exact IH.
Qed.

Lemma sort_Permutation (l : list A) : Permutation l (Js.sort cmp l).
Proof.
  induction l as [|x l IH]; simpl.
  - apply perm_nil.
  - eapply perm_trans; [apply perm_skip; exact IH|]. apply insert_Permutation.
Qed.

End SortFacts.

(** Sorting by a numeric key [key a - key b] yields a list whose keys
    ascend. *)
Section SortByKey.
Context {A : Type} (key : A -> Q).

Lemma insert_ascending (x : A) (l : list A) :
  ascending key l -> ascending key (Js.insert (fun a b => key a - key b) x l).
Proof.
  unfold ascending. induction l as [|z l IH]; simpl; intro Hs.
  - repeat constructor.
  - destruct (Js.leb (key x - key z) 0) eqn:E.
    + apply leb_true in E. constructor; [exact Hs|]. constructor. qlra.
    + apply leb_false in E. inversion Hs as [|? ? Hs' Hhd]; subst.
      constructor; [apply IH; exact Hs'|].
      destruct l as [|w l]; simpl.
      * constructor. qlra.
      * destruct (Js.leb (key x - key w) 0); constructor; [qlra|].
        inversion Hhd; subst. assumption.
Qed.

Lemma sort_ascending (l : list A) :
  ascending key (Js.sort (fun a b => key a - key b) l).
Proof.
  induction l as [|x l IH]; simpl.
  - constructor.
  - apply insert_ascending. exact IH.
Qed.

Lemma ascending_adjacent (l : list A) (i : nat) (a b : A) :
  ascending key l -> nth_error l i = Some a -> nth_error l (S i) = Some b ->
  key a <= key b.
Proof.
  unfold ascending. revert i. induction l as [|x l IH]; intros i Hs Ha Hb.
  - destruct i; discriminate.
  - inversion Hs as [|? ? Hs' Hhd]; subst. destruct i as [|i]; simpl in *.
    + injection Ha as <-. destruct l as [|y l]; [discriminate|].
      simpl in Hb. injection Hb as <-. inversion Hhd; subst. assumption.
    + eapply IH; eassumption.
Qed.

End SortByKey.

Lemma indexedFrom_nth_error {A : Type} (l : list A) (k i : nat) (a : A) :
  In (i, a) (Js.indexedFrom k l) <-> (k <= i)%nat /\ nth_error l (i - k) = Some a.
Proof.
  revert k. induction l as [|x l IH]; intro k; simpl.
  - split; [tauto|]. intros [_ H]. destruct (i - k)%nat; discriminate.
  - rewrite IH. split.
    + intros [H|[Hle H]].
      * injection H as <- <-. split; [lia|]. rewrite Nat.sub_diag. reflexivity.
      * split; [lia|]. replace (i - k)%nat with (S (i - S k)) by lia. exact H.
    + intros [Hle H]. destruct (Nat.eq_dec i k) as [->|Hne].
      * rewrite Nat.sub_diag in H. simpl in H. left. congruence.
      * right. split; [lia|].
        replace (i - k)%nat with (S (i - S k)) in H by lia. exact H.
Qed.

Lemma indexed_nth_error {A : Type} (l : list A) (i : nat) (a : A) :
  In (i, a) (Js.indexed l) <-> nth_error l i = Some a.
Proof.
  unfold Js.indexed. rewrite indexedFrom_nth_error, Nat.sub_0_r.
  split; [tauto|]. intro H. split; [lia|exact H].
Qed.

Lemma indexedFrom_snd {A : Type} (l : list A) (k : nat) :
  map snd (Js.indexedFrom k l) = l.
Proof.
  revert k. induction l as [|x l IH]; intro k; simpl; [reflexivity|].
  rewrite IH. reflexivity.
Qed.

Lemma indexedFrom_fst {A : Type} (l : list A) (k : nat) :
  map fst (Js.indexedFrom k l) = seq k (List.length l).
Proof.
  revert k. induction l as [|x l IH]; intro k; simpl; [reflexivity|].
  rewrite IH. reflexivity.
Qed.

(* ================================================================= *)
(** ** Priority classification *)

Lemma ttcWithin_true (t : option Q) (bound : Q) :
  ttcWithin t bound = true <-> ttcAtMost t bound.
Proof.
  unfold ttcWithin, ttcAtMost. destruct t as [v|].
  - rewrite leb_true. split.
    + intro H. exists v. split; [reflexivity|exact H].
    + intros [w [Hw Hle]]. injection Hw as ->. exact Hle.
  - split; [discriminate|]. intros [w [Hw _]]. discriminate.
Qed.

Lemma immediate_reflect (d g : Q) (t : option Q) :
  (Js.geb d 80 || ttcWithin t 1 || Js.geb g 8)%bool = true
  <-> immediateCondition d g t.
Proof.
  unfold immediateCondition.
  rewrite !orb_true_iff, !geb_true, ttcWithin_true. tauto.
Qed.

Lemma day60_reflect (d g : Q) (t : option Q) :
  (Js.geb d 60 || Js.geb g 5 || ttcWithin t 3)%bool = true
  <-> day60Condition d g t.
Proof.
  unfold day60Condition.
  rewrite !orb_true_iff, !geb_true, ttcWithin_true. tauto.
Qed.

Lemma day180_reflect (d g : Q) :
  (Js.geb d 40 || Js.geb g 2)%bool = true <-> day180Condition d g.
Proof.
  unfold day180Condition. rewrite !orb_true_iff, !geb_true. tauto.
Qed.

Lemma scheduled_reflect (d g : Q) :
  (Js.geb d 20 || Js.geb g (5 # 10))%bool = true <-> scheduledCondition d g.
Proof.
  unfold scheduledCondition. rewrite !orb_true_iff, !geb_true. tauto.
Qed.

Lemma bandOfTable_functional (d g : Q) (t : option Q) (b1 b2 : PriorityLevel) :
  bandOfTable d g t b1 -> bandOfTable d g t b2 -> b1 = b2.
Proof.
  destruct b1, b2; simpl; try reflexivity; tauto.
Qed.

Lemma nth_error_last {A : Type} (l : list A) (x : A) :
  nth_error (l ++ [x]) (List.length (l ++ [x]) - 1) = Some x.
Proof.
  rewrite length_app. simpl.
  replace (List.length l + 1 - 1)%nat with (List.length l) by lia.
  rewrite nth_error_app2 by lia. rewrite Nat.sub_diag. reflexivity.
Qed.

Lemma classifyPriority_table :
  forall (earlier : list NormalizedAnomaly) (latest : NormalizedAnomaly)
         (growth : GrowthRates) (status : MatchStatus),
    let d := Anomaly.depth_percent latest in
    let g := Qabs (depth_growth_rate growth) in
    let t := time_to_critical growth in
    exists c,
      classifyPriority (earlier ++ [latest]) growth status = Some c
      /\ forall band, level c = band <-> bandOfTable d g t band.
Proof.
  intros earlier latest growth status d g t.
  unfold classifyPriority. rewrite nth_error_last.
  fold d. fold g. fold t.
  destruct (Js.geb d 80 || ttcWithin t 1 || Js.geb g 8)%bool eqn:E1.
  { eexists. split; [reflexivity|]. simpl. intro band.
    apply immediate_reflect in E1. split.
    - intros <-. exact E1.
    - intro Hb. apply (bandOfTable_functional d g t); [exact E1|exact Hb]. }
  assert (N1 : ~ immediateCondition d g t).
  { intro H. apply immediate_reflect in H. congruence. }
  destruct (Js.geb d 60 || Js.geb g 5 || ttcWithin t 3)%bool eqn:E2.
  { eexists. split; [reflexivity|]. simpl. intro band.
    apply day60_reflect in E2. split.
    - intros <-. split; assumption.
    - intro Hb. apply (bandOfTable_functional d g t); [split; assumption|exact Hb]. }
  assert (N2 : ~ day60Condition d g t).
  { intro H. apply day60_reflect in H. congruence. }
  destruct (Js.geb d 40 || Js.geb g 2)%bool eqn:E3.
  { eexists. split; [reflexivity|]. simpl. intro band.
    apply day180_reflect in E3. split.
    - intros <-. repeat split; assumption.
    - intro Hb. apply (bandOfTable_functional d g t);
        [repeat split; assumption|exact Hb]. }
  assert (N3 : ~ day180Condition d g).
  { intro H. apply day180_reflect in H. congruence. }
  destruct (Js.geb d 20 || Js.geb g (5 # 10))%bool eqn:E4.
  { eexists. split; [reflexivity|]. simpl. intro band.
    apply scheduled_reflect in E4. split.
    - intros <-. repeat split; assumption.
    - intro Hb. apply (bandOfTable_functional d g t);
        [repeat split; assumption|exact Hb]. }
  assert (N4 : ~ scheduledCondition d g).
  { intro H. apply scheduled_reflect in H. congruence. }
  eexists. split; [reflexivity|]. simpl. intro band. split.
  - intros <-. repeat split; assumption.
  - intro Hb. apply (bandOfTable_functional d g t);
      [repeat split; assumption|exact Hb].
Qed.

(** C8.  With [d] the depth of the latest anomaly of a chain, [g] the
    absolute depth growth rate and [t] the time-to-critical, the
    classifier returns a classification whose level is a given band
    exactly when that band is the first row of the table whose
    condition holds: IMMEDIATE iff d >= 80 or (t not null and t <= 1)
    or g >= 8; otherwise 60-DAY iff d >= 60 or g >= 5 or (t not null
    and t <= 3); otherwise 180-DAY iff d >= 40 or g >= 2; otherwise
    SCHEDULED iff d >= 20 or g >= 0.5; otherwise MONITOR.  The priority
    stored in a chain is this band, read with the growth rates of the
    chain. *)
Theorem classifyPriority_first_band :
  (forall (earlier : list NormalizedAnomaly) (latest : NormalizedAnomaly)
          (growth : GrowthRates) (status : MatchStatus),
      exists c,
        classifyPriority (earlier ++ [latest]) growth status = Some c
        /\ forall band,
             level c = band
             <-> bandOfTable (Anomaly.depth_percent latest)
                             (Qabs (depth_growth_rate growth))
                             (time_to_critical growth) band)
  /\ (forall (id : string) (earlier : list NormalizedAnomaly)
             (latest : NormalizedAnomaly) (refs : list (nat * nat))
             (runIndices : list nat) (confidence : R) (status : MatchStatus)
             (sim : SimilarityBreakdown) (years : list Q),
         exists m,
           buildMatchObject id (earlier ++ [latest]) refs runIndices confidence
                            status sim years = Some m
           /\ forall band,
                Match.priority m = band
                <-> bandOfTable (Anomaly.depth_percent latest)
                                (Qabs (Match.depth_growth_rate m))
                                (Match.time_to_critical m) band).
Proof.
  split.
  - intros earlier latest growth status.
    apply (classifyPriority_table earlier latest growth status).
  - intros id earlier latest refs runIndices confidence status sim years.
    unfold buildMatchObject.
    destruct (classifyPriority_table earlier latest
                (calculateGrowthRates (earlier ++ [latest]) runIndices years) status)
      as [c [Hc Hband]].
    rewrite Hc. eexists. split; [reflexivity|]. exact Hband.
Qed.

(* ================================================================= *)
(** ** The cleaner, pass by pass *)

Lemma cleanData_stages (anomalies : list NormalizedAnomaly) (runIndex : nat)
      (runYear : Q) (otherRuns : option (list (list NormalizedAnomaly))) :
  fst (cleanData anomalies runIndex runYear otherRuns)
  = fst (flagZeroDimensions
           (afterWallThickness otherRuns
              (fst (fst (enforceMonotonicity
                 (fst (fst (interpolateMissing (beforeInterpolation anomalies))))))))).
Proof.
  unfold cleanData, beforeInterpolation, afterWallThickness.
  destruct (removeDuplicates anomalies) as [deduped dedupPass]. cbn [fst].
  destruct (detectAndConvertUnits deduped) as [[unitConverted unitPass] conversions].
  cbn [fst].
  destruct (clampOutliers unitConverted) as [[clamped clampPass] outlierCount].
  cbn [fst].
  destruct (interpolateMissing clamped) as [[interpolated interpPass] interpCount].
  cbn [fst].
  destruct (enforceMonotonicity interpolated) as [[monotonic monoPass] monoIssues].
  cbn [fst].
  destruct otherRuns as [[|r rs]|].
  - destruct (flagZeroDimensions monotonic); reflexivity.
  - destruct (crossRunWallThickness monotonic (r :: rs)) as [wtChecked wtPass].
    cbn [fst]. destruct (flagZeroDimensions wtChecked); reflexivity.
  - destruct (flagZeroDimensions monotonic); reflexivity.
Qed.

Section PassInvariant.
Variable P : NormalizedAnomaly -> Prop.

Lemma Forall_map_fst (f : NormalizedAnomaly -> NormalizedAnomaly * nat)
      (data : list NormalizedAnomaly) :
  (forall a, P a -> P (fst (f a))) ->
  Forall P data -> Forall P (map fst (map f data)).
Proof.
  intros Hf Hd. rewrite map_map. apply Forall_map.
  eapply Forall_impl; [|exact Hd]. exact Hf.
Qed.

Lemma Forall_map_indexed (g : nat -> NormalizedAnomaly -> NormalizedAnomaly * nat)
      (data : list NormalizedAnomaly) :
  (forall idx a, nth_error data idx = Some a -> P a -> P (fst (g idx a))) ->
  Forall P data ->
  Forall P (map fst (map (fun '(idx, a) => g idx a) (Js.indexed data))).
Proof.
  intros Hg Hd. rewrite map_map. apply Forall_map.
  apply Forall_forall. intros [idx a] Hin.
  apply indexed_nth_error in Hin. apply Hg; [exact Hin|].
  rewrite Forall_forall in Hd. apply Hd. eapply nth_error_In. exact Hin.
Qed.

Lemma removeDuplicates_loop_Forall (seen : list DupKey) (data : list NormalizedAnomaly) :
  Forall P data -> Forall P (fst (removeDuplicates_loop seen data)).
Proof.
  revert seen. induction data as [|a rest IH]; intros seen Hd; simpl.
  - constructor.
  - inversion Hd as [|? ? Ha Hrest]; subst.
    destruct (existsb (DupKey_eqb (dupKey a)) seen).
    + specialize (IH seen Hrest).
      destruct (removeDuplicates_loop seen rest). exact IH.
    + specialize (IH (dupKey a :: seen) Hrest).
      destruct (removeDuplicates_loop (dupKey a :: seen) rest).
      simpl in *. constructor; assumption.
Qed.

Lemma removeDuplicates_Forall (data : list NormalizedAnomaly) :
  Forall P data -> Forall P (fst (removeDuplicates data)).
Proof.
  intro Hd. unfold removeDuplicates.
  pose proof (removeDuplicates_loop_Forall [] data Hd) as H.
  destruct (removeDuplicates_loop [] data). exact H.
Qed.

Lemma detectAndConvertUnits_Forall (data : list NormalizedAnomaly) :
  (forall a, P a -> P (convertDistance a)) ->
  (forall a, P a -> P (convertDimensions a)) ->
  (forall a, P a -> P (convertWallThickness a)) ->
  Forall P data -> Forall P (fst (fst (detectAndConvertUnits data))).
Proof.
  intros H1 H2 H3 Hd. unfold detectAndConvertUnits.
  assert (K : forall f l, (forall a, P a -> P (f a)) -> Forall P l -> Forall P (map f l)).
  { intros f l Hf Hl. apply Forall_map. eapply Forall_impl; [|exact Hl]. exact Hf. }
  destruct (looksLikeMeters data), (dimensionsLookLikeMm data),
    (wallThicknessLooksLikeMm data); simpl; auto.
Qed.

Lemma crossRunWallThickness_Forall (data : list NormalizedAnomaly)
      (otherRuns : list (list NormalizedAnomaly)) :
  (forall m a, P a -> P (fst (wallThicknessOne m a))) ->
  Forall P data -> Forall P (fst (crossRunWallThickness data otherRuns)).
Proof.
  intros Hf Hd. unfold crossRunWallThickness.
  destruct (flat_map (positive Anomaly.wall_thickness) otherRuns); simpl.
  - exact Hd.
  - apply Forall_map_fst; [apply Hf|exact Hd].
Qed.

Lemma afterWallThickness_Forall (otherRuns : option (list (list NormalizedAnomaly)))
      (data : list NormalizedAnomaly) :
  (forall m a, P a -> P (fst (wallThicknessOne m a))) ->
  Forall P data -> Forall P (afterWallThickness otherRuns data).
Proof.
  intros Hf Hd. unfold afterWallThickness.
  destruct otherRuns as [[|r rs]|]; try exact Hd.
  apply crossRunWallThickness_Forall; assumption.
Qed.

End PassInvariant.

(** *** corrected_distance follows distance through every pass *)

Lemma normalizeAnomalies_correctedIsRaw (rawData : list RawAnomaly) (runIndex : nat) :
  Forall correctedIsRaw (normalizeAnomalies rawData runIndex).
Proof.
  apply Forall_forall. intros a Ha. unfold normalizeAnomalies in Ha.
  apply sort_In in Ha. apply in_map_iff in Ha. destruct Ha as [[idx row] [<- _]].
  unfold correctedIsRaw, normalizeRow. simpl. reflexivity.
Qed.

Lemma convertDistance_correctedIsRaw (a : NormalizedAnomaly) :
  correctedIsRaw a -> correctedIsRaw (convertDistance a).
Proof.
  unfold correctedIsRaw, convertDistance. simpl. intro H. rewrite H. reflexivity.
Qed.

Lemma clampOne_distance (a : NormalizedAnomaly) :
  Anomaly.distance (fst (clampOne a)) = Anomaly.distance a
  /\ Anomaly.corrected_distance (fst (clampOne a)) = Anomaly.corrected_distance a.
Proof.
  unfold clampOne.
  destruct (Js.ltb (Anomaly.depth_percent a) 0);
  repeat match goal with
         | |- context [if ?b then _ else _] => destruct b
         end; simpl; split; reflexivity.
Qed.

Lemma interpolateOne_correctedIsRaw (sorted : list NormalizedAnomaly) (idx : nat)
      (a : NormalizedAnomaly) :
  correctedIsRaw a -> correctedIsRaw (fst (interpolateOne sorted idx a)).
Proof.
  unfold correctedIsRaw, interpolateOne. intro H.
  repeat match goal with
         | |- context [if ?b then _ else _] => destruct b
         | |- context [match nth_error ?l ?i with _ => _ end] =>
             destruct (nth_error l i)
         end; simpl; try exact H; reflexivity.
Qed.

Lemma monotonicityOne_fields (data : list NormalizedAnomaly) (idx : nat)
      (a : NormalizedAnomaly) :
  Anomaly.distance (fst (monotonicityOne data idx a)) = Anomaly.distance a
  /\ Anomaly.corrected_distance (fst (monotonicityOne data idx a))
     = Anomaly.corrected_distance a.
Proof.
  unfold monotonicityOne.
  repeat match goal with
         | |- context [if ?b then _ else _] => destruct b
         | |- context [match nth_error ?l ?i with _ => _ end] =>
             destruct (nth_error l i)
         end; simpl; split; reflexivity.
Qed.

Lemma wallThicknessOne_fields (m : Q) (a : NormalizedAnomaly) :
  Anomaly.distance (fst (wallThicknessOne m a)) = Anomaly.distance a
  /\ Anomaly.corrected_distance (fst (wallThicknessOne m a))
     = Anomaly.corrected_distance a.
Proof.
  unfold wallThicknessOne.
  repeat match goal with
         | |- context [if ?b then _ else _] => destruct b
         end; simpl; split; reflexivity.
Qed.

Lemma zeroDimensionsOne_fields (a : NormalizedAnomaly) :
  Anomaly.distance (fst (zeroDimensionsOne a)) = Anomaly.distance a
  /\ Anomaly.corrected_distance (fst (zeroDimensionsOne a))
     = Anomaly.corrected_distance a.
Proof.
  unfold zeroDimensionsOne.
  repeat match goal with
         | |- context [if ?b then _ else _] => destruct b
         end; simpl; split; reflexivity.
Qed.

Lemma correctedIsRaw_fields (a b : NormalizedAnomaly) :
  Anomaly.distance b = Anomaly.distance a
  /\ Anomaly.corrected_distance b = Anomaly.corrected_distance a ->
  correctedIsRaw a -> correctedIsRaw b.
Proof.
  unfold correctedIsRaw. intros [-> ->] H. exact H.
Qed.

Lemma cleanData_correctedIsRaw (anomalies : list NormalizedAnomaly) (runIndex : nat)
      (runYear : Q) (otherRuns : option (list (list NormalizedAnomaly))) :
  Forall correctedIsRaw anomalies ->
  Forall correctedIsRaw (fst (cleanData anomalies runIndex runYear otherRuns)).
Proof.
  intro H. rewrite cleanData_stages.
  unfold flagZeroDimensions, enforceMonotonicity, interpolateMissing,
    beforeInterpolation, clampOutliers. simpl fst.
  apply Forall_map_fst.
  { intros a. apply correctedIsRaw_fields, zeroDimensionsOne_fields. }
  apply afterWallThickness_Forall.
  { intros m a. apply correctedIsRaw_fields, wallThicknessOne_fields. }
  apply Forall_map_indexed.
  { intros idx a _. apply correctedIsRaw_fields, monotonicityOne_fields. }
  apply Forall_map_indexed.
  { intros idx a _. apply interpolateOne_correctedIsRaw. }
  apply Forall_map_fst.
  { intros a. apply correctedIsRaw_fields, clampOne_distance. }
  apply detectAndConvertUnits_Forall.
  - apply convertDistance_correctedIsRaw.
  - intros a Ha. exact Ha.
  - intros a Ha. exact Ha.
  - apply removeDuplicates_Forall. exact H.
Qed.

(* ================================================================= *)
(** ** Distance correction *)

Lemma zonesOf_nth (l : list MatchedReference) (i : nat) (z : AlignmentZone) :
  nth_error (zonesOf l) i = Some z ->
  exists a b, nth_error l i = Some a /\ nth_error l (S i) = Some b
              /\ z = makeZone a b.
Proof.
  revert i. induction l as [|a l IH]; intros i H.
  - destruct i; discriminate.
  - destruct l as [|b l].
    + destruct i; discriminate.
    + destruct i as [|i].
      * simpl in H. injection H as <-. exists a, b. repeat split.
      * change (nth_error (zonesOf (b :: l)) i = Some z) in H.
        apply IH in H. destruct H as [a' [b' [Ha [Hb Hz]]]].
        exists a', b'. repeat split; assumption.
Qed.


Lemma createAlignmentZones_nth (matchedRefs : list MatchedReference) (i : nat)
      (z : AlignmentZone) :
  nth_error (createAlignmentZones matchedRefs) i = Some z ->
  exists a b,
    let sorted := Js.sort (fun a b => Ref.distance (run1 a) - Ref.distance (run1 b))
                          matchedRefs in
    nth_error sorted i = Some a /\ nth_error sorted (S i) = Some b
    /\ z = makeZone a b.
Proof.
  unfold createAlignmentZones.
  destruct (Nat.ltb (List.length matchedRefs) 2).
  - destruct i; discriminate.
  - apply zonesOf_nth.
Qed.

Lemma createAlignmentZones_members (matchedRefs : list MatchedReference)
      (z : AlignmentZone) :
  In z (createAlignmentZones matchedRefs) ->
  In (start_ref z) matchedRefs /\ In (end_ref z) matchedRefs.
Proof.
  intro H. apply In_nth_error in H. destruct H as [i Hi].
  apply createAlignmentZones_nth in Hi. destruct Hi as [a [b [Ha [Hb ->]]]].
  simpl. split.
  - apply nth_error_In in Ha. apply sort_In in Ha. exact Ha.
  - apply nth_error_In in Hb. apply sort_In in Hb. exact Hb.
Qed.

Lemma createAlignmentZones_ordered (matchedRefs : list MatchedReference)
      (z : AlignmentZone) :
  In z (createAlignmentZones matchedRefs) ->
  Ref.distance (run1 (start_ref z)) <= Ref.distance (run1 (end_ref z)).
Proof.
  intro H. apply In_nth_error in H. destruct H as [i Hi].
  apply createAlignmentZones_nth in Hi. destruct Hi as [a [b [Ha [Hb ->]]]].
  simpl.
  eapply (ascending_adjacent (fun m => Ref.distance (run1 m)));
    [apply (sort_ascending (fun m => Ref.distance (run1 m)))|exact Ha|exact Hb].
Qed.




Lemma zoneMap_degenerate (z : AlignmentZone) (d : Q) :
  ~ positiveRawSpan z -> zoneMap z d = Ref.distance (run1 (start_ref z)).
Proof.
  unfold positiveRawSpan, zoneMap. intro Hneg.
  destruct (Js.gtb _ 0) eqn:E; [|reflexivity].
  apply gtb_true in E. exfalso. apply Hneg. qlra.
Qed.

Lemma zoneMap_identity (z : AlignmentZone) (raw : Q) :
  identityPair (start_ref z) -> identityPair (end_ref z) ->
  containsRaw raw z = true -> zoneMap z raw == raw.
Proof.
  unfold identityPair, containsRaw, zoneMap. intros Hs He Hc.
  apply andb_true_iff in Hc. destruct Hc as [Hc1 Hc2].
  apply geb_true in Hc1. apply leb_true in Hc2.
  set (s2 := Ref.distance (run2 (start_ref z))) in *.
  set (e2 := Ref.distance (run2 (end_ref z))) in *.
  set (s1 := Ref.distance (run1 (start_ref z))) in *.
  set (e1 := Ref.distance (run1 (end_ref z))) in *.
  destruct (Js.gtb (e2 - s2) 0) eqn:E.
  - apply gtb_true in E. rewrite Hs, He. field. intro H0. qlra.
  - apply gtb_false in E. qlra.
Qed.

Lemma correctedOf_identity (zones : list AlignmentZone)
      (firstRef lastRef : MatchedReference) (raw : Q) :
  (forall z, In z zones -> identityPair (start_ref z) /\ identityPair (end_ref z)) ->
  identityPair firstRef -> identityPair lastRef ->
  correctedOf zones firstRef lastRef raw == raw.
Proof.
  intros Hz Hf Hl. unfold correctedOf.
  destruct (find (containsRaw raw) zones) as [z|] eqn:E.
  - apply find_some in E. destruct E as [Hin Hc].
    destruct (Hz z Hin) as [Hs He]. apply zoneMap_identity; assumption.
  - unfold identityPair in Hf, Hl.
    destruct (Js.ltb raw _); [qlra|]. destruct (Js.gtb raw _); [qlra|].
    reflexivity.
Qed.

Lemma last_In {A : Type} (l : list A) (d : A) : In d l -> In (last l d) l.
Proof.
  intro H. destruct l as [|x l]; [contradiction|].
  clear H. revert x. induction l as [|y l IH]; intro x.
  - left. reflexivity.
  - right. apply (IH y).
Qed.

Lemma applyDistanceCorrection_identity (anomalies : list NormalizedAnomaly)
      (matchedRefs : list MatchedReference) :
  (forall m, In m matchedRefs -> identityPair m) ->
  Forall correctedIsRaw anomalies ->
  Forall correctedIsRaw
         (applyDistanceCorrection anomalies (createAlignmentZones matchedRefs)
                                  matchedRefs).
Proof.
  intros Hid Ha. unfold applyDistanceCorrection.
  destruct (_ || _)%bool; [exact Ha|].
  destruct (Js.sort _ matchedRefs) as [|firstRef rest] eqn:Es; [exact Ha|].
  assert (Hsorted : forall m, In m (firstRef :: rest) -> identityPair m).
  { intros m Hm. apply Hid. rewrite <- Es in Hm. apply sort_In in Hm. exact Hm. }
  apply Forall_map. apply Forall_forall. intros a _.
  unfold correctedIsRaw, Anomaly.with_corrected_distance, Anomaly.with_distances.
  cbn [Anomaly.distance Anomaly.corrected_distance].
  apply correctedOf_identity.
  - intros z Hz. apply createAlignmentZones_members in Hz.
    destruct Hz as [H1 H2]. split; apply Hid; assumption.
  - apply Hsorted. left. reflexivity.
  - apply Hsorted. apply last_In. left. reflexivity.
Qed.

Example singlePair_is_matched :
  matchReferencePoints [exampleRef 0 100] [exampleRef 1 150] = [singlePair].
Proof. vm_compute. reflexivity. Qed.

(** C2 as stated does not hold.  With the single pair (100 ft in the
    reference run, 150 ft in the later run) no zone is built, and an
    anomaly of the later run at 200 ft keeps the corrected distance 200
    instead of being translated to 200 + (100 - 150) = 150. *)
Lemma single_pair_translation_counterexample :
  createAlignmentZones [singlePair] = []
  /\ ~ (forall a,
          In a (applyDistanceCorrection [exampleDent 1 0 200]
                  (createAlignmentZones [singlePair]) [singlePair]) ->
          translatedBy singlePair a).
Proof.
  split; [reflexivity|]. intro H.
  specialize (H (exampleDent 1 0 200) (or_introl eq_refl)).
  unfold translatedBy in H. vm_compute in H. discriminate.
Qed.

(** C2, amended.  If exactly one reference pair is matched, zero
    alignment zones are built and the distance corrector returns the
    later run as it is: no translation is applied, every anomaly keeps
    the corrected distance it had, which for an anomaly of a normalized
    and cleaned run is its raw distance. *)
Theorem single_pair_leaves_run_unchanged :
  forall (m : MatchedReference),
    createAlignmentZones [m] = []
    /\ (forall anomalies,
          applyDistanceCorrection anomalies (createAlignmentZones [m]) [m]
          = anomalies)
    /\ (forall rawData slotIndex runIndex runYear otherRuns a,
          In a (applyDistanceCorrection
                  (fst (cleanData (normalizeAnomalies rawData slotIndex)
                                  runIndex runYear otherRuns))
                  (createAlignmentZones [m]) [m]) ->
          Anomaly.corrected_distance a == Anomaly.distance a).
Proof.
  intro m. split; [reflexivity|]. split; [reflexivity|].
  intros rawData slotIndex runIndex runYear otherRuns.
  change (applyDistanceCorrection
            (fst (cleanData (normalizeAnomalies rawData slotIndex)
                            runIndex runYear otherRuns))
            (createAlignmentZones [m]) [m])
    with (fst (cleanData (normalizeAnomalies rawData slotIndex)
                         runIndex runYear otherRuns)).
  apply Forall_forall. apply cleanData_correctedIsRaw.
  apply normalizeAnomalies_correctedIsRaw.
Qed.

Lemma single_pair_leaves_run_unchanged_witness :
  exists a,
    In a (applyDistanceCorrection
            (fst (cleanData (normalizeAnomalies exampleLaterTable 1) 1 2020 None))
            (createAlignmentZones [singlePair]) [singlePair])
    /\ Anomaly.corrected_distance a == Anomaly.distance a.
Proof.
  eexists.
  assert (Hin : In ?[a] (applyDistanceCorrection
            (fst (cleanData (normalizeAnomalies exampleLaterTable 1) 1 2020 None))
            (createAlignmentZones [singlePair]) [singlePair]))
    by (vm_compute; left; reflexivity).
  split; [exact Hin|].
  exact (proj2 (proj2 (single_pair_leaves_run_unchanged singlePair))
               exampleLaterTable 1%nat 1%nat 2020 None _ Hin).
Defined.

(* ================================================================= *)
(** ** The reference run and the identity alignment *)

Lemma cleanAll_correctedIsRaw (files : list RunFile) :
  (forall f, In f files -> Forall correctedIsRaw (normalized_data f)) ->
  forall run, In run (map fst (cleanAll files)) -> Forall correctedIsRaw run.
Proof.
  intros Hf run Hrun. unfold cleanAll in Hrun. rewrite map_map in Hrun.
  apply in_map_iff in Hrun. destruct Hrun as [[i f] [<- Hin]].
  apply cleanData_correctedIsRaw. apply Hf.
  apply indexed_nth_error in Hin. eapply nth_error_In. exact Hin.
Qed.

Lemma uploaded_correctedIsRaw (tables : list (list RawAnomaly * Q)) (f : RunFile) :
  In f (sortFiles (map (fun '(i, (rawData, year)) => uploadRun rawData year i)
                       (Js.indexed tables))) ->
  Forall correctedIsRaw (normalized_data f).
Proof.
  intro H. unfold sortFiles in H. apply sort_In in H.
  apply in_map_iff in H. destruct H as [[i [rawData y]] [<- _]].
  apply normalizeAnomalies_correctedIsRaw.
Qed.

Lemma nth_Forall {A : Type} (P : A -> Prop) (ls : list (list A)) (i : nat) :
  (forall l, In l ls -> Forall P l) -> Forall P (nth i ls []).
Proof.
  intro H. destruct (nth_in_or_default i ls []) as [Hin|Hd].
  - apply H. exact Hin.
  - rewrite Hd. constructor.
Qed.

(** C5.  In the engine output, every anomaly of the reference run (run
    index 0 of the corrected runs) has corrected_distance equal to its
    raw distance: the equality set up by the normalizer survives the
    seven cleaning passes and run 0 is taken over uncorrected. *)
Theorem reference_run_corrected_is_raw :
  forall (tables : list (list RawAnomaly * Q)) (res : PipelineResult),
    runEngine tables = Some res ->
    forall a, In a (nth 0 (correctedRuns res) []) ->
              Anomaly.corrected_distance a == Anomaly.distance a.
Proof.
  intros tables res Hrun a Ha. unfold runEngine, runPipeline in Hrun.
  destruct (map _ (Js.indexed tables)) as [|f0 files] eqn:Ef; [discriminate|].
  destruct (matchAcrossRuns _ _); [|discriminate].
  injection Hrun as <-. cbn [correctedRuns] in Ha.
  unfold correctedRunsOf in Ha. cbn [nth] in Ha.
  revert a Ha. apply Forall_forall. apply nth_Forall.
  apply cleanAll_correctedIsRaw. intros f Hf. rewrite <- Ef in Hf.
  apply (uploaded_correctedIsRaw tables). exact Hf.
Qed.

Lemma reference_run_corrected_is_raw_witness :
  exists res a,
    runEngine exampleTables = Some res
    /\ In a (nth 0 (correctedRuns res) [])
    /\ Anomaly.corrected_distance a == Anomaly.distance a.
Proof.
  destruct (runEngine exampleTables) as [res|] eqn:Hrun;
    [|vm_compute in Hrun; discriminate].
  pose proof Hrun as Hres. vm_compute in Hres. injection Hres as <-.
  eexists. eexists. split; [reflexivity|]. split; [left; reflexivity|].
  apply (reference_run_corrected_is_raw exampleTables _ Hrun).
  left; reflexivity.
Defined.

(* ================================================================= *)
(** ** The interpolation pass on sorted data *)

Lemma byDistance_trans : Relations_1.Transitive byDistance.
Proof.
  intros a b c Hab Hbc. unfold byDistance in *. eapply Qle_trans; eassumption.
Qed.

Lemma StronglySorted_map_preserving (f : NormalizedAnomaly -> NormalizedAnomaly)
      (l : list NormalizedAnomaly) :
  (forall a b, byDistance a b -> byDistance (f a) (f b)) ->
  StronglySorted byDistance l -> StronglySorted byDistance (map f l).
Proof.
  intros Hf Hs. induction Hs as [|a l Hs IH Hall]; simpl.
  - constructor.
  - constructor; [exact IH|]. apply Forall_map.
    eapply Forall_impl; [|exact Hall]. intros b Hb. apply Hf. exact Hb.
Qed.

Lemma removeDuplicates_loop_sorted (seen : list DupKey) (data : list NormalizedAnomaly) :
  StronglySorted byDistance data ->
  StronglySorted byDistance (fst (removeDuplicates_loop seen data)).
Proof.
  intro Hs. revert seen. induction Hs as [|a rest Hs IH Hall]; intro seen; simpl.
  - constructor.
  - destruct (existsb (DupKey_eqb (dupKey a)) seen).
    + specialize (IH seen). destruct (removeDuplicates_loop seen rest). exact IH.
    + specialize (IH (dupKey a :: seen)).
      pose proof (removeDuplicates_loop_Forall (byDistance a) (dupKey a :: seen)
                    rest Hall) as Hkeep.
      destruct (removeDuplicates_loop (dupKey a :: seen) rest).
      simpl in *. constructor; assumption.
Qed.

Lemma convertDistance_byDistance (a b : NormalizedAnomaly) :
  byDistance a b -> byDistance (convertDistance a) (convertDistance b).
Proof.
  unfold byDistance, convertDistance. simpl. intro H.
  apply Qmult_le_compat_r; [exact H|]. discriminate.
Qed.

Lemma detectAndConvertUnits_sorted (data : list NormalizedAnomaly) :
  StronglySorted byDistance data ->
  StronglySorted byDistance (fst (fst (detectAndConvertUnits data))).
Proof.
  intro Hs. unfold detectAndConvertUnits.
  assert (K1 : forall l, StronglySorted byDistance l ->
                         StronglySorted byDistance (map convertDistance l)).
  { intros l Hl. apply StronglySorted_map_preserving; [|exact Hl].
    apply convertDistance_byDistance. }
  assert (K2 : forall l, StronglySorted byDistance l ->
                         StronglySorted byDistance (map convertDimensions l)).
  { intros l Hl. apply StronglySorted_map_preserving; [|exact Hl].
    intros a b H. exact H. }
  assert (K3 : forall l, StronglySorted byDistance l ->
                         StronglySorted byDistance (map convertWallThickness l)).
  { intros l Hl. apply StronglySorted_map_preserving; [|exact Hl].
    intros a b H. exact H. }
  destruct (looksLikeMeters data), (dimensionsLookLikeMm data),
    (wallThicknessLooksLikeMm data); simpl; auto.
Qed.

Lemma clampOutliers_sorted (data : list NormalizedAnomaly) :
  StronglySorted byDistance data ->
  StronglySorted byDistance (fst (fst (clampOutliers data))).
Proof.
  intro Hs. unfold clampOutliers. simpl. rewrite map_map.
  apply StronglySorted_map_preserving; [|exact Hs].
  intros a b H. unfold byDistance in *.
  destruct (clampOne_distance a) as [-> _].
  destruct (clampOne_distance b) as [-> _]. exact H.
Qed.

Lemma beforeInterpolation_ascending (rawData : list RawAnomaly) (slotIndex : nat) :
  ascending Anomaly.distance
            (beforeInterpolation (normalizeAnomalies rawData slotIndex)).
Proof.
  unfold ascending, beforeInterpolation.
  apply StronglySorted_Sorted.
  apply clampOutliers_sorted, detectAndConvertUnits_sorted.
  unfold removeDuplicates.
  pose proof (removeDuplicates_loop_sorted [] (normalizeAnomalies rawData slotIndex))
    as H.
  destruct (removeDuplicates_loop [] (normalizeAnomalies rawData slotIndex)).
  apply H. apply Sorted_StronglySorted; [exact byDistance_trans|].
  unfold normalizeAnomalies.
  apply (sort_ascending Anomaly.distance).
Qed.

Lemma notInterpolated_app (a b : NormalizedAnomaly) (f : CleaningFlag) :
  Anomaly.cleaning_flags b = Anomaly.cleaning_flags a ++ [f] ->
  f <> distance_interpolated ->
  notInterpolated a -> notInterpolated b.
Proof.
  unfold notInterpolated. intros -> Hf Ha Hin.
  apply in_app_or in Hin. destruct Hin as [Hin|[Hin|[]]]; [exact (Ha Hin)|].
  apply Hf. exact Hin.
Qed.

Lemma notInterpolated_same (a b : NormalizedAnomaly) :
  Anomaly.cleaning_flags b = Anomaly.cleaning_flags a ->
  notInterpolated a -> notInterpolated b.
Proof. unfold notInterpolated. intros -> H. exact H. Qed.

Lemma convert_notInterpolated (a : NormalizedAnomaly) :
  notInterpolated a ->
  notInterpolated (convertDistance a) /\ notInterpolated (convertDimensions a)
  /\ notInterpolated (convertWallThickness a).
Proof.
  intro H. repeat split;
    (eapply notInterpolated_app; [reflexivity|discriminate|exact H]).
Qed.

Lemma clampOne_notInterpolated (a : NormalizedAnomaly) :
  notInterpolated a -> notInterpolated (fst (clampOne a)).
Proof.
  unfold notInterpolated, clampOne. intros H.
  repeat match goal with
         | |- context [if ?b then _ else _] => destruct b
         end; simpl; rewrite ?in_app_iff; simpl;
    intuition discriminate.
Qed.

(** On data whose distances ascend the interpolation guard is never
    satisfied: a row with distance 0 has no predecessor with a positive
    distance. *)
Lemma interpolateOne_notInterpolated (sorted : list NormalizedAnomaly) (idx : nat)
      (a : NormalizedAnomaly) :
  ascending Anomaly.distance sorted ->
  nth_error sorted idx = Some a ->
  notInterpolated a -> notInterpolated (fst (interpolateOne sorted idx a)).
Proof.
  intros Hasc Hnth Ha. unfold interpolateOne.
  set (otherwise :=
         if (Js.eqb (Anomaly.odometer a) 0 && Js.gtb (Anomaly.distance a) 0)%bool
         then _ else _).
  assert (Ho : notInterpolated (fst otherwise)).
  { unfold otherwise.
    destruct (Js.eqb (Anomaly.odometer a) 0 && Js.gtb (Anomaly.distance a) 0)%bool.
    - eapply notInterpolated_app; [reflexivity|discriminate|exact Ha].
    - eapply notInterpolated_same; [reflexivity|exact Ha]. }
  destruct (Js.eqb (Anomaly.distance a) 0 && Nat.ltb 0 idx
            && Nat.ltb idx (List.length sorted - 1))%bool eqn:Eguard;
    [|exact Ho].
  apply andb_true_iff in Eguard. destruct Eguard as [Eguard _].
  apply andb_true_iff in Eguard. destruct Eguard as [Ezero Eidx].
  apply eqb_true in Ezero. apply Nat.ltb_lt in Eidx.
  destruct (nth_error sorted (idx - 1)) as [p|] eqn:Ep; [|exact Ho].
  destruct (nth_error sorted (idx + 1)) as [n|]; [|exact Ho].
  destruct (Js.gtb (Anomaly.distance p) 0) eqn:Eprev; [|exact Ho].
  exfalso. apply gtb_true in Eprev.
  assert (Hle : Anomaly.distance p <= Anomaly.distance a).
  { apply (ascending_adjacent Anomaly.distance sorted (idx - 1) p a Hasc Ep).
    replace (S (idx - 1)) with idx by lia. exact Hnth. }
  qlra.
Qed.

Lemma monotonicityOne_notInterpolated (data : list NormalizedAnomaly) (idx : nat)
      (a : NormalizedAnomaly) :
  notInterpolated a -> notInterpolated (fst (monotonicityOne data idx a)).
Proof.
  intro H. unfold monotonicityOne.
  repeat match goal with
         | |- context [if ?b then _ else _] => destruct b
         | |- context [match nth_error ?l ?i with _ => _ end] =>
             destruct (nth_error l i)
         end; simpl; try exact H;
    (eapply notInterpolated_app; [reflexivity|discriminate|exact H]).
Qed.

Lemma wallThicknessOne_notInterpolated (m : Q) (a : NormalizedAnomaly) :
  notInterpolated a -> notInterpolated (fst (wallThicknessOne m a)).
Proof.
  intro H. unfold wallThicknessOne.
  repeat match goal with
         | |- context [if ?b then _ else _] => destruct b
         end; simpl; try exact H;
    (eapply notInterpolated_app; [reflexivity|discriminate|exact H]).
Qed.

Lemma zeroDimensionsOne_notInterpolated (a : NormalizedAnomaly) :
  notInterpolated a -> notInterpolated (fst (zeroDimensionsOne a)).
Proof.
  intro H. unfold zeroDimensionsOne.
  repeat match goal with
         | |- context [if ?b then _ else _] => destruct b
         end; simpl; try exact H;
    (eapply notInterpolated_app; [reflexivity|discriminate|exact H]).
Qed.

Lemma normalizeAnomalies_notInterpolated (rawData : list RawAnomaly) (slotIndex : nat) :
  Forall notInterpolated (normalizeAnomalies rawData slotIndex).
Proof.
  apply Forall_forall. intros a Ha. unfold normalizeAnomalies in Ha.
  apply sort_In in Ha. apply in_map_iff in Ha. destruct Ha as [[idx row] [<- _]].
  intro H. exact H.
Qed.

Lemma beforeInterpolation_notInterpolated (anomalies : list NormalizedAnomaly) :
  Forall notInterpolated anomalies ->
  Forall notInterpolated (beforeInterpolation anomalies).
Proof.
  intro H. unfold beforeInterpolation, clampOutliers. simpl fst.
  apply Forall_map_fst; [apply clampOne_notInterpolated|].
  apply detectAndConvertUnits_Forall; try (intros a Ha; apply convert_notInterpolated; exact Ha).
  apply removeDuplicates_Forall. exact H.
Qed.

(** C10.  For every raw table, the normalizer followed by the cleaner
    never attaches the flag distance_interpolated: the data that reach
    the interpolation pass are still in ascending distance order, so a
    row with distance 0 never has a predecessor with a strictly
    positive distance. *)
Theorem distance_never_interpolated :
  forall (rawData : list RawAnomaly) (slotIndex runIndex : nat) (runYear : Q)
         (otherRuns : option (list (list NormalizedAnomaly))),
    ascending Anomaly.distance
              (beforeInterpolation (normalizeAnomalies rawData slotIndex))
    /\ forall a,
         In a (fst (cleanData (normalizeAnomalies rawData slotIndex)
                              runIndex runYear otherRuns)) ->
         ~ In distance_interpolated (Anomaly.cleaning_flags a).
Proof.
  intros rawData slotIndex runIndex runYear otherRuns.
  split; [apply beforeInterpolation_ascending|].
  apply Forall_forall. rewrite cleanData_stages.
  unfold flagZeroDimensions, enforceMonotonicity, interpolateMissing. simpl fst.
  apply Forall_map_fst; [apply zeroDimensionsOne_notInterpolated|].
  apply afterWallThickness_Forall; [apply wallThicknessOne_notInterpolated|].
  apply Forall_map_indexed.
  { intros idx a _. apply monotonicityOne_notInterpolated. }
  apply Forall_map_indexed.
  { intros idx a Hnth. apply interpolateOne_notInterpolated; [|exact Hnth].
    apply beforeInterpolation_ascending. }
  apply beforeInterpolation_notInterpolated.
  apply normalizeAnomalies_notInterpolated.
Qed.

Lemma distance_never_interpolated_witness :
  exists a,
    In a (fst (cleanData (normalizeAnomalies exampleLaterTable 1) 1 2020 None))
    /\ ~ In distance_interpolated (Anomaly.cleaning_flags a).
Proof.
  eexists.
  assert (Hin : In ?[a] (fst (cleanData (normalizeAnomalies exampleLaterTable 1)
                                        1 2020 None)))
    by (vm_compute; left; reflexivity).
  split; [exact Hin|].
  exact (proj2 (distance_never_interpolated exampleLaterTable 1 1 2020 None) _ Hin).
Defined.

Example interpolation_on_unsorted_data :
  map Anomaly.cleaning_flags
      (fst (fst (interpolateMissing
                   [exampleDent 0 0 100; exampleDent 0 1 0; exampleDent 0 2 300])))
  = [[]; [distance_interpolated]; []].
Proof. vm_compute. reflexivity. Qed.

(* ================================================================= *)
(** ** Similarity *)

Section SimilarityBounds.
Local Open Scope R_scope.

Lemma Rjs_ltb_true (x y : R) : Rjs.ltb x y = true <-> x < y.
Proof.
  unfold Rjs.ltb. destruct (Rlt_dec x y); split; intro H;
    try reflexivity; try assumption; try discriminate; contradiction.
Qed.

Lemma Rjs_ltb_false (x y : R) : Rjs.ltb x y = false <-> y <= x.
Proof.
  unfold Rjs.ltb. destruct (Rlt_dec x y); split; intro H;
    try reflexivity; try discriminate; rlra.
Qed.

Lemma Rjs_leb_true (x y : R) : Rjs.leb x y = true <-> x <= y.
Proof.
  unfold Rjs.leb. destruct (Rle_dec x y); split; intro H;
    try reflexivity; try assumption; try discriminate; contradiction.
Qed.

Lemma Rjs_leb_false (x y : R) : Rjs.leb x y = false <-> y < x.
Proof.
  unfold Rjs.leb. destruct (Rle_dec x y); split; intro H;
    try reflexivity; try discriminate; rlra.
Qed.

Lemma Rjs_geb_true (x y : R) : Rjs.geb x y = true <-> y <= x.
Proof. unfold Rjs.geb. apply Rjs_leb_true. Qed.

Lemma Rjs_gtb_true (x y : R) : Rjs.gtb x y = true <-> y < x.
Proof. unfold Rjs.gtb. apply Rjs_ltb_true. Qed.

Lemma distanceSimilarity_range (d1 d2 : R) :
  unitInterval (distanceSimilarity d1 d2).
Proof.
  unfold unitInterval, distanceSimilarity, DISTANCE_TOLERANCE.
  split; [left; apply exp_pos|].
  pose proof (Rabs_pos (d1 - d2)) as Hpos.
  destruct (Req_dec (Rabs (d1 - d2)) 0) as [H0|Hne].
  - rewrite H0. replace (- 0 / 50) with 0 by field. rewrite exp_0. rlra.
  - left. rewrite <- exp_0. apply exp_increasing. rlra.
Qed.

Lemma cauchy_schwarz3 (x1 y1 z1 x2 y2 z2 : R) :
  (x1 * x2 + y1 * y2 + z1 * z2) * (x1 * x2 + y1 * y2 + z1 * z2)
  <= (x1 * x1 + y1 * y1 + z1 * z1) * (x2 * x2 + y2 * y2 + z2 * z2).
Proof.
  pose proof (Rle_0_sqr (x1 * y2 - x2 * y1)) as H1.
  pose proof (Rle_0_sqr (x1 * z2 - x2 * z1)) as H2.
  pose proof (Rle_0_sqr (y1 * z2 - y2 * z1)) as H3.
  unfold Rsqr in *. rlra.
Qed.

Lemma dimensionalSimilarity_range (a1 a2 : NormalizedAnomaly) :
  unitInterval (dimensionalSimilarity a1 a2).
Proof.
  unfold unitInterval, dimensionalSimilarity.
  set (x1 := Q2R (Anomaly.depth_percent a1)). set (y1 := Q2R (Anomaly.length a1)).
  set (z1 := Q2R (Anomaly.width a1)). set (x2 := Q2R (Anomaly.depth_percent a2)).
  set (y2 := Q2R (Anomaly.length a2)). set (z2 := Q2R (Anomaly.width a2)).
  cbv zeta.
  set (n1 := x1 * x1 + y1 * y1 + z1 * z1).
  set (n2 := x2 * x2 + y2 * y2 + z2 * z2).
  set (dot := x1 * x2 + y1 * y2 + z1 * z2).
  destruct (Rjs.ltb (sqrt n1) (1 / 10 ^ 10)) eqn:E1; cbn [orb]; [rlra|].
  destruct (Rjs.ltb (sqrt n2) (1 / 10 ^ 10)) eqn:E2; cbn [orb]; [rlra|].
  apply Rjs_ltb_false in E1. apply Rjs_ltb_false in E2.
  assert (Hsmall : 0 < 1 / 10 ^ 10).
  { apply Rdiv_lt_0_compat; [rlra|]. apply pow_lt. rlra. }
  assert (Hn1 : 0 <= n1) by (unfold n1; nra).
  assert (Hn2 : 0 <= n2) by (unfold n2; nra).
  assert (Hm1 : 0 < sqrt n1) by rlra.
  assert (Hm2 : 0 < sqrt n2) by rlra.
  assert (Hs1 : sqrt n1 * sqrt n1 = n1) by (apply sqrt_sqrt; exact Hn1).
  assert (Hs2 : sqrt n2 * sqrt n2 = n2) by (apply sqrt_sqrt; exact Hn2).
  assert (Hp : 0 < sqrt n1 * sqrt n2) by (apply Rmult_lt_0_compat; assumption).
  assert (Hcs : dot * dot <= n1 * n2) by (apply cauchy_schwarz3).
  assert (Hdot : dot <= sqrt n1 * sqrt n2).
  { destruct (Rle_dec dot (sqrt n1 * sqrt n2)) as [Hle|Hgt]; [exact Hle|].
    exfalso. apply Rnot_le_lt in Hgt.
    assert (Hsq : (sqrt n1 * sqrt n2) * (sqrt n1 * sqrt n2) < dot * dot)
      by (apply Rmult_le_0_lt_compat; rlra).
    replace ((sqrt n1 * sqrt n2) * (sqrt n1 * sqrt n2))
      with ((sqrt n1 * sqrt n1) * (sqrt n2 * sqrt n2)) in Hsq by ring.
    rewrite Hs1, Hs2 in Hsq. rlra. }
  split; [apply Rmax_l|].
  apply Rmax_lub; [rlra|].
  apply (Rmult_le_reg_r (sqrt n1 * sqrt n2)); [exact Hp|].
  unfold Rdiv. rewrite Rmult_assoc, Rinv_l by rlra. rlra.
Qed.

Lemma clockSimilarity_range (deg1 deg2 : R) :
  0 <= deg1 < 360 -> 0 <= deg2 < 360 -> unitInterval (clockSimilarity deg1 deg2).
Proof.
  intros H1 H2. unfold unitInterval, clockSimilarity.
  assert (Hd : 0 <= Rabs (deg1 - deg2) < 360).
  { split; [apply Rabs_pos|]. unfold Rabs. destruct (Rcase_abs _); rlra. }
  unfold Rmin. destruct (Rle_dec _ _); rlra.
Qed.

Lemma clockSimilarity_nonneg (deg1 deg2 : R) :
  -360 < deg1 < 360 -> -360 < deg2 < 360 -> 0 <= clockSimilarity deg1 deg2.
Proof.
  intros H1 H2. unfold clockSimilarity.
  assert (Hd : 0 <= Rabs (deg1 - deg2)) by apply Rabs_pos.
  unfold Rmin. destruct (Rle_dec _ _); rlra.
Qed.

Lemma featureTypeSimilarity_range (t1 t2 : FeatureType) :
  unitInterval (featureTypeSimilarity t1 t2).
Proof.
  unfold unitInterval, featureTypeSimilarity.
  destruct (FeatureType_eqb t1 t2); [rlra|].
  destruct (existsb _ compatible); rlra.
Qed.

(** Apart from the clock component, the bounds of C7 hold for all
    anomalies; the clock component and the total are in range whenever
    both clock angles lie in the documented range [0, 360). *)
Lemma calculateSimilarity_range (a1 a2 : NormalizedAnomaly) :
  clockInRange a1 -> clockInRange a2 ->
  similarityInRange (calculateSimilarity a1 a2).
Proof.
  intros [L1 U1] [L2 U2].
  assert (C1 : 0 <= Q2R (Anomaly.clock_degrees a1) < 360).
  { split.
    - replace 0 with (Q2R 0) by (unfold Q2R; simpl; field).
      apply Qreals.Qle_Rle. exact L1.
    - replace 360 with (Q2R 360) by (unfold Q2R; simpl; field).
      apply Qreals.Qlt_Rlt. exact U1. }
  assert (C2 : 0 <= Q2R (Anomaly.clock_degrees a2) < 360).
  { split.
    - replace 0 with (Q2R 0) by (unfold Q2R; simpl; field).
      apply Qreals.Qle_Rle. exact L2.
    - replace 360 with (Q2R 360) by (unfold Q2R; simpl; field).
      apply Qreals.Qlt_Rlt. exact U2. }
  pose proof (distanceSimilarity_range (Q2R (Anomaly.corrected_distance a1))
                (Q2R (Anomaly.corrected_distance a2))) as Hd.
  pose proof (dimensionalSimilarity_range a1 a2) as Hm.
  pose proof (clockSimilarity_range _ _ C1 C2) as Hc.
  pose proof (featureTypeSimilarity_range (Anomaly.canonical_type a1)
                (Anomaly.canonical_type a2)) as Ht.
  unfold similarityInRange, calculateSimilarity. cbn [Sim.distance Sim.dimensional
    Sim.clock Sim.feature_type Sim.total].
  repeat split; try apply Hd; try apply Hm; try apply Hc; try apply Ht;
    unfold unitInterval in *;
    unfold WEIGHTS_distance, WEIGHTS_dimensional, WEIGHTS_clock,
      WEIGHTS_feature_type; rlra.
Qed.

End SimilarityBounds.

Example clockAnomalies_normalized :
  normalizeAnomalies [clockRowA] 0 = [clockAnomalyA]
  /\ normalizeAnomalies [clockRowB] 1 = [clockAnomalyB].
Proof. split; reflexivity. Qed.

Lemma Q2R_value (q v : Q) (r : R) : q == v -> Q2R v = r -> Q2R q = r.
Proof. intros Hq Hv. rewrite (Qreals.Qeq_eqR q v Hq). exact Hv. Qed.

Ltac q2r v := apply (Q2R_value _ v);
              [vm_compute; reflexivity | unfold Q2R; simpl; field].

(** C7 at its failing input.  Two rows that differ only in the clock
    position, entered as the numbers -11 and 11, are normalized to
    clock angles -330 and 330 degrees; their clock similarity is 8/3 and
    their total similarity 4/3, both outside [0, 1]. *)
Theorem clock_similarity_out_of_range :
  Anomaly.clock_degrees clockAnomalyA == -330
  /\ Anomaly.clock_degrees clockAnomalyB == 330
  /\ Sim.clock (calculateSimilarity clockAnomalyA clockAnomalyB) = (8 / 3)%R
  /\ Sim.total (calculateSimilarity clockAnomalyA clockAnomalyB) = (4 / 3)%R
  /\ ~ similarityInRange (calculateSimilarity clockAnomalyA clockAnomalyB).
Proof.
  assert (Ha : Anomaly.clock_degrees clockAnomalyA == -330)
    by (vm_compute; reflexivity).
  assert (Hb : Anomaly.clock_degrees clockAnomalyB == 330)
    by (vm_compute; reflexivity).
  assert (Hclock : Sim.clock (calculateSimilarity clockAnomalyA clockAnomalyB)
                   = (8 / 3)%R).
  { unfold calculateSimilarity. cbn [Sim.clock]. unfold clockSimilarity.
    replace (Q2R (Anomaly.clock_degrees clockAnomalyA)) with (-330)%R
      by (symmetry; q2r (-330)).
    replace (Q2R (Anomaly.clock_degrees clockAnomalyB)) with 330%R
      by (symmetry; q2r 330).
    unfold Rabs. destruct (Rcase_abs (-330 - 330)); [|rlra].
    unfold Rmin. destruct (Rle_dec _ _); rlra. }
  assert (Hdist : Sim.distance (calculateSimilarity clockAnomalyA clockAnomalyB)
                  = 1%R).
  { unfold calculateSimilarity. cbn [Sim.distance]. unfold distanceSimilarity.
    replace (Q2R (Anomaly.corrected_distance clockAnomalyA)) with 100000%R
      by (symmetry; q2r 100000).
    replace (Q2R (Anomaly.corrected_distance clockAnomalyB)) with 100000%R
      by (symmetry; q2r 100000).
    replace (100000 - 100000)%R with 0%R by rlra. rewrite Rabs_R0.
    replace (- 0 / DISTANCE_TOLERANCE)%R with 0%R
      by (unfold DISTANCE_TOLERANCE; field).
    apply exp_0. }
  assert (Hdim : Sim.dimensional (calculateSimilarity clockAnomalyA clockAnomalyB)
                 = 1%R).
  { unfold calculateSimilarity. cbn [Sim.dimensional]. unfold dimensionalSimilarity.
    replace (Q2R (Anomaly.depth_percent clockAnomalyA)) with 30%R
      by (symmetry; q2r 30).
    replace (Q2R (Anomaly.depth_percent clockAnomalyB)) with 30%R
      by (symmetry; q2r 30).
    replace (Q2R (Anomaly.length clockAnomalyA)) with 2%R by (symmetry; q2r 2).
    replace (Q2R (Anomaly.length clockAnomalyB)) with 2%R by (symmetry; q2r 2).
    replace (Q2R (Anomaly.width clockAnomalyA)) with 1%R by (symmetry; q2r 1).
    replace (Q2R (Anomaly.width clockAnomalyB)) with 1%R by (symmetry; q2r 1).
    cbv zeta beta iota.
    replace (30 * 30 + 2 * 2 + 1 * 1)%R with 905%R by rlra.
    assert (Hs : (sqrt 905 * sqrt 905 = 905)%R) by (apply sqrt_sqrt; rlra).
    assert (H1 : (1 <= sqrt 905)%R).
    { rewrite <- sqrt_1 at 1. apply sqrt_le_1; rlra. }
    assert (Hsmall : (1 / 10 ^ 10 <= 1)%R).
    { apply (Rmult_le_reg_r (10 ^ 10)); [apply pow_lt; rlra|].
      unfold Rdiv. rewrite Rmult_assoc, Rinv_l by (apply pow_nonzero; rlra).
      simpl. rlra. }
    replace (Rjs.ltb (sqrt 905) (1 / 10 ^ 10)) with false
      by (symmetry; apply Rjs_ltb_false; rlra).
    cbn [orb]. rewrite Hs.
    replace (905 / 905)%R with 1%R by field.
    apply Rmax_right. rlra. }
  assert (Htype : Sim.feature_type (calculateSimilarity clockAnomalyA clockAnomalyB)
                  = 1%R) by reflexivity.
  assert (Htotal : Sim.total (calculateSimilarity clockAnomalyA clockAnomalyB)
                   = (4 / 3)%R).
  { change (Sim.total (calculateSimilarity clockAnomalyA clockAnomalyB))
      with (WEIGHTS_distance
              * Sim.distance (calculateSimilarity clockAnomalyA clockAnomalyB)
            + WEIGHTS_dimensional
              * Sim.dimensional (calculateSimilarity clockAnomalyA clockAnomalyB)
            + WEIGHTS_clock
              * Sim.clock (calculateSimilarity clockAnomalyA clockAnomalyB)
            + WEIGHTS_feature_type
              * Sim.feature_type (calculateSimilarity clockAnomalyA clockAnomalyB))%R.
    rewrite Hdist, Hdim, Hclock, Htype.
    unfold WEIGHTS_distance, WEIGHTS_dimensional, WEIGHTS_clock,
      WEIGHTS_feature_type. field. }
  repeat split; try assumption.
  intros [_ [_ [[_ Hc] _]]]. rewrite Hclock in Hc. rlra.
Qed.

(* ================================================================= *)
(** ** Loops *)

Lemma fold_left_invariant {S X : Type} (f : S -> X -> S) (I : S -> Prop)
      (l : list X) (s : S) :
  I s -> (forall s x, In x l -> I s -> I (f s x)) -> I (fold_left f l s).
Proof.
  revert s. induction l as [|x l IH]; intros s Hs Hstep; simpl.
  - exact Hs.
  - apply IH.
    + apply Hstep; [left; reflexivity|exact Hs].
    + intros s0 y Hy. apply Hstep. right. exact Hy.
Qed.

Lemma foldM_invariant {S X : Type} (f : S -> X -> option S) (I : S -> Prop)
      (l : list X) (s s' : S) :
  I s -> (forall s x s', In x l -> I s -> f s x = Some s' -> I s') ->
  foldM f l s = Some s' -> I s'.
Proof.
  revert s. induction l as [|x l IH]; intros s Hs Hstep Hrun; simpl in Hrun.
  - injection Hrun as <-. exact Hs.
  - destruct (f s x) as [s1|] eqn:E; [|discriminate].
    apply (IH s1).
    + apply (Hstep s x s1); [left; reflexivity|exact Hs|exact E].
    + intros s0 y s0' Hy. apply Hstep. right. exact Hy.
    + exact Hrun.
Qed.

(* ================================================================= *)
(** ** Pairwise matching: accepted pairs are confident *)

Section MatcherFacts.
Local Open Scope R_scope.

Lemma candidatesOf_score (r1 r2 : list (nat * NormalizedAnomaly)) (c : Candidate) :
  In c (candidatesOf r1 r2) -> cand_score c = Sim.total (breakdown c).
Proof.
  unfold candidatesOf. intro H.
  apply in_flat_map in H. destruct H as [[i [oi a1]] [_ H]].
  apply in_flat_map in H. destruct H as [[j [oj a2]] [_ H]].
  destruct (Rjs.gtb _ DISTANCE_FILTER); [contradiction|].
  destruct (Rjs.gtb _ (2 / 10)); [|contradiction].
  destruct H as [<-|[]]. reflexivity.
Qed.

Lemma acceptAssignment_confident (r1 r2 : list (nat * NormalizedAnomaly))
      (st : list MatchPair * list nat * list nat) (e : nat * Z) :
  Forall confident (fst (fst st)) ->
  Forall confident
         (fst (fst (acceptAssignment r1 r2 (candidatesOf r1 r2) st e))).
Proof.
  destruct st as [[pairs0 m1] m2]. destruct e as [i j].
  unfold acceptAssignment. intro H.
  destruct (_ || _)%bool; [exact H|].
  destruct (find _ _) as [cand|] eqn:Ef; [|exact H].
  destruct (Rjs.geb (cand_score cand) CONFIDENCE_LOW) eqn:Eg; [|exact H].
  destruct (nth_error r1 i) as [[origI ?]|]; [|exact H].
  destruct (nth_error r2 (Z.to_nat j)) as [[origJ ?]|]; [|exact H].
  cbn [fst]. apply Forall_app. split; [exact H|].
  constructor; [|constructor].
  unfold confident. cbn [similarity].
  apply find_some in Ef. destruct Ef as [Hin _].
  rewrite <- (candidatesOf_score r1 r2 cand Hin).
  apply Rjs_geb_true. exact Eg.
Qed.

Lemma matchAnomalies_confident (run1 run2 : list NormalizedAnomaly) :
  Forall confident (pairs (matchAnomalies run1 run2)).
Proof.
  unfold matchAnomalies.
  set (r1 := nonReference run1). set (r2 := nonReference run2).
  set (asg := hungarianAlgorithm _).
  pose proof (fold_left_invariant
                (acceptAssignment r1 r2 (candidatesOf r1 r2))
                (fun st => Forall confident (fst (fst st)))
                (Js.indexed asg) ([], [], [])) as H.
  destruct (fold_left _ (Js.indexed asg) ([], [], [])) as [[ps m1] m2].
  cbn [pairs]. apply H.
  - constructor.
  - intros st e _ Hst. apply acceptAssignment_confident. exact Hst.
Qed.

(* ================================================================= *)
(** ** Chain construction: what each loop body pushes *)

Lemma buildMatchObject_fields (id : string) (anomalies : list NormalizedAnomaly)
      (refs : list (nat * nat)) (runIndices : list nat) (confidence : R)
      (status : MatchStatus) (sim : SimilarityBreakdown) (years : list Q)
      (m : AnomalyMatch) :
  buildMatchObject id anomalies refs runIndices confidence status sim years = Some m ->
  Match.anomaly_refs m = refs /\ Match.confidence m = confidence
  /\ Match.match_status m = status.
Proof.
  unfold buildMatchObject. destruct (classifyPriority _ _ _); [|discriminate].
  intro H. injection H as <-. repeat split.
Qed.

Lemma pushMatch_fields (runs : list (list NormalizedAnomaly)) (years : list Q)
      (allMatches : list AnomalyMatch) (matchId : nat) (refs : list (nat * nat))
      (confidence : R) (status : MatchStatus) (sim : SimilarityBreakdown)
      (allMatches' : list AnomalyMatch) (matchId' : nat) :
  pushMatch runs years allMatches matchId refs confidence status sim
  = Some (allMatches', matchId') ->
  exists m, allMatches' = allMatches ++ [m]
            /\ Match.anomaly_refs m = refs /\ Match.confidence m = confidence
            /\ Match.match_status m = status.
Proof.
  unfold pushMatch. destruct (mapM _ refs) as [anomalies|]; [|discriminate].
  destruct (buildMatchObject _ _ _ _ _ _ _ _) as [m|] eqn:E; [|discriminate].
  intro H. injection H as <- <-. exists m. split; [reflexivity|].
  eapply buildMatchObject_fields. exact E.
Qed.

Lemma extendToRun3_refs (hasRun3 : bool) (m : Run3Map) (k : nat)
      (refs : list (nat * nat)) :
  fst (extendToRun3 hasRun3 m k refs) = refs
  \/ exists v, fst (extendToRun3 hasRun3 m k refs) = refs ++ [(2%nat, v)].
Proof.
  unfold extendToRun3. destruct (mapGet m k) as [v|]; [|left; reflexivity].
  destruct hasRun3; [|left; reflexivity].
  right. exists (fst v). reflexivity.
Qed.

(** The chain pushed by one iteration of each loop. *)
Lemma processPair_pushes (runs : list (list NormalizedAnomaly)) (years : list Q)
      (st st' : ChainState) (pair : MatchPair) :
  processPair runs years st pair = Some st' ->
  exists m,
    fst (fst st') = fst (fst st) ++ [m]
    /\ Match.anomaly_refs m
       = fst (extendToRun3 (Nat.leb 3 (List.length runs)) (snd st) (run2Idx pair)
                           [(0%nat, run1Idx pair); (1%nat, run2Idx pair)])
    /\ Match.confidence m = Sim.total (similarity pair)
    /\ Match.match_status m
       = (if (Rjs.ltb (Sim.total (similarity pair)) CONFIDENCE_HIGH
              && Rjs.geb (Sim.total (similarity pair)) CONFIDENCE_LOW)%bool
          then Status.uncertain else Status.matched).
Proof.
  destruct st as [[allMatches matchId] map0]. unfold processPair. cbn [fst snd].
  destruct (extendToRun3 _ map0 _ _) as [refs map1].
  destruct (pushMatch _ _ _ _ _ _ _ _) as [[all' id']|] eqn:E; [|discriminate].
  intro H. injection H as <-. cbn [fst].
  apply pushMatch_fields in E. destruct E as [m [H1 [H2 [H3 H4]]]].
  exists m. repeat split; assumption.
Qed.

Lemma processNew_pushes (runs : list (list NormalizedAnomaly)) (years : list Q)
      (st st' : ChainState) (run2Idx : nat) :
  processNew runs years st run2Idx = Some st' ->
  exists m,
    fst (fst st') = fst (fst st) ++ [m]
    /\ Match.anomaly_refs m
       = fst (extendToRun3 (Nat.leb 3 (List.length runs)) (snd st) run2Idx
                           [(1%nat, run2Idx)])
    /\ Match.confidence m = 0
    /\ Match.match_status m = Status.new.
Proof.
  destruct st as [[allMatches matchId] map0]. unfold processNew. cbn [fst snd].
  destruct (extendToRun3 _ map0 _ _) as [refs map1].
  destruct (pushMatch _ _ _ _ _ _ _ _) as [[all' id']|] eqn:E; [|discriminate].
  intro H. injection H as <-. cbn [fst].
  apply pushMatch_fields in E. destruct E as [m [H1 [H2 [H3 H4]]]].
  exists m. repeat split; assumption.
Qed.

Lemma processSingle_pushes (runs : list (list NormalizedAnomaly)) (years : list Q)
      (r : nat) (status : MatchStatus) (st st' : ChainState) (idx : nat) :
  processSingle runs years r status st idx = Some st' ->
  exists m,
    fst (fst st') = fst (fst st) ++ [m]
    /\ snd st' = snd st
    /\ Match.anomaly_refs m = [(r, idx)]
    /\ Match.confidence m = 0
    /\ Match.match_status m = status.
Proof.
  destruct st as [[allMatches matchId] map0]. unfold processSingle. cbn [fst snd].
  destruct (pushMatch _ _ _ _ _ _ _ _) as [[all' id']|] eqn:E; [|discriminate].
  intro H. injection H as <-. cbn [fst snd].
  apply pushMatch_fields in E. destruct E as [m [H1 [H2 [H3 H4]]]].
  exists m. repeat split; assumption.
Qed.

(** A property of chains that every loop body establishes for the
    chain it pushes holds for all chains returned. *)
Lemma matchAcrossRuns_chains (G : AnomalyMatch -> Prop)
      (runs : list (list NormalizedAnomaly)) (years : list Q)
      (chains : list AnomalyMatch) :
  (forall st st' pair, confident pair ->
      processPair runs years st pair = Some st' ->
      Forall G (fst (fst st)) -> Forall G (fst (fst st'))) ->
  (forall st st' idx,
      processNew runs years st idx = Some st' ->
      Forall G (fst (fst st)) -> Forall G (fst (fst st'))) ->
  (forall st st' idx r status,
      (r = 0%nat /\ status = Status.missing) \/ (r = 2%nat /\ status = Status.new) ->
      processSingle runs years r status st idx = Some st' ->
      Forall G (fst (fst st)) -> Forall G (fst (fst st'))) ->
  matchAcrossRuns runs years = Some chains -> Forall G chains.
Proof.
  intros Hpair Hnew Hsingle. unfold matchAcrossRuns.
  destruct (Nat.ltb (List.length runs) 2).
  { intro H. injection H as <-. constructor. }
  set (match12 := matchAnomalies (nth 0 runs []) (nth 1 runs [])).
  set (match23 := if Nat.leb 3 (List.length runs) then _ else None).
  set (map0 := buildRun3Map match23).
  pose proof (matchAnomalies_confident (nth 0 runs []) (nth 1 runs [])) as Hconf.
  fold match12 in Hconf. rewrite Forall_forall in Hconf.
  destruct (foldM (processPair runs years) (pairs match12) ([], 0%nat, map0))
    as [st1|] eqn:E1; [|discriminate].
  assert (I1 : Forall G (fst (fst st1))).
  { refine (foldM_invariant _ (fun st => Forall G (fst (fst st))) _ _ _ _ _ E1).
    - constructor.
    - intros s x s' Hx Hs Hstep. eapply Hpair; [apply Hconf, Hx|exact Hstep|exact Hs]. }
  destruct (foldM (processNew runs years) (newAnomalies match12) st1)
    as [st2|] eqn:E2; [|discriminate].
  assert (I2 : Forall G (fst (fst st2))).
  { refine (foldM_invariant _ (fun st => Forall G (fst (fst st))) _ _ _ I1 _ E2).
    intros s x s' _ Hs Hstep. eapply Hnew; [exact Hstep|exact Hs]. }
  destruct (foldM (processSingle runs years 0 Status.missing) _ st2)
    as [st3|] eqn:E3; [|discriminate].
  assert (I3 : Forall G (fst (fst st3))).
  { refine (foldM_invariant _ (fun st => Forall G (fst (fst st))) _ _ _ I2 _ E3).
    intros s x s' _ Hs Hstep.
    eapply Hsingle; [left; split; reflexivity|exact Hstep|exact Hs]. }
  destruct match23 as [m23|].
  2: { intro H. injection H as <-. exact I3. }
  destruct (foldM (processSingle runs years 2 Status.new) _ st3)
    as [st4|] eqn:E4; [|discriminate].
  assert (I4 : Forall G (fst (fst st4))).
  { refine (foldM_invariant _ (fun st => Forall G (fst (fst st))) _ _ _ I3 _ E4).
    intros s x s' _ Hs Hstep.
    eapply Hsingle; [right; split; reflexivity|exact Hstep|exact Hs]. }
  destruct (foldM (processSingle runs years 2 Status.new) (newAnomalies m23) st4)
    as [st5|] eqn:E5; [|discriminate].
  intro H. injection H as <-.
  refine (foldM_invariant _ (fun st => Forall G (fst (fst st))) _ _ _ I4 _ E5).
  intros s x s' _ Hs Hstep.
  eapply Hsingle; [right; split; reflexivity|exact Hstep|exact Hs].
Qed.

End MatcherFacts.

(* ================================================================= *)
(** ** The assignment hands out each column at most once *)

Lemma existsb_eqb_In (j : nat) (l : list nat) :
  existsb (Nat.eqb j) l = true <-> In j l.
Proof.
  rewrite existsb_exists. split.
  - intros [x [Hx E]]. apply Nat.eqb_eq in E. subst. exact Hx.
  - intro H. exists j. split; [exact H|apply Nat.eqb_refl].
Qed.

Lemma existsb_eqb_not_In (j : nat) (l : list nat) :
  existsb (Nat.eqb j) l = false <-> ~ In j l.
Proof.
  rewrite <- existsb_eqb_In. destruct (existsb (Nat.eqb j) l); split;
    intro H; try reflexivity; try discriminate; try congruence;
    exfalso; apply H; reflexivity.
Qed.

Lemma setAt_assigned_In (i : nat) (v : Z) (asg : list Z) (z : Z) :
  In z (assigned (setAt i v asg)) -> z = v \/ In z (assigned asg).
Proof.
  revert i. induction asg as [|a asg IH]; intros i H.
  - destruct i; contradiction.
  - destruct i as [|i]; simpl in H.
    + destruct (negb (v =? -1)%Z).
      * destruct H as [H|H]; [left; congruence|].
        right. simpl. destruct (negb (a =? -1)%Z); [right|]; exact H.
      * right. simpl. destruct (negb (a =? -1)%Z); [right|]; exact H.
    + simpl. destruct (negb (a =? -1)%Z).
      * destruct H as [H|H]; [right; left; exact H|].
        destruct (IH i H) as [Hv|Hin]; [left; exact Hv|right; right; exact Hin].
      * apply (IH i H).
Qed.

Lemma setAt_assigned_NoDup (i : nat) (v : Z) (asg : list Z) :
  nth i asg (-1)%Z = (-1)%Z -> ~ In v (assigned asg) ->
  NoDup (assigned asg) -> NoDup (assigned (setAt i v asg)).
Proof.
  revert i. induction asg as [|a asg IH]; intros i Hi Hv Hnd.
  - destruct i; constructor.
  - destruct i as [|i]; simpl in *.
    + subst a. simpl in *. destruct (negb (v =? -1)%Z).
      * constructor; assumption.
      * exact Hnd.
    + destruct (negb (a =? -1)%Z).
      * inversion Hnd as [|? ? Ha Hnd']; subst. constructor.
        -- intro Hin. apply setAt_assigned_In in Hin.
           destruct Hin as [->|Hin]; [apply Hv; left; reflexivity|exact (Ha Hin)].
        -- apply IH; [exact Hi| |exact Hnd'].
           intro Hin. apply Hv. right. exact Hin.
      * apply IH; assumption.
Qed.

Lemma bestColumn_unused (matrix : Matrix) (usedCols : list nat) (i m j : nat) (c : R) :
  bestColumn matrix usedCols i m = Some (j, c) -> ~ In j usedCols.
Proof.
  unfold bestColumn. revert j c.
  apply (fold_left_invariant _
           (fun best => forall j c, best = Some (j, c) -> ~ In j usedCols)).
  - discriminate.
  - intros best j0 _ Hbest j c.
    destruct (existsb (Nat.eqb j0) usedCols) eqn:E; [apply Hbest|].
    apply existsb_eqb_not_In in E.
    destruct best as [[jb cb]|].
    + destruct (Rjs.ltb _ cb).
      * intro H. injection H as <- _. exact E.
      * apply Hbest.
    + intro H. injection H as <- _. exact E.
Qed.

Lemma assignRow_invariant (matrix : Matrix) (m : nat) (st : list Z * list nat)
      (i : nat) :
  assignmentInvariant st -> assignmentInvariant (assignRow matrix m st i).
Proof.
  destruct st as [asg used]. unfold assignRow, assignmentInvariant. cbn [fst snd].
  intros [Hnd Hused].
  destruct (Z.eqb (nth i asg (-1)%Z) (-1)) eqn:Ei; cbn [negb];
    [|split; assumption].
  apply Z.eqb_eq in Ei.
  destruct (bestColumn matrix used i m) as [[bestJ c]|] eqn:Eb;
    [|split; assumption].
  apply bestColumn_unused in Eb. cbn [fst snd]. split.
  - apply setAt_assigned_NoDup; [exact Ei| |exact Hnd].
    intro Hin. destruct (Hused _ Hin) as [j [Hj Hjin]].
    apply Nat2Z.inj in Hj. subst j. exact (Eb Hjin).
  - intros z Hz. apply setAt_assigned_In in Hz. destruct Hz as [->|Hz].
    + exists bestJ. split; [reflexivity|left; reflexivity].
    + destruct (Hused z Hz) as [j [Hj Hjin]]. exists j. split; [exact Hj|].
      right. exact Hjin.
Qed.

Lemma assigned_repeat (n : nat) : assigned (repeat (-1)%Z n) = [].
Proof. induction n as [|n IH]; simpl; [reflexivity|exact IH]. Qed.

Lemma hungarianAlgorithm_NoDup (costMatrix : Matrix) :
  NoDup (assigned (hungarianAlgorithm costMatrix)).
Proof.
  unfold hungarianAlgorithm.
  destruct (_ || _)%bool; [constructor|].
  cbv zeta.
  match goal with
  | |- NoDup (assigned (fst ?st)) =>
      assert (H : assignmentInvariant st); [|exact (proj1 H)]
  end.
  apply fold_left_invariant.
  - unfold assignmentInvariant. cbn [fst snd]. rewrite assigned_repeat.
    split; [constructor|]. intros z [].
  - intros st pass _ Hst. apply fold_left_invariant; [exact Hst|].
    intros st' i _ Hst'. apply assignRow_invariant. exact Hst'.
Qed.

Lemma assigned_injective (asg : list Z) (i i' : nat) (z : Z) :
  NoDup (assigned asg) -> z <> (-1)%Z ->
  nth_error asg i = Some z -> nth_error asg i' = Some z -> i = i'.
Proof.
  intros Hnd Hz. revert i i'. induction asg as [|a asg IH]; intros i i' Hi Hi'.
  - destruct i; discriminate.
  - assert (Hin : forall k, nth_error asg k = Some z -> In z (assigned asg)).
    { intros k Hk. unfold assigned. apply filter_In. split.
      - eapply nth_error_In. exact Hk.
      - apply negb_true_iff. apply Z.eqb_neq. exact Hz. }
    simpl in Hnd. destruct i as [|i], i' as [|i']; simpl in Hi, Hi'.
    + reflexivity.
    + injection Hi as ->. exfalso.
      replace (negb (z =? -1)%Z) with true in Hnd
        by (symmetry; apply negb_true_iff, Z.eqb_neq; exact Hz).
      inversion Hnd as [|? ? Hnot _]; subst. apply Hnot. apply (Hin i'). exact Hi'.
    + injection Hi' as ->. exfalso.
      replace (negb (z =? -1)%Z) with true in Hnd
        by (symmetry; apply negb_true_iff, Z.eqb_neq; exact Hz).
      inversion Hnd as [|? ? Hnot _]; subst. apply Hnot. apply (Hin i). exact Hi.
    + f_equal. apply IH; [|exact Hi|exact Hi'].
      destruct (negb (a =? -1)%Z); [|exact Hnd].
      inversion Hnd; assumption.
Qed.

(* ================================================================= *)
(** ** Pairwise matching splits both runs *)

Lemma fold_left_prefix_aux {S X : Type} (f : S -> X -> S) (P : list X -> S -> Prop)
      (l : list X) :
  forall (suffix pre : list X) (s : S),
    l = pre ++ suffix -> P pre s ->
    (forall pre' x post st, l = pre' ++ x :: post -> P pre' st ->
                            P (pre' ++ [x]) (f st x)) ->
    P l (fold_left f suffix s).
Proof.
  induction suffix as [|x suffix IH]; intros pre s Hl Hp Hstep; simpl.
  - rewrite app_nil_r in Hl. subst l. exact Hp.
  - apply (IH (pre ++ [x])).
    + rewrite <- app_assoc. exact Hl.
    + apply (Hstep pre x suffix); assumption.
    + exact Hstep.
Qed.

Lemma fold_left_prefix {S X : Type} (f : S -> X -> S) (P : list X -> S -> Prop)
      (l : list X) (s : S) :
  P [] s ->
  (forall pre x post st, l = pre ++ x :: post -> P pre st ->
                         P (pre ++ [x]) (f st x)) ->
  P l (fold_left f l s).
Proof.
  intros Hp Hstep. apply (fold_left_prefix_aux f P l l [] s); auto.
Qed.

Lemma rowAt_nth_error (r : list (nat * NormalizedAnomaly)) (i orig : nat)
      (a : NormalizedAnomaly) :
  nth_error r i = Some (orig, a) -> rowAt (map fst r) i = orig.
Proof.
  intro H. unfold rowAt. apply nth_error_nth.
  rewrite nth_error_map, H. reflexivity.
Qed.

Lemma acceptInvariant_weaken (r1 r2 : list (nat * NormalizedAnomaly))
      (pre : list (nat * Z)) (x : nat * Z)
      (st : list MatchPair * list nat * list nat) :
  acceptInvariant r1 r2 pre st -> acceptInvariant r1 r2 (pre ++ [x]) st.
Proof.
  destruct st as [[ps m1] m2]. unfold acceptInvariant.
  intros [H1 [H2 [H3 [H4 [H5 H6]]]]]. repeat split; try assumption.
  - apply (H3 i H).
  - rewrite map_app. apply in_or_app. left. apply (H3 i H).
  - apply (H4 j H).
  - destruct (H4 j H) as [_ [i Hi]]. exists i. apply in_or_app. left. exact Hi.
Qed.

Lemma acceptAssignment_invariant (r1 r2 : list (nat * NormalizedAnomaly))
      (candidates : list Candidate) (l pre post : list (nat * Z)) (x : nat * Z)
      (st : list MatchPair * list nat * list nat) :
  NoDup (map fst l) ->
  (forall i i' z, In (i, z) l -> In (i', z) l -> z <> (-1)%Z -> i = i') ->
  l = pre ++ x :: post ->
  acceptInvariant r1 r2 pre st ->
  acceptInvariant r1 r2 (pre ++ [x]) (acceptAssignment r1 r2 candidates st x).
Proof.
  intros Hnd Hinj Hl Hinv.
  pose proof (acceptInvariant_weaken r1 r2 pre x st Hinv) as Hweak.
  destruct st as [[ps m1] m2]. destruct x as [i j]. unfold acceptAssignment.
  destruct ((j <? 0)%Z || (j >=? Z.of_nat (List.length r2))%Z)%bool eqn:Erange;
    [exact Hweak|].
  destruct (find _ candidates) as [cand|]; [|exact Hweak].
  destruct (Rjs.geb (cand_score cand) CONFIDENCE_LOW); [|exact Hweak].
  destruct (nth_error r1 i) as [[origI a1]|] eqn:E1; [|exact Hweak].
  destruct (nth_error r2 (Z.to_nat j)) as [[origJ a2]|] eqn:E2; [|exact Hweak].
  clear Hweak. apply orb_false_iff in Erange. destruct Erange as [Hlo _].
  apply Z.ltb_ge in Hlo.
  assert (Hj : Z.of_nat (Z.to_nat j) = j) by (apply Z2Nat.id; exact Hlo).
  assert (Hfresh : ~ In i (map fst pre)).
  { subst l. rewrite map_app in Hnd. simpl in Hnd.
    apply NoDup_remove_2 in Hnd. intro Hin. apply Hnd.
    apply in_or_app. left. exact Hin. }
  unfold acceptInvariant in *.
  destruct Hinv as [H1 [H2 [H3 [H4 [H5 H6]]]]].
  split; [|split; [|split; [|split; [|split]]]].
  - rewrite map_app. simpl. rewrite map_app. simpl.
    rewrite H1, (rowAt_nth_error r1 i origI a1 E1). reflexivity.
  - rewrite map_app. simpl. rewrite map_app. simpl.
    rewrite H2, (rowAt_nth_error r2 _ origJ a2 E2). reflexivity.
  - intros k [<-|Hk].
    + split.
      * apply nth_error_Some. congruence.
      * rewrite map_app. apply in_or_app. right. left. reflexivity.
    + split; [apply (H3 k Hk)|].
      rewrite map_app. apply in_or_app. left. apply (H3 k Hk).
  - intros k [<-|Hk].
    + split.
      * apply nth_error_Some. congruence.
      * exists i. apply in_or_app. right. left. rewrite Hj. reflexivity.
    + split; [apply (H4 k Hk)|].
      destruct (H4 k Hk) as [_ [i' Hi']]. exists i'.
      apply in_or_app. left. exact Hi'.
  - constructor; [|exact H5]. intro Hin. apply Hfresh. apply (H3 i Hin).
  - constructor; [|exact H6]. intro Hin.
    destruct (H4 _ Hin) as [_ [i' Hi']]. rewrite Hj in Hi'.
    assert (Heq : i' = i).
    { apply (Hinj i' i j).
      - subst l. apply in_or_app. left. exact Hi'.
      - subst l. apply in_or_app. right. left. reflexivity.
      - lia. }
    subst i'. apply Hfresh. apply in_map_iff. exists (i, j). split; [reflexivity|exact Hi'].
Qed.

Lemma map_rowAt_seq (rows : list nat) :
  map (rowAt rows) (seq 0 (List.length rows)) = rows.
Proof.
  unfold rowAt.
  assert (H : forall k, map (fun i => nth (i - k) rows 0%nat)
                            (seq k (List.length rows)) = rows).
  { induction rows as [|x rows IH]; intro k; simpl; [reflexivity|].
    rewrite Nat.sub_diag. f_equal.
    rewrite <- (IH (S k)) at 2. apply map_ext_in. intros i Hi.
    apply in_seq in Hi. replace (i - k)%nat with (S (i - S k)) by lia.
    reflexivity. }
  rewrite <- (H 0%nat) at 2. apply map_ext. intro i. rewrite Nat.sub_0_r.
  reflexivity.
Qed.

Lemma unmatched_rows (r : list (nat * NormalizedAnomaly)) (matchedR : list nat) :
  unmatched r matchedR
  = map (rowAt (map fst r))
        (filter (fun i => negb (existsb (Nat.eqb i) matchedR))
                (seq 0 (List.length r))).
Proof.
  unfold unmatched, Js.indexed, rowAt.
  set (g := fun i => negb (existsb (Nat.eqb i) matchedR)).
  assert (H : forall k,
             map (fun e : nat * (nat * NormalizedAnomaly) => fst (snd e))
                 (filter (fun e => g (fst e)) (Js.indexedFrom k r))
             = map (fun i => nth (i - k) (map fst r) 0%nat)
                   (filter g (seq k (List.length r)))).
  { induction r as [|x r IH]; intro k; simpl; [reflexivity|].
    assert (Htail : map (fun i => nth (i - S k) (map fst r) 0%nat)
                        (filter g (seq (S k) (List.length r)))
                    = map (fun i => match (i - k)%nat with
                                    | O => fst x
                                    | S m => nth m (map fst r) 0%nat
                                    end)
                          (filter g (seq (S k) (List.length r)))).
    { apply map_ext_in. intros i Hi. apply filter_In in Hi. destruct Hi as [Hi _].
      apply in_seq in Hi. replace (i - k)%nat with (S (i - S k)) by lia.
      reflexivity. }
    destruct (g k); simpl.
    - rewrite Nat.sub_diag. f_equal. rewrite IH. exact Htail.
    - rewrite IH. exact Htail. }
  change (map (fun e : nat * (nat * NormalizedAnomaly) => fst (snd e))
              (filter (fun e => g (fst e)) (Js.indexedFrom 0 r))
          = map (fun i => nth i (map fst r) 0%nat)
                (filter g (seq 0 (List.length r)))).
  rewrite (H 0%nat). apply map_ext. intro i. rewrite Nat.sub_0_r. reflexivity.
Qed.

Lemma matched_and_unmatched (n : nat) (matchedR : list nat) :
  NoDup matchedR -> (forall i, In i matchedR -> (i < n)%nat) ->
  Permutation (matchedR
               ++ filter (fun i => negb (existsb (Nat.eqb i) matchedR)) (seq 0 n))
              (seq 0 n).
Proof.
  intros Hnd Hlt. apply NoDup_Permutation.
  - apply NoDup_app; [exact Hnd|apply NoDup_filter, seq_NoDup|].
    intros i Hi Hf. apply filter_In in Hf. destruct Hf as [_ Hf].
    apply negb_true_iff in Hf. apply existsb_eqb_not_In in Hf. exact (Hf Hi).
  - apply seq_NoDup.
  - intro i. rewrite in_app_iff, filter_In, in_seq. split.
    + intros [Hi|[Hi _]]; [|exact Hi]. split; [lia|]. apply Hlt. exact Hi.
    + intro Hi. destruct (existsb (Nat.eqb i) matchedR) eqn:E.
      * left. apply existsb_eqb_In. exact E.
      * right. split; [exact Hi|reflexivity].
Qed.

Lemma pairs_and_unmatched (r : list (nat * NormalizedAnomaly)) (matchedR : list nat) :
  NoDup matchedR -> (forall i, In i matchedR -> (i < List.length r)%nat) ->
  Permutation (map (rowAt (map fst r)) (rev matchedR) ++ unmatched r matchedR)
              (map fst r).
Proof.
  intros Hnd Hlt. rewrite unmatched_rows, <- map_app.
  pose proof (map_rowAt_seq (map fst r)) as E. rewrite length_map in E.
  rewrite <- E at 2. apply Permutation_map.
  eapply perm_trans; [|apply (matched_and_unmatched _ matchedR Hnd Hlt)].
  apply Permutation_app_tail. apply Permutation_sym, Permutation_rev.
Qed.

Lemma matchAnomalies_partition (run1 run2 : list NormalizedAnomaly) :
  Permutation (map run1Idx (pairs (matchAnomalies run1 run2))
               ++ missingAnomalies (matchAnomalies run1 run2))
              (nonReferenceRows run1)
  /\ Permutation (map run2Idx (pairs (matchAnomalies run1 run2))
                  ++ newAnomalies (matchAnomalies run1 run2))
                 (nonReferenceRows run2).
Proof.
  unfold matchAnomalies, nonReferenceRows.
  set (r1 := nonReference run1). set (r2 := nonReference run2).
  set (candidates := candidatesOf r1 r2).
  set (asg := hungarianAlgorithm _).
  assert (Hinv : acceptInvariant r1 r2 (Js.indexed asg)
                   (fold_left (acceptAssignment r1 r2 candidates)
                              (Js.indexed asg) ([], [], []))).
  { apply (fold_left_prefix (acceptAssignment r1 r2 candidates)
                            (acceptInvariant r1 r2)).
    - unfold acceptInvariant. simpl. split; [reflexivity|].
      split; [reflexivity|]. split; [intros ? []|]. split; [intros ? []|].
      split; constructor.
    - intros pre x post st Hl Hst.
      apply (acceptAssignment_invariant r1 r2 candidates (Js.indexed asg)
                                        pre post x st); try assumption.
      + unfold Js.indexed. rewrite indexedFrom_fst. apply seq_NoDup.
      + intros i i' z Hi Hi' Hz.
        apply indexed_nth_error in Hi. apply indexed_nth_error in Hi'.
        apply (assigned_injective asg i i' z); try assumption.
        apply hungarianAlgorithm_NoDup. }
  destruct (fold_left _ (Js.indexed asg) ([], [], [])) as [[ps m1] m2].
  cbn [pairs newAnomalies missingAnomalies].
  unfold acceptInvariant in Hinv. destruct Hinv as [H1 [H2 [H3 [H4 [H5 H6]]]]].
  split.
  - rewrite H1. apply pairs_and_unmatched; [exact H5|].
    intros i Hi. apply (H3 i Hi).
  - rewrite H2. apply pairs_and_unmatched; [exact H6|].
    intros j Hj. apply (H4 j Hj).
Qed.

(* ================================================================= *)
(** ** The loops of the chain construction *)

Lemma mapM_available (runs : list (list NormalizedAnomaly)) (refs : list (nat * nat)) :
  (forall ref, In ref refs -> available runs ref) ->
  exists anomalies, mapM (element runs) refs = Some anomalies
                    /\ List.length anomalies = List.length refs.
Proof.
  induction refs as [|ref refs IH]; intro H; simpl.
  - exists []. split; reflexivity.
  - destruct IH as [anomalies [E Hlen]].
    { intros r Hr. apply H. right. exact Hr. }
    pose proof (H ref (or_introl eq_refl)) as Ha. unfold available in Ha.
    destruct (element runs ref) as [a|]; [|contradiction].
    rewrite E. exists (a :: anomalies). split; [reflexivity|].
    simpl. congruence.
Qed.

Lemma classifyPriority_nonempty (anomalies : list NormalizedAnomaly)
      (growth : GrowthRates) (status : MatchStatus) :
  anomalies <> [] -> classifyPriority anomalies growth status <> None.
Proof.
  intro Hne. unfold classifyPriority.
  destruct (nth_error anomalies (List.length anomalies - 1)) as [latest|] eqn:E.
  - repeat match goal with
           | |- context [if ?b then _ else _] => destruct b
           end; discriminate.
  - exfalso. apply nth_error_None in E.
    destruct anomalies; [contradiction|]. simpl in E. lia.
Qed.

Lemma pushMatch_succeeds (runs : list (list NormalizedAnomaly)) (years : list Q)
      (allMatches : list AnomalyMatch) (matchId : nat) (refs : list (nat * nat))
      (confidence : R) (status : MatchStatus) (sim : SimilarityBreakdown) :
  refs <> [] -> (forall ref, In ref refs -> available runs ref) ->
  exists m,
    pushMatch runs years allMatches matchId refs confidence status sim
    = Some (allMatches ++ [m], S matchId)
    /\ Match.anomaly_refs m = refs.
Proof.
  intros Hne Hav. unfold pushMatch.
  destruct (mapM_available runs refs Hav) as [anomalies [-> Hlen]].
  assert (Hne' : anomalies <> []).
  { intro E. subst anomalies. destruct refs; [contradiction|discriminate]. }
  destruct (buildMatchObject _ anomalies refs _ confidence status sim years)
    as [m|] eqn:E.
  - exists m. split; [reflexivity|].
    apply buildMatchObject_fields in E. apply E.
  - exfalso. unfold buildMatchObject in E.
    pose proof (classifyPriority_nonempty anomalies
                  (calculateGrowthRates anomalies (map fst refs) years) status Hne')
      as Hc.
    destruct (classifyPriority _ _ _); [discriminate|contradiction].
Qed.

Lemma membersOf_snoc (chains : list AnomalyMatch) (m : AnomalyMatch) :
  membersOf (chains ++ [m]) = membersOf chains ++ Match.anomaly_refs m.
Proof.
  unfold membersOf. rewrite flat_map_app. simpl. rewrite app_nil_r. reflexivity.
Qed.

Lemma mapGet_In (m : Run3Map) (k : nat) (v : nat * SimilarityBreakdown) :
  mapGet m k = Some v -> In (k, v) m.
Proof.
  unfold mapGet. destruct (find _ m) as [[k' v']|] eqn:E; [|discriminate].
  simpl. intro H. injection H as <-. apply find_some in E.
  destruct E as [Hin Hk]. simpl in Hk. apply Nat.eqb_eq in Hk. subst k'. exact Hin.
Qed.

Lemma mapDelete_fresh (m : Run3Map) (k : nat) :
  ~ In k (map fst m) -> mapDelete m k = m.
Proof.
  induction m as [|[k' v'] m IH]; intro H; simpl; [reflexivity|].
  destruct (Nat.eqb k' k) eqn:E.
  - apply Nat.eqb_eq in E. exfalso. apply H. left. exact E.
  - simpl. f_equal. apply IH. intro Hin. apply H. right. exact Hin.
Qed.

Lemma mapDelete_Permutation (m : Run3Map) (k : nat) (v : nat * SimilarityBreakdown) :
  NoDup (map fst m) -> mapGet m k = Some v ->
  Permutation m ((k, v) :: mapDelete m k).
Proof.
  induction m as [|[k' v'] m IH]; intros Hnd Hget; [discriminate|].
  simpl in Hnd. inversion Hnd as [|? ? Hk' Hnd']; subst.
  unfold mapGet in Hget. simpl in *. destruct (Nat.eqb k' k) eqn:E.
  - simpl in Hget. injection Hget as <-. apply Nat.eqb_eq in E. subst k'.
    simpl. rewrite mapDelete_fresh by exact Hk'. apply Permutation_refl.
  - simpl. eapply perm_trans; [apply perm_skip, IH; assumption|]. apply perm_swap.
Qed.

Lemma mapDelete_incl (m : Run3Map) (k : nat) : incl (mapDelete m k) m.
Proof. intros e He. unfold mapDelete in He. apply filter_In in He. apply He. Qed.

Lemma NoDup_map_fst_filter {A B : Type} (p : A * B -> bool) (l : list (A * B)) :
  NoDup (map fst l) -> NoDup (map fst (filter p l)).
Proof.
  induction l as [|x l IH]; intro H; simpl; [constructor|].
  simpl in H. inversion H as [|? ? Hx Hl]; subst.
  destruct (p x); simpl; [|apply IH; exact Hl].
  constructor; [|apply IH; exact Hl].
  intro Hin. apply Hx. apply in_map_iff in Hin. destruct Hin as [y [Hy Hin]].
  apply filter_In in Hin. apply in_map_iff. exists y. split; [exact Hy|apply Hin].
Qed.

Lemma mapDelete_ready (runs : list (list NormalizedAnomaly)) (m : Run3Map) (k : nat) :
  mapReady runs m -> mapReady runs (mapDelete m k).
Proof.
  intros [Hnd Hav]. split.
  - apply NoDup_map_fst_filter. exact Hnd.
  - intros e He. apply Hav. apply (mapDelete_incl m k). exact He.
Qed.

(** One step of the two loops that may extend a chain to run 3. *)
Lemma extend_and_push (runs : list (list NormalizedAnomaly)) (years : list Q)
      (allMatches : list AnomalyMatch) (matchId : nat) (map0 : Run3Map)
      (key : nat) (base : list (nat * nat)) (confidence : R)
      (status : MatchStatus) (sim : SimilarityBreakdown) :
  base <> [] -> (forall ref, In ref base -> available runs ref) ->
  mapReady runs map0 ->
  exists m,
    let ext := extendToRun3 (Nat.leb 3 (List.length runs)) map0 key base in
    pushMatch runs years allMatches matchId (fst ext) confidence status sim
    = Some (allMatches ++ [m], S matchId)
    /\ mapReady runs (snd ext) /\ incl (snd ext) map0
    /\ Permutation (Match.anomaly_refs m ++ run3Values (snd ext))
                   (run3Values map0 ++ base).
Proof.
  intros Hne Hbase Hready. unfold extendToRun3.
  destruct (mapGet map0 key) as [v|] eqn:Eget.
  - destruct (Nat.leb 3 (List.length runs)).
    + cbn [fst snd].
      destruct (pushMatch_succeeds runs years allMatches matchId
                  (base ++ [(2%nat, fst v)]) confidence status sim) as [m [E Hm]].
      * destruct base; [contradiction|discriminate].
      * intros ref Hin. apply in_app_or in Hin. destruct Hin as [Hin|[<-|[]]].
        -- apply Hbase. exact Hin.
        -- destruct Hready as [_ Hav]. apply (Hav (key, v)).
           apply mapGet_In. exact Eget.
      * exists m. split; [exact E|]. split; [apply mapDelete_ready; exact Hready|].
        split; [apply mapDelete_incl|]. rewrite Hm.
        destruct Hready as [Hnd _].
        pose proof (mapDelete_Permutation map0 key v Hnd Eget) as Hp.
        apply (Permutation_map (fun e => (2%nat, fst (snd e)))) in Hp.
        fold (run3Values map0) in Hp. simpl in Hp.
        fold (run3Values (mapDelete map0 key)) in Hp.
        rewrite <- app_assoc. simpl.
        eapply perm_trans; [apply Permutation_app_comm|].
        eapply perm_trans; [|apply Permutation_app_tail, Permutation_sym, Hp].
        simpl. apply Permutation_refl.
    + cbn [fst snd].
      destruct (pushMatch_succeeds runs years allMatches matchId base
                  confidence status sim Hne Hbase) as [m [E Hm]].
      exists m. split; [exact E|]. split; [exact Hready|].
      split; [apply incl_refl|]. rewrite Hm. apply Permutation_app_comm.
  - cbn [fst snd].
    destruct (pushMatch_succeeds runs years allMatches matchId base
                confidence status sim Hne Hbase) as [m [E Hm]].
    exists m. split; [exact E|]. split; [exact Hready|].
    split; [apply incl_refl|]. rewrite Hm. apply Permutation_app_comm.
Qed.

Lemma processPair_step (runs : list (list NormalizedAnomaly)) (years : list Q)
      (st : ChainState) (p : MatchPair) :
  mapReady runs (snd st) ->
  (forall ref, In ref (pairRefs p) -> available runs ref) ->
  exists st',
    processPair runs years st p = Some st'
    /\ mapReady runs (snd st') /\ incl (snd st') (snd st)
    /\ Permutation (emitted st' ++ run3Values (snd st'))
                   (emitted st ++ run3Values (snd st) ++ pairRefs p).
Proof.
  destruct st as [[allMatches matchId] map0]. cbn [snd]. intros Hready Hav.
  destruct (extend_and_push runs years allMatches matchId map0 (run2Idx p)
              (pairRefs p) (Sim.total (similarity p))
              (if (Rjs.ltb (Sim.total (similarity p)) CONFIDENCE_HIGH
                   && Rjs.geb (Sim.total (similarity p)) CONFIDENCE_LOW)%bool
               then Status.uncertain else Status.matched)
              (similarity p))
    as [m [E [Hr [Hi Hp]]]]; [discriminate|exact Hav|exact Hready|].
  cbv zeta in E, Hr, Hi, Hp. unfold processPair.
  fold (pairRefs p).
  destruct (extendToRun3 _ map0 (run2Idx p) (pairRefs p)) as [refs map1].
  cbn [fst snd] in *. rewrite E.
  eexists. split; [reflexivity|]. cbn [snd]. split; [exact Hr|].
  split; [exact Hi|]. unfold emitted. cbn [fst].
  rewrite membersOf_snoc, <- app_assoc.
  apply Permutation_app_head. exact Hp.
Qed.

Lemma processNew_step (runs : list (list NormalizedAnomaly)) (years : list Q)
      (st : ChainState) (idx : nat) :
  mapReady runs (snd st) -> available runs (1%nat, idx) ->
  exists st',
    processNew runs years st idx = Some st'
    /\ mapReady runs (snd st') /\ incl (snd st') (snd st)
    /\ Permutation (emitted st' ++ run3Values (snd st'))
                   (emitted st ++ run3Values (snd st) ++ [(1%nat, idx)]).
Proof.
  destruct st as [[allMatches matchId] map0]. cbn [snd]. intros Hready Hav.
  destruct (extend_and_push runs years allMatches matchId map0 idx
              [(1%nat, idx)] 0%R Status.new zeroSimilarity)
    as [m [E [Hr [Hi Hp]]]]; [discriminate| |exact Hready|].
  { intros ref [<-|[]]. exact Hav. }
  cbv zeta in E, Hr, Hi, Hp. unfold processNew.
  destruct (extendToRun3 _ map0 idx [(1%nat, idx)]) as [refs map1].
  cbn [fst snd] in *. rewrite E.
  eexists. split; [reflexivity|]. cbn [snd]. split; [exact Hr|].
  split; [exact Hi|]. unfold emitted. cbn [fst].
  rewrite membersOf_snoc, <- app_assoc.
  apply Permutation_app_head. exact Hp.
Qed.

Lemma processSingle_step (runs : list (list NormalizedAnomaly)) (years : list Q)
      (r : nat) (status : MatchStatus) (st : ChainState) (idx : nat) :
  available runs (r, idx) ->
  exists st',
    processSingle runs years r status st idx = Some st'
    /\ snd st' = snd st /\ emitted st' = emitted st ++ [(r, idx)].
Proof.
  destruct st as [[allMatches matchId] map0]. intro Hav. unfold processSingle.
  destruct (pushMatch_succeeds runs years allMatches matchId [(r, idx)]
              0%R status zeroSimilarity) as [m [E Hm]]; [discriminate| |].
  { intros ref [<-|[]]. exact Hav. }
  rewrite E. eexists. split; [reflexivity|]. split; [reflexivity|].
  unfold emitted. cbn [fst]. rewrite membersOf_snoc, Hm. reflexivity.
Qed.

Lemma processPair_loop (runs : list (list NormalizedAnomaly)) (years : list Q)
      (l : list MatchPair) :
  forall st : ChainState,
    mapReady runs (snd st) ->
    (forall p ref, In p l -> In ref (pairRefs p) -> available runs ref) ->
    exists st',
      foldM (processPair runs years) l st = Some st'
      /\ mapReady runs (snd st') /\ incl (snd st') (snd st)
      /\ Permutation (emitted st' ++ run3Values (snd st'))
                     (emitted st ++ run3Values (snd st) ++ flat_map pairRefs l).
Proof.
  induction l as [|p l IH]; intros st Hready Hav; simpl.
  - exists st. split; [reflexivity|]. split; [exact Hready|].
    split; [apply incl_refl|]. rewrite app_nil_r. apply Permutation_refl.
  - destruct (processPair_step runs years st p Hready) as [st1 [E [Hr1 [Hi1 Hp1]]]].
    { intros ref Href. apply (Hav p ref); [left; reflexivity|exact Href]. }
    rewrite E. destruct (IH st1 Hr1) as [st' [E' [Hr' [Hi' Hp']]]].
    { intros q ref Hq. apply Hav. right. exact Hq. }
    exists st'. split; [exact E'|]. split; [exact Hr'|].
    split; [eapply incl_tran; eassumption|].
    eapply perm_trans; [exact Hp'|]. rewrite app_assoc.
    eapply perm_trans; [apply Permutation_app_tail; exact Hp1|].
    rewrite <- !app_assoc. apply Permutation_refl.
Qed.

Lemma processNew_loop (runs : list (list NormalizedAnomaly)) (years : list Q)
      (l : list nat) :
  forall st : ChainState,
    mapReady runs (snd st) ->
    (forall idx, In idx l -> available runs (1%nat, idx)) ->
    exists st',
      foldM (processNew runs years) l st = Some st'
      /\ mapReady runs (snd st') /\ incl (snd st') (snd st)
      /\ Permutation (emitted st' ++ run3Values (snd st'))
                     (emitted st ++ run3Values (snd st) ++ map (pair 1%nat) l).
Proof.
  induction l as [|idx l IH]; intros st Hready Hav; simpl.
  - exists st. split; [reflexivity|]. split; [exact Hready|].
    split; [apply incl_refl|]. rewrite app_nil_r. apply Permutation_refl.
  - destruct (processNew_step runs years st idx Hready) as [st1 [E [Hr1 [Hi1 Hp1]]]].
    { apply Hav. left. reflexivity. }
    rewrite E. destruct (IH st1 Hr1) as [st' [E' [Hr' [Hi' Hp']]]].
    { intros q Hq. apply Hav. right. exact Hq. }
    exists st'. split; [exact E'|]. split; [exact Hr'|].
    split; [eapply incl_tran; eassumption|].
    eapply perm_trans; [exact Hp'|]. rewrite app_assoc.
    eapply perm_trans; [apply Permutation_app_tail; exact Hp1|].
    rewrite <- !app_assoc. apply Permutation_refl.
Qed.

Lemma processSingle_loop (runs : list (list NormalizedAnomaly)) (years : list Q)
      (r : nat) (status : MatchStatus) (l : list nat) :
  forall st : ChainState,
    (forall idx, In idx l -> available runs (r, idx)) ->
    exists st',
      foldM (processSingle runs years r status) l st = Some st'
      /\ snd st' = snd st /\ emitted st' = emitted st ++ map (pair r) l.
Proof.
  induction l as [|idx l IH]; intros st Hav; simpl.
  - exists st. split; [reflexivity|]. split; [reflexivity|].
    rewrite app_nil_r. reflexivity.
  - destruct (processSingle_step runs years r status st idx) as [st1 [E [Hs1 He1]]].
    { apply Hav. left. reflexivity. }
    rewrite E. destruct (IH st1) as [st' [E' [Hs' He']]].
    { intros q Hq. apply Hav. right. exact Hq. }
    exists st'. split; [exact E'|]. split; [congruence|].
    rewrite He', He1, <- app_assoc. reflexivity.
Qed.

(* ================================================================= *)
(** ** The chains partition the non-reference rows of the first three runs *)

Ltac count_members :=
  apply (Permutation_count_occ ref_eq_dec);
  let x := fresh "x" in
  intro x;
  repeat match goal with
         | H : Permutation _ _ |- _ =>
             let H' := fresh "C" in
             pose proof (proj1 (Permutation_count_occ ref_eq_dec _ _) H x) as H';
             clear H
         end;
  repeat rewrite ?map_app, ?count_occ_app in *; simpl count_occ in *; lia.

Ltac loop_result L :=
  match type of L with
  | _ = Some ?st =>
      match goal with
      | |- exists _, match ?t with _ => _ end = _ /\ _ =>
          replace t with (Some st) by exact (eq_sym L)
      end
  end.

Lemma mapSet_fresh (m : Run3Map) (k : nat) (v : nat * SimilarityBreakdown) :
  ~ In k (map fst m) -> mapSet m k v = m ++ [(k, v)].
Proof.
  induction m as [|[k' v'] m IH]; intro H; simpl; [reflexivity|].
  destruct (Nat.eqb k' k) eqn:E.
  - apply Nat.eqb_eq in E. exfalso. apply H. left. exact E.
  - f_equal. apply IH. intro Hin. apply H. right. exact Hin.
Qed.

Lemma buildRun3Map_entries (m23 : MatchResult) :
  NoDup (map run1Idx (pairs m23)) ->
  buildRun3Map (Some m23)
  = map (fun p => (run1Idx p, (run2Idx p, similarity p))) (pairs m23).
Proof.
  unfold buildRun3Map. intro Hnd.
  assert (H : forall ps acc,
             NoDup (map fst acc ++ map run1Idx ps) ->
             fold_left (fun m pair => mapSet m (run1Idx pair)
                                             (run2Idx pair, similarity pair)) ps acc
             = acc ++ map (fun p => (run1Idx p, (run2Idx p, similarity p))) ps).
  { induction ps as [|p ps IH]; intros acc Hacc; simpl.
    - rewrite app_nil_r. reflexivity.
    - simpl in Hacc. rewrite mapSet_fresh.
      + rewrite IH.
        * rewrite <- app_assoc. reflexivity.
        * rewrite map_app. simpl. rewrite <- app_assoc. simpl. exact Hacc.
      + apply NoDup_remove_2 in Hacc. intro Hin. apply Hacc.
        apply in_or_app. left. exact Hin. }
  apply (H (pairs m23) []). exact Hnd.
Qed.

Lemma nonReferenceRows_In (run : list NormalizedAnomaly) (i : nat) :
  In i (nonReferenceRows run)
  <-> exists a, nth_error run i = Some a /\ Anomaly.is_reference_point a = false.
Proof.
  unfold nonReferenceRows, nonReference. rewrite in_map_iff. split.
  - intros [[i' a] [Hi Hin]]. simpl in Hi. subst i'.
    apply filter_In in Hin. destruct Hin as [Hin Hp].
    apply indexed_nth_error in Hin. exists a. split; [exact Hin|].
    simpl in Hp. apply negb_true_iff in Hp. exact Hp.
  - intros [a [Hn Hp]]. exists (i, a). split; [reflexivity|].
    apply filter_In. split; [apply indexed_nth_error; exact Hn|].
    simpl. rewrite Hp. reflexivity.
Qed.

Lemma nonReferenceRows_NoDup (run : list NormalizedAnomaly) :
  NoDup (nonReferenceRows run).
Proof.
  unfold nonReferenceRows, nonReference. apply NoDup_map_fst_filter.
  unfold Js.indexed. rewrite indexedFrom_fst. apply seq_NoDup.
Qed.

Lemma nonReferenceRows_available (runs : list (list NormalizedAnomaly)) (r i : nat) :
  In i (nonReferenceRows (nth r runs [])) -> available runs (r, i).
Proof.
  intro H. apply nonReferenceRows_In in H. destruct H as [a [Hn _]].
  unfold available, element. simpl. congruence.
Qed.

Lemma pairRefs_members (ps : list MatchPair) :
  Permutation (flat_map pairRefs ps)
              (map (pair 0%nat) (map run1Idx ps) ++ map (pair 1%nat) (map run2Idx ps)).
Proof.
  induction ps as [|p ps IH]; simpl; [apply perm_nil|].
  apply perm_skip. eapply perm_trans; [apply perm_skip; exact IH|].
  apply Permutation_middle.
Qed.

Lemma incl_nil_eq {A : Type} (l : list A) : incl l [] -> l = [].
Proof.
  intro H. destruct l as [|x l]; [reflexivity|].
  exfalso. apply (H x). left. reflexivity.
Qed.

Lemma matchAcrossRuns_members (runs : list (list NormalizedAnomaly)) (years : list Q) :
  (2 <= List.length runs)%nat ->
  exists chains,
    matchAcrossRuns runs years = Some chains
    /\ Permutation (membersOf chains) (chainedRows runs).
Proof.
  intro Hlen. unfold matchAcrossRuns, chainedRows. cbv zeta.
  replace (Nat.ltb (List.length runs) 2) with false
    by (symmetry; apply Nat.ltb_ge; exact Hlen).
  set (r0 := nth 0 runs []). set (r1 := nth 1 runs []). set (r2 := nth 2 runs []).
  destruct (matchAnomalies_partition r0 r1) as [P0 P1].
  set (m12 := matchAnomalies r0 r1) in *.
  assert (A0 : forall i, In i (map run1Idx (pairs m12) ++ missingAnomalies m12) ->
                         available runs (0%nat, i)).
  { intros i Hi. apply nonReferenceRows_available.
    apply (Permutation_in _ P0). exact Hi. }
  assert (A1 : forall i, In i (map run2Idx (pairs m12) ++ newAnomalies m12) ->
                         available runs (1%nat, i)).
  { intros i Hi. apply nonReferenceRows_available.
    apply (Permutation_in _ P1). exact Hi. }
  assert (Apairs : forall p ref, In p (pairs m12) -> In ref (pairRefs p) ->
                                 available runs ref).
  { intros p ref Hp [<-|[<-|[]]].
    - apply A0. apply in_or_app. left. apply in_map. exact Hp.
    - apply A1. apply in_or_app. left. apply in_map. exact Hp. }
  pose proof (pairRefs_members (pairs m12)) as Pp.
  apply (Permutation_map (pair 0%nat)) in P0.
  apply (Permutation_map (pair 1%nat)) in P1.
  destruct (Nat.leb 3 (List.length runs)) eqn:E3.
  - (* three runs or more *)
    destruct (matchAnomalies_partition r1 r2) as [P1' P2].
    set (m23 := matchAnomalies r1 r2) in *.
    assert (Hkeys : NoDup (map run1Idx (pairs m23))).
    { apply (NoDup_app_remove_r _ (missingAnomalies m23)).
      apply (Permutation_NoDup (Permutation_sym P1')).
      apply nonReferenceRows_NoDup. }
    assert (A2 : forall i, In i (map run2Idx (pairs m23) ++ newAnomalies m23) ->
                           available runs (2%nat, i)).
    { intros i Hi. apply nonReferenceRows_available.
      apply (Permutation_in _ P2). exact Hi. }
    rewrite (buildRun3Map_entries m23 Hkeys).
    set (map0 := map (fun p => (run1Idx p, (run2Idx p, similarity p))) (pairs m23)).
    assert (Hready : mapReady runs map0).
    { split.
      - unfold map0. rewrite map_map. simpl. exact Hkeys.
      - intros e He. unfold map0 in He. apply in_map_iff in He.
        destruct He as [p [<- Hp]]. simpl. apply A2.
        apply in_or_app. left. apply in_map. exact Hp. }
    assert (Hvals : run3Values map0 = map (pair 2%nat) (map run2Idx (pairs m23))).
    { unfold run3Values, map0. rewrite !map_map. reflexivity. }
    destruct (processPair_loop runs years (pairs m12) ([], 0%nat, map0) Hready Apairs)
      as [st1 [L1 [Hr1 [_ Q1]]]].
    loop_result L1.
    destruct (processNew_loop runs years (newAnomalies m12) st1 Hr1)
      as [st2 [L2 [Hr2 [_ Q2]]]].
    { intros i Hi. apply A1. apply in_or_app. right. exact Hi. }
    loop_result L2.
    destruct (processSingle_loop runs years 0%nat Status.missing
                (missingAnomalies m12) st2) as [st3 [L3 [S3 E3']]].
    { intros i Hi. apply A0. apply in_or_app. right. exact Hi. }
    loop_result L3.
    destruct (processSingle_loop runs years 2%nat Status.new
                (map (fun e => fst (snd e)) (snd st3)) st3) as [st4 [L4 [S4 E4]]].
    { intros i Hi. apply in_map_iff in Hi. destruct Hi as [e [<- He]].
      rewrite S3 in He. destruct Hr2 as [_ Hav]. apply Hav. exact He. }
    loop_result L4.
    destruct (processSingle_loop runs years 2%nat Status.new
                (newAnomalies m23) st4) as [st5 [L5 [S5 E5]]].
    { intros i Hi. apply A2. apply in_or_app. right. exact Hi. }
    loop_result L5.
    eexists. split; [reflexivity|].
    change (membersOf (fst (fst st5))) with (emitted st5).
    rewrite E5, E4, E3', map_map, S3.
    change (map (fun e : nat * (nat * SimilarityBreakdown) => (2%nat, fst (snd e)))
                (snd st2)) with (run3Values (snd st2)).
    cbn [snd] in Q1. unfold emitted at 2 in Q1. cbn [fst membersOf flat_map] in Q1.
    rewrite Hvals in Q1.
    apply (Permutation_map (pair 2%nat)) in P2.
    clear - P0 P1 P2 Pp Q1 Q2. count_members.
  - (* two runs *)
    simpl buildRun3Map.
    destruct (processPair_loop runs years (pairs m12) ([], 0%nat, []))
      as [st1 [L1 [Hr1 [I1 Q1]]]].
    { split; [constructor|]. intros e []. }
    { exact Apairs. }
    loop_result L1.
    destruct (processNew_loop runs years (newAnomalies m12) st1 Hr1)
      as [st2 [L2 [Hr2 [I2 Q2]]]].
    { intros i Hi. apply A1. apply in_or_app. right. exact Hi. }
    loop_result L2.
    destruct (processSingle_loop runs years 0%nat Status.missing
                (missingAnomalies m12) st2) as [st3 [L3 [S3 E3']]].
    { intros i Hi. apply A0. apply in_or_app. right. exact Hi. }
    loop_result L3.
    eexists. split; [reflexivity|].
    change (membersOf (fst (fst st3))) with (emitted st3).
    rewrite E3'.
    cbn [snd] in I1. apply incl_nil_eq in I1. rewrite I1 in *.
    apply incl_nil_eq in I2. rewrite I2 in *.
    unfold emitted at 2 in Q1. cbn [fst membersOf flat_map run3Values map] in Q1.
    cbn [run3Values map] in Q2.
    clear - P0 P1 Pp Q1 Q2. count_members.
Qed.

Lemma ref_eqb_true (x y : nat * nat) : ref_eqb x y = true <-> x = y.
Proof.
  destruct x as [a b], y as [c d]. unfold ref_eqb. simpl.
  rewrite andb_true_iff, !Nat.eqb_eq. split.
  - intros [-> ->]. reflexivity.
  - intro H. injection H as -> ->. split; reflexivity.
Qed.

Lemma existsb_ref_eqb (x : nat * nat) (l : list (nat * nat)) :
  existsb (ref_eqb x) l = true <-> In x l.
Proof.
  rewrite existsb_exists. split.
  - intros [y [Hy E]]. apply ref_eqb_true in E. subst. exact Hy.
  - intro H. exists x. split; [exact H|apply ref_eqb_true; reflexivity].
Qed.

Lemma chainedRows_NoDup (runs : list (list NormalizedAnomaly)) :
  NoDup (chainedRows runs).
Proof.
  assert (Hmap : forall (r : nat) run, NoDup (map (pair r) (nonReferenceRows run))).
  { intros r run. apply Finite.Injective_map_NoDup.
    - intros x y H. injection H as ->. reflexivity.
    - apply nonReferenceRows_NoDup. }
  assert (Hfst : forall (r : nat) run ref,
             In ref (map (pair r) (nonReferenceRows run)) -> fst ref = r).
  { intros r run ref H. apply in_map_iff in H. destruct H as [i [<- _]]. reflexivity. }
  unfold chainedRows. apply NoDup_app; [apply Hmap| |].
  - apply NoDup_app; [apply Hmap| |].
    + destruct (Nat.leb 3 (List.length runs)); [apply Hmap|constructor].
    + intros ref H1 H2. apply Hfst in H1.
      destruct (Nat.leb 3 (List.length runs)); [|contradiction].
      apply Hfst in H2. congruence.
  - intros ref H0 H12. apply Hfst in H0. apply in_app_or in H12.
    destruct H12 as [H1|H2].
    + apply Hfst in H1. congruence.
    + destruct (Nat.leb 3 (List.length runs)); [|contradiction].
      apply Hfst in H2. congruence.
Qed.

Lemma chainedRows_In (runs : list (list NormalizedAnomaly)) (ref : nat * nat) :
  (2 <= List.length runs)%nat ->
  In ref (chainedRows runs) <-> chained runs ref = true.
Proof.
  intro Hlen. destruct ref as [r i]. unfold chainedRows, chained.
  rewrite andb_true_iff, Nat.ltb_lt. cbn [fst].
  assert (Hel : forall k, In (r, i) (map (pair k) (nonReferenceRows (nth k runs [])))
                          <-> r = k
                              /\ match element runs (r, i) with
                                 | Some a => negb (Anomaly.is_reference_point a)
                                 | None => false
                                 end = true).
  { intro k. rewrite in_map_iff. split.
    - intros [i' [H Hin]]. injection H as -> ->. split; [reflexivity|].
      apply nonReferenceRows_In in Hin. destruct Hin as [a [Hn Hp]].
      unfold element. cbn [fst snd]. rewrite Hn, Hp. reflexivity.
    - intros [Hk H]. subst k. exists i. split; [reflexivity|].
      apply nonReferenceRows_In. unfold element in H. cbn [fst snd] in H.
      destruct (nth_error (nth r runs []) i) as [a|]; [|discriminate].
      exists a. split; [reflexivity|]. apply negb_true_iff. exact H. }
  rewrite !in_app_iff, !Hel. split.
  - intros [[-> H]|[[-> H]|H]].
    + split; [lia|exact H].
    + split; [lia|exact H].
    + destruct (Nat.leb 3 (List.length runs)); [|contradiction].
      apply Hel in H. destruct H as [-> H]. split; [lia|exact H].
  - intros [Hr H].
    destruct r as [|[|[|r]]]; [left; tauto|right; left; tauto| |lia].
    right. right.
    destruct (Nat.leb 3 (List.length runs)) eqn:E3.
    + apply Hel. split; [reflexivity|exact H].
    + exfalso. apply Nat.leb_gt in E3. unfold element in H. cbn [fst snd] in H.
      rewrite (nth_overflow runs []) in H by lia.
      destruct i; discriminate.
Qed.

Lemma chainsContaining_count (chains : list AnomalyMatch) (ref : nat * nat) :
  NoDup (membersOf chains) ->
  List.length (chainsContaining ref chains)
  = if existsb (ref_eqb ref) (membersOf chains) then 1%nat else 0%nat.
Proof.
  unfold chainsContaining, membersOf.
  induction chains as [|c chains IH]; intro Hnd; [reflexivity|].
  simpl in Hnd. simpl. rewrite existsb_app.
  pose proof (NoDup_app_remove_l _ _ Hnd) as Hrest. specialize (IH Hrest).
  destruct (existsb (ref_eqb ref) (Match.anomaly_refs c)) eqn:Ec; simpl.
  - rewrite IH.
    destruct (existsb (ref_eqb ref) (flat_map Match.anomaly_refs chains)) eqn:Er;
      [|reflexivity].
    exfalso. apply existsb_ref_eqb in Ec. apply existsb_ref_eqb in Er.
    apply in_split in Ec. destruct Ec as [l1 [l2 Ec]]. rewrite Ec in Hnd.
    rewrite <- app_assoc in Hnd. simpl in Hnd. apply NoDup_remove_2 in Hnd.
    apply Hnd. apply in_or_app. right. apply in_or_app. right. exact Er.
  - exact IH.
Qed.

(* ================================================================= *)
(** ** Status and confidence of the chains *)

Lemma matchAcrossRuns_total (runs : list (list NormalizedAnomaly)) (years : list Q) :
  exists chains, matchAcrossRuns runs years = Some chains.
Proof.
  destruct (le_lt_dec 2 (List.length runs)) as [Hge|Hlt].
  - destruct (matchAcrossRuns_members runs years Hge) as [chains [H _]].
    exists chains. exact H.
  - exists []. unfold matchAcrossRuns.
    replace (Nat.ltb (List.length runs) 2) with true
      by (symmetry; apply Nat.ltb_lt; exact Hlt).
    reflexivity.
Qed.

Lemma emitted_chains_status_confidence :
  forall (runs : list (list NormalizedAnomaly)) (years : list Q)
         (chains : list AnomalyMatch),
    matchAcrossRuns runs years = Some chains ->
    forall c, In c chains -> statusConfidenceInvariant c.
Proof.
  intros runs years chains Hrun. apply Forall_forall.
  apply (matchAcrossRuns_chains statusConfidenceInvariant runs years chains);
    [| | |exact Hrun].
  - intros st st' pair Hc Hstep Hst.
    apply processPair_pushes in Hstep. destruct Hstep as [m [-> [_ [Hm Hs]]]].
    apply Forall_app. split; [exact Hst|]. constructor; [|constructor].
    unfold statusConfidenceInvariant. rewrite Hs, Hm. unfold confident in Hc.
    destruct (Rjs.ltb _ CONFIDENCE_HIGH) eqn:El; cbn [andb].
    + destruct (Rjs.geb _ CONFIDENCE_LOW) eqn:Eg.
      * apply Rjs_ltb_true in El. split; assumption.
      * apply Rjs_ltb_true in El. exfalso.
        assert (Hg : Rjs.geb (Sim.total (similarity pair)) CONFIDENCE_LOW = true)
          by (apply Rjs_geb_true; exact Hc).
        congruence.
    + apply Rjs_ltb_false in El. exact El.
  - intros st st' idx Hstep Hst.
    apply processNew_pushes in Hstep. destruct Hstep as [m [-> [_ [Hm Hs]]]].
    apply Forall_app. split; [exact Hst|]. constructor; [|constructor].
    unfold statusConfidenceInvariant. rewrite Hs. exact Hm.
  - intros st st' idx r status Hrs Hstep Hst.
    apply processSingle_pushes in Hstep.
    destruct Hstep as [m [-> [_ [_ [Hm Hs]]]]].
    apply Forall_app. split; [exact Hst|]. constructor; [|constructor].
    unfold statusConfidenceInvariant. rewrite Hs.
    destruct Hrs as [[_ ->]|[_ ->]]; exact Hm.
Qed.


(** C3.  The matcher returns its chains, and every chain it emits
    satisfies the status and confidence invariant: matched implies
    confidence >= 0.70, uncertain implies 0.40 <= confidence < 0.70,
    new or missing implies confidence = 0. *)
Theorem chains_status_confidence :
  forall (runs : list (list NormalizedAnomaly)) (years : list Q),
    exists chains,
      matchAcrossRuns runs years = Some chains
      /\ forall c, In c chains -> statusConfidenceInvariant c.
Proof.
  intros runs years.
  destruct (matchAcrossRuns_total runs years) as [chains Hrun].
  exists chains. split; [exact Hrun|].
  apply (emitted_chains_status_confidence runs years chains Hrun).
Qed.

Lemma chains_status_confidence_witness :
  exists chains c,
    matchAcrossRuns dentOnlyRuns [2015; 2020] = Some chains
    /\ In c chains /\ statusConfidenceInvariant c.
Proof.
  destruct (chains_status_confidence dentOnlyRuns [2015; 2020])
    as [chains [Hrun Hinv]].
  pose proof Hrun as Hres. vm_compute in Hres. injection Hres as Hres.
  exists chains.
  destruct chains as [|c rest]; [discriminate|].
  exists c. split; [exact Hrun|]. split; [left; reflexivity|].
  apply Hinv. left. reflexivity.
Defined.

(** C1 as stated does not hold.  In two runs that each consist of one
    girth weld the matcher builds no chain, so the anomaly at row 0 of
    run 0 is in no chain. *)
Lemma reference_point_in_no_chain_counterexample :
  exists chains,
    matchAcrossRuns weldOnlyRuns [2015; 2020] = Some chains
    /\ ~ partitionsAllAnomalies weldOnlyRuns chains.
Proof.
  exists []. split; [vm_compute; reflexivity|].
  intro H. specialize (H (0%nat, 0%nat) (exampleWeld 0 0 100000) eq_refl).
  discriminate.
Qed.

(** C1, amended.  For every input of at least two runs the matcher
    returns chains, and they partition the non-reference anomalies of
    runs 0, 1 and 2: each such (run, row) anomaly appears in exactly one
    chain (and once in it), while reference points (girth welds, valves,
    fittings) and the anomalies of runs with index 3 and above appear in
    none. *)
Theorem chains_partition_chained_anomalies :
  forall (runs : list (list NormalizedAnomaly)) (years : list Q),
    (2 <= List.length runs)%nat ->
    exists chains,
      matchAcrossRuns runs years = Some chains
      /\ NoDup (membersOf chains)
      /\ forall ref,
           List.length (chainsContaining ref chains)
           = if chained runs ref then 1%nat else 0%nat.
Proof.
  intros runs years Hlen.
  destruct (matchAcrossRuns_members runs years Hlen) as [chains [Hrun Hperm]].
  assert (Hnd : NoDup (membersOf chains)).
  { apply (Permutation_NoDup (Permutation_sym Hperm)). apply chainedRows_NoDup. }
  exists chains. split; [exact Hrun|]. split; [exact Hnd|]. intro ref.
  rewrite (chainsContaining_count chains ref Hnd).
  destruct (chained runs ref) eqn:Ec.
  - apply (chainedRows_In runs ref Hlen) in Ec.
    apply (Permutation_in _ (Permutation_sym Hperm)) in Ec.
    apply existsb_ref_eqb in Ec. rewrite Ec. reflexivity.
  - destruct (existsb (ref_eqb ref) (membersOf chains)) eqn:Ee; [|reflexivity].
    exfalso. apply existsb_ref_eqb in Ee.
    apply (Permutation_in _ Hperm) in Ee.
    apply (chainedRows_In runs ref Hlen) in Ee. congruence.
Qed.

Lemma chains_partition_chained_anomalies_witness :
  exists chains,
    (2 <= List.length dentOnlyRuns)%nat
    /\ matchAcrossRuns dentOnlyRuns [2015; 2020] = Some chains
    /\ List.length (chainsContaining (0%nat, 0%nat) chains) = 1%nat.
Proof.
  assert (Hlen : (2 <= List.length dentOnlyRuns)%nat) by (simpl; lia).
  destruct (chains_partition_chained_anomalies dentOnlyRuns [2015; 2020] Hlen)
    as [chains [Hrun [_ Hcount]]].
  exists chains. split; [exact Hlen|]. split; [exact Hrun|].
  rewrite (Hcount (0%nat, 0%nat)). reflexivity.
Defined.

(* ================================================================= *)
(** ** A pair of runs with one anomaly each *)

Section SinglePair.
Local Open Scope R_scope.

Lemma FeatureType_eqb_refl (t : FeatureType) : FeatureType_eqb t t = true.
Proof. destruct t; reflexivity. Qed.

(** Two anomalies that agree in corrected distance, dimensions, clock
    angle and type are as similar as can be. *)
Lemma calculateSimilarity_identical (a b : NormalizedAnomaly) :
  (Anomaly.corrected_distance a == Anomaly.corrected_distance b)%Q ->
  (Anomaly.clock_degrees a == Anomaly.clock_degrees b)%Q ->
  Anomaly.canonical_type a = Anomaly.canonical_type b ->
  (Anomaly.depth_percent a == Anomaly.depth_percent b)%Q ->
  (Anomaly.length a == Anomaly.length b)%Q ->
  (Anomaly.width a == Anomaly.width b)%Q ->
  (1 <= Anomaly.depth_percent a)%Q ->
  Sim.distance (calculateSimilarity a b) = 1
  /\ Sim.dimensional (calculateSimilarity a b) = 1
  /\ Sim.clock (calculateSimilarity a b) = 1
  /\ Sim.feature_type (calculateSimilarity a b) = 1
  /\ Sim.total (calculateSimilarity a b) = 1.
Proof.
  intros Hd Hc Ht Hx Hy Hz Hone.
  apply Qreals.Qeq_eqR in Hd, Hc, Hx, Hy, Hz.
  apply Qreals.Qle_Rle in Hone.
  replace (Q2R 1) with 1 in Hone by (unfold Q2R; simpl; field).
  assert (Edist : Sim.distance (calculateSimilarity a b) = 1).
  { unfold calculateSimilarity. cbn [Sim.distance]. unfold distanceSimilarity.
    rewrite Hd.
    replace (Q2R (Anomaly.corrected_distance b)
             - Q2R (Anomaly.corrected_distance b)) with 0 by rlra.
    rewrite Rabs_R0.
    replace (- 0 / DISTANCE_TOLERANCE) with 0
      by (unfold DISTANCE_TOLERANCE; field).
    apply exp_0. }
  assert (Edim : Sim.dimensional (calculateSimilarity a b) = 1).
  { unfold calculateSimilarity. cbn [Sim.dimensional]. unfold dimensionalSimilarity.
    rewrite <- Hx, <- Hy, <- Hz. cbv zeta beta iota.
    set (x := Q2R (Anomaly.depth_percent a)) in *.
    set (y := Q2R (Anomaly.length a)). set (z := Q2R (Anomaly.width a)).
    set (n := x * x + y * y + z * z).
    assert (Hn : 1 <= n) by (unfold n; nra).
    assert (Hs : sqrt n * sqrt n = n) by (apply sqrt_sqrt; rlra).
    assert (H1 : 1 <= sqrt n).
    { rewrite <- sqrt_1 at 1. apply sqrt_le_1; rlra. }
    assert (Hsmall : 1 / 10 ^ 10 <= 1).
    { apply (Rmult_le_reg_r (10 ^ 10)); [apply pow_lt; rlra|].
      unfold Rdiv. rewrite Rmult_assoc, Rinv_l by (apply pow_nonzero; rlra).
      simpl. rlra. }
    replace (Rjs.ltb (sqrt n) (1 / 10 ^ 10)) with false
      by (symmetry; apply Rjs_ltb_false; rlra).
    cbn [orb]. rewrite Hs.
    replace (n / n) with 1 by (field; rlra).
    apply Rmax_right. rlra. }
  assert (Eclock : Sim.clock (calculateSimilarity a b) = 1).
  { unfold calculateSimilarity. cbn [Sim.clock]. unfold clockSimilarity.
    rewrite Hc.
    replace (Q2R (Anomaly.clock_degrees b) - Q2R (Anomaly.clock_degrees b))
      with 0 by rlra.
    rewrite Rabs_R0. unfold Rmin. destruct (Rle_dec _ _); rlra. }
  assert (Etype : Sim.feature_type (calculateSimilarity a b) = 1).
  { unfold calculateSimilarity. cbn [Sim.feature_type]. unfold featureTypeSimilarity.
    rewrite Ht, FeatureType_eqb_refl. reflexivity. }
  repeat split; try assumption.
  change (Sim.total (calculateSimilarity a b))
    with (WEIGHTS_distance * Sim.distance (calculateSimilarity a b)
          + WEIGHTS_dimensional * Sim.dimensional (calculateSimilarity a b)
          + WEIGHTS_clock * Sim.clock (calculateSimilarity a b)
          + WEIGHTS_feature_type * Sim.feature_type (calculateSimilarity a b)).
  rewrite Edist, Edim, Eclock, Etype.
  unfold WEIGHTS_distance, WEIGHTS_dimensional, WEIGHTS_clock,
    WEIGHTS_feature_type. field.
Qed.

Lemma hungarianAlgorithm_single (x : R) : hungarianAlgorithm [[x]] = [0%Z].
Proof. reflexivity. Qed.

(** Two one-row runs whose rows are close and alike are paired. *)
Lemma matchAnomalies_single (a b : NormalizedAnomaly) :
  Anomaly.is_reference_point a = false ->
  Anomaly.is_reference_point b = false ->
  Rabs (Q2R (Anomaly.corrected_distance a) - Q2R (Anomaly.corrected_distance b))
  <= DISTANCE_FILTER ->
  CONFIDENCE_LOW <= Sim.total (calculateSimilarity a b) ->
  matchAnomalies [a] [b]
  = mkMatchResult [mkMatchPair 0 0 (calculateSimilarity a b)] [] [].
Proof.
  intros Ha Hb Hnear Hsim. unfold matchAnomalies, nonReference.
  cbn [Js.indexed Js.indexedFrom filter snd]. rewrite Ha, Hb. cbn [negb].
  assert (Hc : candidatesOf [(0%nat, a)] [(0%nat, b)]
               = [mkCandidate 0 0 (Sim.total (calculateSimilarity a b))
                              (calculateSimilarity a b)]).
  { unfold candidatesOf. cbn [Js.indexed Js.indexedFrom flat_map app].
    replace (Rjs.gtb _ DISTANCE_FILTER) with false
      by (symmetry; apply Rjs_ltb_false; exact Hnear).
    replace (Rjs.gtb (Sim.total (calculateSimilarity a b)) (2 / 10)) with true;
      [reflexivity|].
    symmetry. apply Rjs_gtb_true. unfold CONFIDENCE_LOW in Hsim. rlra. }
  rewrite Hc. cbn [map cand_row cand_col cand_score List.length].
  change (buildCostMatrix [(0%nat, 0%nat, Sim.total (calculateSimilarity a b))] 1 1)
    with [[1 - Sim.total (calculateSimilarity a b)]].
  rewrite hungarianAlgorithm_single.
  cbn [Js.indexed Js.indexedFrom fold_left acceptAssignment Z.ltb Z.geb
       Z.compare Z.of_nat List.length Pos.of_succ_nat orb Z.to_nat find cand_row
       cand_col Nat.eqb andb cand_score].
  replace (Rjs.geb (Sim.total (calculateSimilarity a b)) CONFIDENCE_LOW) with true
    by (symmetry; apply Rjs_geb_true; exact Hsim).
  reflexivity.
Qed.

Example same_dent_is_paired :
  matchAnomalies [exampleDent 2 0 100000] [exampleDent 3 0 100000]
  = mkMatchResult
      [mkMatchPair 0 0 (calculateSimilarity (exampleDent 2 0 100000)
                                            (exampleDent 3 0 100000))] [] []
  /\ Sim.total (calculateSimilarity (exampleDent 2 0 100000)
                                    (exampleDent 3 0 100000)) = 1.
Proof.
  destruct (calculateSimilarity_identical (exampleDent 2 0 100000)
              (exampleDent 3 0 100000)) as [_ [_ [_ [_ Ht]]]];
    try reflexivity; try discriminate.
  split; [|exact Ht].
  apply matchAnomalies_single; try reflexivity.
  - replace (Q2R (Anomaly.corrected_distance (exampleDent 2 0 100000)))
      with 100000 by (symmetry; q2r 100000%Q).
    replace (Q2R (Anomaly.corrected_distance (exampleDent 3 0 100000)))
      with 100000 by (symmetry; q2r 100000%Q).
    replace (100000 - 100000) with 0 by rlra. rewrite Rabs_R0.
    unfold DISTANCE_FILTER. rlra.
  - rewrite Ht. unfold CONFIDENCE_LOW. rlra.
Qed.

(** Two runs five years apart report the same dent of depth 30%: the
    matcher returns one chain of both rows, matched with confidence 1,
    without growth, of priority SCHEDULED. *)
Example same_dent_chain :
  exists c,
    matchAcrossRuns sameDentRuns [2015; 2020]%Q = Some [c]
    /\ Match.anomaly_refs c = [(0%nat, 0%nat); (1%nat, 0%nat)]
    /\ Match.match_status c = Status.matched
    /\ Match.confidence c = 1
    /\ (Match.depth_growth_rate c == 0)%Q
    /\ Match.time_to_critical c = None
    /\ Match.priority c = SCHEDULED.
Proof.
  set (a := exampleDent 0 0 100000). set (b := exampleDent 1 0 100000).
  destruct (calculateSimilarity_identical a b) as [_ [_ [_ [_ Ht]]]];
    try reflexivity; try discriminate.
  assert (Hm : matchAnomalies [a] [b]
               = mkMatchResult [mkMatchPair 0 0 (calculateSimilarity a b)] [] []).
  { apply matchAnomalies_single; try reflexivity.
    - replace (Q2R (Anomaly.corrected_distance a))
        with 100000 by (symmetry; q2r 100000%Q).
      replace (Q2R (Anomaly.corrected_distance b))
        with 100000 by (symmetry; q2r 100000%Q).
      replace (100000 - 100000) with 0 by rlra. rewrite Rabs_R0.
      unfold DISTANCE_FILTER. rlra.
    - rewrite Ht. unfold CONFIDENCE_LOW. rlra. }
  unfold matchAcrossRuns, sameDentRuns. fold a b.
  cbn [List.length Nat.ltb Nat.leb nth]. cbv zeta. rewrite Hm.
  cbn [pairs newAnomalies missingAnomalies buildRun3Map foldM processPair
       extendToRun3 mapGet find option_map run1Idx run2Idx similarity].
  rewrite Ht.
  replace (Rjs.ltb 1 CONFIDENCE_HIGH) with false
    by (symmetry; apply Rjs_ltb_false; unfold CONFIDENCE_HIGH; rlra).
  cbn [andb].
  eexists. split; [reflexivity|]. repeat split.
Qed.

End SinglePair.

(* ================================================================= *)
(** ** Runs after the third *)

(** C9 as stated does not hold.  With four runs whose third and fourth
    run hold the same dent, the matcher returns a single chain, made of
    the dent of run 2 alone: runs 2 and 3 are not matched pairwise,
    although the pairwise matcher pairs their dents, and the anomaly of
    run 3 is in no chain. *)
Lemma fourth_run_counterexample :
  exists chains,
    matchAcrossRuns fourRuns fourYears = Some chains
    /\ map Match.anomaly_refs chains = [[(2%nat, 0%nat)]]
    /\ element fourRuns (3%nat, 0%nat) = Some (exampleDent 3 0 100000)
    /\ map (fun p => (run1Idx p, run2Idx p))
           (pairs (matchAnomalies (nth 2 fourRuns []) (nth 3 fourRuns [])))
       = [(0%nat, 0%nat)]
    /\ ~ exists c, In c chains /\ In (3%nat, 0%nat) (Match.anomaly_refs c).
Proof.
  destruct (matchAcrossRuns fourRuns fourYears) as [chains|] eqn:Hrun;
    [|vm_compute in Hrun; discriminate].
  vm_compute in Hrun. injection Hrun as <-.
  eexists. split; [reflexivity|]. split; [reflexivity|]. split; [reflexivity|].
  split.
  - change (nth 2 fourRuns []) with [exampleDent 2 0 100000].
    change (nth 3 fourRuns []) with [exampleDent 3 0 100000].
    rewrite (proj1 same_dent_is_paired). reflexivity.
  - intros [c [[<-|[]] [H|[]]]]. discriminate.
Qed.

Lemma foldM_ext {S X : Type} (f g : S -> X -> option S) (l : list X) (s : S) :
  (forall s x, f s x = g s x) -> foldM f l s = foldM g l s.
Proof.
  intro H. revert s. induction l as [|x l IH]; intro s; simpl; [reflexivity|].
  rewrite H. destruct (g s x); [apply IH|reflexivity].
Qed.

Lemma mapM_ext_in {X Y : Type} (f g : X -> option Y) (l : list X) :
  (forall x, In x l -> f x = g x) -> mapM f l = mapM g l.
Proof.
  induction l as [|x l IH]; intro H; simpl; [reflexivity|].
  rewrite (H x (or_introl eq_refl)), IH; [reflexivity|].
  intros y Hy. apply H. right. exact Hy.
Qed.

Lemma element_firstn (runs : list (list NormalizedAnomaly)) (ref : nat * nat) :
  (fst ref <= 2)%nat -> element (firstn 3 runs) ref = element runs ref.
Proof.
  intro H. unfold element. rewrite nth_firstn.
  replace (Nat.ltb (fst ref) 3) with true by (symmetry; apply Nat.ltb_lt; lia).
  reflexivity.
Qed.

Lemma pushMatch_firstn (runs : list (list NormalizedAnomaly)) (years : list Q)
      (allMatches : list AnomalyMatch) (matchId : nat) (refs : list (nat * nat))
      (confidence : R) (status : MatchStatus) (sim : SimilarityBreakdown) :
  Forall (fun ref => (fst ref <= 2)%nat) refs ->
  pushMatch (firstn 3 runs) years allMatches matchId refs confidence status sim
  = pushMatch runs years allMatches matchId refs confidence status sim.
Proof.
  intro H. unfold pushMatch.
  rewrite (mapM_ext_in (element (firstn 3 runs)) (element runs) refs); [reflexivity|].
  rewrite Forall_forall in H. intros ref Href. apply element_firstn, H, Href.
Qed.

Lemma extendToRun3_low (hasRun3 : bool) (m : Run3Map) (k : nat)
      (refs : list (nat * nat)) :
  Forall (fun ref => (fst ref <= 2)%nat) refs ->
  Forall (fun ref => (fst ref <= 2)%nat) (fst (extendToRun3 hasRun3 m k refs)).
Proof.
  intro H. destruct (extendToRun3_refs hasRun3 m k refs) as [->|[v ->]];
    [exact H|].
  apply Forall_app. split; [exact H|]. repeat constructor.
Qed.

(** The matcher reads the first three runs only. *)
Lemma matchAcrossRuns_firstn (runs : list (list NormalizedAnomaly)) (years : list Q) :
  matchAcrossRuns (firstn 3 runs) years = matchAcrossRuns runs years.
Proof.
  destruct (le_lt_dec (List.length runs) 3) as [Hle|Hgt].
  { rewrite firstn_all2 by exact Hle. reflexivity. }
  assert (Hlen : List.length (firstn 3 runs) = 3%nat)
    by (apply firstn_length_le; lia).
  assert (Hleb : Nat.leb 3 (List.length runs) = true) by (apply Nat.leb_le; lia).
  assert (Hnth : forall k, (k <= 2)%nat -> nth k (firstn 3 runs) [] = nth k runs []).
  { intros k Hk. rewrite nth_firstn.
    replace (Nat.ltb k 3) with true by (symmetry; apply Nat.ltb_lt; lia).
    reflexivity. }
  assert (Hpair : forall st p, processPair (firstn 3 runs) years st p
                               = processPair runs years st p).
  { intros [[all id] map0] p. unfold processPair. rewrite Hlen, Hleb. simpl Nat.leb.
    pose proof (extendToRun3_low true map0 (run2Idx p)
                  [(0%nat, run1Idx p); (1%nat, run2Idx p)]) as Hlow.
    destruct (extendToRun3 true map0 (run2Idx p) _) as [refs map1].
    rewrite pushMatch_firstn; [reflexivity|].
    apply Hlow. repeat constructor. }
  assert (Hnew : forall st idx, processNew (firstn 3 runs) years st idx
                                = processNew runs years st idx).
  { intros [[all id] map0] idx. unfold processNew. rewrite Hlen, Hleb. simpl Nat.leb.
    pose proof (extendToRun3_low true map0 idx [(1%nat, idx)]) as Hlow.
    destruct (extendToRun3 true map0 idx _) as [refs map1].
    rewrite pushMatch_firstn; [reflexivity|].
    apply Hlow. repeat constructor. }
  assert (Hsingle : forall r status st idx,
             (r <= 2)%nat ->
             processSingle (firstn 3 runs) years r status st idx
             = processSingle runs years r status st idx).
  { intros r status [[all id] map0] idx Hr. unfold processSingle.
    rewrite pushMatch_firstn; [reflexivity|]. constructor; [exact Hr|constructor]. }
  unfold matchAcrossRuns. rewrite Hlen, Hleb.
  replace (Nat.ltb (List.length runs) 2) with false
    by (symmetry; apply Nat.ltb_ge; lia).
  rewrite !Hnth by lia. simpl Nat.ltb. simpl Nat.leb. cbv zeta.
  rewrite (foldM_ext _ _ _ _ Hpair).
  destruct (foldM (processPair runs years) _ _) as [st1|]; [|reflexivity].
  rewrite (foldM_ext _ _ _ _ Hnew).
  destruct (foldM (processNew runs years) _ _) as [st2|]; [|reflexivity].
  rewrite (foldM_ext _ (processSingle runs years 0 Status.missing));
    [|intros; apply Hsingle; lia].
  destruct (foldM (processSingle runs years 0 Status.missing) _ _) as [st3|];
    [|reflexivity].
  rewrite (foldM_ext _ (processSingle runs years 2 Status.new));
    [|intros; apply Hsingle; lia].
  destruct (foldM (processSingle runs years 2 Status.new) _ st3) as [st4|];
    [|reflexivity].
  rewrite (foldM_ext _ (processSingle runs years 2 Status.new));
    [|intros; apply Hsingle; lia].
  reflexivity.
Qed.

Lemma chain_members_low (runs : list (list NormalizedAnomaly)) (years : list Q)
      (chains : list AnomalyMatch) :
  matchAcrossRuns runs years = Some chains ->
  Forall (fun c => Forall (fun ref => (fst ref <= 2)%nat) (Match.anomaly_refs c))
         chains.
Proof.
  intro Hrun.
  apply (matchAcrossRuns_chains _ runs years chains); [| | |exact Hrun].
  - intros st st' pair _ Hstep Hst.
    apply processPair_pushes in Hstep. destruct Hstep as [m [-> [Hm _]]].
    apply Forall_app. split; [exact Hst|]. constructor; [|constructor].
    rewrite Hm. apply extendToRun3_low. repeat constructor.
  - intros st st' idx Hstep Hst.
    apply processNew_pushes in Hstep. destruct Hstep as [m [-> [Hm _]]].
    apply Forall_app. split; [exact Hst|]. constructor; [|constructor].
    rewrite Hm. apply extendToRun3_low. repeat constructor.
  - intros st st' idx r status Hrs Hstep Hst.
    apply processSingle_pushes in Hstep.
    destruct Hstep as [m [-> [_ [Hm _]]]].
    apply Forall_app. split; [exact Hst|]. constructor; [|constructor].
    rewrite Hm. constructor; [|constructor].
    destruct Hrs as [[-> _]|[-> _]]; simpl; lia.
Qed.

(* ================================================================= *)
(** ** Worked examples *)

Example clock_positions :
  parseClockPosition (CClock 4 30) == 135
  /\ parseClockPosition (CClock 12 0) == 0
  /\ parseClockPosition (CNum (9 # 2)) == 135
  /\ parseClockPosition (CNum 270) == 270
  /\ parseClockPosition CNull == 0.
Proof. repeat split. Qed.

Example feature_types :
  normalizeFeatureType "External Corrosion" = external_metal_loss
  /\ normalizeFeatureType "  Girth Weld " = girth_weld
  /\ normalizeFeatureType "seam weld" = seam_weld
  /\ normalizeFeatureType "Metal Loss" = metal_loss
  /\ normalizeFeatureType "" = unknown.
Proof. repeat split. Qed.

Example normalizer_sorts_by_distance :
  map (fun a => (Anomaly.id a, Anomaly.is_reference_point a))
      (normalizeAnomalies exampleLaterTable 1)
  = [("run1-1", true); ("run1-2", false); ("run1-0", false)]%string.
Proof. reflexivity. Qed.

Example metres_are_converted :
  map Anomaly.cleaning_flags
      (fst (cleanData (normalizeAnomalies
                         [exampleRow 15000 "dent" (CClock 4 30) 30 2 1] 0)
                      0 2015 None))
  = [[distance_converted_m_to_ft]].
Proof. vm_compute. reflexivity. Qed.

Example clock_wrap :
  clockSimilarity 350 10 = (1 - 20 / 180)%R.
Proof.
  unfold clockSimilarity, Rabs, Rmin.
  destruct (Rcase_abs (350 - 10)); [rlra|].
  destruct (Rle_dec (350 - 10) (360 - (350 - 10))); rlra.
Qed.

Example translation_between_two_pairs :
  correctedAt regularPairs 65 == 50 /\ correctedAt regularPairs 5 == -5
  /\ correctedAt regularPairs 800 == 770.
Proof. repeat split. Qed.

(** With crosswise pairs the zones overlap in the raw coordinate, and
    the corrector, which takes the first zone that contains a distance,
    is not monotone over the raw interval [5, 20] of the last zone:
    6 ft is mapped above 2 ft, 9 ft to 1/2 ft. *)
Example corrector_on_crossing_pairs :
  map (fun m => (Ref.distance (run1 m), Ref.distance (run2 m))) crossingPairs
  = [(0, 8); (1, 10); (2, 5); (3, 20)]
  /\ correctedAt crossingPairs 6 == 2 + (1 # 15)
  /\ correctedAt crossingPairs 9 == 1 # 2.
Proof. repeat split. Qed.

Example critical_depth_is_immediate :
  option_map level
    (classifyPriority
       [normalizeRow 0 0 (exampleRow 1000 "dent" (CClock 4 30) 82 2 1)]
       (calculateGrowthRates
          [normalizeRow 0 0 (exampleRow 1000 "dent" (CClock 4 30) 82 2 1)]
          [0%nat] [2015])
       Status.new)
  = Some IMMEDIATE.
Proof. reflexivity. Qed.

Example linear_growth :
  let chain := [normalizeRow 0 0 (exampleRow 20000 "dent" (CClock 4 30) 30 2 1);
                normalizeRow 1 0 (exampleRow 20000 "dent" (CClock 4 30) 40 2 1);
                normalizeRow 2 0 (exampleRow 20000 "dent" (CClock 4 30) 55 2 1)] in
  let growth := calculateGrowthRates chain [0; 1; 2]%nat [2015; 2019; 2024] in
  depth_growth_rate growth == 170 # 61
  /\ option_map level (classifyPriority chain growth Status.matched)
     = Some DAY_180.
Proof. split; [vm_compute; reflexivity|vm_compute; reflexivity]. Qed.

(* ================================================================= *)
(** * Rounding to the nearest double *)

Ltac qnra := Lqa.nra.

Lemma Qnum_positive (q : Q) : (0 < Qnum q)%Z <-> 0 < q.
Proof. unfold Qlt. simpl. lia. Qed.

Lemma Qnum_negative (q : Q) : (Qnum q < 0)%Z <-> q < 0.
Proof. unfold Qlt. simpl. lia. Qed.

Lemma Qnum_zero (q : Q) : Qnum q = 0%Z <-> q == 0.
Proof. unfold Qeq. simpl. lia. Qed.

Lemma pow2_positive (e : Z) : 0 < 2 ^ e.
Proof. apply Qpower_0_lt. reflexivity. Qed.

Lemma pow2_succ (e : Z) : 2 ^ (e + 1) == 2 * 2 ^ e.
Proof. rewrite Qpower_plus by discriminate. rewrite Qpower_1_r. ring. Qed.

Lemma pow2_inject (n : Z) : (0 <= n)%Z -> inject_Z (2 ^ n) == 2 ^ n.
Proof. intro H. apply (Zpower_Qpower 2 n H). Qed.

(** [ilog2 x] is the exponent of the binade of [x]. *)
Lemma ilog2_spec (x : Q) :
  0 < x -> 2 ^ Double.ilog2 x <= x /\ x < 2 ^ (Double.ilog2 x + 1).
Proof.
  intro Hx. unfold Double.ilog2.
  set (n := Qnum x). set (d := Z.pos (Qden x)).
  set (a := Z.log2 n). set (b := Z.log2 d).
  assert (Hn : (0 < n)%Z) by (apply Qnum_positive; exact Hx).
  assert (Hd : (0 < d)%Z) by (unfold d; lia).
  destruct (Z.log2_spec n Hn) as [Ha1 Ha2].
  destruct (Z.log2_spec d Hd) as [Hb1 Hb2].
  fold a in Ha1, Ha2. fold b in Hb1, Hb2.
  assert (Ha0 : (0 <= a)%Z) by apply Z.log2_nonneg.
  assert (Hb0 : (0 <= b)%Z) by apply Z.log2_nonneg.
  assert (Hxd : x * inject_Z d == inject_Z n).
  { unfold n, d. destruct x as [xn xd]. unfold Qeq, Qmult, inject_Z. simpl.
    lia. }
  assert (HD : 0 < inject_Z d) by (unfold Qlt; simpl; lia).
  assert (Ka1 : 2 ^ a <= inject_Z n).
  { rewrite <- (pow2_inject a Ha0). rewrite <- Zle_Qle. exact Ha1. }
  assert (Ka2 : inject_Z n < 2 * 2 ^ a).
  { rewrite <- pow2_succ, <- (pow2_inject (a + 1)) by lia.
    rewrite <- Zlt_Qlt. replace (a + 1)%Z with (Z.succ a) by lia. exact Ha2. }
  assert (Kb1 : 2 ^ b <= inject_Z d).
  { rewrite <- (pow2_inject b Hb0). rewrite <- Zle_Qle. exact Hb1. }
  assert (Kb2 : inject_Z d < 2 * 2 ^ b).
  { rewrite <- pow2_succ, <- (pow2_inject (b + 1)) by lia.
    rewrite <- Zlt_Qlt. replace (b + 1)%Z with (Z.succ b) by lia. exact Hb2. }
  pose proof (pow2_positive a) as Pa. pose proof (pow2_positive b) as Pb.
  assert (Hk : 2 ^ (a - b) * 2 ^ b == 2 ^ a).
  { rewrite <- Qpower_plus by discriminate. replace (a - b + b)%Z with a by lia.
    reflexivity. }
  pose proof (pow2_positive (a - b)) as Pk.
  destruct (Qle_bool (2 ^ (a - b)) x) eqn:E.
  - apply Qle_bool_iff in E. split; [exact E|].
    rewrite pow2_succ.
    apply (Qmult_lt_r _ _ (inject_Z d) HD).
    rewrite Hxd. qnra.
  - assert (E' : x < 2 ^ (a - b)).
    { apply Qnot_le_lt. intro K. apply Qle_bool_iff in K. congruence. }
    replace (a - b - 1 + 1)%Z with (a - b)%Z by lia. split; [|exact E'].
    assert (Hk' : 2 * 2 ^ (a - b - 1) == 2 ^ (a - b)).
    { rewrite <- pow2_succ. replace (a - b - 1 + 1)%Z with (a - b)%Z by lia.
      reflexivity. }
    pose proof (pow2_positive (a - b - 1)) as Pk'.
    apply (Qmult_le_r _ _ (inject_Z d) HD).
    rewrite Hxd. qnra.
Qed.

Lemma ilog2_unique (x : Q) (k : Z) :
  2 ^ k <= x -> x < 2 ^ (k + 1) -> Double.ilog2 x = k.
Proof.
  intros H1 H2.
  assert (Hx : 0 < x) by (eapply Qlt_le_trans; [apply (pow2_positive k)|exact H1]).
  destruct (ilog2_spec x Hx) as [K1 K2].
  assert (A : (Double.ilog2 x < k + 1)%Z).
  { apply (Qpower_lt_compat_l_inv 2); [|reflexivity].
    eapply Qle_lt_trans; eassumption. }
  assert (B : (k < Double.ilog2 x + 1)%Z).
  { apply (Qpower_lt_compat_l_inv 2); [|reflexivity].
    eapply Qle_lt_trans; eassumption. }
  lia.
Qed.

Lemma ilog2_monotone (x y : Q) :
  0 < x -> x <= y -> (Double.ilog2 x <= Double.ilog2 y)%Z.
Proof.
  intros Hx Hxy.
  assert (Hy : 0 < y) by (eapply Qlt_le_trans; eassumption).
  destruct (ilog2_spec x Hx) as [K1 _]. destruct (ilog2_spec y Hy) as [_ K2].
  assert (A : (Double.ilog2 x < Double.ilog2 y + 1)%Z).
  { apply (Qpower_lt_compat_l_inv 2); [|reflexivity].
    eapply Qle_lt_trans; [exact K1|]. eapply Qle_lt_trans; eassumption. }
  lia.
Qed.

Lemma nearestEven_comp (x y : Q) :
  x == y -> Double.nearestEven x = Double.nearestEven y.
Proof.
  intro H. unfold Double.nearestEven.
  rewrite (Qfloor_comp x y H).
  assert (E : x - inject_Z (Qfloor y) == y - inject_Z (Qfloor y))
    by (rewrite H; reflexivity).
  rewrite (Qcompare_comp _ _ E _ _ (Qeq_refl (1 # 2))). reflexivity.
Qed.

Lemma nearestEven_error (x : Q) :
  Qabs (inject_Z (Double.nearestEven x) - x) <= 1 # 2.
Proof.
  unfold Double.nearestEven.
  pose proof (Qfloor_le x) as H1. pose proof (Qlt_floor x) as H2.
  rewrite inject_Z_plus in H2. change (inject_Z 1) with 1 in H2.
  destruct (Qcompare (x - inject_Z (Qfloor x)) (1 # 2)) eqn:E.
  - apply Qeq_alt in E.
    destruct (Z.even (Qfloor x)); [|rewrite inject_Z_plus; change (inject_Z 1) with 1];
      apply Qabs_Qle_condition; split; qlra.
  - apply Qlt_alt in E. apply Qabs_Qle_condition. split; qlra.
  - apply Qgt_alt in E. rewrite inject_Z_plus. change (inject_Z 1) with 1.
    apply Qabs_Qle_condition. split; qlra.
Qed.

Lemma nearestEven_inject (z : Z) : Double.nearestEven (inject_Z z) = z.
Proof.
  unfold Double.nearestEven. rewrite Qfloor_Z.
  assert (E : Qcompare (inject_Z z - inject_Z z) (1 # 2) = Lt).
  { apply (proj1 (Qlt_alt _ _)). generalize (inject_Z z). intro q. qlra. }
  rewrite E. reflexivity.
Qed.

Lemma nearestEven_monotone (x y : Q) :
  x <= y -> (Double.nearestEven x <= Double.nearestEven y)%Z.
Proof.
  intro H. destruct (Z_le_gt_dec (Double.nearestEven x) (Double.nearestEven y))
    as [K|K]; [exact K|exfalso].
  pose proof (nearestEven_error x) as Ex. pose proof (nearestEven_error y) as Ey.
  apply Qabs_Qle_condition in Ex. apply Qabs_Qle_condition in Ey.
  assert (K' : inject_Z (Double.nearestEven y) + 1 <= inject_Z (Double.nearestEven x)).
  { change 1 with (inject_Z 1). rewrite <- inject_Z_plus, <- Zle_Qle. lia. }
  assert (Exy : x == y) by qlra.
  rewrite (nearestEven_comp x y Exy) in K. lia.
Qed.

(** The significand lies between 2^52 and 2^53. *)
Lemma scaled_range (x : Q) :
  0 < x ->
  let e := (Double.ilog2 x - 52)%Z in
  2 ^ 52 <= x / 2 ^ e /\ x / 2 ^ e < 2 ^ 53.
Proof.
  intros Hx e. destruct (ilog2_spec x Hx) as [K1 K2].
  pose proof (pow2_positive e) as Pe.
  assert (E1 : 2 ^ 52 * 2 ^ e == 2 ^ Double.ilog2 x).
  { rewrite <- Qpower_plus by discriminate. unfold e.
    replace (52 + (Double.ilog2 x - 52))%Z with (Double.ilog2 x) by lia.
    reflexivity. }
  assert (E2 : 2 ^ 53 * 2 ^ e == 2 ^ (Double.ilog2 x + 1)).
  { rewrite <- Qpower_plus by discriminate. unfold e.
    replace (53 + (Double.ilog2 x - 52))%Z with (Double.ilog2 x + 1)%Z by lia.
    reflexivity. }
  split.
  - apply Qle_shift_div_l; [exact Pe|]. rewrite E1. exact K1.
  - apply Qlt_shift_div_r; [exact Pe|]. rewrite E2. exact K2.
Qed.

Lemma roundPositive_error (x : Q) :
  0 < x -> Qabs (Double.roundPositive x - x) <= (1 # 2 ^ 53) * x.
Proof.
  intro Hx. unfold Double.roundPositive.
  set (e := (Double.ilog2 x - 52)%Z).
  destruct (scaled_range x Hx) as [S1 _]. fold e in S1.
  pose proof (pow2_positive e) as Pe.
  pose proof (nearestEven_error (x / 2 ^ e)) as Em.
  set (m := inject_Z (Double.nearestEven (x / 2 ^ e))) in *.
  assert (Es : x / 2 ^ e * 2 ^ e == x) by (field; intro K; rewrite K in Pe; discriminate).
  set (s := x / 2 ^ e) in *. set (P := 2 ^ e) in *.
  change (2 ^ 52) with (4503599627370496 # 1) in S1.
  change (1 # 2 ^ 53) with (1 # 9007199254740992).
  apply Qabs_Qle_condition in Em. apply Qabs_Qle_condition.
  split; qnra.
Qed.

Lemma roundPositive_range (x : Q) :
  0 < x ->
  2 ^ Double.ilog2 x <= Double.roundPositive x
  /\ Double.roundPositive x <= 2 ^ (Double.ilog2 x + 1).
Proof.
  intro Hx. unfold Double.roundPositive.
  set (e := (Double.ilog2 x - 52)%Z).
  destruct (scaled_range x Hx) as [S1 S2]. fold e in S1, S2.
  pose proof (pow2_positive e) as Pe.
  assert (E1 : 2 ^ 52 * 2 ^ e == 2 ^ Double.ilog2 x).
  { rewrite <- Qpower_plus by discriminate. unfold e.
    replace (52 + (Double.ilog2 x - 52))%Z with (Double.ilog2 x) by lia.
    reflexivity. }
  assert (E2 : 2 ^ 53 * 2 ^ e == 2 ^ (Double.ilog2 x + 1)).
  { rewrite <- Qpower_plus by discriminate. unfold e.
    replace (53 + (Double.ilog2 x - 52))%Z with (Double.ilog2 x + 1)%Z by lia.
    reflexivity. }
  assert (M1 : (2 ^ 52 <= Double.nearestEven (x / 2 ^ e))%Z).
  { rewrite <- (nearestEven_inject (2 ^ 52)). apply nearestEven_monotone.
    exact S1. }
  assert (M2 : (Double.nearestEven (x / 2 ^ e) <= 2 ^ 53)%Z).
  { rewrite <- (nearestEven_inject (2 ^ 53)). apply nearestEven_monotone.
    apply Qlt_le_weak. exact S2. }
  rewrite Zle_Qle in M1, M2.
  change (inject_Z (2 ^ 52)) with (2 ^ 52) in M1.
  change (inject_Z (2 ^ 53)) with (2 ^ 53) in M2.
  rewrite <- E1, <- E2. split; apply Qmult_le_compat_r;
    try assumption; apply Qlt_le_weak; exact Pe.
Qed.

Lemma roundPositive_positive (x : Q) : 0 < x -> 0 < Double.roundPositive x.
Proof.
  intro Hx. eapply Qlt_le_trans; [apply (pow2_positive (Double.ilog2 x))|].
  apply roundPositive_range. exact Hx.
Qed.

Lemma roundPositive_monotone (x y : Q) :
  0 < x -> x <= y -> Double.roundPositive x <= Double.roundPositive y.
Proof.
  intros Hx Hxy.
  assert (Hy : 0 < y) by (eapply Qlt_le_trans; eassumption).
  pose proof (ilog2_monotone x y Hx Hxy) as HL.
  destruct (Z.eq_dec (Double.ilog2 x) (Double.ilog2 y)) as [E|E].
  - unfold Double.roundPositive. rewrite E.
    pose proof (pow2_positive (Double.ilog2 y - 52)) as Pe.
    apply Qmult_le_compat_r; [|apply Qlt_le_weak; exact Pe].
    rewrite <- Zle_Qle. apply nearestEven_monotone.
    apply Qmult_le_compat_r; [exact Hxy|].
    apply Qlt_le_weak. apply Qinv_lt_0_compat. exact Pe.
  - destruct (roundPositive_range x Hx) as [_ U].
    destruct (roundPositive_range y Hy) as [L _].
    eapply Qle_trans; [exact U|]. eapply Qle_trans; [|exact L].
    apply Qpower_le_compat_l; [lia|discriminate].
Qed.

(** The three laws of rounding the theorems rely on. *)
Lemma round_comp (x y : Q) : x == y -> Double.round x = Double.round y.
Proof.
  intro H. unfold Double.round. rewrite (Qred_complete x y H). reflexivity.
Qed.

Lemma round_error (x : Q) :
  Qabs (Double.round x - x) <= (1 # 2 ^ 53) * Qabs x.
Proof.
  unfold Double.round. pose proof (Qred_correct x) as Hr.
  set (r := Qred x) in *. rewrite <- Hr.
  destruct (Qnum r) as [|p|p] eqn:E.
  - assert (K : r == 0) by (apply Qnum_zero; exact E).
    rewrite K. discriminate.
  - assert (K : 0 < r) by (apply Qnum_positive; rewrite E; reflexivity).
    rewrite (Qabs_pos r) by (apply Qlt_le_weak; exact K).
    apply roundPositive_error. exact K.
  - assert (K : r < 0) by (apply Qnum_negative; rewrite E; reflexivity).
    rewrite (Qabs_neg r) by (apply Qlt_le_weak; exact K).
    assert (K' : 0 < - r) by qlra.
    pose proof (roundPositive_error (- r) K') as H.
    setoid_replace (- Double.roundPositive (- r) - r)
      with (- (Double.roundPositive (- r) - - r)) by ring.
    rewrite Qabs_opp. exact H.
Qed.

Lemma round_monotone (x y : Q) : x <= y -> Double.round x <= Double.round y.
Proof.
  intro H. unfold Double.round.
  pose proof (Qred_correct x) as Hx. pose proof (Qred_correct y) as Hy.
  set (r := Qred x) in *. set (s := Qred y) in *.
  rewrite <- Hx, <- Hy in H. clear Hx Hy.
  destruct (Qnum r) as [|p|p] eqn:Er; destruct (Qnum s) as [|q|q] eqn:Es;
    repeat match goal with
           | E : Qnum ?r = 0%Z |- _ => apply Qnum_zero in E
           | E : Qnum ?r = Z.pos _ |- _ =>
               assert (0 < r) by (apply Qnum_positive; rewrite E; reflexivity);
               clear E
           | E : Qnum ?r = Z.neg _ |- _ =>
               assert (r < 0) by (apply Qnum_negative; rewrite E; reflexivity);
               clear E
           end;
    try (exfalso; qlra).
  - apply Qle_refl.
  - apply Qlt_le_weak. apply roundPositive_positive. assumption.
  - apply roundPositive_monotone; assumption.
  - assert (K : 0 < Double.roundPositive (- r)) by (apply roundPositive_positive; qlra).
    qlra.
  - assert (K : 0 < Double.roundPositive (- r)) by (apply roundPositive_positive; qlra).
    assert (K' : 0 < Double.roundPositive s) by (apply roundPositive_positive; qlra).
    qlra.
  - assert (K : Double.roundPositive (- s) <= Double.roundPositive (- r)).
    { apply roundPositive_monotone; qlra. }
    qlra.
Qed.

Lemma round_zero : Double.round 0 = 0.
Proof. reflexivity. Qed.

Lemma round_one : Double.round 1 == 1.
Proof. vm_compute. reflexivity. Qed.

Lemma round_positive (x : Q) : 0 < x -> 0 < Double.round x.
Proof.
  intro H. pose proof (round_error x) as E.
  rewrite (Qabs_pos x) in E by (apply Qlt_le_weak; exact H).
  apply Qabs_Qle_condition in E.
  change (1 # 2 ^ 53) with (1 # 9007199254740992) in E. qlra.
Qed.

Lemma round_negative (x : Q) : x < 0 -> Double.round x < 0.
Proof.
  intro H. pose proof (round_error x) as E.
  rewrite (Qabs_neg x) in E by (apply Qlt_le_weak; exact H).
  apply Qabs_Qle_condition in E.
  change (1 # 2 ^ 53) with (1 # 9007199254740992) in E. qlra.
Qed.

Lemma round_nonneg (x : Q) : 0 <= x -> 0 <= Double.round x.
Proof. intro H. rewrite <- round_zero. apply round_monotone. exact H. Qed.

Lemma round_nonpos (x : Q) : x <= 0 -> Double.round x <= 0.
Proof. intro H. rewrite <- round_zero. apply round_monotone. exact H. Qed.

(** Comparing a rounded difference with zero is comparing the
    operands. *)
Lemma round_gtb (x : Q) : Js.gtb (Double.round x) 0 = Js.gtb x 0.
Proof.
  destruct (Qlt_le_dec 0 x) as [H|H].
  - rewrite (proj2 (gtb_true _ _) H), (proj2 (gtb_true _ _) (round_positive x H)).
    reflexivity.
  - rewrite (proj2 (gtb_false _ _) H), (proj2 (gtb_false _ _) (round_nonpos x H)).
    reflexivity.
Qed.

(* ================================================================= *)
(** * The distance corrector in double arithmetic *)

Lemma round_leb (x : Q) : Js.leb (Double.round x) 0 = Js.leb x 0.
Proof.
  destruct (Qlt_le_dec 0 x) as [H|H].
  - rewrite (proj2 (leb_false _ _) H), (proj2 (leb_false _ _) (round_positive x H)).
    reflexivity.
  - rewrite (proj2 (leb_true _ _) H), (proj2 (leb_true _ _) (round_nonpos x H)).
    reflexivity.
Qed.

(** The error of one rounding, for an argument of bounded size. *)
Lemma round_within (x B : Q) :
  - B <= x -> x <= B ->
  - ((1 # 2 ^ 53) * B) <= Double.round x - x
  /\ Double.round x - x <= (1 # 2 ^ 53) * B.
Proof.
  intros H1 H2. pose proof (round_error x) as E.
  assert (HB : Qabs x <= B) by (apply Qabs_Qle_condition; split; assumption).
  apply Qabs_Qle_condition.
  eapply Qle_trans; [exact E|].
  apply Qmult_le_l; [reflexivity|exact HB].
Qed.

(** A sort by rounded differences is the sort by exact differences. *)
Lemma sort_rounded {A : Type} (key : A -> Q) (l : list A) :
  Js.sort (fun a b => Double.sub (key a) (key b)) l
  = Js.sort (fun a b => key a - key b) l.
Proof.
  induction l as [|x l IH]; [reflexivity|].
  cbn [Js.sort]. rewrite IH. generalize (Js.sort (fun a b => key a - key b) l).
  intro s. induction s as [|y s IHs]; [reflexivity|].
  cbn [Js.insert]. unfold Double.sub at 1. rewrite round_leb, IHs. reflexivity.
Qed.

Lemma rounded_zonesOf_nth (l : list MatchedReference) (i : nat) (z : AlignmentZone) :
  nth_error (Double.zonesOf l) i = Some z ->
  exists a b, nth_error l i = Some a /\ nth_error l (S i) = Some b
              /\ z = Double.makeZone a b.
Proof.
  revert i. induction l as [|a l IH]; intros i H.
  - destruct i; discriminate.
  - destruct l as [|b l].
    + destruct i; discriminate.
    + destruct i as [|i].
      * simpl in H. injection H as <-. exists a, b. repeat split.
      * change (nth_error (Double.zonesOf (b :: l)) i = Some z) in H.
        apply IH in H. destruct H as [a' [b' [Ha [Hb Hz]]]].
        exists a', b'. repeat split; assumption.
Qed.

Lemma rounded_zones_nth (matchedRefs : list MatchedReference) (i : nat)
      (z : AlignmentZone) :
  nth_error (Double.createAlignmentZones matchedRefs) i = Some z ->
  exists a b,
    let sorted := Js.sort (fun a b => Ref.distance (run1 a) - Ref.distance (run1 b))
                          matchedRefs in
    nth_error sorted i = Some a /\ nth_error sorted (S i) = Some b
    /\ start_ref z = a /\ end_ref z = b.
Proof.
  unfold Double.createAlignmentZones.
  destruct (Nat.ltb (List.length matchedRefs) 2).
  - destruct i; discriminate.
  - rewrite (sort_rounded (fun m => Ref.distance (run1 m))). intro H.
    apply rounded_zonesOf_nth in H. destruct H as [a [b [Ha [Hb ->]]]].
    exists a, b. repeat split; assumption.
Qed.

Lemma rounded_zones_members (matchedRefs : list MatchedReference)
      (z : AlignmentZone) :
  In z (Double.createAlignmentZones matchedRefs) ->
  In (start_ref z) matchedRefs /\ In (end_ref z) matchedRefs
  /\ Ref.distance (run1 (start_ref z)) <= Ref.distance (run1 (end_ref z)).
Proof.
  intro H. apply In_nth_error in H. destruct H as [i Hi].
  apply rounded_zones_nth in Hi. destruct Hi as [a [b [Ha [Hb [-> ->]]]]].
  split; [|split].
  - apply nth_error_In in Ha. apply sort_In in Ha. exact Ha.
  - apply nth_error_In in Hb. apply sort_In in Hb. exact Hb.
  - eapply (ascending_adjacent (fun m => Ref.distance (run1 m)));
      [apply (sort_ascending (fun m => Ref.distance (run1 m)))|exact Ha|exact Hb].
Qed.

(** Each rounded operation is monotone, so the zone map is. *)
Lemma rounded_zoneMap_monotone (z : AlignmentZone) (d1 d2 : Q) :
  Ref.distance (run1 (start_ref z)) <= Ref.distance (run1 (end_ref z)) ->
  d1 <= d2 -> Double.zoneMap z d1 <= Double.zoneMap z d2.
Proof.
  unfold Double.zoneMap. intros Hord Hd.
  set (s2 := Ref.distance (run2 (start_ref z))) in *.
  set (e2 := Ref.distance (run2 (end_ref z))) in *.
  set (s1 := Ref.distance (run1 (start_ref z))) in *.
  set (e1 := Ref.distance (run1 (end_ref z))) in *.
  destruct (Js.gtb (Double.sub e2 s2) 0) eqn:E; [|apply Qle_refl].
  apply gtb_true in E.
  unfold Double.add, Double.mul, Double.div.
  apply round_monotone. apply Qplus_le_r.
  apply round_monotone. apply Qmult_le_compat_r.
  - apply round_monotone. apply Qmult_le_compat_r.
    + apply round_monotone. qlra.
    + apply Qlt_le_weak. apply Qinv_lt_0_compat. exact E.
  - apply round_nonneg. qlra.
Qed.

Lemma rounded_zoneMap_degenerate (z : AlignmentZone) (d : Q) :
  ~ positiveRawSpan z ->
  Double.zoneMap z d = Ref.distance (run1 (start_ref z)).
Proof.
  unfold positiveRawSpan, Double.zoneMap, Double.sub. intro Hneg.
  rewrite round_gtb.
  destruct (Js.gtb _ 0) eqn:E; [|reflexivity].
  apply gtb_true in E. exfalso. apply Hneg. qlra.
Qed.

(** At the end of its raw interval a zone returns the double
    [run1Start + (run1End - run1Start)]. *)
Lemma rounded_zoneMap_at_end (z : AlignmentZone) :
  positiveRawSpan z ->
  Double.zoneMap z (boundaryOf z)
  = Double.add (Ref.distance (run1 (start_ref z)))
               (Double.round
                  (Double.sub (Ref.distance (run1 (end_ref z)))
                              (Ref.distance (run1 (start_ref z))))).
Proof.
  unfold positiveRawSpan, Double.zoneMap, boundaryOf. intro Hpos.
  set (s2 := Ref.distance (run2 (start_ref z))) in *.
  set (e2 := Ref.distance (run2 (end_ref z))) in *.
  assert (HD : 0 < Double.sub e2 s2) by (apply round_positive; qlra).
  rewrite (proj2 (gtb_true _ _) HD).
  unfold Double.div at 1.
  assert (E1 : Double.round (Double.sub e2 s2 / Double.sub e2 s2) = Double.round 1).
  { apply round_comp. field. intro K. rewrite K in HD. discriminate. }
  rewrite E1. unfold Double.mul. f_equal. apply round_comp.
  rewrite round_one. ring.
Qed.

(** At the start of its raw interval a zone returns [run1Start],
    rounded once when the interpolation branch is taken. *)
Lemma rounded_zoneMap_at_start (z : AlignmentZone) :
  Double.zoneMap z (Ref.distance (run2 (start_ref z)))
  = Ref.distance (run1 (start_ref z))
  \/ Double.zoneMap z (Ref.distance (run2 (start_ref z)))
     = Double.round (Ref.distance (run1 (start_ref z))).
Proof.
  unfold Double.zoneMap.
  set (s2 := Ref.distance (run2 (start_ref z))).
  set (D := Double.sub (Ref.distance (run2 (end_ref z))) s2).
  destruct (Js.gtb D 0); [right|left; reflexivity].
  unfold Double.add, Double.mul, Double.div, Double.sub.
  assert (E0 : Double.round (s2 - s2) = 0).
  { transitivity (Double.round 0); [|reflexivity]. apply round_comp. ring. }
  rewrite E0.
  assert (E1 : Double.round (0 / D) = 0).
  { transitivity (Double.round 0); [|reflexivity]. apply round_comp.
    unfold Qdiv. ring. }
  rewrite E1.
  assert (E2 : forall w, Double.round (0 * w) = 0).
  { intro w. transitivity (Double.round 0); [|reflexivity].
    apply round_comp. ring. }
  rewrite E2. apply round_comp. ring.
Qed.

Lemma Qabs_bounds (x B : Q) : Qabs x <= B -> - B <= x /\ x <= B.
Proof. intro H. apply Qabs_Qle_condition. exact H. Qed.

Ltac rounding x B :=
  let L := fresh "L" in
  let U := fresh "U" in
  destruct (round_within x B) as [L U];
  [unfold maxDistance in *; qlra|unfold maxDistance in *; qlra|];
  change (1 # 2 ^ 53) with (1 # 9007199254740992) in L, U.

(** The double [s + (e - s)] misses [e] by at most 8e-16 times the
    size of the operands. *)
Lemma endpoint_error_within (M s e : Q) :
  Qabs s <= M -> Qabs e <= M ->
  Qabs (Double.add s (Double.round (Double.sub e s)) - e)
  <= (8 # 10000000000000000) * M.
Proof.
  intros Hs He. apply Qabs_bounds in Hs. apply Qabs_bounds in He.
  destruct Hs as [Hs1 Hs2]. destruct He as [He1 He2].
  unfold Double.add, Double.sub.
  rounding (e - s) (2 * M).
  set (W := Double.round (e - s)) in *.
  rounding W (3 * M).
  set (W' := Double.round W) in *.
  rounding (s + W') (2 * M).
  apply Qabs_Qle_condition. split; qlra.
Qed.

Lemma start_error_within (M s : Q) :
  Qabs s <= M -> Qabs (Double.round s - s) <= (2 # 10000000000000000) * M.
Proof.
  intro Hs. apply Qabs_bounds in Hs. destruct Hs as [Hs1 Hs2].
  rounding s M.
  apply Qabs_Qle_condition. split; qlra.
Qed.

(** For distances of at most 10^9 ft: within 8e-7 ft. *)
Lemma endpoint_error (s e : Q) :
  Qabs s <= maxDistance -> Qabs e <= maxDistance ->
  Qabs (Double.add s (Double.round (Double.sub e s)) - e) <= 8 # 10000000.
Proof.
  intros Hs He. eapply Qle_trans; [apply (endpoint_error_within maxDistance s e Hs He)|].
  discriminate.
Qed.

Lemma start_error (s : Q) :
  Qabs s <= maxDistance -> Qabs (Double.round s - s) <= 2 # 10000000.
Proof.
  intro Hs. eapply Qle_trans; [apply (start_error_within maxDistance s Hs)|].
  discriminate.
Qed.

(* ================================================================= *)
(** ** Zone boundaries *)

(** C4 as stated does not hold.  The earlier run has reference points
    at 0, 100 and 700 ft, the later run two reference points at 10 ft
    and one at 710 ft.  The first zone has an empty raw interval and
    maps the boundary point 10 ft to 0 ft, the second zone maps it to
    100 ft. *)
Lemma zone_boundary_counterexample :
  ~ roundedBoundariesAgree (Double.createAlignmentZones degeneratePairs).
Proof.
  intro H.
  destruct (Double.createAlignmentZones degeneratePairs) as [|z1 [|z2 rest]] eqn:E;
    try discriminate.
  specialize (H 0%nat z1 z2 eq_refl eq_refl).
  vm_compute in E. injection E as <- <- _.
  vm_compute in H. apply H. reflexivity.
Qed.

(** C4, amended.  For every list of matched reference pairs with
    distances of at most 10^9 ft, and with every operation rounded to
    a double as the source performs it: the map of each alignment zone
    is monotone non-decreasing in the distance; at every internal zone
    boundary whose earlier zone has a positive raw span (end_raw >
    start_raw) the later zone starts at the pair that ends the earlier
    one and the two zone maps give corrected values for the boundary
    point that differ by at most 1e-6 ft; a zone whose raw span is not
    positive maps every distance to its start_canon. *)
Theorem zone_maps_monotone_and_continuous :
  forall (matchedRefs : list MatchedReference),
    (forall m, In m matchedRefs -> distancesInRange m) ->
    let zones := Double.createAlignmentZones matchedRefs in
    (forall z d1 d2, In z zones -> d1 <= d2 ->
                     Double.zoneMap z d1 <= Double.zoneMap z d2)
    /\ (forall i z1 z2,
          nth_error zones i = Some z1 -> nth_error zones (S i) = Some z2 ->
          positiveRawSpan z1 ->
          start_ref z2 = end_ref z1
          /\ Qabs (Double.zoneMap z1 (boundaryOf z1)
                   - Double.zoneMap z2 (boundaryOf z1))
             <= tolerance)
    /\ (forall z d, In z zones -> ~ positiveRawSpan z ->
                    Double.zoneMap z d = Ref.distance (run1 (start_ref z))).
Proof.
  intros matchedRefs Hrange zones. split; [|split].
  - intros z d1 d2 Hz Hd. apply rounded_zoneMap_monotone; [|exact Hd].
    apply (rounded_zones_members matchedRefs). exact Hz.
  - intros i z1 z2 H1 H2 Hpos.
    pose proof (nth_error_In _ _ H1) as M1. pose proof (nth_error_In _ _ H2) as M2.
    apply rounded_zones_members in M1. apply rounded_zones_members in M2.
    apply rounded_zones_nth in H1. destruct H1 as [a [b [Ha [Hb [Sa Sb]]]]].
    apply rounded_zones_nth in H2. destruct H2 as [b' [c [Hb' [Hc [Sb' Sc]]]]].
    cbv zeta in *. rewrite Hb in Hb'. injection Hb' as <-.
    assert (Hadj : start_ref z2 = end_ref z1) by congruence.
    split; [exact Hadj|].
    destruct (Hrange _ (proj1 M1)) as [R1 _].
    destruct (Hrange _ (proj1 (proj2 M1))) as [R2 _].
    pose proof (endpoint_error _ _ R1 R2) as Eend.
    rewrite <- (rounded_zoneMap_at_end z1 Hpos) in Eend.
    assert (Estart : Qabs (Double.zoneMap z2 (boundaryOf z1)
                           - Ref.distance (run1 (end_ref z1))) <= 2 # 10000000).
    { unfold boundaryOf. rewrite <- Hadj.
      destruct (rounded_zoneMap_at_start z2) as [-> | ->].
      - setoid_replace (Ref.distance (run1 (start_ref z2))
                        - Ref.distance (run1 (start_ref z2))) with 0 by ring.
        discriminate.
      - apply start_error. rewrite Hadj. exact R2. }
    apply Qabs_bounds in Eend. apply Qabs_bounds in Estart.
    apply Qabs_Qle_condition. unfold tolerance. split; qlra.
  - intros z d _ Hneg. apply rounded_zoneMap_degenerate. exact Hneg.
Qed.

Lemma zone_maps_monotone_and_continuous_witness :
  exists z1 z2,
    nth_error (Double.createAlignmentZones regularPairs) 0 = Some z1
    /\ nth_error (Double.createAlignmentZones regularPairs) 1 = Some z2
    /\ positiveRawSpan z1
    /\ Double.zoneMap z1 50 <= Double.zoneMap z1 60
    /\ Qabs (Double.zoneMap z1 (boundaryOf z1) - Double.zoneMap z2 (boundaryOf z1))
       <= tolerance.
Proof.
  destruct (Double.createAlignmentZones regularPairs) as [|z1 [|z2 rest]] eqn:E;
    try discriminate.
  exists z1, z2.
  assert (Hpos : positiveRawSpan z1).
  { vm_compute in E. injection E as <- _ _. reflexivity. }
  assert (Hrange : forall m, In m regularPairs -> distancesInRange m).
  { intros m Hm. vm_compute in Hm.
    destruct Hm as [<-|[<-|[<-|[]]]]; split; discriminate. }
  destruct (zone_maps_monotone_and_continuous regularPairs Hrange)
    as [Hmono [Hcont _]].
  rewrite E in Hmono, Hcont.
  split; [reflexivity|]. split; [reflexivity|]. split; [exact Hpos|]. split.
  - apply Hmono; [left; reflexivity|discriminate].
  - apply (Hcont 0%nat z1 z2 eq_refl eq_refl Hpos).
Defined.

(* ================================================================= *)
(** ** The identity alignment *)

Lemma rounded_zoneMap_identity (z : AlignmentZone) (raw : Q) :
  identityPair (start_ref z) -> identityPair (end_ref z) ->
  distancesInRange (start_ref z) -> distancesInRange (end_ref z) ->
  containsRaw raw z = true ->
  Qabs (Double.zoneMap z raw - raw) <= tolerance.
Proof.
  unfold identityPair, distancesInRange, containsRaw, Double.zoneMap.
  intros Hs He [Rs1 Rs2] [Re1 Re2] Hc.
  apply andb_true_iff in Hc. destruct Hc as [Hc1 Hc2].
  apply geb_true in Hc1. apply leb_true in Hc2.
  apply Qabs_bounds in Rs1, Rs2, Re1, Re2.
  set (s2 := Ref.distance (run2 (start_ref z))) in *.
  set (e2 := Ref.distance (run2 (end_ref z))) in *.
  set (s1 := Ref.distance (run1 (start_ref z))) in *.
  set (e1 := Ref.distance (run1 (end_ref z))) in *.
  assert (EW : Double.sub e1 s1 = Double.sub e2 s2).
  { apply round_comp. rewrite Hs, He. reflexivity. }
  rewrite EW. unfold Double.sub at 1. rewrite round_gtb.
  destruct (Js.gtb (e2 - s2) 0) eqn:E.
  - apply gtb_true in E.
    assert (HD : 0 < Double.sub e2 s2) by (apply round_positive; exact E).
    set (D := Double.sub e2 s2) in *.
    unfold Double.add, Double.mul, Double.div, Double.sub.
    rounding (raw - s2) (2 * maxDistance).
    assert (HN : 0 <= Double.round (raw - s2)) by (apply round_nonneg; qlra).
    set (N := Double.round (raw - s2)) in *.
    assert (Hq : 0 <= N / D).
    { apply Qle_shift_div_l; [exact HD|]. qlra. }
    assert (EqD : N / D * D == N).
    { field. intro K. rewrite K in HD. discriminate. }
    pose proof (round_error (N / D)) as EF.
    rewrite (Qabs_pos _ Hq) in EF. apply Qabs_bounds in EF.
    change (1 # 2 ^ 53) with (1 # 9007199254740992) in EF.
    set (q := N / D) in *. set (F := Double.round q) in *.
    assert (Ht : - ((1 # 9007199254740992) * N) <= F * D - N
                 /\ F * D - N <= (1 # 9007199254740992) * N).
    { destruct EF as [EF1 EF2]. split; qnra. }
    destruct Ht as [Ht1 Ht2]. set (t := F * D) in *.
    rounding t ((2001 # 1000) * maxDistance).
    set (Pd := Double.round t) in *.
    rounding (s1 + Pd) ((1001 # 1000) * maxDistance).
    apply Qabs_Qle_condition. unfold tolerance, maxDistance in *. split; qlra.
  - apply gtb_false in E.
    apply Qabs_Qle_condition. unfold tolerance. split; qlra.
Qed.

Lemma rounded_translation_identity (m : MatchedReference) (raw : Q) :
  identityPair m -> Qabs raw <= maxDistance ->
  Qabs (Double.add raw (Double.sub (Ref.distance (run1 m)) (Ref.distance (run2 m)))
        - raw) <= tolerance.
Proof.
  unfold identityPair. intros Hm Hraw.
  assert (E0 : Double.sub (Ref.distance (run1 m)) (Ref.distance (run2 m)) = 0).
  { transitivity (Double.round 0); [|reflexivity]. apply round_comp.
    rewrite Hm. ring. }
  rewrite E0. unfold Double.add.
  assert (E1 : Double.round (raw + 0) = Double.round raw)
    by (apply round_comp; ring).
  rewrite E1. pose proof (start_error raw Hraw) as H.
  apply Qabs_bounds in H. apply Qabs_Qle_condition. unfold tolerance. split; qlra.
Qed.

Lemma rounded_correctedOf_identity (zones : list AlignmentZone)
      (firstRef lastRef : MatchedReference) (raw : Q) :
  (forall z, In z zones ->
             (identityPair (start_ref z) /\ distancesInRange (start_ref z))
             /\ identityPair (end_ref z) /\ distancesInRange (end_ref z)) ->
  identityPair firstRef -> identityPair lastRef ->
  Qabs raw <= maxDistance ->
  Qabs (Double.correctedOf zones firstRef lastRef raw - raw) <= tolerance.
Proof.
  intros Hz Hf Hl Hraw. unfold Double.correctedOf.
  destruct (find (containsRaw raw) zones) as [z|] eqn:E.
  - apply find_some in E. destruct E as [Hin Hc].
    destruct (Hz z Hin) as [[Hs Rs] [He Re]].
    apply rounded_zoneMap_identity; assumption.
  - destruct (Js.ltb raw _); [apply rounded_translation_identity; assumption|].
    destruct (Js.gtb raw _); [apply rounded_translation_identity; assumption|].
    setoid_replace (raw - raw) with 0 by ring. discriminate.
Qed.

Lemma rounded_correction_identity (anomalies : list NormalizedAnomaly)
      (matchedRefs : list MatchedReference) (a : NormalizedAnomaly) :
  (forall m, In m matchedRefs -> identityPair m) ->
  (forall m, In m matchedRefs -> distancesInRange m) ->
  Forall correctedIsRaw anomalies ->
  In a (Double.applyDistanceCorrection anomalies
          (Double.createAlignmentZones matchedRefs) matchedRefs) ->
  Qabs (Anomaly.distance a) <= maxDistance ->
  Qabs (Anomaly.corrected_distance a - Anomaly.distance a) <= tolerance.
Proof.
  intros Hid Hrange Hraw. unfold Double.applyDistanceCorrection.
  assert (Hsame : In a anomalies -> Qabs (Anomaly.distance a) <= maxDistance ->
                  Qabs (Anomaly.corrected_distance a - Anomaly.distance a)
                  <= tolerance).
  { intros Ha _. rewrite Forall_forall in Hraw. specialize (Hraw a Ha).
    unfold correctedIsRaw in Hraw. rewrite Hraw.
    setoid_replace (Anomaly.distance a - Anomaly.distance a) with 0 by ring.
    discriminate. }
  destruct (_ || _)%bool; [exact Hsame|].
  rewrite (sort_rounded (fun m => Ref.distance (run2 m))).
  destruct (Js.sort _ matchedRefs) as [|firstRef rest] eqn:Es; [exact Hsame|].
  assert (Hsorted : forall m, In m (firstRef :: rest) -> identityPair m).
  { intros m Hm. apply Hid. rewrite <- Es in Hm. apply sort_In in Hm. exact Hm. }
  intros Ha Hbound. apply in_map_iff in Ha. destruct Ha as [a0 [<- _]].
  unfold Anomaly.with_corrected_distance, Anomaly.with_distances in *.
  cbn [Anomaly.distance Anomaly.corrected_distance] in *.
  apply rounded_correctedOf_identity.
  - intros z Hin. apply rounded_zones_members in Hin.
    destruct Hin as [H1 [H2 _]].
    split; split; try (apply Hid; assumption); apply Hrange; assumption.
  - apply Hsorted. left. reflexivity.
  - apply Hsorted. apply last_In. left. reflexivity.
  - exact Hbound.
Qed.

(** C6 as stated does not hold.  Both runs find their two welds at
    23.4 ft and 107.1 ft, so every reference pair has equal distances.
    For the dent of the later run at 89.3 ft the corrector computes
    23.4 + ((89.3 - 23.4) / (107.1 - 23.4)) * (107.1 - 23.4) in doubles
    and returns 89.30000000000001, the double that follows 89.3: the
    corrected distance exceeds the raw distance by 2^-46 ft. *)
Lemma identity_rounding_counterexample :
  (forall m, In m decimalIdentityPairs ->
             Ref.distance (run1 m) == Ref.distance (run2 m))
  /\ Double.applyDistanceCorrection [decimalDent]
       (Double.createAlignmentZones decimalIdentityPairs) decimalIdentityPairs
     <> []
  /\ forall a,
       In a (Double.applyDistanceCorrection [decimalDent]
               (Double.createAlignmentZones decimalIdentityPairs)
               decimalIdentityPairs) ->
       Anomaly.corrected_distance a == Anomaly.distance a + (1 # 2 ^ 46)
       /\ ~ Anomaly.corrected_distance a == Anomaly.distance a.
Proof.
  split; [|split].
  - intros m Hm. destruct Hm as [<-|[<-|[]]]; reflexivity.
  - vm_compute. discriminate.
  - intros a Ha. vm_compute in Ha. destruct Ha as [<-|[]].
    split; [vm_compute; reflexivity|vm_compute; discriminate].
Qed.

(** C6, amended.  Identity alignment up to rounding: if every matched
    reference pair has ref_a.distance == ref_b.distance and the
    distances involved are at most 10^9 ft, then every anomaly of the
    later run (a normalized and cleaned run) comes out of the distance
    corrector, every operation of which is rounded to a double, with a
    corrected distance within 1e-6 ft of its raw distance. *)
Theorem identity_alignment :
  forall (rawData : list RawAnomaly) (slotIndex runIndex : nat) (runYear : Q)
         (otherRuns : option (list (list NormalizedAnomaly)))
         (matchedRefs : list MatchedReference),
    (forall m, In m matchedRefs ->
               Ref.distance (run1 m) == Ref.distance (run2 m)) ->
    (forall m, In m matchedRefs -> distancesInRange m) ->
    forall a,
      In a (Double.applyDistanceCorrection
              (fst (cleanData (normalizeAnomalies rawData slotIndex)
                              runIndex runYear otherRuns))
              (Double.createAlignmentZones matchedRefs) matchedRefs) ->
      Qabs (Anomaly.distance a) <= maxDistance ->
      Qabs (Anomaly.corrected_distance a - Anomaly.distance a) <= tolerance.
Proof.
  intros rawData slotIndex runIndex runYear otherRuns matchedRefs Hid Hrange a.
  apply rounded_correction_identity; [exact Hid|exact Hrange|].
  apply cleanData_correctedIsRaw. apply normalizeAnomalies_correctedIsRaw.
Qed.

Lemma identity_alignment_witness :
  exists a,
    (forall m, In m identityPairs ->
               Ref.distance (run1 m) == Ref.distance (run2 m))
    /\ In a (Double.applyDistanceCorrection
               (fst (cleanData (normalizeAnomalies exampleLaterTable 1)
                               1 2020 None))
               (Double.createAlignmentZones identityPairs) identityPairs)
    /\ Qabs (Anomaly.corrected_distance a - Anomaly.distance a) <= tolerance.
Proof.
  eexists.
  assert (Hid : forall m, In m identityPairs ->
                          Ref.distance (run1 m) == Ref.distance (run2 m)).
  { intros m Hm. vm_compute in Hm.
    destruct Hm as [<-|[<-|[<-|[]]]]; reflexivity. }
  assert (Hrange : forall m, In m identityPairs -> distancesInRange m).
  { intros m Hm. vm_compute in Hm.
    destruct Hm as [<-|[<-|[<-|[]]]]; split; discriminate. }
  assert (Hin : In ?[a] (Double.applyDistanceCorrection
               (fst (cleanData (normalizeAnomalies exampleLaterTable 1)
                               1 2020 None))
               (Double.createAlignmentZones identityPairs) identityPairs))
    by (vm_compute; left; reflexivity).
  split; [exact Hid|]. split; [exact Hin|].
  apply (identity_alignment exampleLaterTable 1 1 2020 None identityPairs
                            Hid Hrange _ Hin).
  vm_compute. discriminate.
Defined.

(* ================================================================= *)
(** ** The chains in terms of the two pairwise matches *)

Lemma mapGet_mapDelete (m : Run3Map) (j k : nat) :
  mapGet (mapDelete m j) k = if Nat.eqb j k then None else mapGet m k.
Proof.
  unfold mapGet, mapDelete. induction m as [|[k' v'] m IH]; cbn [filter find fst].
  - destruct (Nat.eqb j k); reflexivity.
  - destruct (Nat.eqb k' j) eqn:Ej; cbn [negb].
    + apply Nat.eqb_eq in Ej. subst k'.
      destruct (Nat.eqb j k) eqn:Ek; [exact IH|]. exact IH.
    + cbn [find fst]. destruct (Nat.eqb k' k) eqn:Ek.
      * apply Nat.eqb_eq in Ek. subst k'. rewrite Nat.eqb_sym, Ej. reflexivity.
      * exact IH.
Qed.

Lemma mapDelete_absent (m : Run3Map) (j : nat) :
  mapGet m j = None -> mapDelete m j = m.
Proof.
  unfold mapGet, mapDelete. induction m as [|[k' v'] m IH]; cbn [filter find fst];
    [reflexivity|].
  destruct (Nat.eqb k' j); [discriminate|]. cbn [negb]. intro H.
  rewrite (IH H). reflexivity.
Qed.

Lemma mapGet_mapDeleteAll (keys : list nat) :
  forall (m : Run3Map) (k : nat),
    mapGet (mapDeleteAll keys m) k
    = if existsb (Nat.eqb k) keys then None else mapGet m k.
Proof.
  unfold mapDeleteAll. induction keys as [|j keys IH]; intros m k; [reflexivity|].
  cbn [fold_left existsb]. rewrite IH, mapGet_mapDelete, (Nat.eqb_sym k j).
  destruct (Nat.eqb j k); [|reflexivity].
  destruct (existsb (Nat.eqb k) keys); reflexivity.
Qed.

Lemma mapDeleteAll_app (keys1 keys2 : list nat) (m : Run3Map) :
  mapDeleteAll (keys1 ++ keys2) m = mapDeleteAll keys2 (mapDeleteAll keys1 m).
Proof. unfold mapDeleteAll. apply fold_left_app. Qed.

Lemma mapGet_none_nil (m : Run3Map) : (forall k, mapGet m k = None) -> m = [].
Proof.
  destruct m as [|[k v] m]; [reflexivity|]. intro H. specialize (H k).
  unfold mapGet in H. cbn [find fst] in H. rewrite Nat.eqb_refl in H. discriminate.
Qed.

Lemma mapDeleteAll_exhausts (keys : list nat) (m : Run3Map) :
  (forall e, In e m -> In (fst e) keys) -> mapDeleteAll keys m = [].
Proof.
  intro H. apply mapGet_none_nil. intro k. rewrite mapGet_mapDeleteAll.
  destruct (existsb (Nat.eqb k) keys) eqn:E; [reflexivity|].
  destruct (mapGet m k) as [v|] eqn:G; [|reflexivity].
  apply mapGet_In in G. apply H in G. cbn [fst] in G.
  apply existsb_eqb_not_In in E. contradiction.
Qed.

Lemma extendToRun3_result (hasRun3 : bool) (m : Run3Map) (key : nat)
      (base : list (nat * nat)) :
  extendToRun3 hasRun3 m key base
  = (base ++ lookupRun3 hasRun3 m key, if hasRun3 then mapDelete m key else m).
Proof.
  unfold extendToRun3, lookupRun3. destruct (mapGet m key) as [v|] eqn:G.
  - destruct hasRun3; [reflexivity|]. rewrite app_nil_r. reflexivity.
  - rewrite app_nil_r, (mapDelete_absent m key G). destruct hasRun3; reflexivity.
Qed.

Lemma lookupRun3_mapDelete (hasRun3 : bool) (m : Run3Map) (j k : nat) :
  j <> k -> lookupRun3 hasRun3 (mapDelete m j) k = lookupRun3 hasRun3 m k.
Proof.
  intro H. unfold lookupRun3. rewrite mapGet_mapDelete.
  replace (Nat.eqb j k) with false by (symmetry; apply Nat.eqb_neq; exact H).
  reflexivity.
Qed.

Lemma lookupRun3_mapDeleteAll (hasRun3 : bool) (keys : list nat) (m : Run3Map)
      (k : nat) :
  ~ In k keys -> lookupRun3 hasRun3 (mapDeleteAll keys m) k = lookupRun3 hasRun3 m k.
Proof.
  intro H. unfold lookupRun3. rewrite mapGet_mapDeleteAll.
  destruct (existsb (Nat.eqb k) keys) eqn:E; [|reflexivity].
  apply existsb_eqb_In in E. contradiction.
Qed.

Lemma afterKeys_cons (hasRun3 : bool) (j : nat) (keys : list nat) (m : Run3Map) :
  afterKeys hasRun3 (j :: keys) m
  = afterKeys hasRun3 keys (if hasRun3 then mapDelete m j else m).
Proof. unfold afterKeys. destruct hasRun3; reflexivity. Qed.

Lemma lookupRun3_step (hasRun3 : bool) (m : Run3Map) (j k : nat) :
  j <> k ->
  lookupRun3 hasRun3 (if hasRun3 then mapDelete m j else m) k
  = lookupRun3 hasRun3 m k.
Proof.
  intro H. destruct hasRun3; [apply lookupRun3_mapDelete; exact H|reflexivity].
Qed.

(** One iteration of the loop over the pairs of runs 0 and 1. *)
Lemma processPair_refs (runs : list (list NormalizedAnomaly)) (years : list Q)
      (st : ChainState) (p : MatchPair) :
  mapReady runs (snd st) ->
  (forall ref, In ref (pairRefs p) -> available runs ref) ->
  exists st',
    processPair runs years st p = Some st'
    /\ refsOf st'
       = refsOf st
         ++ [pairRefs p
             ++ lookupRun3 (Nat.leb 3 (List.length runs)) (snd st) (run2Idx p)]
    /\ snd st' = (if Nat.leb 3 (List.length runs)
                  then mapDelete (snd st) (run2Idx p) else snd st)
    /\ mapReady runs (snd st').
Proof.
  intros Hready Hav.
  destruct (processPair_step runs years st p Hready Hav) as [st' [E [Hr _]]].
  exists st'. split; [exact E|].
  destruct st as [[allMatches matchId] map0]. unfold processPair in E.
  change [(0%nat, run1Idx p); (1%nat, run2Idx p)] with (pairRefs p) in E.
  rewrite extendToRun3_result in E.
  destruct (pushMatch _ _ _ _ _ _ _ _) as [[all' id']|] eqn:Ep; [|discriminate].
  injection E as <-. apply pushMatch_fields in Ep.
  destruct Ep as [m [-> [Hm _]]].
  unfold refsOf. cbn [fst snd] in *. rewrite map_app. cbn [map]. rewrite Hm.
  split; [reflexivity|]. split; [reflexivity|exact Hr].
Qed.

Lemma processNew_refs (runs : list (list NormalizedAnomaly)) (years : list Q)
      (st : ChainState) (idx : nat) :
  mapReady runs (snd st) -> available runs (1%nat, idx) ->
  exists st',
    processNew runs years st idx = Some st'
    /\ refsOf st'
       = refsOf st
         ++ [(1%nat, idx)
             :: lookupRun3 (Nat.leb 3 (List.length runs)) (snd st) idx]
    /\ snd st' = (if Nat.leb 3 (List.length runs)
                  then mapDelete (snd st) idx else snd st)
    /\ mapReady runs (snd st').
Proof.
  intros Hready Hav.
  destruct (processNew_step runs years st idx Hready Hav) as [st' [E [Hr _]]].
  exists st'. split; [exact E|].
  destruct st as [[allMatches matchId] map0]. unfold processNew in E.
  rewrite extendToRun3_result in E.
  destruct (pushMatch _ _ _ _ _ _ _ _) as [[all' id']|] eqn:Ep; [|discriminate].
  injection E as <-. apply pushMatch_fields in Ep.
  destruct Ep as [m [-> [Hm _]]].
  unfold refsOf. cbn [fst snd] in *. rewrite map_app. cbn [map]. rewrite Hm.
  split; [reflexivity|]. split; [reflexivity|exact Hr].
Qed.

Lemma processSingle_refs (runs : list (list NormalizedAnomaly)) (years : list Q)
      (r : nat) (status : MatchStatus) (l : list nat) :
  forall st : ChainState,
    (forall idx, In idx l -> available runs (r, idx)) ->
    exists st',
      foldM (processSingle runs years r status) l st = Some st'
      /\ snd st' = snd st
      /\ refsOf st' = refsOf st ++ map (fun idx => [(r, idx)]) l.
Proof.
  induction l as [|idx l IH]; intros st Hav; cbn [foldM map].
  - exists st. split; [reflexivity|]. split; [reflexivity|].
    rewrite app_nil_r. reflexivity.
  - destruct (processSingle_step runs years r status st idx) as [st1 [E [Hs1 _]]].
    { apply Hav. left. reflexivity. }
    rewrite E. pose proof (processSingle_pushes _ _ _ _ _ _ _ E) as [m [Hm [_ [Hr _]]]].
    destruct (IH st1) as [st' [E' [Hs' He']]].
    { intros q Hq. apply Hav. right. exact Hq. }
    exists st'. split; [exact E'|]. split; [congruence|].
    rewrite He'. unfold refsOf. rewrite Hm, map_app. cbn [map]. rewrite Hr.
    rewrite <- app_assoc. reflexivity.
Qed.

(** The loop over the pairs of runs 0 and 1: every pair gives a chain,
    continued by what the map held for its run-1 member when the loop
    started. *)
Lemma processPair_loop_refs (runs : list (list NormalizedAnomaly)) (years : list Q)
      (l : list MatchPair) :
  forall st : ChainState,
    mapReady runs (snd st) ->
    (forall p ref, In p l -> In ref (pairRefs p) -> available runs ref) ->
    NoDup (map run2Idx l) ->
    exists st',
      foldM (processPair runs years) l st = Some st'
      /\ refsOf st'
         = refsOf st
           ++ map (fun p => pairRefs p
                            ++ lookupRun3 (Nat.leb 3 (List.length runs)) (snd st)
                                          (run2Idx p)) l
      /\ snd st' = afterKeys (Nat.leb 3 (List.length runs)) (map run2Idx l) (snd st)
      /\ mapReady runs (snd st').
Proof.
  induction l as [|p l IH]; intros st Hready Hav Hnd; cbn [foldM map].
  - exists st. split; [reflexivity|]. rewrite app_nil_r.
    split; [reflexivity|]. split; [|exact Hready].
    unfold afterKeys. destruct (Nat.leb 3 _); reflexivity.
  - destruct (processPair_refs runs years st p Hready) as [st1 [E [R1 [S1 Hr1]]]].
    { intros ref Href. apply (Hav p ref); [left; reflexivity|exact Href]. }
    rewrite E. inversion Hnd as [|? ? Hp Hnd']; subst.
    destruct (IH st1 Hr1) as [st' [E' [R' [S' Hr']]]]; [|exact Hnd'|].
    { intros q ref Hq. apply Hav. right. exact Hq. }
    exists st'. split; [exact E'|]. split; [|split; [|exact Hr']].
    + rewrite R', R1, <- app_assoc. f_equal. cbn [app]. f_equal.
      apply map_ext_in. intros q Hq. f_equal. rewrite S1.
      apply lookupRun3_step. intro K. apply Hp. rewrite K.
      apply in_map. exact Hq.
    + rewrite S', S1, afterKeys_cons. reflexivity.
Qed.

Lemma processNew_loop_refs (runs : list (list NormalizedAnomaly)) (years : list Q)
      (l : list nat) :
  forall st : ChainState,
    mapReady runs (snd st) ->
    (forall idx, In idx l -> available runs (1%nat, idx)) ->
    NoDup l ->
    exists st',
      foldM (processNew runs years) l st = Some st'
      /\ refsOf st'
         = refsOf st
           ++ map (fun idx => (1%nat, idx)
                              :: lookupRun3 (Nat.leb 3 (List.length runs)) (snd st) idx)
                  l
      /\ snd st' = afterKeys (Nat.leb 3 (List.length runs)) l (snd st)
      /\ mapReady runs (snd st').
Proof.
  induction l as [|idx l IH]; intros st Hready Hav Hnd; cbn [foldM map].
  - exists st. split; [reflexivity|]. rewrite app_nil_r.
    split; [reflexivity|]. split; [|exact Hready].
    unfold afterKeys. destruct (Nat.leb 3 _); reflexivity.
  - destruct (processNew_refs runs years st idx Hready) as [st1 [E [R1 [S1 Hr1]]]].
    { apply Hav. left. reflexivity. }
    rewrite E. inversion Hnd as [|? ? Hp Hnd']; subst.
    destruct (IH st1 Hr1) as [st' [E' [R' [S' Hr']]]]; [|exact Hnd'|].
    { intros q Hq. apply Hav. right. exact Hq. }
    exists st'. split; [exact E'|]. split; [|split; [|exact Hr']].
    + rewrite R', R1, <- app_assoc. f_equal. cbn [app]. f_equal.
      apply map_ext_in. intros q Hq. f_equal. rewrite S1.
      apply lookupRun3_step. intro K. apply Hp. rewrite K. exact Hq.
    + rewrite S', S1, afterKeys_cons. reflexivity.
Qed.

Lemma find_map_key {A B : Type} (f : A -> B) (key : A -> nat) (keyB : B -> nat)
      (k : nat) (l : list A) :
  (forall a, keyB (f a) = key a) ->
  find (fun b => Nat.eqb (keyB b) k) (map f l)
  = option_map f (find (fun a => Nat.eqb (key a) k) l).
Proof.
  intro H. induction l as [|a l IH]; [reflexivity|].
  cbn [map find]. rewrite H. destruct (Nat.eqb (key a) k); [reflexivity|exact IH].
Qed.

(** What the freshly built map holds is what the match of runs 1 and
    2 pairs. *)
Lemma lookupRun3_initial (m23 : MatchResult) (j : nat) :
  lookupRun3 true
    (map (fun p => (run1Idx p, (run2Idx p, similarity p))) (pairs m23)) j
  = run3Link (Some m23) j.
Proof.
  unfold lookupRun3, run3Link, mapGet.
  rewrite (find_map_key (fun p => (run1Idx p, (run2Idx p, similarity p)))
             run1Idx fst j (pairs m23)) by reflexivity.
  destruct (find _ (pairs m23)); reflexivity.
Qed.

Lemma lookupRun3_empty (hasRun3 : bool) (j : nat) : lookupRun3 hasRun3 [] j = [].
Proof. reflexivity. Qed.

Lemma NoDup_app_disjoint {A : Type} (l1 l2 : list A) (a : A) :
  NoDup (l1 ++ l2) -> In a l2 -> ~ In a l1.
Proof.
  induction l1 as [|x l1 IH]; intros Hnd H2 H1; [contradiction|].
  cbn [app] in Hnd. inversion Hnd as [|? ? Hx Hnd']; subst.
  destruct H1 as [->|H1].
  - apply Hx. apply in_or_app. right. exact H2.
  - exact (IH Hnd' H2 H1).
Qed.

(** The chains the matcher returns are the chains the two pairwise
    matches determine. *)
Lemma matchAcrossRuns_refs (runs : list (list NormalizedAnomaly)) (years : list Q) :
  exists chains,
    matchAcrossRuns runs years = Some chains
    /\ map Match.anomaly_refs chains = pairwiseChains runs.
Proof.
  unfold matchAcrossRuns, pairwiseChains. cbv zeta.
  destruct (Nat.ltb (List.length runs) 2) eqn:Elen.
  { exists []. split; reflexivity. }
  set (r0 := nth 0 runs []). set (r1 := nth 1 runs []). set (r2 := nth 2 runs []).
  destruct (matchAnomalies_partition r0 r1) as [P0 P1].
  set (m12 := matchAnomalies r0 r1) in *.
  assert (A0 : forall i, In i (map run1Idx (pairs m12) ++ missingAnomalies m12) ->
                         available runs (0%nat, i)).
  { intros i Hi. apply nonReferenceRows_available.
    apply (Permutation_in _ P0). exact Hi. }
  assert (A1 : forall i, In i (map run2Idx (pairs m12) ++ newAnomalies m12) ->
                         available runs (1%nat, i)).
  { intros i Hi. apply nonReferenceRows_available.
    apply (Permutation_in _ P1). exact Hi. }
  assert (Apairs : forall p ref, In p (pairs m12) -> In ref (pairRefs p) ->
                                 available runs ref).
  { intros p ref Hp [<-|[<-|[]]].
    - apply A0. apply in_or_app. left. apply in_map. exact Hp.
    - apply A1. apply in_or_app. left. apply in_map. exact Hp. }
  assert (Hnd1 : NoDup (map run2Idx (pairs m12) ++ newAnomalies m12)).
  { apply (Permutation_NoDup (Permutation_sym P1)). apply nonReferenceRows_NoDup. }
  pose proof (NoDup_app_remove_r (map run2Idx (pairs m12)) (newAnomalies m12) Hnd1)
    as Hkeys12.
  pose proof (NoDup_app_remove_l (map run2Idx (pairs m12)) (newAnomalies m12) Hnd1)
    as Hnew12.
  assert (Hdisj : forall j, In j (newAnomalies m12) ->
                            ~ In j (map run2Idx (pairs m12))).
  { intros j Hj. exact (NoDup_app_disjoint _ _ j Hnd1 Hj). }
  destruct (Nat.leb 3 (List.length runs)) eqn:E3.
  - (* three runs or more *)
    destruct (matchAnomalies_partition r1 r2) as [P1' P2].
    set (m23 := matchAnomalies r1 r2) in *.
    assert (Hkeys : NoDup (map run1Idx (pairs m23))).
    { apply (NoDup_app_remove_r _ (missingAnomalies m23)).
      apply (Permutation_NoDup (Permutation_sym P1')).
      apply nonReferenceRows_NoDup. }
    assert (A2 : forall i, In i (map run2Idx (pairs m23) ++ newAnomalies m23) ->
                           available runs (2%nat, i)).
    { intros i Hi. apply nonReferenceRows_available.
      apply (Permutation_in _ P2). exact Hi. }
    rewrite (buildRun3Map_entries m23 Hkeys).
    set (map0 := map (fun p => (run1Idx p, (run2Idx p, similarity p))) (pairs m23)).
    assert (Hready : mapReady runs map0).
    { split.
      - unfold map0. rewrite map_map. simpl. exact Hkeys.
      - intros e He. unfold map0 in He. apply in_map_iff in He.
        destruct He as [p [<- Hp]]. simpl. apply A2.
        apply in_or_app. left. apply in_map. exact Hp. }
    destruct (processPair_loop_refs runs years (pairs m12) ([], 0%nat, map0)
                Hready Apairs Hkeys12) as [st1 [L1 [R1 [S1 Hr1]]]].
    loop_result L1.
    destruct (processNew_loop_refs runs years (newAnomalies m12) st1 Hr1)
      as [st2 [L2 [R2 [S2 Hr2]]]]; [|exact Hnew12|].
    { intros i Hi. apply A1. apply in_or_app. right. exact Hi. }
    loop_result L2.
    destruct (processSingle_refs runs years 0%nat Status.missing
                (missingAnomalies m12) st2) as [st3 [L3 [S3 R3]]].
    { intros i Hi. apply A0. apply in_or_app. right. exact Hi. }
    loop_result L3.
    rewrite E3 in *. cbn [snd] in S1, R1.
    assert (Hempty : snd st3 = []).
    { rewrite S3, S2, S1. unfold afterKeys. rewrite <- mapDeleteAll_app.
      apply mapDeleteAll_exhausts. intros e He. unfold map0 in He.
      apply in_map_iff in He. destruct He as [q [<- Hq]]. cbn [fst].
      apply (Permutation_in _ (Permutation_sym P1)).
      apply (Permutation_in _ P1').
      apply in_or_app. left. apply in_map. exact Hq. }
    rewrite Hempty. cbn [map foldM].
    destruct (processSingle_refs runs years 2%nat Status.new
                (newAnomalies m23) st3) as [st5 [L5 [S5 R5]]].
    { intros i Hi. apply A2. apply in_or_app. right. exact Hi. }
    loop_result L5. eexists. split; [reflexivity|].
    change (map Match.anomaly_refs (fst (fst st5))) with (refsOf st5).
    rewrite R5, R3, R2, R1. unfold refsOf at 1. cbn [fst map app].
    rewrite <- !app_assoc. f_equal.
    + apply map_ext. intro p. f_equal. apply lookupRun3_initial.
    + f_equal. apply map_ext_in. intros j Hj. f_equal.
      rewrite S1. unfold afterKeys.
      rewrite lookupRun3_mapDeleteAll by (apply Hdisj; exact Hj).
      apply lookupRun3_initial.
  - (* two runs *)
    cbn [buildRun3Map].
    destruct (processPair_loop_refs runs years (pairs m12) ([], 0%nat, []))
      as [st1 [L1 [R1 [S1 Hr1]]]]; [| |exact Hkeys12|].
    { split; [constructor|]. intros e []. }
    { exact Apairs. }
    loop_result L1.
    destruct (processNew_loop_refs runs years (newAnomalies m12) st1 Hr1)
      as [st2 [L2 [R2 [S2 Hr2]]]]; [|exact Hnew12|].
    { intros i Hi. apply A1. apply in_or_app. right. exact Hi. }
    loop_result L2.
    destruct (processSingle_refs runs years 0%nat Status.missing
                (missingAnomalies m12) st2) as [st3 [L3 [S3 R3]]].
    { intros i Hi. apply A0. apply in_or_app. right. exact Hi. }
    loop_result L3. eexists. split; [reflexivity|].
    change (map Match.anomaly_refs (fst (fst st3))) with (refsOf st3).
    rewrite E3 in *. cbn [snd] in S1, R1. unfold afterKeys in S1.
    rewrite R3, R2, R1, S1. unfold refsOf at 1. cbn [fst map app].
    rewrite app_nil_r, <- !app_assoc. reflexivity.
Qed.

Lemma linkOf_two (a b x y : nat * nat) : linkOf [a; b] x y -> x = a /\ y = b.
Proof.
  intros [before [after H]].
  destruct before as [|b1 [|b2 [|b3 before]]]; cbn [app] in H;
    try discriminate.
  injection H as -> ->. split; reflexivity.
Qed.

Lemma linkOf_three (a b c x y : nat * nat) :
  linkOf [a; b; c] x y -> (x = a /\ y = b) \/ (x = b /\ y = c).
Proof.
  intros [before [after H]].
  destruct before as [|b1 [|b2 [|b3 [|b4 before]]]]; cbn [app] in H;
    try discriminate.
  - injection H as -> ->. left. split; reflexivity.
  - injection H as _ -> ->. right. split; reflexivity.
Qed.

Lemma linkOf_one (a x y : nat * nat) : ~ linkOf [a] x y.
Proof.
  intros [before [after H]].
  destruct before as [|b1 [|b2 before]]; cbn [app] in H; discriminate.
Qed.

Lemma run3Link_cases (match23 : option MatchResult) (j : nat) :
  run3Link match23 j = []
  \/ exists m23 q, match23 = Some m23 /\ In q (pairs m23) /\ run1Idx q = j
                   /\ run3Link match23 j = [(2%nat, run2Idx q)].
Proof.
  unfold run3Link. destruct match23 as [m23|]; [|left; reflexivity].
  destruct (find _ (pairs m23)) as [q|] eqn:E; [|left; reflexivity].
  right. apply find_some in E. destruct E as [Hin Hk]. apply Nat.eqb_eq in Hk.
  exists m23, q. repeat split; assumption.
Qed.

Lemma find_unique_key (l : list MatchPair) (q : MatchPair) :
  NoDup (map run1Idx l) -> In q l ->
  find (fun p => Nat.eqb (run1Idx p) (run1Idx q)) l = Some q.
Proof.
  induction l as [|p l IH]; intros Hnd Hin; [contradiction|].
  cbn [map] in Hnd. inversion Hnd as [|? ? Hp Hnd']; subst. cbn [find].
  destruct Hin as [->|Hin].
  - rewrite Nat.eqb_refl. reflexivity.
  - destruct (Nat.eqb (run1Idx p) (run1Idx q)) eqn:E.
    + apply Nat.eqb_eq in E. exfalso. apply Hp. rewrite E. apply in_map. exact Hin.
    + apply IH; assumption.
Qed.

(** Every link of the chains is a pair of one of the two pairwise
    matches. *)
Lemma pairwiseChains_links (runs : list (list NormalizedAnomaly))
      (refs : list (nat * nat)) :
  In refs (pairwiseChains runs) -> linksPairwise runs refs.
Proof.
  unfold pairwiseChains. destruct (Nat.ltb (List.length runs) 2) eqn:Elen;
    [contradiction|].
  apply Nat.ltb_ge in Elen. cbv zeta.
  set (m12 := matchAnomalies (nth 0 runs []) (nth 1 runs [])).
  set (match23 := if Nat.leb 3 (List.length runs) then _ else None).
  assert (H23 : forall m23 q, match23 = Some m23 -> In q (pairs m23) ->
                              (2 < List.length runs)%nat
                              /\ pairedBy runs 1 (run1Idx q) (run2Idx q)).
  { intros m23 q E Hq. unfold match23 in E.
    destruct (Nat.leb 3 (List.length runs)) eqn:E3; [|discriminate].
    apply Nat.leb_le in E3. injection E as <-. split; [lia|].
    exists q. repeat split. exact Hq. }
  intro Hin. repeat (apply in_app_or in Hin; destruct Hin as [Hin|Hin]).
  - apply in_map_iff in Hin. destruct Hin as [p [<- Hp]].
    assert (H01 : pairedBy runs 0 (run1Idx p) (run2Idx p)).
    { exists p. repeat split. exact Hp. }
    destruct (run3Link_cases match23 (run2Idx p)) as [->|[m23 [q [E [Hq [Hk ->]]]]]].
    + rewrite app_nil_r. intros x y L. apply linkOf_two in L.
      destruct L as [-> ->]. cbn [fst snd]. repeat split; try lia. exact H01.
    + destruct (H23 m23 q E Hq) as [Hlen Hpq].
      intros x y L. apply linkOf_three in L.
      destruct L as [[-> ->]|[-> ->]]; cbn [fst snd]; repeat split; try lia.
      * exact H01.
      * rewrite <- Hk. exact Hpq.
  - apply in_map_iff in Hin. destruct Hin as [j [<- Hj]].
    destruct (run3Link_cases match23 j) as [->|[m23 [q [E [Hq [Hk ->]]]]]].
    + intros x y L. exfalso. exact (linkOf_one _ _ _ L).
    + destruct (H23 m23 q E Hq) as [Hlen Hpq].
      intros x y L. apply linkOf_two in L. destruct L as [-> ->].
      cbn [fst snd]. repeat split; try lia. rewrite <- Hk. exact Hpq.
  - apply in_map_iff in Hin. destruct Hin as [i [<- _]].
    intros x y L. exfalso. exact (linkOf_one _ _ _ L).
  - destruct match23 as [m23|]; [|contradiction].
    apply in_map_iff in Hin. destruct Hin as [k [<- _]].
    intros x y L. exfalso. exact (linkOf_one _ _ _ L).
Qed.

(** Every pair of runs 0 and 1 starts a chain. *)
Lemma pairwiseChains_first_pairs (runs : list (list NormalizedAnomaly))
      (p : MatchPair) :
  (2 <= List.length runs)%nat ->
  In p (pairs (matchAnomalies (nth 0 runs []) (nth 1 runs []))) ->
  exists refs,
    In refs (pairwiseChains runs)
    /\ linkOf refs (0%nat, run1Idx p) (1%nat, run2Idx p).
Proof.
  intros Hlen Hp. unfold pairwiseChains.
  replace (Nat.ltb (List.length runs) 2) with false
    by (symmetry; apply Nat.ltb_ge; exact Hlen).
  cbv zeta. eexists. split.
  - apply in_or_app. left. apply in_map_iff. exists p. split; [reflexivity|exact Hp].
  - exists []. eexists. reflexivity.
Qed.

(** Every pair of runs 1 and 2 ends a chain. *)
Lemma pairwiseChains_second_pairs (runs : list (list NormalizedAnomaly))
      (q : MatchPair) :
  (3 <= List.length runs)%nat ->
  In q (pairs (matchAnomalies (nth 1 runs []) (nth 2 runs []))) ->
  exists refs,
    In refs (pairwiseChains runs)
    /\ linkOf refs (1%nat, run1Idx q) (2%nat, run2Idx q).
Proof.
  intros Hlen Hq. unfold pairwiseChains.
  replace (Nat.ltb (List.length runs) 2) with false
    by (symmetry; apply Nat.ltb_ge; lia).
  replace (Nat.leb 3 (List.length runs)) with true
    by (symmetry; apply Nat.leb_le; exact Hlen).
  cbv zeta.
  destruct (matchAnomalies_partition (nth 0 runs []) (nth 1 runs [])) as [_ P1].
  destruct (matchAnomalies_partition (nth 1 runs []) (nth 2 runs [])) as [P1' _].
  set (m12 := matchAnomalies (nth 0 runs []) (nth 1 runs [])) in *.
  set (m23 := matchAnomalies (nth 1 runs []) (nth 2 runs [])) in *.
  assert (Hkeys : NoDup (map run1Idx (pairs m23))).
  { apply (NoDup_app_remove_r _ (missingAnomalies m23)).
    apply (Permutation_NoDup (Permutation_sym P1')).
    apply nonReferenceRows_NoDup. }
  assert (Hlink : run3Link (Some m23) (run1Idx q) = [(2%nat, run2Idx q)]).
  { unfold run3Link. rewrite (find_unique_key _ q Hkeys Hq). reflexivity. }
  assert (Hrow : In (run1Idx q) (map run2Idx (pairs m12) ++ newAnomalies m12)).
  { apply (Permutation_in _ (Permutation_sym P1)).
    apply (Permutation_in _ P1').
    apply in_or_app. left. apply in_map. exact Hq. }
  apply in_app_or in Hrow. destruct Hrow as [Hrow|Hrow].
  - apply in_map_iff in Hrow. destruct Hrow as [p [Hk Hp]].
    eexists. split.
    + apply in_or_app. left. apply in_map_iff. exists p.
      split; [reflexivity|exact Hp].
    + rewrite Hk, Hlink. exists [(0%nat, run1Idx p)], []. cbn [pairRefs app].
      rewrite Hk. reflexivity.
  - eexists. split.
    + apply in_or_app. right. apply in_or_app. left. apply in_map_iff.
      exists (run1Idx q). split; [reflexivity|exact Hrow].
    + rewrite Hlink. exists [], []. reflexivity.
Qed.

(** C9, amended.  For every input the matcher matches anomalies
    pairwise between runs 0 and 1 and, when there is a third run,
    between runs 1 and 2, and between no other runs.  Its result is the
    one it returns on the first three runs alone, and its chains are
    the chains these two pairwise matches determine: every two
    consecutive members of a chain are a pair of the match of runs 0
    and 1 or of the match of runs 1 and 2, every pair of either match
    is a link of some chain, and every member of every chain comes
    from a run with index 0, 1 or 2, so the anomalies of runs with
    index 3 and above never enter a chain. *)
Theorem chains_use_first_three_runs :
  forall (runs : list (list NormalizedAnomaly)) (years : list Q),
    exists chains,
      matchAcrossRuns runs years = Some chains
      /\ matchAcrossRuns (firstn 3 runs) years = Some chains
      /\ map Match.anomaly_refs chains = pairwiseChains runs
      /\ (forall c, In c chains -> linksPairwise runs (Match.anomaly_refs c))
      /\ (forall p,
            (2 <= List.length runs)%nat ->
            In p (pairs (matchAnomalies (nth 0 runs []) (nth 1 runs []))) ->
            exists c, In c chains
                      /\ linkOf (Match.anomaly_refs c)
                                (0%nat, run1Idx p) (1%nat, run2Idx p))
      /\ (forall q,
            (3 <= List.length runs)%nat ->
            In q (pairs (matchAnomalies (nth 1 runs []) (nth 2 runs []))) ->
            exists c, In c chains
                      /\ linkOf (Match.anomaly_refs c)
                                (1%nat, run1Idx q) (2%nat, run2Idx q))
      /\ forall c ref, In c chains -> In ref (Match.anomaly_refs c) ->
                       (fst ref <= 2)%nat.
Proof.
  intros runs years.
  destruct (matchAcrossRuns_refs runs years) as [chains [Hrun Hrefs]].
  exists chains. split; [exact Hrun|].
  split; [rewrite matchAcrossRuns_firstn; exact Hrun|].
  split; [exact Hrefs|].
  assert (Hchain : forall refs, In refs (pairwiseChains runs) ->
                                exists c, In c chains /\ Match.anomaly_refs c = refs).
  { intros refs Hin. rewrite <- Hrefs in Hin. apply in_map_iff in Hin.
    destruct Hin as [c [E Hc]]. exists c. split; assumption. }
  split; [|split; [|split]].
  - intros c Hc. apply pairwiseChains_links. rewrite <- Hrefs.
    apply in_map. exact Hc.
  - intros p Hlen Hp.
    destruct (pairwiseChains_first_pairs runs p Hlen Hp) as [refs [Hin Hl]].
    destruct (Hchain refs Hin) as [c [Hc E]]. exists c. rewrite E.
    split; assumption.
  - intros q Hlen Hq.
    destruct (pairwiseChains_second_pairs runs q Hlen Hq) as [refs [Hin Hl]].
    destruct (Hchain refs Hin) as [c [Hc E]]. exists c. rewrite E.
    split; assumption.
  - intros c ref Hc Href.
    pose proof (chain_members_low runs years chains Hrun) as H.
    rewrite Forall_forall in H. specialize (H c Hc).
    rewrite Forall_forall in H. apply (H ref Href).
Qed.

Lemma chains_use_first_three_runs_witness :
  exists chains c ref,
    matchAcrossRuns fourRuns fourYears = Some chains
    /\ map Match.anomaly_refs chains = pairwiseChains fourRuns
    /\ In c chains /\ In ref (Match.anomaly_refs c) /\ (fst ref <= 2)%nat.
Proof.
  destruct (chains_use_first_three_runs fourRuns fourYears)
    as [chains [Hrun [_ [Hrefs [_ [_ [_ Hlow]]]]]]].
  pose proof Hrun as Hres. vm_compute in Hres. injection Hres as Hres.
  exists chains.
  destruct chains as [|c rest]; [discriminate|].
  injection Hres as Hc _.
  exists c, (2%nat, 0%nat). split; [exact Hrun|]. split; [exact Hrefs|].
  split; [left; reflexivity|].
  assert (Hin : In (2%nat, 0%nat) (Match.anomaly_refs c))
    by (rewrite <- Hc; left; reflexivity).
  split; [exact Hin|].
  apply (Hlow c (2%nat, 0%nat) (or_introl eq_refl) Hin).
Defined.

(* ================================================================= *)
(** * Further properties of the engine *)

(** ** Priority classification and scores *)

(** priority.ts, classifyPriority and priorityToScore: the score
    stored in a classification is the score [priorityToScore] gives to
    its level, and the classifier fails only on an empty chain. *)
Theorem classifyPriority_score (anomalies : list NormalizedAnomaly)
        (growth : GrowthRates) (status : MatchStatus) :
  match classifyPriority anomalies growth status with
  | Some c => score c = priorityToScore (level c)
  | None => anomalies = []
  end.
Proof.
  unfold classifyPriority.
  destruct (nth_error anomalies (List.length anomalies - 1)) as [latest|] eqn:E.
  - repeat match goal with
           | |- context [if ?b then _ else _] => destruct b
           end; reflexivity.
  - apply nth_error_None in E. destruct anomalies as [|a l]; [reflexivity|].
    simpl in E. lia.
Qed.

Lemma ttcAtMost_urgent (g1 g2 : GrowthRates) (bound : Q) :
  noLessUrgent g1 g2 ->
  ttcAtMost (time_to_critical g1) bound -> ttcAtMost (time_to_critical g2) bound.
Proof.
  intros [_ H] [v [Hv Hle]]. destruct (H v Hv) as [t2 [Ht2 Hle2]].
  exists t2. split; [exact Ht2|]. qlra.
Qed.

Lemma immediate_urgent (d1 d2 : Q) (g1 g2 : GrowthRates) :
  d1 <= d2 -> noLessUrgent g1 g2 ->
  immediateCondition d1 (Qabs (depth_growth_rate g1)) (time_to_critical g1) ->
  immediateCondition d2 (Qabs (depth_growth_rate g2)) (time_to_critical g2).
Proof.
  intros Hd Hu [H|[H|H]].
  - left. qlra.
  - right. left. exact (ttcAtMost_urgent g1 g2 1 Hu H).
  - right. right. destruct Hu as [Hr _]. qlra.
Qed.

Lemma day60_urgent (d1 d2 : Q) (g1 g2 : GrowthRates) :
  d1 <= d2 -> noLessUrgent g1 g2 ->
  day60Condition d1 (Qabs (depth_growth_rate g1)) (time_to_critical g1) ->
  day60Condition d2 (Qabs (depth_growth_rate g2)) (time_to_critical g2).
Proof.
  intros Hd Hu [H|[H|H]].
  - left. qlra.
  - right. left. destruct Hu as [Hr _]. qlra.
  - right. right. exact (ttcAtMost_urgent g1 g2 3 Hu H).
Qed.

Lemma day180_urgent (d1 d2 r1 r2 : Q) :
  d1 <= d2 -> r1 <= r2 -> day180Condition d1 r1 -> day180Condition d2 r2.
Proof. intros Hd Hr [H|H]; [left|right]; qlra. Qed.

Lemma scheduled_urgent (d1 d2 r1 r2 : Q) :
  d1 <= d2 -> r1 <= r2 -> scheduledCondition d1 r1 -> scheduledCondition d2 r2.
Proof. intros Hd Hr [H|H]; [left|right]; qlra. Qed.

(** X1 (priority.ts, classifyPriority): the priority is monotone.  A
    chain whose latest anomaly is at least as deep, whose depth rate is
    at least as large in absolute value and whose time to critical is
    no longer never gets a lower score. *)
Theorem classifyPriority_monotone
        (l1 l2 : list NormalizedAnomaly) (a1 a2 : NormalizedAnomaly)
        (g1 g2 : GrowthRates) (s1 s2 : MatchStatus)
        (c1 c2 : PriorityClassification) :
  Anomaly.depth_percent a1 <= Anomaly.depth_percent a2 ->
  noLessUrgent g1 g2 ->
  classifyPriority (l1 ++ [a1]) g1 s1 = Some c1 ->
  classifyPriority (l2 ++ [a2]) g2 s2 = Some c2 ->
  (score c1 <= score c2)%nat.
Proof.
  intros Hd Hu. unfold classifyPriority. rewrite !nth_error_last.
  pose proof (immediate_urgent _ _ g1 g2 Hd Hu) as M1.
  pose proof (day60_urgent _ _ g1 g2 Hd Hu) as M2.
  pose proof (day180_urgent _ _ _ _ Hd (proj1 Hu)) as M3.
  pose proof (scheduled_urgent _ _ _ _ Hd (proj1 Hu)) as M4.
  rewrite <- !immediate_reflect in M1. rewrite <- !day60_reflect in M2.
  rewrite <- !day180_reflect in M3. rewrite <- !scheduled_reflect in M4.
  destruct (Js.geb (Anomaly.depth_percent a1) 80 || _ || _)%bool;
    [rewrite (M1 eq_refl); intros E1 E2; injection E1 as <-; injection E2 as <-;
     simpl; lia|].
  clear M1.
  destruct (Js.geb (Anomaly.depth_percent a1) 60 || _ || _)%bool.
  { rewrite (M2 eq_refl). intros E1 E2. injection E1 as <-.
    destruct (_ || _ || _)%bool in E2; injection E2 as <-; simpl; lia. }
  clear M2.
  destruct (Js.geb (Anomaly.depth_percent a1) 40 || _)%bool.
  { rewrite (M3 eq_refl). intros E1 E2. injection E1 as <-.
    repeat match type of E2 with
           | context [if ?b then _ else _] => destruct b
           end; injection E2 as <-; simpl; lia. }
  clear M3.
  destruct (Js.geb (Anomaly.depth_percent a1) 20 || _)%bool.
  { rewrite (M4 eq_refl). intros E1 E2. injection E1 as <-.
    repeat match type of E2 with
           | context [if ?b then _ else _] => destruct b
           end; injection E2 as <-; simpl; lia. }
  intros E1 E2. injection E1 as <-.
  repeat match type of E2 with
         | context [if ?b then _ else _] => destruct b
         end; injection E2 as <-; simpl; lia.
Qed.

Lemma classifyPriority_monotone_witness :
  (score (mkPriorityClassification SCHEDULED "Schedule repair at next opportunity"
            "49 CFR 192.485(c) - Scheduled conditions" 40)
   <= score (mkPriorityClassification DAY_60 "Repair within 60 days"
               "ASME B31.8S - Table 4, Condition 2" 80))%nat.
Proof.
  apply (classifyPriority_monotone
           [] [] (exampleDent 0 0 100) (Anomaly.with_dimensions 65 2 1 (375 # 1000)
                                          (exampleDent 1 0 100))
           (steadyGrowth 1 None) (steadyGrowth (-3) None)
           Status.matched Status.uncertain).
  - vm_compute. discriminate.
  - split.
    + vm_compute. discriminate.
    + intros t1 H. discriminate H.
  - reflexivity.
  - reflexivity.
Defined.

(* ================================================================= *)
(** ** Predictions *)

Lemma orZero_eq (v : Q) : orZero v == v.
Proof.
  unfold orZero. destruct (Js.eqb v 0) eqn:E; [|reflexivity].
  apply eqb_true in E. symmetry. exact E.
Qed.

Lemma clampPercent_range (x : Q) : 0 <= Qmin 100 (Qmax 0 x) <= 100.
Proof.
  split.
  - apply Q.min_glb; [discriminate|apply Q.le_max_l].
  - apply Q.le_min_l.
Qed.

Lemma clampPercent_monotone (x y : Q) :
  x <= y -> Qmin 100 (Qmax 0 x) <= Qmin 100 (Qmax 0 y).
Proof.
  intro H. apply Q.min_le_compat_l. apply Q.max_le_compat_l. exact H.
Qed.

(** X2 (predictions.ts, predictFutureDepth): when the latest depth of
    the chain is a percentage, so is the predicted depth, whatever the
    growth rate and the target year; and with a non-negative growth
    rate the prediction never decreases with the target year. *)
Theorem predictFutureDepth_bounded_monotone
        (thisYear : Q) (m : AnomalyMatch) (year1 year2 : Q) :
  (forall a, latestOf m = Some a -> depthInRange a) ->
  0 <= predictFutureDepth thisYear m year1 <= 100
  /\ (0 <= Match.depth_growth_rate m -> year1 <= year2 ->
      predictFutureDepth thisYear m year1 <= predictFutureDepth thisYear m year2).
Proof.
  intros Hrange. unfold predictFutureDepth.
  destruct (_ || _)%bool.
  - destruct (latestOf m) as [a|] eqn:E.
    + pose proof (Hrange a eq_refl) as [L U]. rewrite orZero_eq.
      split; [split; assumption|]. intros _ _. apply Qle_refl.
    + split; [split; discriminate|]. intros _ _. discriminate.
  - destruct (latestOf m) as [a|] eqn:E.
    + split; [apply clampPercent_range|]. intros Hrate Hyears.
      apply clampPercent_monotone.
      assert (H : 0 <= Match.depth_growth_rate m * (year2 - year1)).
      { apply Qmult_le_0_compat; [exact Hrate|qlra]. }
      setoid_replace (Match.depth_growth_rate m * (year2 - thisYear))
        with (Match.depth_growth_rate m * (year1 - thisYear)
              + Match.depth_growth_rate m * (year2 - year1)) by ring.
      qlra.
    + split; [split; discriminate|]. intros _ _. discriminate.
Qed.

Lemma predictFutureDepth_bounded_monotone_witness :
  0 <= predictFutureDepth 2026 (chainOf [exampleDent 0 0 100; exampleDent 1 0 100] (-2)) 2030
    <= 100
  /\ predictFutureDepth 2026 (chainOf [exampleDent 0 0 100; exampleDent 1 0 100] 2) 2030
     <= predictFutureDepth 2026 (chainOf [exampleDent 0 0 100; exampleDent 1 0 100] 2) 2040.
Proof.
  split.
  - apply (predictFutureDepth_bounded_monotone
             2026 (chainOf [exampleDent 0 0 100; exampleDent 1 0 100] (-2)) 2030 2040).
    intros a H. vm_compute in H. injection H as <-. split; vm_compute; discriminate.
  - apply (predictFutureDepth_bounded_monotone
             2026 (chainOf [exampleDent 0 0 100; exampleDent 1 0 100] 2) 2030 2040).
    + intros a H. vm_compute in H. injection H as <-. split; vm_compute; discriminate.
    + vm_compute. discriminate.
    + vm_compute. discriminate.
Defined.

(** predictions.ts, estimateRepairCost: the estimate is a proper
    range between 30,000 and 750,000 USD, whatever the chain. *)
Theorem estimateRepairCost_range (m : AnomalyMatch) :
  (30000 <= low (estimateRepairCost m))%Z
  /\ (low (estimateRepairCost m) < high (estimateRepairCost m))%Z
  /\ (high (estimateRepairCost m) <= 750000)%Z
  /\ cost_unit (estimateRepairCost m) = "USD"%string.
Proof.
  unfold estimateRepairCost.
  destruct (latestOf m) as [a|]; cbn [option_map].
  - destruct (Anomaly.canonical_type a);
      destruct (Js.gtb _ 60); try destruct (Js.gtb _ 40);
      vm_compute; repeat split; congruence.
  - vm_compute. repeat split; congruence.
Qed.

(* ================================================================= *)
(** ** Growth analysis *)

Lemma fold_plus_shift {X : Type} (f : X -> Q) (l : list X) (a : Q) :
  fold_left (fun acc x => acc + f x) l a
  == a + fold_left (fun acc x => acc + f x) l 0.
Proof.
  revert a. induction l as [|x l IH]; intro a; simpl.
  - ring.
  - rewrite (IH (a + f x)), (IH (0 + f x)). ring.
Qed.

Lemma fold_plus_cons {X : Type} (f : X -> Q) (x : X) (l : list X) :
  fold_left (fun acc x => acc + f x) (x :: l) 0
  == f x + fold_left (fun acc x => acc + f x) l 0.
Proof. simpl. rewrite fold_plus_shift. ring. Qed.

Lemma sum_cons (x : Q) (l : list Q) : sum (x :: l) == x + sum l.
Proof. exact (fold_plus_cons (fun v => v) x l). Qed.

Lemma inject_length_cons {X : Type} (x : X) (l : list X) :
  inject_Z (Z.of_nat (List.length (x :: l)))
  == 1 + inject_Z (Z.of_nat (List.length l)).
Proof.
  cbn [List.length]. rewrite Nat2Z.inj_succ. unfold Z.succ.
  rewrite inject_Z_plus. ring.
Qed.

Lemma tiny_is_not_zero : ~ (1 # 10 ^ 10) <= Qabs 0.
Proof. vm_compute. intro H. apply H. reflexivity. Qed.

Lemma spread_constant (x : list Q) (c : Q) :
  Forall (fun xi => xi == c) x -> spread x == 0.
Proof.
  intro H.
  assert (S : sum x == inject_Z (Z.of_nat (List.length x)) * c
              /\ fold_left (fun a xi => a + xi * xi) x 0
                 == inject_Z (Z.of_nat (List.length x)) * (c * c)).
  { induction H as [|x0 x Hx _ [IH1 IH2]].
    - split; cbn; ring.
    - split.
      + rewrite sum_cons, IH1, inject_length_cons, Hx. ring.
      + rewrite (fold_plus_cons (fun v => v * v) x0 x), IH2,
          inject_length_cons, Hx. ring. }
  destruct S as [S1 S2]. unfold spread. rewrite S1, S2. ring.
Qed.

Lemma linearRegression_constant (x y : list Q) (c : Q) :
  Forall (fun xi => xi == c) x -> fst (linearRegression x y) = 0.
Proof.
  intro H. unfold linearRegression.
  destruct (Nat.ltb (List.length x) 2); [reflexivity|].
  fold (spread x).
  destruct (Js.ltb (Qabs (spread x)) (1 # 10 ^ 10)) eqn:E; [reflexivity|].
  apply ltb_false in E. exfalso. apply tiny_is_not_zero.
  rewrite <- (spread_constant x c H). exact E.
Qed.

Lemma series_years (f : NormalizedAnomaly -> Q) (years : list Q) (c : Q)
      (l : list (NormalizedAnomaly * nat)) :
  (forall p, In p l -> yearOf years (snd p) == c) ->
  Forall (fun xi => xi == c)
         (map fst (map (fun '(a, r) => (yearOf years r, f a)) l)).
Proof.
  intro H. induction l as [|[a r] l IH]; simpl; constructor.
  - apply (H (a, r)). left. reflexivity.
  - apply IH. intros p Hp. apply H. right. exact Hp.
Qed.

Lemma chain_years (anomalies : list NormalizedAnomaly) (runIndices : list nat)
      (years : list Q) (c : Q) :
  (forall i, (i < List.length anomalies)%nat ->
             yearOf years (nth i runIndices 0%nat) == c) ->
  forall p,
    In p (combine anomalies
            (map (fun i => nth i runIndices 0%nat) (seq 0 (List.length anomalies)))) ->
    yearOf years (snd p) == c.
Proof.
  intros H [a r] Hp. apply in_combine_r in Hp. apply in_map_iff in Hp.
  destruct Hp as [i [<- Hi]]. apply in_seq in Hi. apply H. lia.
Qed.

(** X4 (growthRate.ts, calculateGrowthRates and linearRegression):
    when the runs of a chain all carry the same inspection year the
    regression is not attempted: the three growth rates are zero, and
    the time to critical is 0 for a chain already at 80 percent and
    absent otherwise. *)
Theorem same_year_runs_show_no_growth
        (anomalies : list NormalizedAnomaly) (runIndices : list nat)
        (years : list Q) (c : Q) :
  (forall i, (i < List.length anomalies)%nat ->
             yearOf years (nth i runIndices 0%nat) == c) ->
  let g := calculateGrowthRates anomalies runIndices years in
  depth_growth_rate g = 0 /\ length_growth_rate g = 0 /\ width_growth_rate g = 0
  /\ (time_to_critical g = None \/ time_to_critical g = Some 0).
Proof.
  intros H g. subst g. unfold calculateGrowthRates.
  destruct (Nat.ltb (List.length anomalies) 2).
  - cbn. repeat split. left. reflexivity.
  - cbv zeta. cbn [depth_growth_rate length_growth_rate width_growth_rate
                   time_to_critical].
    rewrite !(linearRegression_constant _ _ c)
      by (apply series_years; apply chain_years; exact H).
    repeat split.
    replace (Js.gtb 0 0) with false by reflexivity. cbn [andb].
    destruct (Js.geb _ 80); [right|left]; reflexivity.
Qed.

Lemma same_year_runs_show_no_growth_witness :
  let g := calculateGrowthRates [exampleDent 0 0 100; exampleDent 1 0 100]
                                [0%nat; 1%nat] [2020; 2020] in
  depth_growth_rate g = 0 /\ length_growth_rate g = 0 /\ width_growth_rate g = 0
  /\ (time_to_critical g = None \/ time_to_critical g = Some 0).
Proof.
  apply (same_year_runs_show_no_growth
           [exampleDent 0 0 100; exampleDent 1 0 100] [0%nat; 1%nat] [2020; 2020] 2020).
  intros i Hi. simpl in Hi.
  destruct i as [|[|i]]; [reflexivity|reflexivity|lia].
Defined.

Lemma series_last (f : NormalizedAnomaly -> Q) (years : list Q)
      (earlier : list NormalizedAnomaly) (latest : NormalizedAnomaly) :
  forall rs : list nat,
    List.length rs = List.length (earlier ++ [latest]) ->
    snd (last (map (fun '(a, r) => (yearOf years r, f a))
                   (combine (earlier ++ [latest]) rs)) (0, 0))
    = f latest.
Proof.
  induction earlier as [|a e IH]; intros rs Hlen.
  - destruct rs as [|r [|r' rs]]; simpl in Hlen; try lia. reflexivity.
  - destruct rs as [|r rs]; simpl in Hlen; [lia|].
    injection Hlen as Hlen. specialize (IH rs Hlen).
    cbn [app combine map].
    destruct (map _ (combine (e ++ [latest]) rs)) as [|p l] eqn:E.
    + apply (f_equal (@List.length _)) in E.
      rewrite length_map, length_combine, Hlen, Nat.min_id, length_app in E.
      simpl in E. lia.
    + exact IH.
Qed.

(** X5 (growthRate.ts, calculateGrowthRates): what the time to critical
    of a chain of two or more anomalies is.  It is 0 when the latest
    depth is already 80 percent; it is absent when the depth is below
    80 and the fitted depth rate is not positive; otherwise it is the
    positive quotient of the remaining depth, 80 minus the latest
    depth, by the fitted rate. *)
Theorem time_to_critical_meaning
        (earlier : list NormalizedAnomaly) (latest : NormalizedAnomaly)
        (runIndices : list nat) (years : list Q) :
  (1 <= List.length earlier)%nat ->
  let g := calculateGrowthRates (earlier ++ [latest]) runIndices years in
  let d := Anomaly.depth_percent latest in
  match time_to_critical g with
  | Some t =>
      (80 <= d /\ t = 0)
      \/ (d < 80 /\ 0 < depth_growth_rate g /\ 0 < t
          /\ t = (80 - d) / depth_growth_rate g)
  | None => d < 80 /\ depth_growth_rate g <= 0
  end.
Proof.
  intros Hlen g d. subst g d. unfold calculateGrowthRates.
  assert (E2 : Nat.ltb (List.length (earlier ++ [latest])) 2 = false).
  { apply Nat.ltb_ge. rewrite length_app. simpl. lia. }
  rewrite E2. cbv zeta.
  cbn [depth_growth_rate time_to_critical].
  rewrite series_last by (rewrite length_map, length_seq; reflexivity).
  set (rate := fst (linearRegression _ _)).
  destruct (Js.gtb rate 0) eqn:Er; destruct (Js.ltb (Anomaly.depth_percent latest) 80) eqn:Ed;
    cbn [andb].
  - apply gtb_true in Er. apply ltb_true in Ed. right.
    repeat split; try assumption.
    apply Qlt_shift_div_l; [exact Er|]. qlra.
  - apply ltb_false in Ed.
    replace (Js.geb (Anomaly.depth_percent latest) 80) with true
      by (symmetry; apply geb_true; exact Ed).
    left. split; [exact Ed|reflexivity].
  - apply gtb_false in Er. apply ltb_true in Ed.
    replace (Js.geb (Anomaly.depth_percent latest) 80) with false
      by (symmetry; apply geb_false; exact Ed).
    split; assumption.
  - apply ltb_false in Ed.
    replace (Js.geb (Anomaly.depth_percent latest) 80) with true
      by (symmetry; apply geb_true; exact Ed).
    left. split; [exact Ed|reflexivity].
Qed.

Lemma time_to_critical_meaning_witness :
  let g := calculateGrowthRates ([dentOfDepth 0 20] ++ [dentOfDepth 1 30])
                                [0%nat; 1%nat] [2015; 2020] in
  let d := Anomaly.depth_percent (dentOfDepth 1 30) in
  match time_to_critical g with
  | Some t =>
      (80 <= d /\ t = 0)
      \/ (d < 80 /\ 0 < depth_growth_rate g /\ 0 < t
          /\ t = (80 - d) / depth_growth_rate g)
  | None => d < 80 /\ depth_growth_rate g <= 0
  end.
Proof.
  apply (time_to_critical_meaning [dentOfDepth 0 20] (dentOfDepth 1 30)
                                  [0%nat; 1%nat] [2015; 2020]).
  simpl. lia.
Defined.

(** The dent that was 20 percent deep in 2015 and is 30 percent deep
    in 2020 grows by 2 percent a year and reaches 80 percent after 25
    years. *)
Example growing_dent_time_to_critical :
  let g := calculateGrowthRates [dentOfDepth 0 20; dentOfDepth 1 30]
                                [0%nat; 1%nat] [2015; 2020] in
  depth_growth_rate g == 2
  /\ exists t, time_to_critical g = Some t /\ t == 25.
Proof.
  cbv zeta. split; [vm_compute; reflexivity|].
  eexists. split; [vm_compute; reflexivity|]. vm_compute. reflexivity.
Qed.

(* ================================================================= *)
(** ** Similarity *)

Section SimilarityLaws.
Local Open Scope R_scope.

Lemma FeatureType_eqb_sym (t1 t2 : FeatureType) :
  FeatureType_eqb t1 t2 = FeatureType_eqb t2 t1.
Proof. destruct t1, t2; reflexivity. Qed.

Lemma featureTypeSimilarity_sym (t1 t2 : FeatureType) :
  featureTypeSimilarity t1 t2 = featureTypeSimilarity t2 t1.
Proof. destruct t1, t2; reflexivity. Qed.

Lemma dimensionalSimilarity_sym (a1 a2 : NormalizedAnomaly) :
  dimensionalSimilarity a1 a2 = dimensionalSimilarity a2 a1.
Proof.
  unfold dimensionalSimilarity. cbv zeta beta iota.
  rewrite orb_comm.
  destruct (_ || _)%bool; [reflexivity|].
  f_equal. f_equal; ring.
Qed.

(** X7 (similarity.ts, calculateSimilarity): similarity is symmetric.
    Swapping the two anomalies changes none of the four components and
    not the total. *)
Theorem calculateSimilarity_symmetric (a1 a2 : NormalizedAnomaly) :
  calculateSimilarity a1 a2 = calculateSimilarity a2 a1.
Proof.
  unfold calculateSimilarity, distanceSimilarity, clockSimilarity.
  cbv zeta.
  rewrite (Rabs_minus_sym (Q2R (Anomaly.corrected_distance a1))).
  rewrite (Rabs_minus_sym (Q2R (Anomaly.clock_degrees a1))).
  rewrite (dimensionalSimilarity_sym a1 a2).
  rewrite (featureTypeSimilarity_sym (Anomaly.canonical_type a1)).
  reflexivity.
Qed.

Lemma Qabs_Rabs_le (q c : Q) : (Qabs q <= c)%Q <-> Rabs (Q2R q) <= Q2R c.
Proof.
  rewrite Qabs_Qle_condition. split.
  - intros [L U]. apply Qreals.Qle_Rle in L, U. rewrite Qreals.Q2R_opp in L.
    apply Rabs_le. split; assumption.
  - intro H. assert (L : - Q2R c <= Q2R q) by (unfold Rabs in H; destruct (Rcase_abs _); rlra).
    assert (U : Q2R q <= Q2R c) by (unfold Rabs in H; destruct (Rcase_abs _); rlra).
    rewrite <- Qreals.Q2R_opp in L. split; apply Qreals.Rle_Qle; assumption.
Qed.

Lemma Q2R_360 : Q2R 360 = 360.
Proof. unfold Q2R. simpl. field. Qed.

Lemma clockSimilarity_range_iff (deg1 deg2 : R) :
  unitInterval (clockSimilarity deg1 deg2) <-> Rabs (deg1 - deg2) <= 360.
Proof.
  unfold unitInterval, clockSimilarity.
  pose proof (Rabs_pos (deg1 - deg2)) as Hpos.
  unfold Rmin. destruct (Rle_dec _ _); split; intro H; rlra.
Qed.

(** X8 (similarity.ts, calculateSimilarity): which components are
    scores.  The distance and the type component always lie in [0, 1];
    the clock component lies in [0, 1] if and only if the two clock
    angles are at most 360 degrees apart, and exceeds 1 when they are
    further apart. *)
Theorem calculateSimilarity_range_iff (a1 a2 : NormalizedAnomaly) :
  let s := calculateSimilarity a1 a2 in
  unitInterval (Sim.distance s) /\ unitInterval (Sim.feature_type s)
  /\ (unitInterval (Sim.clock s)
      <-> (Qabs (Anomaly.clock_degrees a1 - Anomaly.clock_degrees a2) <= 360)%Q)
  /\ ((360 < Qabs (Anomaly.clock_degrees a1 - Anomaly.clock_degrees a2))%Q ->
      1 < Sim.clock s).
Proof.
  cbv zeta. unfold calculateSimilarity.
  cbn [Sim.distance Sim.clock Sim.feature_type].
  split; [apply distanceSimilarity_range|].
  split; [apply featureTypeSimilarity_range|].
  assert (Hiff : unitInterval (clockSimilarity (Q2R (Anomaly.clock_degrees a1))
                                               (Q2R (Anomaly.clock_degrees a2)))
                 <-> (Qabs (Anomaly.clock_degrees a1 - Anomaly.clock_degrees a2)
                      <= 360)%Q).
  { rewrite Qabs_Rabs_le, Qreals.Q2R_minus, Q2R_360.
    apply clockSimilarity_range_iff. }
  split; [exact Hiff|].
  intro Hfar.
  assert (Hout : ~ unitInterval (clockSimilarity (Q2R (Anomaly.clock_degrees a1))
                                                 (Q2R (Anomaly.clock_degrees a2)))).
  { intro K. apply Hiff in K. apply (Qlt_not_le _ _ Hfar). exact K. }
  revert Hout. unfold unitInterval, clockSimilarity.
  pose proof (Rabs_pos (Q2R (Anomaly.clock_degrees a1)
                        - Q2R (Anomaly.clock_degrees a2))) as Hpos.
  unfold Rmin. destruct (Rle_dec _ _); intro Hout.
  - exfalso. apply Hout. rlra.
  - destruct (Rlt_le_dec 360 (Rabs (Q2R (Anomaly.clock_degrees a1)
                                    - Q2R (Anomaly.clock_degrees a2)))) as [K|K].
    + rlra.
    + exfalso. apply Hout. rlra.
Qed.

Lemma Q2R_squaredMagnitude (a : NormalizedAnomaly) :
  Q2R (squaredMagnitude a)
  = Q2R (Anomaly.depth_percent a) * Q2R (Anomaly.depth_percent a)
    + Q2R (Anomaly.length a) * Q2R (Anomaly.length a)
    + Q2R (Anomaly.width a) * Q2R (Anomaly.width a).
Proof.
  unfold squaredMagnitude. rewrite !Qreals.Q2R_plus, !Qreals.Q2R_mult. reflexivity.
Qed.

(** X9 (similarity.ts, calculateSimilarity): an anomaly compared with
    itself.  The distance, the clock and the type component of the
    similarity of an anomaly with itself are exactly 1, whatever its
    fields; and when its depth, length and width are all zero the
    dimension component is 0. *)
Theorem calculateSimilarity_self (a : NormalizedAnomaly) :
  let s := calculateSimilarity a a in
  Sim.distance s = 1 /\ Sim.clock s = 1 /\ Sim.feature_type s = 1
  /\ ((squaredMagnitude a == 0)%Q -> Sim.dimensional s = 0).
Proof.
  cbv zeta. unfold calculateSimilarity.
  cbn [Sim.distance Sim.clock Sim.feature_type Sim.dimensional].
  split; [|split; [|split]].
  - unfold distanceSimilarity. rewrite Rminus_diag, Rabs_R0.
    replace (- 0 / DISTANCE_TOLERANCE) with 0
      by (unfold DISTANCE_TOLERANCE; field).
    apply exp_0.
  - unfold clockSimilarity. rewrite Rminus_diag, Rabs_R0.
    unfold Rmin. destruct (Rle_dec _ _); rlra.
  - unfold featureTypeSimilarity. rewrite FeatureType_eqb_refl. reflexivity.
  - intro H.
    assert (Hsmall : 0 < 1 / 10 ^ 10).
    { apply Rdiv_lt_0_compat; [rlra|]. apply pow_lt. rlra. }
    apply Qreals.Qeq_eqR in H. rewrite Q2R_squaredMagnitude in H.
    replace (Q2R 0) with 0 in H by (unfold Q2R; simpl; field).
    unfold dimensionalSimilarity. cbv zeta beta iota.
    rewrite H, sqrt_0.
    replace (Rjs.ltb 0 (1 / 10 ^ 10)) with true
      by (symmetry; apply Rjs_ltb_true; exact Hsmall).
    reflexivity.
Qed.

Lemma calculateSimilarity_self_witness :
  Sim.clock (calculateSimilarity (exampleDent 0 0 100) (exampleDent 0 0 100)) = 1
  /\ Sim.dimensional (calculateSimilarity (exampleWeld 0 0 100) (exampleWeld 0 0 100))
     = 0.
Proof.
  split.
  - apply (calculateSimilarity_self (exampleDent 0 0 100)).
  - apply (calculateSimilarity_self (exampleWeld 0 0 100)). reflexivity.
Defined.

End SimilarityLaws.

(* ================================================================= *)
(** ** Assignment: the greedy passes *)

Lemma seq_prefix (n x : nat) (pre post : list nat) :
  seq 0 n = pre ++ x :: post -> x = List.length pre /\ (List.length pre < n)%nat.
Proof.
  intro H.
  assert (Hlen : (List.length pre < n)%nat).
  { apply (f_equal (@List.length _)) in H.
    rewrite length_seq, length_app in H. simpl in H. lia. }
  split; [|exact Hlen].
  pose proof (seq_nth 0 0%nat Hlen) as Hn.
  rewrite H, app_nth2, Nat.sub_diag in Hn by lia. simpl in Hn. lia.
Qed.

Lemma hungarianAlgorithm_passes (costMatrix : Matrix) :
  hungarianAlgorithm costMatrix
  = if (Nat.eqb (List.length costMatrix) 0
        || Nat.eqb (List.length (hd [] costMatrix)) 0)%bool
    then []
    else fst (greedyPass costMatrix
                (greedyPass costMatrix
                   (greedyPass costMatrix (unassigned costMatrix)))).
Proof. reflexivity. Qed.

Section GreedyScan.
Variables (matrix : Matrix) (usedCols : list nat) (i : nat).

Let scan (best : option (nat * R)) (j : nat) : option (nat * R) :=
  if existsb (Nat.eqb j) usedCols then best
  else
    match best with
    | None => Some (j, entry matrix i j)
    | Some (_, bestCost) =>
        if Rjs.ltb (entry matrix i j) bestCost
        then Some (j, entry matrix i j) else best
    end.

Lemma scan_none (js : list nat) (best : option (nat * R)) :
  fold_left scan js best = None ->
  best = None /\ forall j, In j js -> In j usedCols.
Proof.
  revert best. induction js as [|j js IH]; intros best H; simpl in H.
  - split; [exact H|]. intros j [].
  - destruct (IH _ H) as [Hstep Hall]. unfold scan in Hstep.
    destruct (existsb (Nat.eqb j) usedCols) eqn:E.
    + split; [exact Hstep|]. intros j' [<-|Hj'].
      * apply existsb_eqb_In. exact E.
      * apply Hall. exact Hj'.
    + destruct best as [[jb cb]|]; [|discriminate].
      destruct (Rjs.ltb _ cb); discriminate.
Qed.

Lemma scan_all_used (js : list nat) (best : option (nat * R)) :
  (forall j, In j js -> In j usedCols) -> fold_left scan js best = best.
Proof.
  revert best. induction js as [|j js IH]; intros best H; simpl.
  - reflexivity.
  - rewrite IH by (intros j' Hj'; apply H; right; exact Hj').
    unfold scan.
    replace (existsb (Nat.eqb j) usedCols) with true; [reflexivity|].
    symmetry. apply existsb_eqb_In. apply H. left. reflexivity.
Qed.

Lemma scan_member (js : list nat) (best : option (nat * R)) (j : nat) (c : R) :
  fold_left scan js best = Some (j, c) -> In j js \/ best = Some (j, c).
Proof.
  revert best. induction js as [|j0 js IH]; intros best H; simpl in H.
  - right. exact H.
  - destruct (IH _ H) as [Hin|Hstep]; [left; right; exact Hin|].
    unfold scan in Hstep.
    destruct (existsb (Nat.eqb j0) usedCols); [right; exact Hstep|].
    destruct best as [[jb cb]|].
    + destruct (Rjs.ltb _ cb).
      * injection Hstep as <- _. left. left. reflexivity.
      * right. exact Hstep.
    + injection Hstep as <- _. left. left. reflexivity.
Qed.

End GreedyScan.

Lemma bestColumn_none (matrix : Matrix) (usedCols : list nat) (i m : nat) :
  bestColumn matrix usedCols i m = None <->
  forall j, (j < m)%nat -> In j usedCols.
Proof.
  unfold bestColumn. split.
  - intros H j Hj. apply (scan_none matrix usedCols i) in H.
    apply (proj2 H). apply in_seq. lia.
  - intro H. apply (scan_all_used matrix usedCols i).
    intros j Hj. apply in_seq in Hj. apply H. lia.
Qed.

Lemma bestColumn_range (matrix : Matrix) (usedCols : list nat) (i m j : nat) (c : R) :
  bestColumn matrix usedCols i m = Some (j, c) -> (j < m)%nat.
Proof.
  unfold bestColumn. intro H. apply (scan_member matrix usedCols i) in H.
  destruct H as [H|H]; [|discriminate]. apply in_seq in H. lia.
Qed.

Lemma all_columns_used (usedCols : list nat) (m : nat) :
  NoDup usedCols -> (forall j, In j usedCols -> (j < m)%nat) ->
  ((forall j, (j < m)%nat -> In j usedCols) <-> List.length usedCols = m).
Proof.
  intros Hnd Hrange.
  assert (Hincl : incl usedCols (seq 0 m)).
  { intros j Hj. apply in_seq. specialize (Hrange j Hj). lia. }
  pose proof (NoDup_incl_length Hnd Hincl) as Hle. rewrite length_seq in Hle.
  split.
  - intro Hall.
    assert (Hincl' : incl (seq 0 m) usedCols).
    { intros j Hj. apply in_seq in Hj. apply Hall. lia. }
    pose proof (NoDup_incl_length (seq_NoDup m 0) Hincl') as Hge.
    rewrite length_seq in Hge. lia.
  - intros Hlen j Hj.
    assert (Hlen' : (List.length (seq 0 m) <= List.length usedCols)%nat)
      by (rewrite length_seq; lia).
    apply (NoDup_length_incl Hnd Hlen' Hincl). apply in_seq. lia.
Qed.

Lemma setAt_length {A : Type} (i : nat) (v : A) (l : list A) :
  List.length (setAt i v l) = List.length l.
Proof.
  revert i. induction l as [|x l IH]; intros [|i]; simpl; try reflexivity.
  rewrite IH. reflexivity.
Qed.

Lemma setAt_nth {A : Type} (i k : nat) (v d : A) (l : list A) :
  (i < List.length l)%nat ->
  nth k (setAt i v l) d = if Nat.eqb k i then v else nth k l d.
Proof.
  revert i k. induction l as [|x l IH]; intros i k Hi; simpl in Hi; [lia|].
  destruct i as [|i], k as [|k]; simpl; try reflexivity.
  apply IH. lia.
Qed.

(** A pass that meets row [k] after the rows below it. *)
Lemma assignRow_greedy (matrix : Matrix) (n m k : nat) (st : list Z * list nat) :
  (k < n)%nat -> greedyInvariant n m k st ->
  greedyInvariant n m (S k) (assignRow matrix m st k).
Proof.
  intros Hk. destruct st as [asg used]. unfold greedyInvariant. cbn [fst snd].
  intros [Hlen [Hnd [Hrange [Hused [Hrows Hcols]]]]].
  assert (Hfree : nth k asg (-1)%Z = (-1)%Z).
  { destruct (Z.eq_dec (nth k asg (-1)%Z) (-1)) as [E|E]; [exact E|].
    apply (Hrows k Hk) in E. lia. }
  unfold assignRow. rewrite Hfree.
  change (Z.eqb (-1) (-1)) with true. cbn [negb].
  destruct (bestColumn matrix used k m) as [[bestJ c]|] eqn:Eb.
  - pose proof (bestColumn_unused _ _ _ _ _ _ Eb) as Hnew.
    pose proof (bestColumn_range _ _ _ _ _ _ Eb) as Hj.
    assert (Hkm : (k < m)%nat).
    { destruct (Nat.lt_ge_cases k m) as [H|H]; [exact H|]. exfalso.
      apply Hnew. apply (proj2 (all_columns_used used m Hnd Hrange)); [lia|exact Hj]. }
    cbn [fst snd]. split; [|split; [|split; [|split; [|split]]]].
    + rewrite setAt_length. exact Hlen.
    + constructor; assumption.
    + intros j [<-|Hin]; [exact Hj|apply Hrange; exact Hin].
    + cbn [List.length]. lia.
    + intros i Hi. rewrite setAt_nth by lia.
      destruct (Nat.eqb i k) eqn:E.
      * apply Nat.eqb_eq in E. subst i. split; [lia|]. intros _. lia.
      * apply Nat.eqb_neq in E. rewrite (Hrows i Hi). lia.
    + intros i Hi. rewrite setAt_nth by lia.
      destruct (Nat.eqb i k) eqn:E.
      * intros _. exists bestJ. split; [reflexivity|left; reflexivity].
      * intro Hz. destruct (Hcols i Hi Hz) as [j [Ej Hin]].
        exists j. split; [exact Ej|right; exact Hin].
  - pose proof (proj1 (bestColumn_none _ _ _ _) Eb) as Hall.
    pose proof (proj1 (all_columns_used used m Hnd Hrange) Hall) as Hfull.
    cbn [fst snd]. split; [|split; [|split; [|split; [|split]]]]; try assumption.
    + lia.
    + intros i Hi. rewrite (Hrows i Hi). lia.
Qed.

Lemma unassigned_greedy (costMatrix : Matrix) (m : nat) :
  greedyInvariant (List.length costMatrix) m 0 (unassigned costMatrix).
Proof.
  unfold greedyInvariant, unassigned. cbn [fst snd].
  assert (Hnth : forall i, nth i (repeat (-1)%Z (List.length costMatrix)) (-1)%Z
                           = (-1)%Z).
  { intro i. destruct (Nat.lt_ge_cases i (List.length costMatrix)) as [H|H].
    - apply nth_repeat_lt. exact H.
    - apply nth_overflow. rewrite repeat_length. exact H. }
  split; [|split; [|split; [|split; [|split]]]].
  - apply repeat_length.
  - constructor.
  - intros j [].
  - reflexivity.
  - intros i _. split.
    + intro H. exfalso. apply H. apply Hnth.
    + simpl. lia.
  - intros i _ H. exfalso. apply H. apply Hnth.
Qed.

Lemma first_pass_greedy (costMatrix : Matrix) :
  greedyInvariant (List.length costMatrix) (List.length (hd [] costMatrix))
                  (List.length costMatrix)
                  (greedyPass costMatrix (unassigned costMatrix)).
Proof.
  unfold greedyPass.
  set (n := List.length costMatrix). set (m := List.length (hd [] costMatrix)).
  assert (H : greedyInvariant n m (List.length (seq 0 n))
                (fold_left (assignRow (reducedMatrix costMatrix) m) (seq 0 n)
                           (unassigned costMatrix))).
  { apply (fold_left_prefix _ (fun pre st => greedyInvariant n m (List.length pre) st)).
    - apply unassigned_greedy.
    - intros pre x post st Hsplit Hst. apply seq_prefix in Hsplit.
      destruct Hsplit as [-> Hlt]. rewrite length_app. simpl.
      replace (List.length pre + 1)%nat with (S (List.length pre)) by lia.
      apply assignRow_greedy; assumption. }
  rewrite length_seq in H. exact H.
Qed.

(** A later pass changes nothing. *)
Lemma later_pass_idle (costMatrix : Matrix) (st : list Z * list nat) :
  greedyInvariant (List.length costMatrix) (List.length (hd [] costMatrix))
                  (List.length costMatrix) st ->
  greedyPass costMatrix st = st.
Proof.
  intro Hst. unfold greedyPass.
  apply (fold_left_invariant _ (fun s => s = st)); [reflexivity|].
  intros s i Hi ->. apply in_seq in Hi.
  destruct st as [asg used]. unfold greedyInvariant in Hst. cbn [fst snd] in Hst.
  destruct Hst as [Hlen [Hnd [Hrange [Hused [Hrows Hcols]]]]].
  unfold assignRow.
  destruct (Z.eqb (nth i asg (-1)%Z) (-1)) eqn:E; cbn [negb]; [|reflexivity].
  apply Z.eqb_eq in E.
  assert (Hm : List.length used = List.length (hd [] costMatrix)).
  { destruct (Nat.lt_ge_cases i (Nat.min (List.length costMatrix)
                                         (List.length (hd [] costMatrix))))
      as [H|H].
    - apply Hrows in H; [contradiction|lia].
    - lia. }
  pose proof (proj2 (all_columns_used used _ Hnd Hrange) Hm) as Hall.
  rewrite (proj2 (bestColumn_none (reducedMatrix costMatrix) used i _) Hall).
  reflexivity.
Qed.

(** hungarian.ts, hungarianAlgorithm: the second and the third
    pass of the greedy loop never change the assignment; the result is
    the assignment of the first pass. *)
Theorem hungarianAlgorithm_one_pass (costMatrix : Matrix) :
  (0 < List.length (hd [] costMatrix))%nat ->
  hungarianAlgorithm costMatrix
  = fst (greedyPass costMatrix (unassigned costMatrix)).
Proof.
  intro Hm. rewrite hungarianAlgorithm_passes.
  pose proof (first_pass_greedy costMatrix) as H1.
  rewrite !(later_pass_idle costMatrix _ H1).
  destruct costMatrix as [|row rows]; [reflexivity|].
  simpl in Hm. cbn [List.length hd Nat.eqb orb].
  destruct (List.length row); [lia|reflexivity].
Qed.

Lemma hungarianAlgorithm_one_pass_witness :
  hungarianAlgorithm [[1; 2]; [3; 4]; [5; 6]]%R
  = fst (greedyPass [[1; 2]; [3; 4]; [5; 6]]%R
                    (unassigned [[1; 2]; [3; 4]; [5; 6]]%R)).
Proof.
  apply (hungarianAlgorithm_one_pass [[1; 2]; [3; 4]; [5; 6]]%R).
  simpl. lia.
Defined.

(** X10 (hungarian.ts, hungarianAlgorithm): who gets a column.  The
    result has one entry per row, each -1 or a column of the matrix; no
    column is given to two rows; and row i is assigned exactly when
    i is smaller than the number of columns, whatever the costs: of
    more rows than columns, the last ones stay unassigned. *)
Theorem hungarianAlgorithm_first_rows (costMatrix : Matrix) :
  let n := List.length costMatrix in
  let m := List.length (hd [] costMatrix) in
  let assignment := hungarianAlgorithm costMatrix in
  List.length assignment = (if Nat.eqb m 0 then 0 else n)%nat
  /\ Forall (fun z => z = (-1)%Z \/ (0 <= z < Z.of_nat m)%Z) assignment
  /\ NoDup (assigned assignment)
  /\ forall i, (i < n)%nat ->
               (nth i assignment (-1)%Z <> (-1)%Z <-> (i < m)%nat).
Proof.
  intros n m assignment. subst assignment.
  destruct (Nat.eqb m 0) eqn:Em.
  - unfold m in Em. rewrite hungarianAlgorithm_passes, Em, orb_true_r.
    apply Nat.eqb_eq in Em.
    split; [reflexivity|]. split; [constructor|]. split; [constructor|].
    intros i Hi. split.
    + intro K. exfalso. apply K. destruct i; reflexivity.
    + unfold m. lia.
  - apply Nat.eqb_neq in Em.
    split; [|split; [|split; [apply hungarianAlgorithm_NoDup|]]].
    + rewrite hungarianAlgorithm_one_pass by (fold m; lia).
      apply (first_pass_greedy costMatrix).
    + rewrite hungarianAlgorithm_one_pass by (fold m; lia).
      pose proof (first_pass_greedy costMatrix) as H. fold n m in H.
      destruct (greedyPass costMatrix (unassigned costMatrix)) as [asg used].
      unfold greedyInvariant in H. cbn [fst snd] in *.
      destruct H as [Hlen [Hnd [Hrange [Hused [Hrows Hcols]]]]].
      apply Forall_forall. intros z Hz.
      apply (In_nth _ _ (-1)%Z) in Hz. destruct Hz as [i [Hi <-]].
      rewrite Hlen in Hi.
      destruct (Z.eq_dec (nth i asg (-1)%Z) (-1)) as [E|E]; [left; exact E|].
      right. destruct (Hcols i Hi E) as [j [-> Hj]].
      apply Hrange in Hj. lia.
    + intros i Hi.
      rewrite hungarianAlgorithm_one_pass by (fold m; lia).
      pose proof (first_pass_greedy costMatrix) as H. fold n m in H.
      destruct H as [_ [_ [_ [_ [Hrows _]]]]].
      rewrite (Hrows i Hi). lia.
Qed.

(* ================================================================= *)
(** ** The cost matrix *)

Section CostMatrix.
Local Open Scope R_scope.

Lemma setEntry_shape (matrix : Matrix) (nRows nCols row col : nat) (v : R) :
  List.length matrix = nRows ->
  Forall (fun r => List.length r = nCols) matrix ->
  List.length (setEntry matrix row col v) = nRows
  /\ Forall (fun r => List.length r = nCols) (setEntry matrix row col v).
Proof.
  intros Hlen Hrows. unfold setEntry. split.
  - rewrite setAt_length. exact Hlen.
  - apply Forall_forall. intros r Hr.
    apply (In_nth _ _ []) in Hr. destruct Hr as [k [Hk <-]].
    rewrite setAt_length in Hk.
    destruct (Nat.lt_ge_cases row (List.length matrix)) as [Hrow|Hrow].
    + rewrite setAt_nth by exact Hrow.
      destruct (Nat.eqb k row).
      * rewrite setAt_length.
        apply (proj1 (Forall_forall _ _) Hrows). apply nth_In. exact Hrow.
      * apply (proj1 (Forall_forall _ _) Hrows). apply nth_In. exact Hk.
    + assert (E : setAt row (setAt col v (nth row matrix [])) matrix = matrix).
      { clear -Hrow. revert row Hrow.
        induction matrix as [|x l IH]; intros [|row] Hrow; simpl in *;
          try reflexivity; try lia.
        rewrite IH by lia. reflexivity. }
      rewrite E. apply (proj1 (Forall_forall _ _) Hrows). apply nth_In. exact Hk.
Qed.

Lemma setEntry_entry (matrix : Matrix) (nRows nCols row col i j : nat) (v : R) :
  List.length matrix = nRows ->
  Forall (fun r => List.length r = nCols) matrix ->
  (row < nRows)%nat -> (col < nCols)%nat ->
  entry (setEntry matrix row col v) i j
  = if (Nat.eqb row i && Nat.eqb col j)%bool then v else entry matrix i j.
Proof.
  intros Hlen Hrows Hrow Hcol. unfold entry, setEntry.
  rewrite setAt_nth by lia.
  rewrite (Nat.eqb_sym row i).
  destruct (Nat.eqb i row) eqn:Ei; cbn [andb]; [|reflexivity].
  apply Nat.eqb_eq in Ei. subst i.
  assert (Hr : List.length (nth row matrix []) = nCols).
  { apply (proj1 (Forall_forall _ _) Hrows). apply nth_In. lia. }
  rewrite setAt_nth by lia.
  rewrite (Nat.eqb_sym col j). reflexivity.
Qed.

Lemma buildCostMatrix_fold (nRows nCols : nat)
      (similarities : list (nat * nat * R)) :
  Forall (inMatrix nRows nCols) similarities ->
  forall (matrix : Matrix) (listed : nat -> nat -> option R),
    List.length matrix = nRows ->
    Forall (fun r => List.length r = nCols) matrix ->
    (forall i j, (i < nRows)%nat -> (j < nCols)%nat ->
                 entry matrix i j = costOf (listed i j)) ->
    let result :=
      fold_left (fun matrix '(row, col, score) => setEntry matrix row col (1 - score))
                similarities matrix in
    List.length result = nRows
    /\ Forall (fun r => List.length r = nCols) result
    /\ forall i j,
         (i < nRows)%nat -> (j < nCols)%nat ->
         entry result i j
         = costOf (fold_left
                     (fun acc '(row, col, score) =>
                        if (Nat.eqb row i && Nat.eqb col j)%bool
                        then Some score else acc)
                     similarities (listed i j)).
Proof.
  induction 1 as [|[[row col] score] sims [Hrow Hcol] _ IH];
    intros matrix listed Hlen Hrows Hentries; cbn [fold_left].
  - repeat split; assumption.
  - cbn [fst snd] in Hrow, Hcol.
    destruct (setEntry_shape matrix nRows nCols row col (1 - score) Hlen Hrows)
      as [Hlen' Hrows'].
    specialize (IH (setEntry matrix row col (1 - score))
                   (fun i j => if (Nat.eqb row i && Nat.eqb col j)%bool
                               then Some score else listed i j)
                   Hlen' Hrows').
    apply IH. intros i j Hi Hj.
    rewrite (setEntry_entry matrix nRows nCols) by assumption.
    destruct (_ && _)%bool; [reflexivity|apply Hentries; assumption].
Qed.

Lemma entry_repeat (nRows nCols i j : nat) :
  (i < nRows)%nat -> (j < nCols)%nat ->
  entry (repeat (repeat LARGE_COST nCols) nRows) i j = LARGE_COST.
Proof.
  intros Hi Hj. unfold entry.
  rewrite (nth_repeat_lt _ _ Hi). apply nth_repeat_lt. exact Hj.
Qed.

(** X11 (hungarian.ts, buildCostMatrix): the cost matrix has the
    requested shape, and each of its cells holds one minus the score
    listed last for the cell, or the large cost 1000 when no similarity
    is listed for it. *)
Theorem buildCostMatrix_entries (similarities : list (nat * nat * R))
        (nRows nCols : nat) :
  Forall (inMatrix nRows nCols) similarities ->
  let matrix := buildCostMatrix similarities nRows nCols in
  List.length matrix = nRows
  /\ Forall (fun r => List.length r = nCols) matrix
  /\ forall i j, (i < nRows)%nat -> (j < nCols)%nat ->
                 entry matrix i j = costOf (lastScore similarities i j).
Proof.
  intros Hin matrix. subst matrix. unfold buildCostMatrix, lastScore.
  apply (buildCostMatrix_fold nRows nCols similarities Hin
           (repeat (repeat LARGE_COST nCols) nRows) (fun _ _ => None)).
  - apply repeat_length.
  - apply Forall_forall. intros r Hr. apply repeat_spec in Hr. subst r.
    apply repeat_length.
  - intros i j Hi Hj. apply entry_repeat; assumption.
Qed.

Lemma buildCostMatrix_entries_witness :
  let matrix := buildCostMatrix [(0%nat, 1%nat, 1 / 2); (0%nat, 1%nat, 3 / 4)] 1 2 in
  List.length matrix = 1%nat
  /\ Forall (fun r => List.length r = 2%nat) matrix
  /\ forall i j, (i < 1)%nat -> (j < 2)%nat ->
                 entry matrix i j
                 = costOf (lastScore [(0%nat, 1%nat, 1 / 2); (0%nat, 1%nat, 3 / 4)] i j).
Proof.
  apply (buildCostMatrix_entries [(0%nat, 1%nat, 1 / 2); (0%nat, 1%nat, 3 / 4)] 1 2).
  repeat constructor.
Defined.

End CostMatrix.

(* ================================================================= *)
(** ** Pairwise matching: reported pairs are sound *)

Section PairSoundness.
Local Open Scope R_scope.

Lemma candidatesOf_sound (r1 r2 : list (nat * NormalizedAnomaly)) (c : Candidate) :
  In c (candidatesOf r1 r2) ->
  exists o1 a1 o2 a2,
    nth_error r1 (cand_row c) = Some (o1, a1)
    /\ nth_error r2 (cand_col c) = Some (o2, a2)
    /\ breakdown c = calculateSimilarity a1 a2
    /\ cand_score c = Sim.total (calculateSimilarity a1 a2)
    /\ Rabs (Q2R (Anomaly.corrected_distance a1)
             - Q2R (Anomaly.corrected_distance a2)) <= DISTANCE_FILTER.
Proof.
  unfold candidatesOf. intro H.
  apply in_flat_map in H. destruct H as [[i [o1 a1]] [Hi H]].
  apply in_flat_map in H. destruct H as [[j [o2 a2]] [Hj H]].
  destruct (Rjs.gtb _ DISTANCE_FILTER) eqn:Ed; [contradiction|].
  destruct (Rjs.gtb _ (2 / 10)); [|contradiction].
  destruct H as [<-|[]]. cbn [cand_row cand_col breakdown cand_score].
  exists o1, a1, o2, a2.
  apply indexed_nth_error in Hi. apply indexed_nth_error in Hj.
  repeat split; try assumption; try reflexivity.
  unfold Rjs.gtb in Ed. apply Rjs_ltb_false in Ed. exact Ed.
Qed.

Lemma nonReference_nth_error (run : list NormalizedAnomaly) (i o : nat)
      (a : NormalizedAnomaly) :
  nth_error (nonReference run) i = Some (o, a) ->
  nth_error run o = Some a /\ Anomaly.is_reference_point a = false.
Proof.
  intro H. apply nth_error_In in H. unfold nonReference in H.
  apply filter_In in H. destruct H as [Hin Hp]. cbn [snd] in Hp.
  apply indexed_nth_error in Hin. apply negb_true_iff in Hp. split; assumption.
Qed.

Lemma acceptAssignment_sound (run1 run2 : list NormalizedAnomaly)
      (st : list MatchPair * list nat * list nat) (e : nat * Z) :
  Forall (soundPair run1 run2) (fst (fst st)) ->
  Forall (soundPair run1 run2)
         (fst (fst (acceptAssignment (nonReference run1) (nonReference run2)
                      (candidatesOf (nonReference run1) (nonReference run2)) st e))).
Proof.
  destruct st as [[pairs0 m1] m2]. destruct e as [i j].
  unfold acceptAssignment. cbn [fst]. intro H.
  destruct (_ || _)%bool; [exact H|].
  destruct (find _ _) as [cand|] eqn:Ef; [|exact H].
  destruct (Rjs.geb (cand_score cand) CONFIDENCE_LOW) eqn:Eg; [|exact H].
  destruct (nth_error (nonReference run1) i) as [[origI b1]|] eqn:E1; [|exact H].
  destruct (nth_error (nonReference run2) (Z.to_nat j)) as [[origJ b2]|] eqn:E2;
    [|exact H].
  cbn [fst]. apply Forall_app. split; [exact H|].
  constructor; [|constructor].
  apply find_some in Ef. destruct Ef as [Hin Hpos].
  apply andb_true_iff in Hpos. destruct Hpos as [Hrow Hcol].
  apply Nat.eqb_eq in Hrow. apply Nat.eqb_eq in Hcol.
  destruct (candidatesOf_sound _ _ _ Hin)
    as [o1 [a1 [o2 [a2 [H1 [H2 [Hb [Hs Hd]]]]]]]].
  rewrite Hrow, E1 in H1. rewrite Hcol, E2 in H2.
  injection H1 as -> ->. injection H2 as -> ->.
  apply nonReference_nth_error in E1. apply nonReference_nth_error in E2.
  destruct E1 as [N1 P1]. destruct E2 as [N2 P2].
  exists a1, a2. cbn [run1Idx run2Idx similarity].
  repeat split; try assumption.
  rewrite Hb, <- Hs. apply Rjs_geb_true. exact Eg.
Qed.

(** X12 (matcher.ts, matchAnomalies): every reported pair is sound.
    Its two indices point at anomalies of the two runs that are not
    reference points and lie at most 200 ft apart after alignment; the
    similarity it carries is the similarity of these two anomalies; and
    their total score is at least 0.4. *)
Theorem matchAnomalies_pairs_sound (run1 run2 : list NormalizedAnomaly) :
  Forall (soundPair run1 run2) (pairs (matchAnomalies run1 run2)).
Proof.
  unfold matchAnomalies.
  set (asg := hungarianAlgorithm _).
  pose proof (fold_left_invariant
                (acceptAssignment (nonReference run1) (nonReference run2)
                   (candidatesOf (nonReference run1) (nonReference run2)))
                (fun st => Forall (soundPair run1 run2) (fst (fst st)))
                (Js.indexed asg) ([], [], [])) as H.
  destruct (fold_left _ (Js.indexed asg) ([], [], [])) as [[ps m1] m2].
  cbn [pairs]. apply H.
  - constructor.
  - intros st e _ Hst. apply acceptAssignment_sound. exact Hst.
Qed.

End PairSoundness.

(* ================================================================= *)
(** ** Chains: identifiers and shape *)

Section ChainFacts.
Local Open Scope R_scope.

Lemma pushMatch_chain (runs : list (list NormalizedAnomaly)) (years : list Q)
      (allMatches : list AnomalyMatch) (matchId : nat) (refs : list (nat * nat))
      (confidence : R) (status : MatchStatus) (sim : SimilarityBreakdown)
      (allMatches' : list AnomalyMatch) (matchId' : nat) :
  pushMatch runs years allMatches matchId refs confidence status sim
  = Some (allMatches', matchId') ->
  matchId' = S matchId
  /\ exists m, allMatches' = allMatches ++ [m]
               /\ Match.id m = chainId matchId
               /\ Match.anomaly_refs m = refs
               /\ Match.run_indices m = map fst refs
               /\ List.length (Match.anomalies m) = List.length refs
               /\ Match.match_status m = status.
Proof.
  unfold pushMatch. destruct (mapM _ refs) as [anomalies|] eqn:Em; [|discriminate].
  unfold buildMatchObject. destruct (classifyPriority _ _ _); [|discriminate].
  intro H. injection H as <- <-. split; [reflexivity|].
  eexists. split; [reflexivity|]. cbn.
  repeat split.
  clear -Em. revert anomalies Em.
  induction refs as [|r refs IH]; intros anomalies Em; simpl in Em.
  - injection Em as <-. reflexivity.
  - destruct (element runs r); [|discriminate].
    destruct (mapM (element runs) refs) as [ys|]; [|discriminate].
    injection Em as <-. simpl. f_equal. apply IH. reflexivity.
Qed.

(** The state of the loops of [matchAcrossRuns] after any number of
    iterations. *)
Lemma matchAcrossRuns_state (J : ChainState -> Prop)
      (runs : list (list NormalizedAnomaly)) (years : list Q)
      (chains : list AnomalyMatch) :
  (forall map0, J ([], 0%nat, map0)) ->
  (forall st st' pair,
      processPair runs years st pair = Some st' -> J st -> J st') ->
  (forall st st' idx,
      processNew runs years st idx = Some st' -> J st -> J st') ->
  (forall st st' idx r status,
      processSingle runs years r status st idx = Some st' -> J st -> J st') ->
  matchAcrossRuns runs years = Some chains ->
  exists matchId map1, J (chains, matchId, map1).
Proof.
  intros Hinit Hpair Hnew Hsingle. unfold matchAcrossRuns.
  destruct (Nat.ltb (List.length runs) 2).
  { intro H. injection H as <-. exists 0%nat, []. apply Hinit. }
  set (match12 := matchAnomalies (nth 0 runs []) (nth 1 runs [])).
  set (match23 := if Nat.leb 3 (List.length runs) then _ else None).
  set (map0 := buildRun3Map match23).
  destruct (foldM (processPair runs years) (pairs match12) ([], 0%nat, map0))
    as [st1|] eqn:E1; [|discriminate].
  assert (I1 : J st1).
  { refine (foldM_invariant _ J _ _ _ (Hinit map0) _ E1).
    intros s x s' _ Hs Hstep. eapply Hpair; eassumption. }
  destruct (foldM (processNew runs years) (newAnomalies match12) st1)
    as [st2|] eqn:E2; [|discriminate].
  assert (I2 : J st2).
  { refine (foldM_invariant _ J _ _ _ I1 _ E2).
    intros s x s' _ Hs Hstep. eapply Hnew; eassumption. }
  destruct (foldM (processSingle runs years 0 Status.missing) _ st2)
    as [st3|] eqn:E3; [|discriminate].
  assert (I3 : J st3).
  { refine (foldM_invariant _ J _ _ _ I2 _ E3).
    intros s x s' _ Hs Hstep. eapply Hsingle; eassumption. }
  destruct match23 as [m23|].
  2: { intro H. injection H as <-. destruct st3 as [[all id3] map3].
       exists id3, map3. exact I3. }
  destruct (foldM (processSingle runs years 2 Status.new) _ st3)
    as [st4|] eqn:E4; [|discriminate].
  assert (I4 : J st4).
  { refine (foldM_invariant _ J _ _ _ I3 _ E4).
    intros s x s' _ Hs Hstep. eapply Hsingle; eassumption. }
  destruct (foldM (processSingle runs years 2 Status.new) (newAnomalies m23) st4)
    as [st5|] eqn:E5; [|discriminate].
  intro H. injection H as <-.
  assert (I5 : J st5).
  { refine (foldM_invariant _ J _ _ _ I4 _ E5).
    intros s x s' _ Hs Hstep. eapply Hsingle; eassumption. }
  destruct st5 as [[all id5] map5]. exists id5, map5. exact I5.
Qed.

Lemma chainIds_step (allMatches : list AnomalyMatch) (m : AnomalyMatch) :
  map Match.id allMatches = map chainId (seq 0 (List.length allMatches)) ->
  Match.id m = chainId (List.length allMatches) ->
  map Match.id (allMatches ++ [m])
  = map chainId (seq 0 (List.length (allMatches ++ [m]))).
Proof.
  intros Hall Hm. rewrite length_app. cbn [List.length].
  rewrite Nat.add_1_r, seq_S, !map_app, Hall. cbn [map]. rewrite Hm. reflexivity.
Qed.

(** X13 (matcher.ts, matchAcrossRuns): the matcher returns its chains
    numbered in the order in which they are emitted: the k-th chain of
    the result has the identifier match-k. *)
Theorem matchAcrossRuns_chain_ids (runs : list (list NormalizedAnomaly))
        (years : list Q) :
  exists chains,
    matchAcrossRuns runs years = Some chains
    /\ map Match.id chains = map chainId (seq 0 (List.length chains)).
Proof.
  destruct (matchAcrossRuns_total runs years) as [chains E].
  exists chains. split; [exact E|].
  destruct (matchAcrossRuns_state
              (fun st => snd (fst st) = List.length (fst (fst st))
                         /\ map Match.id (fst (fst st))
                            = map chainId (seq 0 (List.length (fst (fst st)))))
              runs years chains) as [matchId [map1 [_ H]]]; [| | | |exact E|exact H].
  - intro map0. split; reflexivity.
  - intros [[all k] map0] st' pair. unfold processPair. cbn [fst snd].
    destruct (extendToRun3 _ map0 _ _) as [refs map1].
    destruct (pushMatch _ _ _ _ _ _ _ _) as [[all' id']|] eqn:Ep; [|discriminate].
    intro H. injection H as <-. cbn [fst snd]. intros [Hk Hall]. subst k.
    apply pushMatch_chain in Ep. destruct Ep as [-> [m [-> [Hid _]]]].
    split; [rewrite length_app; simpl; lia|].
    apply chainIds_step; assumption.
  - intros [[all k] map0] st' idx. unfold processNew. cbn [fst snd].
    destruct (extendToRun3 _ map0 _ _) as [refs map1].
    destruct (pushMatch _ _ _ _ _ _ _ _) as [[all' id']|] eqn:Ep; [|discriminate].
    intro H. injection H as <-. cbn [fst snd]. intros [Hk Hall]. subst k.
    apply pushMatch_chain in Ep. destruct Ep as [-> [m [-> [Hid _]]]].
    split; [rewrite length_app; simpl; lia|].
    apply chainIds_step; assumption.
  - intros [[all k] map0] st' idx r status. unfold processSingle. cbn [fst snd].
    destruct (pushMatch _ _ _ _ _ _ _ _) as [[all' id']|] eqn:Ep; [|discriminate].
    intro H. injection H as <-. cbn [fst snd]. intros [Hk Hall]. subst k.
    apply pushMatch_chain in Ep. destruct Ep as [-> [m [-> [Hid _]]]].
    split; [rewrite length_app; simpl; lia|].
    apply chainIds_step; assumption.
Qed.

Lemma chainShape_pushed (allMatches : list AnomalyMatch) (m : AnomalyMatch) :
  Forall chainShape allMatches -> chainShape m ->
  Forall chainShape (allMatches ++ [m]).
Proof.
  intros Hall Hm. apply Forall_app. split; [exact Hall|].
  constructor; [exact Hm|constructor].
Qed.

(** X14 (matcher.ts, matchAcrossRuns): the shape of the chains.  Every
    chain has one anomaly per run index; a matched or uncertain chain
    spans runs 0 and 1, or runs 0, 1 and 2; a missing chain is a single
    anomaly of run 0; a new chain is a single anomaly of run 1 or of
    run 2, or spans runs 1 and 2. *)
Theorem matchAcrossRuns_chain_shape (runs : list (list NormalizedAnomaly))
        (years : list Q) :
  exists chains,
    matchAcrossRuns runs years = Some chains /\ Forall chainShape chains.
Proof.
  destruct (matchAcrossRuns_total runs years) as [chains E].
  exists chains. split; [exact E|].
  apply (matchAcrossRuns_chains chainShape runs years chains); [| | |exact E].
  - intros [[all k] map0] st' pair _. unfold processPair. cbn [fst snd].
    pose proof (extendToRun3_refs (Nat.leb 3 (List.length runs)) map0 (run2Idx pair)
                  [(0%nat, run1Idx pair); (1%nat, run2Idx pair)]) as Hrefs.
    destruct (extendToRun3 _ map0 _ _) as [refs map1]. cbn [fst] in Hrefs.
    destruct (pushMatch _ _ _ _ _ _ _ _) as [[all' id']|] eqn:Ep; [|discriminate].
    intro H. injection H as <-. cbn [fst snd]. intro Hall.
    apply pushMatch_chain in Ep.
    destruct Ep as [_ [m [-> [_ [Hr [Hi [Hl Hs]]]]]]].
    apply chainShape_pushed; [exact Hall|].
    unfold chainShape. rewrite Hr, Hi, Hl, Hs, length_map.
    split; [reflexivity|]. split; [reflexivity|].
    assert (Hshape : map fst refs = [0; 1]%nat \/ map fst refs = [0; 1; 2]%nat).
    { destruct Hrefs as [->|[v ->]]; [left|right]; reflexivity. }
    destruct (_ && _)%bool; exact Hshape.
  - intros [[all k] map0] st' idx. unfold processNew. cbn [fst snd].
    pose proof (extendToRun3_refs (Nat.leb 3 (List.length runs)) map0 idx
                  [(1%nat, idx)]) as Hrefs.
    destruct (extendToRun3 _ map0 _ _) as [refs map1]. cbn [fst] in Hrefs.
    destruct (pushMatch _ _ _ _ _ _ _ _) as [[all' id']|] eqn:Ep; [|discriminate].
    intro H. injection H as <-. cbn [fst snd]. intro Hall.
    apply pushMatch_chain in Ep.
    destruct Ep as [_ [m [-> [_ [Hr [Hi [Hl Hs]]]]]]].
    apply chainShape_pushed; [exact Hall|].
    unfold chainShape. rewrite Hr, Hi, Hl, Hs, length_map.
    split; [reflexivity|]. split; [reflexivity|].
    destruct Hrefs as [->|[v ->]]; [left|right; left]; reflexivity.
  - intros [[all k] map0] st' idx r status Hrs. unfold processSingle. cbn [fst snd].
    destruct (pushMatch _ _ _ _ _ _ _ _) as [[all' id']|] eqn:Ep; [|discriminate].
    intro H. injection H as <-. cbn [fst snd]. intro Hall.
    apply pushMatch_chain in Ep.
    destruct Ep as [_ [m [-> [_ [Hr [Hi [Hl Hs]]]]]]].
    apply chainShape_pushed; [exact Hall|].
    unfold chainShape. rewrite Hr, Hi, Hl, Hs.
    split; [reflexivity|]. split; [reflexivity|].
    destruct Hrs as [[-> ->]|[-> ->]]; [reflexivity|right; right; reflexivity].
Qed.

End ChainFacts.

(* ================================================================= *)
(** ** Distance correction along increasing references *)

Lemma sort_sorted {A : Type} (cmp : A -> A -> Q) (l : list A) :
  Sorted (fun a b => cmp a b <= 0) l -> Js.sort cmp l = l.
Proof.
  induction 1 as [|x l Hl IH Hhd]; [reflexivity|].
  cbn [Js.sort]. rewrite IH.
  destruct Hhd as [|y ys Hxy]; [reflexivity|].
  cbn [Js.insert].
  replace (Js.leb (cmp x y) 0) with true by (symmetry; apply leb_true; exact Hxy).
  reflexivity.
Qed.

Lemma Sorted_weaken {A : Type} (R1 R2 : A -> A -> Prop) (l : list A) :
  (forall a b, R1 a b -> R2 a b) -> Sorted R1 l -> Sorted R2 l.
Proof.
  intros Himp. induction 1 as [|x l Hl IH Hhd]; constructor; [exact IH|].
  destruct Hhd; constructor. apply Himp. assumption.
Qed.

Lemma increasingPairs_sorted (refs : list MatchedReference) :
  increasingPairs refs ->
  Js.sort (fun a b => Ref.distance (run1 a) - Ref.distance (run1 b)) refs = refs
  /\ Js.sort (fun a b => Ref.distance (run2 a) - Ref.distance (run2 b)) refs = refs.
Proof.
  intro H. split; apply sort_sorted; apply (Sorted_weaken pairBefore); try exact H;
    intros a b [H1 H2]; qlra.
Qed.

Lemma pairBefore_trans : Relations_1.Transitive pairBefore.
Proof. intros a b c [H1 H2] [H3 H4]. split; qlra. Qed.

Lemma increasingPairs_later (p : MatchedReference) (rest : list MatchedReference) :
  increasingPairs (p :: rest) -> forall x, In x rest -> pairBefore p x.
Proof.
  intro H. apply Sorted_StronglySorted in H; [|exact pairBefore_trans].
  apply StronglySorted_inv in H. destruct H as [_ H].
  rewrite Forall_forall in H. exact H.
Qed.

Lemma increasingPairs_tail (p : MatchedReference) (rest : list MatchedReference) :
  increasingPairs (p :: rest) -> increasingPairs rest.
Proof. intro H. apply Sorted_inv in H. exact (proj1 H). Qed.





Lemma last_cons_default {A : Type} (x : A) (l : list A) (d d' : A) :
  last (x :: l) d = last (x :: l) d'.
Proof.
  revert x. induction l as [|y l IH]; intro x; [reflexivity|].
  change (last (x :: y :: l) d) with (last (y :: l) d).
  change (last (x :: y :: l) d') with (last (y :: l) d').
  apply IH.
Qed.

Lemma find_none_all {A : Type} (f : A -> bool) (l : list A) :
  (forall x, In x l -> f x = false) -> find f l = None.
Proof.
  induction l as [|x l IH]; intro H; [reflexivity|].
  cbn [find]. rewrite (H x (or_introl eq_refl)).
  apply IH. intros y Hy. apply H. right. exact Hy.
Qed.




(** distanceCorrection.ts, applyDistanceCorrection: the corrector
    touches nothing but the corrected distance.  Whatever the zones and
    the reference pairs, the result has the rows of the input, in the
    same order, with every other field unchanged. *)
Theorem applyDistanceCorrection_keeps_rows (anomalies : list NormalizedAnomaly)
        (zones : list AlignmentZone) (matchedRefs : list MatchedReference) :
  map uncorrected (applyDistanceCorrection anomalies zones matchedRefs)
  = map uncorrected anomalies.
Proof.
  unfold applyDistanceCorrection.
  destruct (_ || _)%bool; [reflexivity|].
  destruct (Js.sort _ matchedRefs) as [|firstRef rest]; [reflexivity|].
  rewrite map_map. apply map_ext. intro a. reflexivity.
Qed.



Lemma regularPairs_increasing : increasingPairs regularPairs.
Proof.
  unfold increasingPairs. vm_compute.
  repeat constructor.
Qed.


(* ================================================================= *)
(** ** The rounded correction at and outside the references *)

Lemma rounded_zonesOf_at (l : list MatchedReference) :
  forall i a b,
    nth_error l i = Some a -> nth_error l (S i) = Some b ->
    nth_error (Double.zonesOf l) i = Some (Double.makeZone a b).
Proof.
  induction l as [|x l IH]; intros i a b Ha Hb; [destruct i; discriminate|].
  destruct l as [|y l]; [destruct i as [|[|i]]; discriminate|].
  destruct i as [|i].
  - cbn [nth_error] in Ha, Hb. injection Ha as <-. injection Hb as <-. reflexivity.
  - change (nth_error (Double.zonesOf (y :: l)) i = Some (Double.makeZone a b)).
    apply IH; assumption.
Qed.

Lemma increasingPairs_positions (l : list MatchedReference) :
  increasingPairs l ->
  forall i j a b, nth_error l i = Some a -> nth_error l j = Some b ->
                  (i < j)%nat -> pairBefore a b.
Proof.
  induction l as [|x l IH]; intros Hinc i j a b Ha Hb Hij;
    [destruct i; discriminate|].
  destruct j as [|j]; [lia|]. cbn [nth_error] in Hb.
  destruct i as [|i].
  - cbn [nth_error] in Ha. injection Ha as <-.
    apply (increasingPairs_later x l Hinc). eapply nth_error_In. exact Hb.
  - cbn [nth_error] in Ha.
    apply (IH (increasingPairs_tail x l Hinc) i j a b Ha Hb). lia.
Qed.

Lemma nth_error_final {A : Type} (l : list A) (d : A) :
  l <> [] -> nth_error l (List.length l - 1) = Some (last l d).
Proof.
  induction l as [|x l IH]; intro H; [contradiction|].
  destruct l as [|y l]; [reflexivity|].
  change (last (x :: y :: l) d) with (last (y :: l) d).
  rewrite <- IH by discriminate. cbn [List.length].
  replace (S (S (List.length l)) - 1)%nat with (S (List.length l)) by lia.
  cbn [nth_error]. f_equal. lia.
Qed.

Lemma rounded_zoneMap_comp (z : AlignmentZone) (raw raw' : Q) :
  raw == raw' -> Double.zoneMap z raw = Double.zoneMap z raw'.
Proof.
  intro H. unfold Double.zoneMap. destruct (Js.gtb _ 0); [|reflexivity].
  assert (E : Double.sub raw (Ref.distance (run2 (start_ref z)))
              = Double.sub raw' (Ref.distance (run2 (start_ref z)))).
  { apply round_comp. rewrite H. reflexivity. }
  rewrite E. reflexivity.
Qed.

(** Where the rounded corrector finds its zone along increasing
    pairs: at the distance of a reference, in a zone that starts or
    ends at that reference. *)
Lemma zone_at_reference (refs : list MatchedReference) (p : MatchedReference)
      (raw : Q) :
  increasingPairs refs -> (2 <= List.length refs)%nat -> In p refs ->
  raw == Ref.distance (run2 p) ->
  exists z,
    find (containsRaw raw) (Double.zonesOf refs) = Some z
    /\ In (start_ref z) refs /\ In (end_ref z) refs
    /\ positiveRawSpan z
    /\ (start_ref z = p \/ end_ref z = p).
Proof.
  intros Hinc Hlen Hp Hraw.
  apply In_nth_error in Hp. destruct Hp as [k Hk].
  assert (Hzone : exists z, In z (Double.zonesOf refs) /\ containsRaw raw z = true).
  { destruct (nth_error refs (S k)) as [next|] eqn:En.
    - exists (Double.makeZone p next). split.
      + eapply nth_error_In. apply (rounded_zonesOf_at refs k); assumption.
      + pose proof (increasingPairs_positions refs Hinc k (S k) p next Hk En
                      ltac:(lia)) as [_ H2].
        unfold containsRaw. cbn [start_ref end_ref Double.makeZone].
        apply andb_true_iff. split; [apply geb_true|apply leb_true]; qlra.
    - apply nth_error_None in En.
      assert (Hk' : (k < List.length refs)%nat) by (apply nth_error_Some; congruence).
      destruct k as [|k]; [lia|].
      destruct (nth_error refs k) as [prev|] eqn:Ep;
        [|apply nth_error_None in Ep; lia].
      exists (Double.makeZone prev p). split.
      + eapply nth_error_In. apply (rounded_zonesOf_at refs k); assumption.
      + pose proof (increasingPairs_positions refs Hinc k (S k) prev p Ep Hk
                      ltac:(lia)) as [_ H2].
        unfold containsRaw. cbn [start_ref end_ref Double.makeZone].
        apply andb_true_iff. split; [apply geb_true|apply leb_true]; qlra. }
  destruct (find (containsRaw raw) (Double.zonesOf refs)) as [z|] eqn:Ef.
  2: { exfalso. destruct Hzone as [z [Hz Hc]].
       pose proof (find_none _ _ Ef z Hz) as K. congruence. }
  exists z. split; [reflexivity|].
  apply find_some in Ef. destruct Ef as [Hz Hc].
  apply In_nth_error in Hz. destruct Hz as [i Hi].
  apply rounded_zonesOf_nth in Hi. destruct Hi as [a [b [Ha [Hb ->]]]].
  cbn [start_ref end_ref Double.makeZone].
  unfold containsRaw in Hc. cbn [start_ref end_ref Double.makeZone] in Hc.
  apply andb_true_iff in Hc. destruct Hc as [Hc1 Hc2].
  apply geb_true in Hc1. apply leb_true in Hc2.
  pose proof (increasingPairs_positions refs Hinc i (S i) a b Ha Hb ltac:(lia))
    as [_ Hab].
  split; [eapply nth_error_In; exact Ha|].
  split; [eapply nth_error_In; exact Hb|].
  split; [unfold positiveRawSpan; cbn [start_ref end_ref Double.makeZone]; exact Hab|].
  destruct (Nat.lt_total k i) as [Hlt|[->|Hgt]].
  - exfalso.
    pose proof (increasingPairs_positions refs Hinc k i p a Hk Ha Hlt) as [_ H2].
    qlra.
  - left. congruence.
  - destruct (Nat.eq_dec k (S i)) as [->|Hne]; [right; congruence|].
    exfalso.
    pose proof (increasingPairs_positions refs Hinc (S i) k b p Hb Hk ltac:(lia))
      as [_ H2].
    qlra.
Qed.

(** X16 (distanceCorrection.ts, applyDistanceCorrection): what the
    correction does at and outside the references, every operation
    being rounded to a double.  When two or more reference pairs with
    distances of at most 10^9 ft are listed in increasing order in both
    runs, an anomaly at the distance of a reference of the later run is
    moved to within 1e-6 ft of the distance of its partner in the
    earlier run; before the first reference and after the last one the
    corrected distance is the raw distance plus the offset of that
    reference. *)
Theorem correction_at_references (anomalies : list NormalizedAnomaly)
        (matchedRefs : list MatchedReference) (d : MatchedReference)
        (a : NormalizedAnomaly) :
  increasingPairs matchedRefs ->
  (2 <= List.length matchedRefs)%nat ->
  (forall m, In m matchedRefs -> distancesInRange m) ->
  In a (Double.applyDistanceCorrection anomalies
          (Double.createAlignmentZones matchedRefs) matchedRefs) ->
  (forall p, In p matchedRefs ->
             Anomaly.distance a == Ref.distance (run2 p) ->
             Qabs (Anomaly.corrected_distance a - Ref.distance (run1 p))
             <= tolerance)
  /\ (Anomaly.distance a < Ref.distance (run2 (hd d matchedRefs)) ->
      Anomaly.corrected_distance a
      = Double.add (Anomaly.distance a)
                   (Double.sub (Ref.distance (run1 (hd d matchedRefs)))
                               (Ref.distance (run2 (hd d matchedRefs)))))
  /\ (Ref.distance (run2 (last matchedRefs d)) < Anomaly.distance a ->
      Anomaly.corrected_distance a
      = Double.add (Anomaly.distance a)
                   (Double.sub (Ref.distance (run1 (last matchedRefs d)))
                               (Ref.distance (run2 (last matchedRefs d))))).
Proof.
  intros Hinc Hlen Hrange Hin.
  destruct (increasingPairs_sorted _ Hinc) as [S1 S2].
  unfold Double.applyDistanceCorrection, Double.createAlignmentZones in Hin.
  rewrite (sort_rounded (fun m => Ref.distance (run1 m))), S1 in Hin.
  rewrite (sort_rounded (fun m => Ref.distance (run2 m))), S2 in Hin.
  destruct matchedRefs as [|first [|q rest]]; simpl in Hlen; try lia.
  change (Nat.ltb (List.length (first :: q :: rest)) 2) with false in Hin.
  cbv iota in Hin.
  change (Double.zonesOf (first :: q :: rest))
    with (Double.makeZone first q :: Double.zonesOf (q :: rest)) in Hin.
  cbn [List.length Nat.eqb orb] in Hin.
  change (Double.makeZone first q :: Double.zonesOf (q :: rest))
    with (Double.zonesOf (first :: q :: rest)) in Hin.
  set (refs := first :: q :: rest) in *.
  apply in_map_iff in Hin. destruct Hin as [a0 [<- _]].
  unfold Anomaly.with_corrected_distance, Anomaly.with_distances.
  cbn [Anomaly.corrected_distance Anomaly.distance hd].
  set (raw := Anomaly.distance a0).
  assert (Hfirst : forall p, In p refs ->
                             Ref.distance (run2 first) <= Ref.distance (run2 p)).
  { intros p [<-|Hp]; [apply Qle_refl|].
    pose proof (increasingPairs_later first (q :: rest) Hinc p Hp) as [_ H2]. qlra. }
  assert (Hlast : forall p, In p refs ->
                            Ref.distance (run2 p)
                            <= Ref.distance (run2 (last refs first))).
  { intros p Hp. apply In_nth_error in Hp. destruct Hp as [k Hk].
    assert (Hl : nth_error refs (List.length refs - 1) = Some (last refs first)).
    { apply nth_error_final. discriminate. }
    assert (Hk' : (k < List.length refs)%nat) by (apply nth_error_Some; congruence).
    destruct (Nat.eq_dec k (List.length refs - 1)) as [->|Hne].
    - rewrite Hl in Hk. injection Hk as <-. apply Qle_refl.
    - pose proof (increasingPairs_positions refs Hinc k _ p _ Hk Hl ltac:(lia))
        as [_ H2]. qlra. }
  assert (Hzones : forall z, In z (Double.zonesOf refs) ->
                             In (start_ref z) refs /\ In (end_ref z) refs).
  { intros z Hz. apply In_nth_error in Hz. destruct Hz as [i Hi].
    apply rounded_zonesOf_nth in Hi. destruct Hi as [x [y [Hx [Hy ->]]]].
    cbn [start_ref end_ref Double.makeZone].
    split; eapply nth_error_In; eassumption. }
  assert (Elast : last refs d = last refs first) by apply last_cons_default.
  rewrite Elast. change (hd d refs) with first.
  split; [|split].
  - intros p Hp Hraw. unfold Double.correctedOf.
    destruct (zone_at_reference refs p raw Hinc ltac:(simpl; lia) Hp Hraw)
      as [z [-> [Hs [He [Hpos Hz]]]]].
    destruct (Hrange _ Hs) as [Rs _]. destruct (Hrange _ He) as [Re _].
    destruct Hz as [<-|<-].
    + rewrite (rounded_zoneMap_comp z _ _ Hraw).
      destruct (rounded_zoneMap_at_start z) as [-> | ->].
      * setoid_replace (Ref.distance (run1 (start_ref z))
                        - Ref.distance (run1 (start_ref z))) with 0 by ring.
        discriminate.
      * eapply Qle_trans; [apply start_error; exact Rs|]. discriminate.
    + rewrite (rounded_zoneMap_comp z _ _ Hraw).
      change (Ref.distance (run2 (end_ref z))) with (boundaryOf z).
      rewrite (rounded_zoneMap_at_end z Hpos).
      eapply Qle_trans; [apply endpoint_error; assumption|]. discriminate.
  - intro Hraw. unfold Double.correctedOf.
    rewrite find_none_all.
    + rewrite (proj2 (ltb_true _ _) Hraw). reflexivity.
    + intros z Hz. destruct (Hzones z Hz) as [Hs _]. unfold containsRaw.
      replace (Js.geb raw (Ref.distance (run2 (start_ref z)))) with false;
        [reflexivity|]. symmetry. apply geb_false.
      specialize (Hfirst _ Hs). qlra.
  - intro Hraw. unfold Double.correctedOf.
    assert (Hl : Ref.distance (run2 first)
                 <= Ref.distance (run2 (last refs first))).
    { apply Hlast. left. reflexivity. }
    rewrite find_none_all.
    + rewrite (proj2 (ltb_false _ _)) by qlra.
      rewrite (proj2 (gtb_true _ _) Hraw). reflexivity.
    + intros z Hz. destruct (Hzones z Hz) as [_ He]. unfold containsRaw.
      replace (Js.leb raw (Ref.distance (run2 (end_ref z)))) with false;
        [apply andb_false_r|]. symmetry. apply leb_false.
      specialize (Hlast _ He). qlra.
Qed.

Lemma regularPairs_range : forall m, In m regularPairs -> distancesInRange m.
Proof.
  intros m Hm. vm_compute in Hm.
  destruct Hm as [<-|[<-|[<-|[]]]]; split; discriminate.
Qed.

Lemma correction_at_references_witness :
  Qabs (Anomaly.corrected_distance
          (hd (exampleDent 1 0 120)
              (Double.applyDistanceCorrection [exampleDent 1 0 120]
                 (Double.createAlignmentZones regularPairs) regularPairs))
        - 100) <= tolerance.
Proof.
  destruct (correction_at_references [exampleDent 1 0 120] regularPairs
              (mkMatchedReference (exampleRef 0 0) (exampleRef 1 10) 10 0)
              (hd (exampleDent 1 0 120)
                  (Double.applyDistanceCorrection [exampleDent 1 0 120]
                     (Double.createAlignmentZones regularPairs) regularPairs))
              regularPairs_increasing) as [H _].
  - vm_compute. lia.
  - exact regularPairs_range.
  - vm_compute. left. reflexivity.
  - apply (H (mkMatchedReference (exampleRef 0 100) (exampleRef 1 120) 20 0)).
    + right. left. reflexivity.
    + vm_compute. reflexivity.
Defined.

(** With the pairs (7.1, 7.3), (29.8, 30.1) and (60, 60.5) an anomaly
    at 30.1 ft, the distance of the second reference, is moved to
    29.800000000000004 ft: its partner at 29.8 ft is missed by 2^-48
    ft. *)
Example partner_missed_by_rounding :
  let pairAt d1 d2 :=
    mkMatchedReference (exampleRef 0 (Double.literal d1))
                       (exampleRef 1 (Double.literal d2)) 0 0 in
  let refs := [pairAt (71 # 10) (73 # 10); pairAt (298 # 10) (301 # 10);
               pairAt 60 (605 # 10)] in
  exists a,
    Double.applyDistanceCorrection [exampleDent 1 0 (Double.literal (301 # 10))]
      (Double.createAlignmentZones refs) refs = [a]
    /\ Anomaly.corrected_distance a == Double.literal (298 # 10) + (1 # 2 ^ 48).
Proof.
  cbv zeta. eexists. split; [vm_compute; reflexivity|]. vm_compute. reflexivity.
Qed.

(* ================================================================= *)
(** ** Reference points *)

(** referenceMatching.ts, extractReferencePoints: the reference
    points of a run are the anomalies flagged as reference points, each
    once, in ascending order of distance and tagged with the run. *)
Theorem extractReferencePoints_sorted (anomalies : list NormalizedAnomaly)
        (runIndex : nat) :
  let refs := extractReferencePoints anomalies runIndex in
  ascending Ref.distance refs
  /\ Permutation (map (referenceOf runIndex)
                      (filter Anomaly.is_reference_point anomalies))
                 refs
  /\ Forall (fun r => Ref.run_index r = runIndex) refs.
Proof.
  intro refs. subst refs. unfold extractReferencePoints.
  split; [apply (sort_ascending Ref.distance)|].
  split; [apply sort_Permutation|].
  apply Forall_forall. intros r Hr. apply sort_In in Hr.
  apply in_map_iff in Hr. destruct Hr as [a [<- _]]. reflexivity.
Qed.

Lemma bestCandidate_sound (tolerance : Q) (usedRun2Indices : list nat)
      (ref1 : ReferencePoint) (run2Refs : list ReferencePoint) (j : nat) (s : Q) :
  bestCandidate tolerance usedRun2Indices ref1 run2Refs = Some (j, s) ->
  ~ In j usedRun2Indices
  /\ exists ref2, nth_error run2Refs j = Some ref2
                  /\ Qabs (Ref.distance ref1 - Ref.distance ref2) <= tolerance.
Proof.
  unfold bestCandidate. revert j s.
  apply (fold_left_invariant _
           (fun best => forall j s, best = Some (j, s) ->
              ~ In j usedRun2Indices
              /\ exists ref2, nth_error run2Refs j = Some ref2
                   /\ Qabs (Ref.distance ref1 - Ref.distance ref2) <= tolerance)).
  - discriminate.
  - intros best [j0 ref2] Hin Hbest j s.
    apply indexed_nth_error in Hin.
    destruct (existsb (Nat.eqb j0) usedRun2Indices) eqn:Eu; [apply Hbest|].
    apply existsb_eqb_not_In in Eu.
    destruct (Js.gtb _ tolerance) eqn:Et; [apply Hbest|].
    apply gtb_false in Et.
    assert (Hnew : ~ In j0 usedRun2Indices
                   /\ exists r, nth_error run2Refs j0 = Some r
                        /\ Qabs (Ref.distance ref1 - Ref.distance r) <= tolerance).
    { split; [exact Eu|]. exists ref2. split; assumption. }
    destruct best as [[jb sb]|].
    + destruct (Js.ltb _ sb).
      * intro H. injection H as <- _. exact Hnew.
      * apply Hbest.
    + intro H. injection H as <- _. exact Hnew.
Qed.

Lemma referenceInvariant_step (tolerance : Q) (run1Refs run2Refs pre post : list ReferencePoint)
      (ref1 : ReferencePoint) (st : list MatchedReference * list nat) :
  run1Refs = pre ++ ref1 :: post ->
  referenceInvariant tolerance run1Refs run2Refs pre st ->
  referenceInvariant tolerance run1Refs run2Refs (pre ++ [ref1])
    ((fun '(matched, usedRun2Indices) ref1 =>
        match bestCandidate tolerance usedRun2Indices ref1 run2Refs with
        | Some (bestIdx, _) =>
            match nth_error run2Refs bestIdx with
            | Some ref2 =>
                (matched ++
                   [mkMatchedReference ref1 ref2
                      (Ref.distance ref2 - Ref.distance ref1)
                      ((Ref.distance ref2 - Ref.odometer ref2)
                       - (Ref.distance ref1 - Ref.odometer ref1))],
                 bestIdx :: usedRun2Indices)
            | None => (matched, usedRun2Indices)
            end
        | None => (matched, usedRun2Indices)
        end) st ref1).
Proof.
  intros Hsplit. destruct st as [matched used]. unfold referenceInvariant.
  cbn [fst snd].
  intros [Hsound [Hpre [Hnd1 [Hle [Hlen [Hndu [Hrange [Hidx Hnd2]]]]]]]].
  assert (Hkeep : Forall (soundReference tolerance run1Refs run2Refs) matched
    /\ Forall (fun m => In (run1 m) (pre ++ [ref1])) matched
    /\ (NoDup (pre ++ [ref1]) -> NoDup (map run1 matched))
    /\ (List.length matched <= List.length (pre ++ [ref1]))%nat
    /\ List.length matched = List.length used
    /\ NoDup used
    /\ (forall j, In j used -> (j < List.length run2Refs)%nat)
    /\ (forall m, In m matched ->
                  exists j, In j used /\ nth_error run2Refs j = Some (run2 m))
    /\ (NoDup run2Refs -> NoDup (map run2 matched))).
  { split; [exact Hsound|]. split.
    { eapply Forall_impl; [|exact Hpre]. intros m Hm. apply in_or_app. left. exact Hm. }
    split.
    { intro H. apply NoDup_remove_1 with (a := ref1) (l' := []) in H.
      rewrite app_nil_r in H. apply Hnd1. exact H. }
    split; [rewrite length_app; simpl; lia|].
    repeat split; assumption. }
  destruct (bestCandidate tolerance used ref1 run2Refs) as [[bestIdx s]|] eqn:Eb;
    [|exact Hkeep].
  destruct (bestCandidate_sound _ _ _ _ _ _ Eb) as [Hfresh [ref2 [Hnth Htol]]].
  rewrite Hnth. cbn [fst snd].
  split; [|split; [|split; [|split; [|split; [|split; [|split; [|split]]]]]]].
  - apply Forall_app. split; [exact Hsound|]. constructor; [|constructor].
    unfold soundReference. cbn [run1 run2 distance_offset odometer_drift].
    repeat split.
    + rewrite Hsplit. apply in_or_app. right. left. reflexivity.
    + eapply nth_error_In. exact Hnth.
    + exact Htol.
  - apply Forall_app. split.
    + eapply Forall_impl; [|exact Hpre]. intros m Hm. apply in_or_app. left. exact Hm.
    + constructor; [|constructor]. cbn [run1]. apply in_or_app. right. left.
      reflexivity.
  - intro H. rewrite map_app. cbn [map run1].
    pose proof (NoDup_remove_2 _ _ _ H) as Hnot. rewrite app_nil_r in Hnot.
    apply NoDup_remove_1 in H. rewrite app_nil_r in H.
    apply NoDup_app; [apply Hnd1; exact H|repeat constructor; intros []|].
    intros x Hx [<-|[]]. apply Hnot.
    apply in_map_iff in Hx. destruct Hx as [m [<- Hm]].
    rewrite Forall_forall in Hpre. apply Hpre. exact Hm.
  - rewrite !length_app. simpl. lia.
  - rewrite length_app. simpl. lia.
  - constructor; assumption.
  - intros j [<-|Hj]; [|apply Hrange; exact Hj].
    apply nth_error_Some. congruence.
  - intros m Hm. apply in_app_or in Hm. destruct Hm as [Hm|[<-|[]]].
    + destruct (Hidx m Hm) as [j [Hj Hn]]. exists j. split; [right; exact Hj|exact Hn].
    + exists bestIdx. split; [left; reflexivity|exact Hnth].
  - intro H. rewrite map_app. cbn [map run2].
    apply NoDup_app; [apply Hnd2; exact H|repeat constructor; intros []|].
    intros x Hx [<-|[]].
    apply in_map_iff in Hx. destruct Hx as [m [Em Hm]].
    destruct (Hidx m Hm) as [j [Hj Hn]]. rewrite Em in Hn.
    apply Hfresh.
    rewrite (proj1 (NoDup_nth_error run2Refs) H bestIdx j); [exact Hj| |congruence].
    apply nth_error_Some. congruence.
Qed.

(** X17 (referenceMatching.ts, matchReferencePoints): the matched
    pairs are sound.  Each pair joins a reference point of the earlier
    run with one of the later run at most the tolerance away, and
    carries the offset and the drift computed from the two; there are
    no more pairs than reference points in either run; and no reference
    point of either run is matched twice. *)
Theorem matchReferencePoints_sound (tolerance : Q)
        (run1Refs run2Refs : list ReferencePoint) :
  let matched := matchReferencePointsWith tolerance run1Refs run2Refs in
  Forall (soundReference tolerance run1Refs run2Refs) matched
  /\ (List.length matched <= Nat.min (List.length run1Refs) (List.length run2Refs))%nat
  /\ (NoDup run1Refs -> NoDup (map run1 matched))
  /\ (NoDup run2Refs -> NoDup (map run2 matched)).
Proof.
  intro matched. subst matched. unfold matchReferencePointsWith.
  match goal with
  | |- context [fold_left ?f run1Refs ?s] =>
      assert (H : referenceInvariant tolerance run1Refs run2Refs run1Refs
                    (fold_left f run1Refs s))
  end.
  { apply (fold_left_prefix _
             (fun pre st => referenceInvariant tolerance run1Refs run2Refs pre st)).
    - unfold referenceInvariant. cbn [fst snd].
      repeat split; try constructor; try (intros ? []); try reflexivity.
    - intros pre x post st Hsplit Hst.
      apply (referenceInvariant_step tolerance run1Refs run2Refs pre post x st Hsplit Hst). }
  destruct (fold_left _ run1Refs ([], [])) as [matched used].
  unfold referenceInvariant in H. cbn [fst snd] in *.
  destruct H as [Hsound [Hpre [Hnd1 [Hle [Hlen [Hndu [Hrange [Hidx Hnd2]]]]]]]].
  split; [exact Hsound|]. split; [|split; assumption].
  assert (Hincl : incl used (seq 0 (List.length run2Refs))).
  { intros j Hj. apply in_seq. specialize (Hrange j Hj). lia. }
  pose proof (NoDup_incl_length Hndu Hincl) as Hle2. rewrite length_seq in Hle2.
  lia.
Qed.

(* ================================================================= *)
(** ** Normalizer *)

Lemma clockRoundTrip_all :
  forallb clockRoundTrip (list_prod (seq 1 12) (seq 0 60)) = true.
Proof. vm_compute. reflexivity. Qed.

(** X18 (normalizer.ts, parseClockPosition and degreesToClockDisplay):
    clock positions survive the round trip.  For an hour from 1 to 12
    and minutes below 60, the angle parsed from H:MM is displayed as
    H:MM again. *)
Theorem clock_display_round_trip (hours minutes : nat) :
  (1 <= hours <= 12)%nat -> (minutes < 60)%nat ->
  degreesToClockDisplay (parseClockPosition (CClock hours minutes))
  = clockText hours minutes.
Proof.
  intros Hh Hm.
  pose proof (proj1 (forallb_forall _ _) clockRoundTrip_all (hours, minutes)) as H.
  apply String.eqb_eq. apply H. apply in_prod; apply in_seq; lia.
Qed.

Lemma clock_display_round_trip_witness :
  degreesToClockDisplay (parseClockPosition (CClock 4 30)) = clockText 4 30.
Proof. apply (clock_display_round_trip 4 30); lia. Defined.

Lemma trunc_floor (x : Q) : 0 <= x -> Js.trunc x = Qfloor x.
Proof.
  intro H. unfold Js.trunc. destruct x as [n d]. cbn [Qnum Qden Qfloor].
  apply Z.quot_div_nonneg; [|reflexivity].
  unfold Qle in H. simpl in H. lia.
Qed.

Lemma rem_range (a b : Q) : 0 <= a -> 0 < b -> 0 <= Js.rem a b /\ Js.rem a b < b.
Proof.
  intros Ha Hb. unfold Js.rem.
  assert (Hq : 0 <= a / b).
  { apply Qle_shift_div_l; [exact Hb|]. qlra. }
  rewrite (trunc_floor _ Hq).
  pose proof (Qfloor_le (a / b)) as Hlo.
  pose proof (Qlt_floor (a / b)) as Hhi.
  rewrite inject_Z_plus in Hhi.
  set (k := inject_Z (Qfloor (a / b))) in *.
  assert (Ea : a == b * (a / b)) by (field; intro E; rewrite E in Hb; discriminate).
  assert (H1 : b * k <= b * (a / b)).
  { rewrite !(Qmult_comm b). apply Qmult_le_compat_r; [exact Hlo|qlra]. }
  assert (H2 : b * (a / b) < b * (k + inject_Z 1)).
  { rewrite !(Qmult_comm b). apply Qmult_lt_compat_r; assumption. }
  assert (E1 : b * (k + inject_Z 1) == b * k + b) by (unfold inject_Z; ring).
  split; qlra.
Qed.

(** X19 (normalizer.ts, parseClockPosition): the parsed angle lies in
    [0, 360) for every clock cell that is not a negative number: an
    absent or unreadable cell, a cell of the form H:MM, or a
    non-negative number. *)
Theorem parseClockPosition_range (value : RawClock) :
  notNegative value ->
  0 <= parseClockPosition value /\ parseClockPosition value < 360.
Proof.
  destruct value as [| |hours minutes|num|]; cbn [notNegative parseClockPosition];
    intro H; try (split; [apply Qle_refl|reflexivity]).
  - assert (Hh : 0 <= inject_Z (Z.of_nat hours)).
    { change 0 with (inject_Z 0). rewrite <- Zle_Qle. lia. }
    assert (Hm : 0 <= inject_Z (Z.of_nat minutes)).
    { change 0 with (inject_Z 0). rewrite <- Zle_Qle. lia. }
    destruct (rem_range (inject_Z (Z.of_nat hours)) 12 Hh eq_refl) as [L U].
    apply rem_range; [|reflexivity]. qlra.
  - destruct (Js.leb num 12).
    + destruct (rem_range num 12 H eq_refl) as [L U].
      apply rem_range; [|reflexivity]. qlra.
    + apply rem_range; [exact H|reflexivity].
Qed.

Lemma parseClockPosition_range_witness :
  0 <= parseClockPosition (CNum 135) /\ parseClockPosition (CNum 135) < 360.
Proof. apply (parseClockPosition_range (CNum 135)). vm_compute. discriminate. Defined.

Lemma normalizeRow_normalized (runIndex idx : nat) (row : RawAnomaly) :
  normalized runIndex (normalizeRow runIndex idx row).
Proof.
  unfold normalized, normalizeRow.
  cbn [Anomaly.depth_percent Anomaly.length Anomaly.width Anomaly.corrected_distance
       Anomaly.distance Anomaly.cleaning_flags Anomaly.run_index
       Anomaly.is_reference_point Anomaly.canonical_type].
  repeat split; try apply Qabs_nonneg.
  - unfold clamp. apply Q.le_max_l.
  - unfold clamp. apply Q.max_lub; [discriminate|apply Q.le_min_l].
Qed.

(** X20 (normalizer.ts, normalizeAnomalies): every row is kept.  The
    normalizer returns one anomaly per raw row, identified by the run
    and the position of the row in the table; each has a depth between
    0 and 100, a non-negative length and width, a corrected distance
    equal to its distance, no cleaning flag, and is a reference point
    exactly when its type is girth weld, valve or fitting. *)
Theorem normalizeAnomalies_keeps_rows (rawData : list RawAnomaly) (runIndex : nat) :
  let anomalies := normalizeAnomalies rawData runIndex in
  List.length anomalies = List.length rawData
  /\ Permutation (map (rowId runIndex) (seq 0 (List.length rawData)))
                 (map Anomaly.id anomalies)
  /\ Forall (normalized runIndex) anomalies.
Proof.
  intro anomalies. subst anomalies. unfold normalizeAnomalies.
  split; [|split].
  - rewrite sort_length, length_map. unfold Js.indexed.
    rewrite <- (length_map fst), indexedFrom_fst. apply length_seq.
  - eapply Permutation_trans; [|apply Permutation_map; apply sort_Permutation].
    rewrite map_map.
    replace (map (fun x => Anomaly.id ((fun '(idx, row) => normalizeRow runIndex idx row) x))
                 (Js.indexed rawData))
      with (map (rowId runIndex) (map fst (Js.indexed rawData))).
    + unfold Js.indexed. rewrite indexedFrom_fst. apply Permutation_refl.
    + rewrite map_map. apply map_ext. intros [idx row]. reflexivity.
  - apply Forall_forall. intros a Ha. apply sort_In in Ha.
    apply in_map_iff in Ha. destruct Ha as [[idx row] [<- _]].
    apply normalizeRow_normalized.
Qed.

(** X21 (normalizer.ts, normalizeFeatureType): the type given to the
    terms of the mapping table.  Each listed term is classified as
    listed, except stress corrosion cracking: the term corrosion, which
    it contains, comes earlier in the table, so it is classified as
    metal loss and not as crack. *)
Theorem normalizeFeatureType_table (term : string) (type : FeatureType) :
  In (term, type) featureTypeMapping ->
  normalizeFeatureType term
  = if String.eqb term "stress corrosion cracking" then metal_loss else type.
Proof.
  unfold featureTypeMapping. intro H.
  repeat (destruct H as [H|H]; [injection H as <- <-; vm_compute; reflexivity|]).
  contradiction.
Qed.

Lemma normalizeFeatureType_table_witness :
  normalizeFeatureType "stress corrosion cracking"
  = if String.eqb "stress corrosion cracking" "stress corrosion cracking"
    then metal_loss else crack.
Proof.
  apply (normalizeFeatureType_table "stress corrosion cracking" crack).
  do 17 right. left. reflexivity.
Defined.

(* ================================================================= *)
(** ** Data cleaner *)

Lemma fixed_eqb_eq (a b : bool * Z) : fixed_eqb a b = true <-> a = b.
Proof.
  destruct a as [s1 z1], b as [s2 z2]. unfold fixed_eqb. cbn [fst snd].
  rewrite andb_true_iff, Bool.eqb_true_iff, Z.eqb_eq. split.
  - intros [-> ->]. reflexivity.
  - intro H. injection H as -> ->. split; reflexivity.
Qed.

Lemma FeatureType_eqb_eq (t1 t2 : FeatureType) : FeatureType_eqb t1 t2 = true <-> t1 = t2.
Proof. destruct t1, t2; simpl; split; intro H; try reflexivity; discriminate. Qed.

Lemma DupKey_eqb_eq (k1 k2 : DupKey) : DupKey_eqb k1 k2 = true <-> k1 = k2.
Proof.
  destruct k1 as [[[d1 c1] t1] p1], k2 as [[[d2 c2] t2] p2]. unfold DupKey_eqb.
  rewrite !andb_true_iff, !fixed_eqb_eq, FeatureType_eqb_eq. split.
  - intros [[[-> ->] ->] ->]. reflexivity.
  - intro H. injection H as -> -> -> ->. repeat split.
Qed.

Lemma seen_In (key : DupKey) (seen : list DupKey) :
  existsb (DupKey_eqb key) seen = true <-> In key seen.
Proof.
  rewrite existsb_exists. split.
  - intros [k [Hk E]]. apply DupKey_eqb_eq in E. subst k. exact Hk.
  - intro H. exists key. split; [exact H|]. apply DupKey_eqb_eq. reflexivity.
Qed.

Lemma removeDuplicates_loop_invariant (data : list NormalizedAnomaly) :
  forall seen, dedupInvariant seen data (removeDuplicates_loop seen data).
Proof.
  induction data as [|a rest IH]; intro seen.
  - unfold dedupInvariant. cbn.
    split; [constructor|]. split; [intros a []|]. split; [constructor|].
    split; [intros a []|reflexivity].
  - cbn [removeDuplicates_loop].
    destruct (existsb (DupKey_eqb (dupKey a)) seen) eqn:E.
    + apply seen_In in E. specialize (IH seen).
      destruct (removeDuplicates_loop seen rest) as [unique removedCount].
      unfold dedupInvariant in *. cbn [fst snd] in *.
      destruct IH as [Hnd [Hfresh [Hsub [Hall Hcount]]]].
      split; [exact Hnd|]. split; [exact Hfresh|].
      split; [apply Subsequence_skip; exact Hsub|]. split.
      * intros b [<-|Hb]; [left; exact E|apply Hall; exact Hb].
      * cbn [List.length]. lia.
    + assert (Hnew : ~ In (dupKey a) seen).
      { intro H. apply seen_In in H. congruence. }
      specialize (IH (dupKey a :: seen)).
      destruct (removeDuplicates_loop (dupKey a :: seen) rest)
        as [unique removedCount].
      unfold dedupInvariant in *. cbn [fst snd] in *.
      destruct IH as [Hnd [Hfresh [Hsub [Hall Hcount]]]].
      split; [|split; [|split; [|split]]].
      * cbn [map]. constructor; [|exact Hnd].
        intro H. apply in_map_iff in H. destruct H as [b [Eb Hb]].
        apply (Hfresh b Hb). left. symmetry. exact Eb.
      * intros b [<-|Hb]; [exact Hnew|].
        intro H. apply (Hfresh b Hb). right. exact H.
      * apply Subsequence_keep. exact Hsub.
      * intros b [<-|Hb]; [right; left; reflexivity|].
        destruct (Hall b Hb) as [[H|H]|H].
        -- right. left. exact H.
        -- left. exact H.
        -- right. right. exact H.
      * cbn [List.length]. lia.
Qed.

Lemma removeDuplicates_subsequence (data : list NormalizedAnomaly) :
  Subsequence (fst (removeDuplicates data)) data.
Proof.
  unfold removeDuplicates.
  pose proof (removeDuplicates_loop_invariant data []) as H.
  destruct (removeDuplicates_loop [] data) as [unique removedCount].
  exact (proj1 (proj2 (proj2 H))).
Qed.

(** X22 (dataCleaner.ts, removeDuplicates): the duplicate pass keeps
    the first row of every key and nothing else.  The rows it returns
    have pairwise different keys and are the input with rows deleted;
    every input row has the key of a returned row; and the reported
    count is the number of deleted rows. *)
Theorem removeDuplicates_distinct (data : list NormalizedAnomaly) :
  let unique := fst (removeDuplicates data) in
  NoDup (map dupKey unique)
  /\ Subsequence unique data
  /\ (forall a, In a data -> In (dupKey a) (map dupKey unique))
  /\ (rows_affected (snd (removeDuplicates data)) + List.length unique
      = List.length data)%nat.
Proof.
  intro unique. subst unique. unfold removeDuplicates.
  pose proof (removeDuplicates_loop_invariant data []) as H.
  destruct (removeDuplicates_loop [] data) as [unique removedCount].
  unfold dedupInvariant in H. cbn [fst snd rows_affected] in *.
  destruct H as [Hnd [_ [Hsub [Hall Hcount]]]].
  split; [exact Hnd|]. split; [exact Hsub|]. split; [|exact Hcount].
  intros a Ha. destruct (Hall a Ha) as [[]|H]. exact H.
Qed.

Ltac qbool :=
  repeat match goal with
         | H : (_ && _)%bool = true |- _ =>
             apply andb_true_iff in H; destruct H
         | H : (_ && _)%bool = false |- _ =>
             apply andb_false_iff in H; destruct H
         | H : Js.ltb _ _ = true |- _ => apply ltb_true in H
         | H : Js.ltb _ _ = false |- _ => apply ltb_false in H
         | H : Js.gtb _ _ = true |- _ => apply gtb_true in H
         | H : Js.gtb _ _ = false |- _ => apply gtb_false in H
         end.

Ltac branches :=
  repeat match goal with
         | |- context [if ?b then _ else _] =>
             let E := fresh "E" in destruct b eqn:E
         end.

Lemma clampOne_limits (a : NormalizedAnomaly) :
  withinLimits (fst (clampOne a))
  /\ List.length (Anomaly.cleaning_flags (fst (clampOne a)))
     = (List.length (Anomaly.cleaning_flags a) + snd (clampOne a))%nat
  /\ Anomaly.id (fst (clampOne a)) = Anomaly.id a.
Proof.
  unfold clampOne, withinLimits.
  destruct (Js.ltb (Anomaly.depth_percent a) 0) eqn:E1;
    [destruct (Js.gtb 0 100) eqn:E2
    |destruct (Js.gtb (Anomaly.depth_percent a) 100) eqn:E2];
    (destruct (Js.gtb (Anomaly.wall_thickness a) 0
               && Js.ltb (Anomaly.wall_thickness a) (5 # 100))%bool eqn:E3;
     [destruct (Js.gtb (188 # 1000) (25 # 10)) eqn:E4
     |destruct (Js.gtb (Anomaly.wall_thickness a) (25 # 10)) eqn:E4]);
    destruct (Js.gtb (Anomaly.length a) 100) eqn:E5;
    destruct (Js.gtb (Anomaly.width a) 100) eqn:E6;
    cbn [fst snd Anomaly.depth_percent Anomaly.length Anomaly.width
         Anomaly.wall_thickness Anomaly.cleaning_flags Anomaly.id
         Anomaly.with_cleaning_flags Anomaly.with_dimensions];
    try discriminate E2; try discriminate E4;
    qbool;
    (split; [|split; [rewrite ?length_app; cbn [List.length]; lia|reflexivity]]);
    repeat split; try qlra; try discriminate; intros [? ?]; qlra.
Qed.

Lemma total_cons (x : nat) (l : list nat) : total (x :: l) = (x + total l)%nat.
Proof.
  unfold total. cbn [fold_left].
  assert (H : forall l a, fold_left Nat.add l a = (a + fold_left Nat.add l 0)%nat).
  { clear. induction l as [|y l IH]; intro a; cbn [fold_left]; [lia|].
    rewrite (IH (a + y)%nat), (IH (0 + y)%nat). lia. }
  rewrite H. lia.
Qed.

Lemma clampOutliers_ids (data : list NormalizedAnomaly) :
  map Anomaly.id (fst (fst (clampOutliers data))) = map Anomaly.id data.
Proof.
  unfold clampOutliers. cbn [fst].
  rewrite !map_map. apply map_ext. intro a. apply clampOne_limits.
Qed.

(** X23 (dataCleaner.ts, clampOutliers): after the clamping pass every
    row is within the physical limits: the depth lies between 0 and 100
    percent, length and width are at most 100 in, and the wall thickness
    is at most 2.5 in and not a positive value below 0.05 in.  The pass
    keeps the rows and their order, and the count it reports is the
    number of clamping flags it attached. *)
Theorem clampOutliers_limits (data : list NormalizedAnomaly) :
  let result := clampOutliers data in
  Forall withinLimits (fst (fst result))
  /\ map Anomaly.id (fst (fst result)) = map Anomaly.id data
  /\ rows_affected (snd (fst result)) = snd result
  /\ flagCount (fst (fst result)) = (flagCount data + snd result)%nat.
Proof.
  intro result. subst result. unfold clampOutliers. cbn [fst snd rows_affected].
  split; [|split; [|split; [reflexivity|]]].
  - rewrite map_map. apply Forall_map. apply Forall_forall. intros a _.
    apply clampOne_limits.
  - apply clampOutliers_ids.
  - unfold flagCount. induction data as [|a data IH]; [reflexivity|].
    cbn [map flat_map]. rewrite total_cons, !length_app.
    fold (flat_map Anomaly.cleaning_flags (map fst (map clampOne data))).
    rewrite IH. destruct (clampOne_limits a) as [_ [Hflags _]]. rewrite Hflags. lia.
Qed.

Lemma Subsequence_map {A B : Type} (f : A -> B) (small big : list A) :
  Subsequence small big -> Subsequence (map f small) (map f big).
Proof.
  induction 1; cbn [map]; [constructor|apply Subsequence_skip|apply Subsequence_keep];
    assumption.
Qed.

Lemma Subsequence_length {A : Type} (small big : list A) :
  Subsequence small big -> (List.length small <= List.length big)%nat.
Proof. induction 1; cbn [List.length]; lia. Qed.

Lemma ids_map_fst (f : NormalizedAnomaly -> NormalizedAnomaly * nat)
      (data : list NormalizedAnomaly) :
  (forall a, Anomaly.id (fst (f a)) = Anomaly.id a) ->
  map Anomaly.id (map fst (map f data)) = map Anomaly.id data.
Proof. intro H. rewrite !map_map. apply map_ext. exact H. Qed.

Lemma ids_map_indexed (g : nat -> NormalizedAnomaly -> NormalizedAnomaly * nat)
      (data : list NormalizedAnomaly) :
  (forall idx a, Anomaly.id (fst (g idx a)) = Anomaly.id a) ->
  map Anomaly.id (map fst (map (fun '(idx, a) => g idx a) (Js.indexed data)))
  = map Anomaly.id data.
Proof.
  intro H. rewrite !map_map.
  rewrite <- (indexedFrom_snd data 0) at 2. unfold Js.indexed. rewrite map_map.
  apply map_ext. intros [idx a]. apply H.
Qed.

Lemma detectAndConvertUnits_ids (data : list NormalizedAnomaly) :
  map Anomaly.id (fst (fst (detectAndConvertUnits data))) = map Anomaly.id data.
Proof.
  unfold detectAndConvertUnits.
  destruct (looksLikeMeters data), (dimensionsLookLikeMm data),
    (wallThicknessLooksLikeMm data); cbn [fst]; rewrite ?map_map; reflexivity.
Qed.

Lemma interpolateOne_id (sorted : list NormalizedAnomaly) (idx : nat)
      (a : NormalizedAnomaly) :
  Anomaly.id (fst (interpolateOne sorted idx a)) = Anomaly.id a.
Proof.
  unfold interpolateOne.
  repeat match goal with
         | |- context [if ?b then _ else _] => destruct b
         | |- context [match nth_error ?l ?i with _ => _ end] =>
             destruct (nth_error l i)
         end; reflexivity.
Qed.

Lemma monotonicityOne_id (data : list NormalizedAnomaly) (idx : nat)
      (a : NormalizedAnomaly) :
  Anomaly.id (fst (monotonicityOne data idx a)) = Anomaly.id a.
Proof.
  unfold monotonicityOne.
  repeat match goal with
         | |- context [if ?b then _ else _] => destruct b
         | |- context [match nth_error ?l ?i with _ => _ end] =>
             destruct (nth_error l i)
         end; reflexivity.
Qed.

Lemma wallThicknessOne_id (m : Q) (a : NormalizedAnomaly) :
  Anomaly.id (fst (wallThicknessOne m a)) = Anomaly.id a.
Proof. unfold wallThicknessOne. branches; reflexivity. Qed.

Lemma zeroDimensionsOne_id (a : NormalizedAnomaly) :
  Anomaly.id (fst (zeroDimensionsOne a)) = Anomaly.id a.
Proof. unfold zeroDimensionsOne. branches; reflexivity. Qed.

Lemma crossRunWallThickness_ids (data : list NormalizedAnomaly)
      (otherRuns : list (list NormalizedAnomaly)) :
  map Anomaly.id (fst (crossRunWallThickness data otherRuns)) = map Anomaly.id data.
Proof.
  unfold crossRunWallThickness.
  destruct (flat_map (positive Anomaly.wall_thickness) otherRuns); cbn [fst];
    [reflexivity|].
  apply ids_map_fst. intro a. apply wallThicknessOne_id.
Qed.

(** No pass after the first one adds, drops or reorders a row. *)
Lemma cleanData_ids (anomalies : list NormalizedAnomaly) (runIndex : nat)
      (runYear : Q) (otherRuns : option (list (list NormalizedAnomaly))) :
  map Anomaly.id (fst (cleanData anomalies runIndex runYear otherRuns))
  = map Anomaly.id (fst (removeDuplicates anomalies)).
Proof.
  unfold cleanData.
  destruct (removeDuplicates anomalies) as [deduped dedupPass].
  pose proof (detectAndConvertUnits_ids deduped) as I2.
  destruct (detectAndConvertUnits deduped) as [[unitConverted unitPass] conversions].
  pose proof (clampOutliers_ids unitConverted) as I3.
  destruct (clampOutliers unitConverted) as [[clamped clampPass] outlierCount].
  pose proof (ids_map_indexed (interpolateOne clamped) clamped
                (interpolateOne_id clamped)) as I4.
  change (map fst (map (fun '(idx, a) => interpolateOne clamped idx a)
                       (Js.indexed clamped)))
    with (fst (fst (interpolateMissing clamped))) in I4.
  destruct (interpolateMissing clamped) as [[interpolated interpPass] interpCount].
  pose proof (ids_map_indexed (monotonicityOne interpolated) interpolated
                (monotonicityOne_id interpolated)) as I5.
  change (map fst (map (fun '(idx, a) => monotonicityOne interpolated idx a)
                       (Js.indexed interpolated)))
    with (fst (fst (enforceMonotonicity interpolated))) in I5.
  destruct (enforceMonotonicity interpolated) as [[monotonic monoPass] monoIssues].
  cbn [fst] in *.
  assert (I6 : forall wtChecked wtPasses,
             (wtChecked, wtPasses)
             = match otherRuns with
               | Some (r :: rs) =>
                   let '(wtChecked, wtPass) :=
                     crossRunWallThickness monotonic (r :: rs) in
                   (wtChecked, [wtPass])
               | _ => (monotonic, [])
               end ->
             map Anomaly.id wtChecked = map Anomaly.id monotonic).
  { intros w ps E. destruct otherRuns as [[|r rs]|].
    - injection E as -> _. reflexivity.
    - pose proof (crossRunWallThickness_ids monotonic (r :: rs)) as K.
      destruct (crossRunWallThickness monotonic (r :: rs)) as [w' p'].
      injection E as -> _. exact K.
    - injection E as -> _. reflexivity. }
  destruct (match otherRuns with
            | Some (r :: rs) => _
            | _ => (monotonic, [])
            end) as [wtChecked wtPasses] eqn:Ew.
  specialize (I6 wtChecked wtPasses eq_refl).
  pose proof (ids_map_fst zeroDimensionsOne wtChecked zeroDimensionsOne_id) as I7.
  change (map fst (map zeroDimensionsOne wtChecked))
    with (fst (flagZeroDimensions wtChecked)) in I7.
  destruct (flagZeroDimensions wtChecked) as [flagged flagPass].
  cbn [fst] in *. congruence.
Qed.

Lemma cleanData_rows (anomalies : list NormalizedAnomaly) (runIndex : nat)
      (runYear : Q) (otherRuns : option (list (list NormalizedAnomaly))) :
  Subsequence (map Anomaly.id (fst (cleanData anomalies runIndex runYear otherRuns)))
              (map Anomaly.id anomalies).
Proof.
  rewrite cleanData_ids. apply Subsequence_map. apply removeDuplicates_subsequence.
Qed.

(** X24 (dataCleaner.ts, cleanData): the cleaner only ever removes
    duplicates.  The cleaned rows are rows of the input, in their order
    and under their identifiers; the report counts the input rows, the
    cleaned rows and, as duplicates removed, their difference. *)
Theorem cleanData_accounting (anomalies : list NormalizedAnomaly) (runIndex : nat)
        (runYear : Q) (otherRuns : option (list (list NormalizedAnomaly))) :
  let cleaned := fst (cleanData anomalies runIndex runYear otherRuns) in
  let report := snd (cleanData anomalies runIndex runYear otherRuns) in
  Subsequence (map Anomaly.id cleaned) (map Anomaly.id anomalies)
  /\ original_row_count report = List.length anomalies
  /\ final_row_count report = List.length cleaned
  /\ (duplicates_removed report + final_row_count report
      = original_row_count report)%nat.
Proof.
  intros cleaned report. subst cleaned report.
  split; [apply cleanData_rows|].
  pose proof (cleanData_ids anomalies runIndex runYear otherRuns) as Hids.
  apply (f_equal (@List.length _)) in Hids. rewrite !length_map in Hids.
  pose proof (Subsequence_length _ _ (removeDuplicates_subsequence anomalies)) as Hle.
  revert Hids Hle. unfold cleanData.
  destruct (removeDuplicates anomalies) as [deduped dedupPass].
  destruct (detectAndConvertUnits deduped) as [[unitConverted unitPass] conversions].
  destruct (clampOutliers unitConverted) as [[clamped clampPass] outlierCount].
  destruct (interpolateMissing clamped) as [[interpolated interpPass] interpCount].
  destruct (enforceMonotonicity interpolated) as [[monotonic monoPass] monoIssues].
  destruct (match otherRuns with
            | Some (r :: rs) => _
            | _ => (monotonic, [])
            end) as [wtChecked wtPasses].
  destruct (flagZeroDimensions wtChecked) as [flagged flagPass].
  cbn [fst snd original_row_count final_row_count duplicates_removed].
  intros Hids Hle. split; [reflexivity|]. split; [reflexivity|]. lia.
Qed.

(* ================================================================= *)
(** ** Odometer drift *)

Lemma maxOf_upper (x : Q) (xs : list Q) :
  x <= Js.maxOf x xs /\ forall y, In y xs -> y <= Js.maxOf x xs.
Proof.
  unfold Js.maxOf. revert x. induction xs as [|z xs IH]; intro x; cbn [fold_left].
  - split; [apply Qle_refl|intros y []].
  - destruct (IH (Qmax x z)) as [H1 H2]. split.
    + eapply Qle_trans; [apply Q.le_max_l|exact H1].
    + intros y [<-|Hy]; [|apply H2; exact Hy].
      eapply Qle_trans; [apply Q.le_max_r|exact H1].
Qed.

Lemma minOf_lower (x : Q) (xs : list Q) :
  Js.minOf x xs <= x /\ forall y, In y xs -> Js.minOf x xs <= y.
Proof.
  unfold Js.minOf. revert x. induction xs as [|z xs IH]; intro x; cbn [fold_left].
  - split; [apply Qle_refl|intros y []].
  - destruct (IH (Qmin x z)) as [H1 H2]. split.
    + eapply Qle_trans; [exact H1|apply Q.le_min_l].
    + intros y [<-|Hy]; [|apply H2; exact Hy].
      eapply Qle_trans; [exact H1|apply Q.le_min_r].
Qed.

Lemma maxOf_attained (x : Q) (xs : list Q) : In (Js.maxOf x xs) (x :: xs).
Proof.
  unfold Js.maxOf. revert x. induction xs as [|z xs IH]; intro x; cbn [fold_left].
  - left. reflexivity.
  - destruct (IH (Qmax x z)) as [H|H]; [|right; right; exact H].
    rewrite <- H. unfold Qmax, GenericMinMax.gmax.
    destruct (x ?= z); [left|right; left|left]; reflexivity.
Qed.

Lemma minOf_attained (x : Q) (xs : list Q) : In (Js.minOf x xs) (x :: xs).
Proof.
  unfold Js.minOf. revert x. induction xs as [|z xs IH]; intro x; cbn [fold_left].
  - left. reflexivity.
  - destruct (IH (Qmin x z)) as [H|H]; [|right; right; exact H].
    rewrite <- H. unfold Qmin, GenericMinMax.gmin.
    destruct (x ?= z); [left|left|right; left]; reflexivity.
Qed.

(** X25 (odometerDrift.ts, getDriftStatistics): the statistics are
    consistent.  The minimum and the maximum drift are the drifts of
    two of the points and bound the drift of every point; the
    accumulated drift, the difference between the drift at the
    farthest and at the nearest point, is at most their difference in
    size; for no points all statistics are 0. *)
Theorem getDriftStatistics_consistent (driftPoints : list OdometerDriftPoint) :
  let s := getDriftStatistics driftPoints in
  (forall p, In p driftPoints ->
             minDrift s <= Drift.drift p /\ Drift.drift p <= maxDrift s)
  /\ (driftPoints <> [] ->
      In (minDrift s) (map Drift.drift driftPoints)
      /\ In (maxDrift s) (map Drift.drift driftPoints))
  /\ Qabs (totalAccumulated s) <= maxDrift s - minDrift s
  /\ (driftPoints = [] -> s = mkDriftStatistics 0 0 0 0 0).
Proof.
  intro s. subst s. destruct driftPoints as [|p ps].
  - cbn. split; [intros p []|]. split; [intro H; contradiction|].
    split; [discriminate|reflexivity].
  - unfold getDriftStatistics.
    cbn [minDrift maxDrift totalAccumulated].
    set (pts := p :: ps).
    destruct (maxOf_upper (Drift.drift p) (map Drift.drift ps)) as [M1 M2].
    destruct (minOf_lower (Drift.drift p) (map Drift.drift ps)) as [m1 m2].
    pose proof (maxOf_attained (Drift.drift p) (map Drift.drift ps)) as Amax.
    pose proof (minOf_attained (Drift.drift p) (map Drift.drift ps)) as Amin.
    set (hi := Js.maxOf _ _) in *. set (lo := Js.minOf _ _) in *.
    assert (Hall : forall q, In q pts -> lo <= Drift.drift q /\ Drift.drift q <= hi).
    { intros q [<-|Hq]; [split; assumption|].
      split; [apply m2|apply M2]; apply in_map; exact Hq. }
    split; [exact Hall|]. split; [intros _; split; assumption|].
    split; [|discriminate].
    set (sorted := Js.sort _ pts).
    assert (Hp : In p sorted) by (apply sort_In; left; reflexivity).
    assert (Hfirst : In (hd p sorted) pts).
    { apply (sort_In (fun a b => Drift.distance a - Drift.distance b)).
      fold sorted. destruct sorted as [|x l]; [contradiction|]. left. reflexivity. }
    assert (Hlast : In (last sorted p) pts).
    { apply (sort_In (fun a b => Drift.distance a - Drift.distance b)).
      fold sorted. apply last_In. exact Hp. }
    destruct (Hall _ Hfirst) as [F1 F2]. destruct (Hall _ Hlast) as [L1 L2].
    apply Qabs_Qle_condition. split; qlra.
Qed.

Lemma count_multiples (k n : nat) :
  (1 <= k)%nat ->
  List.length (filter (fun i => Nat.eqb (Nat.modulo i k) 0) (seq 0 n))
  = ((n + k - 1) / k)%nat.
Proof.
  intro Hk. induction n as [|n IH].
  - cbn [seq filter List.length]. symmetry. apply Nat.div_small. lia.
  - rewrite seq_S, filter_app, length_app, IH. cbn [filter]. rewrite Nat.add_0_l.
    pose proof (Nat.div_mod_eq n k) as Hn.
    pose proof (Nat.mod_upper_bound n k ltac:(lia)) as Hr.
    destruct (Nat.eqb (n mod k) 0) eqn:E.
    + apply Nat.eqb_eq in E. cbn [List.length].
      assert (E1 : ((n + k - 1) / k = n / k)%nat).
      { symmetry. apply Nat.div_unique with (r := (k - 1)%nat); lia. }
      assert (E2 : ((S n + k - 1) / k = S (n / k))%nat).
      { symmetry. apply Nat.div_unique with (r := 0%nat); lia. }
      lia.
    + apply Nat.eqb_neq in E. cbn [List.length].
      assert (E1 : ((n + k - 1) / k = S (n / k))%nat).
      { symmetry. apply Nat.div_unique with (r := (n mod k - 1)%nat); lia. }
      assert (E2 : ((S n + k - 1) / k = S (n / k))%nat).
      { symmetry. apply Nat.div_unique with (r := (n mod k)%nat); lia. }
      lia.
Qed.

Lemma sampled_length_from {A : Type} (k : nat) (l : list A) :
  forall s,
    List.length (filter (fun '(i, _) => Nat.eqb (Nat.modulo i k) 0)
                        (Js.indexedFrom s l))
    = List.length (filter (fun i => Nat.eqb (Nat.modulo i k) 0)
                          (seq s (List.length l))).
Proof.
  induction l as [|x l IH]; intro s; [reflexivity|].
  cbn [Js.indexedFrom List.length seq filter].
  destruct (Nat.eqb (s mod k) 0); cbn [List.length]; rewrite IH; reflexivity.
Qed.

Lemma sampled_length {A : Type} (k : nat) (l : list A) :
  List.length (filter (fun '(i, _) => Nat.eqb (Nat.modulo i k) 0) (Js.indexed l))
  = List.length (filter (fun i => Nat.eqb (Nat.modulo i k) 0)
                        (seq 0 (List.length l))).
Proof. apply sampled_length_from. Qed.

(** X26 (odometerDrift.ts, calculateFullDrift): the sample stays
    small.  At most 399 drift points are returned, and one for every
    anomaly when there are fewer than 400; each point carries its
    distance minus its odometer reading as drift. *)
Theorem calculateFullDrift_sample (anomalies : list NormalizedAnomaly)
        (runIndex : nat) (runYear : Q) :
  let points := calculateFullDrift anomalies runIndex runYear in
  (List.length points <= 399)%nat
  /\ ((List.length anomalies < 400)%nat -> List.length points = List.length anomalies)
  /\ Forall driftIsOffset points.
Proof.
  intro points. subst points. unfold calculateFullDrift.
  set (sorted := Js.sort _ anomalies).
  assert (Hlen : List.length sorted = List.length anomalies) by apply sort_length.
  set (n := List.length sorted) in *.
  set (k := Nat.max 1 (n / 200)).
  assert (Hk : (1 <= k)%nat) by (unfold k; lia).
  assert (Hcount :
            List.length
              (map (fun '(_, a) =>
                      Drift.mk (Anomaly.distance a) (Anomaly.odometer a)
                               (Anomaly.distance a - Anomaly.odometer a)
                               (FeatureLabel (Anomaly.feature_id a)) runIndex runYear)
                   (filter (fun '(i, _) => Nat.eqb (Nat.modulo i k) 0)
                           (Js.indexed sorted)))
            = ((n + k - 1) / k)%nat).
  { rewrite length_map, sampled_length. apply count_multiples. exact Hk. }
  split; [|split].
  - rewrite Hcount.
    pose proof (Nat.mul_succ_div_gt n 200 ltac:(lia)) as Hn.
    assert (Hlt : ((n + k - 1) / k < 400)%nat).
    { apply Nat.Div0.div_lt_upper_bound. unfold k in *. lia. }
    lia.
  - intro Hsmall. rewrite Hcount, <- Hlen.
    assert (Ek : k = 1%nat).
    { unfold k. rewrite Hlen.
      assert ((List.length anomalies / 200 <= 1)%nat).
      { apply Nat.lt_succ_r. apply Nat.Div0.div_lt_upper_bound. lia. }
      lia. }
    rewrite Ek. rewrite Nat.div_1_r. lia.
  - apply Forall_map. apply Forall_forall. intros [i a] _. reflexivity.
Qed.

(** X27 (odometerDrift.ts, calculateOdometerDrift, with
    referenceMatching.ts, extractReferencePoints): the in-place sort is
    harmless in the pipeline.  On the reference points extracted from a
    run the sort leaves the array as it is, and the drift points follow
    the reference points one by one, in ascending order of distance,
    each with its distance minus its odometer reading as drift. *)
Theorem calculateOdometerDrift_on_extracted (anomalies : list NormalizedAnomaly)
        (runIndex : nat) (runYear : Q) :
  let refs := extractReferencePoints anomalies runIndex in
  let result := calculateOdometerDrift refs runIndex runYear in
  fst result = refs
  /\ map Drift.distance (snd result) = map Ref.distance refs
  /\ ascending Drift.distance (snd result)
  /\ Forall driftIsOffset (snd result).
Proof.
  intros refs result. subst result.
  assert (Hsorted : ascending Ref.distance refs).
  { apply (sort_ascending Ref.distance). }
  assert (Hfix : Js.sort (fun a b => Ref.distance a - Ref.distance b) refs = refs).
  { apply sort_sorted. unfold ascending in Hsorted.
    eapply Sorted_weaken; [|exact Hsorted]. intros a b H. cbn beta in *. qlra. }
  unfold calculateOdometerDrift. rewrite Hfix. cbn [fst snd].
  assert (Hmap : map Drift.distance
                     (map (fun '(i, ref) =>
                             Drift.mk (Ref.distance ref) (Ref.odometer ref)
                                      (Ref.distance ref - Ref.odometer ref)
                                      (RefLabel (i + 1) (Ref.joint_number ref))
                                      runIndex runYear)
                          (Js.indexed refs))
                 = map Ref.distance refs).
  { rewrite map_map. rewrite <- (indexedFrom_snd refs 0) at 2.
    unfold Js.indexed. rewrite map_map. apply map_ext. intros [i r]. reflexivity. }
  split; [reflexivity|]. split; [exact Hmap|]. split.
  - unfold ascending in *.
    assert (K : forall (l : list OdometerDriftPoint) (r : list ReferencePoint),
               map Drift.distance l = map Ref.distance r ->
               Sorted (fun a b => Ref.distance a <= Ref.distance b) r ->
               Sorted (fun a b => Drift.distance a <= Drift.distance b) l).
    { clear. induction l as [|x l IH]; intros r E Hs; [constructor|].
      destruct r as [|y r]; [discriminate|]. cbn [map] in E.
      injection E as Ex E. inversion Hs as [|? ? Hs' Hhd]; subst.
      constructor; [apply (IH r E Hs')|].
      destruct l as [|x' l]; [constructor|].
      destruct r as [|y' r]; [discriminate|]. cbn [map] in E.
      injection E as Ex' _. constructor. inversion Hhd; subst.
      rewrite Ex, Ex'. assumption. }
    apply (K _ refs Hmap Hsorted).
  - apply Forall_map. apply Forall_forall. intros [i r] _. reflexivity.
Qed.

(* ================================================================= *)
(** ** GPS interpolation *)

(** The loop stops at a vertex that is not beyond the clamped
    distance, followed, if at all, by one that is not before it. *)
Lemma surroundingFrom_stops (clampedDist : Q) (pipelineCoords : list PipelineCoordinate) :
  forall c rest,
    pipelineCoords = c :: rest -> Coord.distance c <= clampedDist ->
    exists p1 tail,
      surroundingFrom clampedDist pipelineCoords = p1 :: tail
      /\ In p1 pipelineCoords
      /\ Coord.distance p1 <= clampedDist
      /\ (tail = [] -> p1 = last pipelineCoords c)
      /\ forall p2 tail', tail = p2 :: tail' ->
                          In p2 pipelineCoords /\ clampedDist <= Coord.distance p2.
Proof.
  induction pipelineCoords as [|c0 rest0 IH]; intros c rest E Hc; [discriminate|].
  injection E as -> ->. destruct rest as [|p2 rest'].
  - exists c, []. cbn. repeat split; try assumption.
    + left. reflexivity.
    + discriminate.
    + discriminate.
  - cbn [surroundingFrom].
    destruct (Js.ltb (Coord.distance p2) clampedDist) eqn:El.
    + apply ltb_true in El.
      destruct (IH p2 rest' eq_refl) as [p1 [tail [Hs [Hin [Hle [Hlast Hnext]]]]]];
        [qlra|].
      exists p1, tail. split; [exact Hs|]. split; [right; exact Hin|].
      split; [exact Hle|]. split.
      * intro Ht. rewrite (Hlast Ht).
        change (last (c :: p2 :: rest') c) with (last (p2 :: rest') c).
        apply last_cons_default.
      * intros q tail' Ht. destruct (Hnext q tail' Ht) as [H1 H2].
        split; [right; exact H1|exact H2].
    + apply ltb_false in El. exists c, (p2 :: rest').
      split; [reflexivity|]. split; [left; reflexivity|]. split; [exact Hc|].
      split; [discriminate|].
      intros q tail' Ht. injection Ht as <- _.
      split; [right; left; reflexivity|exact El].
Qed.

(** X28 (gpsInterpolator.ts, distanceToGps): the interpolated point
    stays on the polyline.  When the polyline starts at distance 0 or
    before, the coordinates returned for any distance are those of a
    point between two vertices of the polyline, at a parameter between
    0 and 1; for an empty polyline they are (0, 0). *)
Theorem distanceToGps_on_route (distanceFeet : Q)
        (pipelineCoords : list PipelineCoordinate) (c : PipelineCoordinate) :
  Coord.distance (hd c pipelineCoords) <= 0 ->
  (pipelineCoords = [] /\ distanceToGps distanceFeet pipelineCoords = (0, 0))
  \/ exists p1 p2 t,
       In p1 pipelineCoords /\ In p2 pipelineCoords /\ 0 <= t <= 1
       /\ onSegment p1 p2 t (distanceToGps distanceFeet pipelineCoords).
Proof.
  intro Hstart. destruct pipelineCoords as [|c0 rest]; [left; split; reflexivity|].
  right. cbn [hd] in Hstart. unfold distanceToGps.
  set (coords := c0 :: rest).
  set (clampedDist := Qmax 0 (Qmin distanceFeet (Coord.distance (last coords c0)))).
  assert (Hc : Coord.distance c0 <= clampedDist).
  { unfold clampedDist. eapply Qle_trans; [exact Hstart|apply Q.le_max_l]. }
  destruct (surroundingFrom_stops clampedDist coords c0 rest eq_refl Hc)
    as [p1 [tail [Hs [Hin [Hle [Hlast Hnext]]]]]].
  rewrite Hs. destruct tail as [|p2 tail'].
  - specialize (Hlast eq_refl). rewrite <- Hlast.
    exists p1, p1, 0. split; [exact Hin|]. split; [exact Hin|].
    split; [split; discriminate|]. unfold onSegment. cbn [fst snd]. split; ring.
  - destruct (Hnext p2 tail' eq_refl) as [Hin2 Hge].
    exists p1, p2.
    exists (if Js.gtb (Coord.distance p2 - Coord.distance p1) 0
            then (clampedDist - Coord.distance p1)
                 / (Coord.distance p2 - Coord.distance p1)
            else 0).
    split; [exact Hin|]. split; [exact Hin2|]. split.
    + destruct (Js.gtb _ 0) eqn:Eg; [|split; discriminate].
      apply gtb_true in Eg. split.
      * apply Qle_shift_div_l; [exact Eg|]. qlra.
      * apply Qle_shift_div_r; [exact Eg|]. qlra.
    + unfold onSegment. cbn [fst snd]. split; reflexivity.
Qed.

Lemma distanceToGps_on_route_witness :
  (exampleRoute = [] /\ distanceToGps 500 exampleRoute = (0, 0))
  \/ exists p1 p2 t,
       In p1 exampleRoute /\ In p2 exampleRoute /\ 0 <= t <= 1
       /\ onSegment p1 p2 t (distanceToGps 500 exampleRoute).
Proof.
  apply (distanceToGps_on_route 500 exampleRoute (Coord.mk 0 0 0)).
  vm_compute. discriminate.
Defined.

Lemma increasingRoute_later (c : PipelineCoordinate) (rest : list PipelineCoordinate) :
  increasingRoute (c :: rest) ->
  forall v, In v rest -> Coord.distance c < Coord.distance v.
Proof.
  intro H. apply Sorted_StronglySorted in H.
  - apply StronglySorted_inv in H. destruct H as [_ H].
    rewrite Forall_forall in H. exact H.
  - intros x y z Hxy Hyz. qlra.
Qed.

Lemma increasingRoute_last (rest : list PipelineCoordinate) :
  forall c0 c,
    increasingRoute (c0 :: rest) ->
    forall v, In v (c0 :: rest) ->
              Coord.distance v <= Coord.distance (last (c0 :: rest) c).
Proof.
  induction rest as [|p2 rest' IH]; intros c0 c Hinc v Hv.
  - destruct Hv as [<-|[]]. apply Qle_refl.
  - change (last (c0 :: p2 :: rest') c) with (last (p2 :: rest') c).
    assert (Htail : increasingRoute (p2 :: rest')).
    { apply Sorted_inv in Hinc. exact (proj1 Hinc). }
    destruct Hv as [<-|Hv]; [|apply (IH p2 c Htail v Hv)].
    pose proof (increasingRoute_later c0 (p2 :: rest') Hinc p2 (or_introl eq_refl)).
    specialize (IH p2 c Htail p2 (or_introl eq_refl)). qlra.
Qed.

(** At the distance of a vertex the loop stops at that vertex or just
    before it. *)
Lemma surroundingFrom_vertex (clampedDist : Q) (v : PipelineCoordinate)
      (pipelineCoords : list PipelineCoordinate) :
  increasingRoute pipelineCoords -> In v pipelineCoords ->
  clampedDist == Coord.distance v ->
  (exists tail,
      surroundingFrom clampedDist pipelineCoords = v :: tail
      /\ forall p2 tail', tail = p2 :: tail' ->
                          Coord.distance v < Coord.distance p2)
  \/ (exists p1 tail',
         surroundingFrom clampedDist pipelineCoords = p1 :: v :: tail'
         /\ Coord.distance p1 < Coord.distance v).
Proof.
  intros Hinc Hin Hc.
  induction pipelineCoords as [|c rest IH]; [contradiction|].
  destruct rest as [|p2 rest'].
  - destruct Hin as [<-|[]]. left. exists []. split; [reflexivity|discriminate].
  - pose proof (increasingRoute_later c (p2 :: rest') Hinc) as Hlater.
    assert (Htail : increasingRoute (p2 :: rest')).
    { apply Sorted_inv in Hinc. exact (proj1 Hinc). }
    cbn [surroundingFrom].
    destruct Hin as [<-|Hin].
    + replace (Js.ltb (Coord.distance p2) clampedDist) with false.
      * left. exists (p2 :: rest'). split; [reflexivity|].
        intros q tail' E. injection E as <- _. apply Hlater. left. reflexivity.
      * symmetry. apply ltb_false.
        pose proof (Hlater p2 (or_introl eq_refl)). qlra.
    + destruct (Js.ltb (Coord.distance p2) clampedDist) eqn:El.
      * apply (IH Htail Hin).
      * apply ltb_false in El. right. exists c, rest'.
        destruct Hin as [<-|Hin].
        -- split; [reflexivity|]. apply Hlater. left. reflexivity.
        -- exfalso. pose proof (increasingRoute_later p2 rest' Htail v Hin). qlra.
Qed.

(** The rounded interpolation at the two ends of a segment. *)
Lemma interpolation_at_start (x1 x2 seg : Q) :
  Double.add x1 (Double.mul (Double.sub x2 x1)
                            (Double.div (Double.round 0) seg))
  = Double.round x1.
Proof.
  unfold Double.add, Double.mul, Double.div.
  assert (E1 : Double.round (Double.round 0 / seg) = 0).
  { transitivity (Double.round 0); [|reflexivity]. apply round_comp.
    rewrite round_zero. unfold Qdiv. ring. }
  rewrite E1.
  assert (E2 : Double.round (Double.sub x2 x1 * 0) = 0).
  { transitivity (Double.round 0); [|reflexivity]. apply round_comp. ring. }
  rewrite E2. apply round_comp. ring.
Qed.

Lemma interpolation_at_end (x1 x2 seg : Q) :
  0 < seg ->
  Double.add x1 (Double.mul (Double.sub x2 x1) (Double.div seg seg))
  = Double.add x1 (Double.round (Double.sub x2 x1)).
Proof.
  intro Hseg. unfold Double.add, Double.mul, Double.div.
  assert (E1 : Double.round (seg / seg) = Double.round 1).
  { apply round_comp. field. intro K. rewrite K in Hseg. discriminate. }
  rewrite E1. do 2 f_equal. apply round_comp. rewrite round_one. ring.
Qed.

Lemma near_start (v : PipelineCoordinate) :
  anglesInRange v ->
  nearVertex v (Double.round (Coord.lat v), Double.round (Coord.lng v)).
Proof.
  intros [Hlat Hlng]. unfold nearVertex. cbn [fst snd].
  split; (eapply Qle_trans; [apply (start_error_within 360); assumption|discriminate]).
Qed.

Lemma near_end (p1 v : PipelineCoordinate) :
  anglesInRange p1 -> anglesInRange v ->
  nearVertex v
    (Double.add (Coord.lat p1) (Double.round (Double.sub (Coord.lat v) (Coord.lat p1))),
     Double.add (Coord.lng p1) (Double.round (Double.sub (Coord.lng v) (Coord.lng p1)))).
Proof.
  intros [H1 H2] [H3 H4]. unfold nearVertex. cbn [fst snd].
  split; (eapply Qle_trans; [apply (endpoint_error_within 360); assumption|discriminate]).
Qed.

Lemma near_exact (v : PipelineCoordinate) : nearVertex v (Coord.lat v, Coord.lng v).
Proof.
  unfold nearVertex. cbn [fst snd].
  split; (eapply Qle_trans; [|apply Qle_refl]);
    [setoid_replace (Coord.lat v - Coord.lat v) with 0 by ring
    |setoid_replace (Coord.lng v - Coord.lng v) with 0 by ring];
    discriminate.
Qed.

Lemma rounded_gps_clamped_vertex (distanceFeet : Q)
      (pipelineCoords : list PipelineCoordinate) (c v : PipelineCoordinate) :
  increasingRoute pipelineCoords -> In v pipelineCoords ->
  Forall anglesInRange pipelineCoords ->
  Coord.distance (hd c pipelineCoords) <= Coord.distance v ->
  Qmax 0 (Qmin distanceFeet (Coord.distance (last pipelineCoords c)))
  == Coord.distance v ->
  nearVertex v (Double.distanceToGps distanceFeet pipelineCoords).
Proof.
  intros Hinc Hin Hangles Hhd Hc.
  destruct pipelineCoords as [|c0 rest]; [contradiction|].
  rewrite Forall_forall in Hangles.
  unfold Double.distanceToGps.
  rewrite (last_cons_default c0 rest c0 c).
  set (clampedDist := Qmax 0 (Qmin distanceFeet _)) in *.
  cbn [hd] in Hhd.
  destruct (surroundingFrom_vertex clampedDist v (c0 :: rest) Hinc Hin Hc)
    as [[tail [Hs Hnext]]|[p1 [tail' [Hs Hlt]]]].
  - assert (H0 : Coord.distance c0 <= clampedDist) by (rewrite Hc; exact Hhd).
    destruct (surroundingFrom_stops clampedDist (c0 :: rest) c0 rest eq_refl H0)
      as [q [tail0 [Hs0 [_ [_ [Hlast _]]]]]].
    rewrite Hs in Hs0. injection Hs0 as <- <-. rewrite Hs.
    destruct tail as [|p2 tail'].
    + rewrite (last_cons_default c0 rest c c0), <- (Hlast eq_refl).
      apply near_exact.
    + specialize (Hnext p2 tail' eq_refl).
      assert (Hseg : 0 < Double.sub (Coord.distance p2) (Coord.distance v))
        by (apply round_positive; qlra).
      rewrite (proj2 (gtb_true _ _) Hseg).
      assert (E0 : Double.sub clampedDist (Coord.distance v) = Double.round 0).
      { apply round_comp. rewrite Hc. ring. }
      rewrite E0, !interpolation_at_start.
      apply near_start. apply Hangles. exact Hin.
  - rewrite Hs.
    assert (Hseg : 0 < Double.sub (Coord.distance v) (Coord.distance p1))
      by (apply round_positive; qlra).
    rewrite (proj2 (gtb_true _ _) Hseg).
    assert (E0 : Double.sub clampedDist (Coord.distance p1)
                 = Double.sub (Coord.distance v) (Coord.distance p1)).
    { apply round_comp. rewrite Hc. reflexivity. }
    rewrite E0, !(interpolation_at_end _ _ _ Hseg).
    assert (Hp1 : In p1 (c0 :: rest)).
    { assert (H0 : Coord.distance c0 <= clampedDist) by (rewrite Hc; exact Hhd).
      destruct (surroundingFrom_stops clampedDist (c0 :: rest) c0 rest eq_refl H0)
        as [q [tail0 [Hs0 [Hq _]]]].
      rewrite Hs in Hs0. injection Hs0 as <- _. exact Hq. }
    apply near_end; apply Hangles; assumption.
Qed.

(** X29 (gpsInterpolator.ts, distanceToGps): vertices and clamping.
    On a polyline whose vertices are listed at strictly increasing
    distances from 0 or more, with latitudes and longitudes of at most
    360 degrees in size, and with every operation of the interpolation
    rounded to a double, the distance of a vertex is mapped to the
    coordinates of that vertex to within 1e-12 degrees, and so is
    every distance at or beyond the end of the polyline to the
    coordinates of the last vertex. *)
Theorem distanceToGps_at_vertices (pipelineCoords : list PipelineCoordinate)
        (c : PipelineCoordinate) :
  increasingRoute pipelineCoords ->
  0 <= Coord.distance (hd c pipelineCoords) ->
  Forall anglesInRange pipelineCoords ->
  (forall v, In v pipelineCoords ->
             nearVertex v (Double.distanceToGps (Coord.distance v) pipelineCoords))
  /\ (forall d, pipelineCoords <> [] ->
                Coord.distance (last pipelineCoords c) <= d ->
                nearVertex (last pipelineCoords c)
                           (Double.distanceToGps d pipelineCoords)).
Proof.
  intros Hinc Hstart Hangles.
  assert (Hfirst : forall v, In v pipelineCoords ->
                             Coord.distance (hd c pipelineCoords) <= Coord.distance v).
  { intros v Hv. destruct pipelineCoords as [|c0 rest]; [contradiction|].
    cbn [hd]. destruct Hv as [<-|Hv]; [apply Qle_refl|].
    pose proof (increasingRoute_later c0 rest Hinc v Hv). qlra. }
  assert (Hlastin : pipelineCoords <> [] -> In (last pipelineCoords c) pipelineCoords).
  { intro Hne. destruct pipelineCoords as [|c0 rest]; [contradiction|].
    rewrite (last_cons_default c0 rest c c0). apply last_In. left. reflexivity. }
  assert (Hend : forall v, In v pipelineCoords ->
                           Coord.distance v
                           <= Coord.distance (last pipelineCoords c)).
  { intros v Hv. destruct pipelineCoords as [|c0 rest]; [contradiction|].
    apply increasingRoute_last; assumption. }
  split.
  - intros v Hv.
    apply (rounded_gps_clamped_vertex _ _ c v Hinc Hv Hangles (Hfirst v Hv)).
    specialize (Hfirst v Hv). specialize (Hend v Hv).
    rewrite Q.min_l by exact Hend. apply Q.max_r. qlra.
  - intros d Hne Hd. specialize (Hlastin Hne).
    apply (rounded_gps_clamped_vertex _ _ c _ Hinc Hlastin Hangles (Hfirst _ Hlastin)).
    specialize (Hfirst _ Hlastin).
    rewrite Q.min_r by exact Hd. apply Q.max_r. qlra.
Qed.

Lemma distanceToGps_at_vertices_witness :
  nearVertex (Coord.mk 33 (-101) 1000) (Double.distanceToGps 1000 exampleRoute)
  /\ nearVertex (Coord.mk 35 (-100) 3000) (Double.distanceToGps 5000 exampleRoute).
Proof.
  destruct (distanceToGps_at_vertices exampleRoute (Coord.mk 0 0 0)) as [H1 H2].
  - unfold increasingRoute, exampleRoute. repeat constructor.
  - vm_compute. discriminate.
  - unfold exampleRoute. repeat constructor; vm_compute; discriminate.
  - split.
    + apply (H1 (Coord.mk 33 (-101) 1000)). right. left. reflexivity.
    + apply (H2 5000); [discriminate|]. vm_compute. discriminate.
Defined.

(** Between the vertices at longitude -0.2 and 0.5 the interpolation
    returns 0.49999999999999994 at the second vertex: the vertex is
    missed by 2^-54 degrees. *)
Example vertex_missed_by_rounding :
  let route := [Coord.mk 0 (Double.literal (-2 # 10)) 0;
                Coord.mk 0 (Double.literal (5 # 10)) 1000] in
  snd (Double.distanceToGps 1000 route) == Double.literal (5 # 10) - (1 # 2 ^ 54).
Proof. vm_compute. reflexivity. Qed.

(* ================================================================= *)
(** ** Orchestrator *)

Lemma applyDistanceCorrection_ids (anomalies : list NormalizedAnomaly)
      (zones : list AlignmentZone) (matchedRefs : list MatchedReference) :
  map Anomaly.id (applyDistanceCorrection anomalies zones matchedRefs)
  = map Anomaly.id anomalies.
Proof.
  pose proof (applyDistanceCorrection_keeps_rows anomalies zones matchedRefs) as H.
  apply (f_equal (map Anomaly.id)) in H. rewrite !map_map in H. exact H.
Qed.

Lemma indexedFrom_position {A : Type} (l : list A) :
  forall s k x,
    nth_error l k = Some x -> nth_error (Js.indexedFrom s l) k = Some ((s + k)%nat, x).
Proof.
  induction l as [|y l IH]; intros s k x H; [destruct k; discriminate|].
  destruct k as [|k]; cbn [Js.indexedFrom nth_error] in *.
  - injection H as ->. rewrite Nat.add_0_r. reflexivity.
  - rewrite (IH (S s) k x H). f_equal. f_equal. lia.
Qed.

Lemma cleanAll_nth (sortedFiles : list RunFile) (k : nat) (f : RunFile) :
  nth_error sortedFiles k = Some f ->
  exists others,
    nth k (map fst (cleanAll sortedFiles)) []
    = fst (cleanData (normalized_data f) k (year f) others).
Proof.
  intro H. unfold cleanAll.
  exists (Some (otherRunsOf (map normalized_data sortedFiles) k)).
  apply nth_error_nth. rewrite map_map, nth_error_map.
  unfold Js.indexed. rewrite (indexedFrom_position sortedFiles 0 k f H).
  reflexivity.
Qed.

Lemma cleanAll_length (sortedFiles : list RunFile) :
  List.length (cleanAll sortedFiles) = List.length sortedFiles.
Proof.
  unfold cleanAll. rewrite length_map. unfold Js.indexed.
  rewrite <- (length_map fst), indexedFrom_fst. apply length_seq.
Qed.

Lemma correctedRunsOf_nth (runFiles : list RunFile) (k : nat) (f : RunFile) :
  nth_error (sortFiles runFiles) k = Some f ->
  exists run,
    nth_error (correctedRunsOf runFiles) k = Some run /\ rowsOf f run.
Proof.
  intro H. unfold correctedRunsOf.
  set (runs := map fst (cleanAll (sortFiles runFiles))).
  assert (Hn : List.length runs = List.length (sortFiles runFiles)).
  { unfold runs. rewrite length_map. apply cleanAll_length. }
  assert (Hk : (k < List.length (sortFiles runFiles))%nat).
  { apply nth_error_Some. congruence. }
  destruct (cleanAll_nth (sortFiles runFiles) k f H) as [others Hrun].
  fold runs in Hrun.
  assert (Hrows : rowsOf f (nth k runs [])).
  { rewrite Hrun. unfold rowsOf.
    apply cleanData_rows. }
  destruct k as [|i].
  - exists (nth 0 runs []). split; [reflexivity|exact Hrows].
  - cbn [nth_error]. rewrite nth_error_map.
    assert (Hi : nth_error (seq 0 (List.length runs - 1)) i = Some i).
    { rewrite nth_error_nth' with (d := 0%nat) by (rewrite length_seq; lia).
      rewrite seq_nth by lia. reflexivity. }
    rewrite Hi. cbn [option_map].
    eexists. split; [reflexivity|].
    unfold alignStep. cbn [snd]. unfold rowsOf.
    rewrite applyDistanceCorrection_ids.
    replace (i + 1)%nat with (S i) by lia. exact Hrows.
Qed.

(** X30 (pipeline.ts, runPipeline, with dataCleaner.ts and
    distanceCorrection.ts): the pipeline neither invents nor reorders
    rows.  On at least one run file the pipeline completes; the runs
    are processed in ascending order of year; there is one corrected
    run per file, whose rows are rows of the normalized data of that
    file, in their order and under their identifiers; and the aligned
    anomalies are the corrected runs one after the other. *)
Theorem runPipeline_rows (runFiles : list RunFile) (years : list Q) :
  runFiles <> [] ->
  exists result,
    runPipeline runFiles years = Some result
    /\ Permutation runFiles (sortFiles runFiles)
    /\ ascending year (sortFiles runFiles)
    /\ List.length (correctedRuns result) = List.length runFiles
    /\ (forall k f, nth_error (sortFiles runFiles) k = Some f ->
                    exists run, nth_error (correctedRuns result) k = Some run
                                /\ rowsOf f run)
    /\ alignedAnomalies result = List.concat (correctedRuns result)
    /\ List.length (cleaningReports result) = List.length runFiles.
Proof.
  intro Hne. unfold runPipeline.
  destruct runFiles as [|f0 files]; [contradiction|].
  set (runFiles := f0 :: files) in *.
  destruct (matchAcrossRuns_total (correctedRunsOf runFiles)
              (map year (sortFiles runFiles))) as [chains Hchains].
  rewrite Hchains. eexists. split; [reflexivity|].
  cbn [correctedRuns alignedAnomalies cleaningReports].
  assert (Hsort : List.length (sortFiles runFiles) = List.length runFiles).
  { apply sort_length. }
  split; [apply sort_Permutation|].
  split; [apply (sort_ascending year)|].
  split; [|split; [|split]].
  - unfold correctedRunsOf. cbn [List.length].
    rewrite length_map, length_seq, length_map, cleanAll_length, Hsort.
    unfold runFiles. cbn [List.length]. lia.
  - intros k f Hk. apply correctedRunsOf_nth. exact Hk.
  - reflexivity.
  - rewrite length_map, cleanAll_length. exact Hsort.
Qed.

Lemma runPipeline_rows_witness :
  exists result,
    runPipeline [uploadRun exampleLaterTable 2020 0] [2020] = Some result
    /\ List.length (correctedRuns result) = 1%nat.
Proof.
  destruct (runPipeline_rows [uploadRun exampleLaterTable 2020 0] [2020])
    as [result [Hrun [_ [_ [Hlen _]]]]].
  - discriminate.
  - exists result. split; [exact Hrun|exact Hlen].
Defined.
